(* ===== verification/_CoqProject ===== *)
-Q . S2P
Prelude.v
Crypto.v
Sha256Ref.v
Codec.v
Transaction.v
Block.v
Params.v
Versionbits.v
Merkle.v
Difficulty.v
Genesis.v
Script.v
Validation.v
Streams.v
Chainstate.v
Ledger.v
Blockstore.v
Mempool.v
Txindex.v
Crosschain.v
P2p.v
Keystore.v
Rpc.v
Strconv.v
Config.v
Miner.v
GenesisTool.v
Gpu.v
Log.v
Doubles.v
Wallet.v
Desktop.v
DesktopApp.v
