(* ===== verification/Prelude.v ===== *)
(** * DRACHMA: a verification library

    DRACHMA is a proof-of-work currency in C++17 with three layers: consensus code
    (src/layer1-core), services that never touch consensus (src/layer2-services), a Qt
    desktop application (src/layer3-app), next to CPU and GPU miners (src/miners) and two small
    common libraries (src/common).  This library translates that code into
    definitions that compute and proves what makes each part correct.  This file is
    its root: the header you are reading and, below it, the prelude.

    ** How the program is put together

    A block is a header and a list of transactions.  [ValidateBlock] checks its proof of
    work against the compact target of its own header ([powalgo]), its transactions
    against a UTXO provider (amounts, signatures through [VerifyScript] and
    [VerifySchnorr], the subsidy of [consensus::GetBlockSubsidy]) and the Merkle root.
    Hashes are tagged SHA-256.  [Chainstate] keeps the UTXO set, [BlockStore] the blocks
    by height; both live in files.  [VersionBitsState] decides soft-fork deployments and
    [CreateGenesisBlock] mines the first block.  The services keep a mempool, a
    transaction index, a peer-to-peer queue with a worker thread, an encrypted key
    store, an RPC dispatcher and a bridge for foreign headers.  The desktop window
    drives a simulated wallet, node and miner.  Nothing in the repository joins the
    parts into a running node; Ledger.v states what validation and the UTXO set
    guarantee each other when they are.

    ** Files and what they model

    - Prelude: outcomes of C++ code ([result]: a return, an exception, undefined
      behaviour), machine integers, byte codecs, loops and early returns, tactics.
    - Crypto: the interface [OpenSSL_SHA], [TaggedHash] (crypto/tagged_hash.cpp),
      [SHA256d] (pow/sha256d.cpp), and [collision_in], a SHA-256 collision among listed
      messages, the event the binding theorems reduce to.  Sha256Ref: FIPS 180-4 as one instance of the interface.
    - Codec: encoders and readers that invert each other, as the class [Codec].
    - Transaction (tx/), Block (block/), Params (consensus/params), Versionbits
      (consensus/versioning), Merkle (merkle/), Difficulty (pow/difficulty), Genesis
      (consensus/genesis.cpp), Script (crypto/schnorr.cpp, script/interpreter.cpp),
      Validation (validation/).
    - Streams: binary file streams and the counted-record files of the next two.
      Chainstate (chainstate/coins.cpp), Blockstore (storage/blockstore.cpp), Ledger
      (validation over the UTXO set).
    - Mempool (policy/, mempool/), Txindex (index/), Crosschain (crosschain/, all four
      parts), P2p (net/), Keystore (wallet/keystore/), Rpc (rpc/).
    - Strconv: the parts of the C++ library that Config (common/config) and Miner
      (miners/cpu/main.cpp) parse and print with.  GenesisTool (testnet/genesis.cpp).
      Log (common/log).
    - Gpu (miners/gpu-cuda, miners/gpu-opencl): what a thread of either kernel computes,
      and the threads of a launch interleaved over their shared memory.
    - Doubles: a C++ double on integers, and bounds on its products.
    - Wallet, Desktop and DesktopApp (layer3-app/qt/main.cpp): the wallet client; the
      simulated node and mining controllers and the window's slots, settings and
      start-up; the assets, the licence dialog, the pages and the event loop.

    Names are the source's where Rocq allows; a class with one method of a name another
    class has is told apart by its file ([Difficulty.CheckProofOfWork],
    [Genesis.CheckProofOfWork]) or a prefix ([TxIndex_Load]).  An object is a record of
    its members and a method a function from it; a loop body that needs a name is a
    definition of its own, whose comment gives its lines.

    ** Conventions

    An integer is a [Z] in the range of its C++ type; conversions and wrapping sums are
    written out ([u32], [i64], ...), signed overflow, a division by zero, a negative
    shift and a read of an uninitialised variable are [Undef].  A [uint256] or a buffer
    is a list of bytes.  The host is little-endian, as the code assumes.  A file is its
    bytes, [None] if it cannot be opened.  An unordered map is a [gmap] with an
    arbitrary iteration order (class [UnorderedMap]), so a theorem about a file holds
    for every hash function.  A double is a [spec_float].

    Libraries the code calls are classes, with documented behaviour as laws and an
    instance that shows the laws can hold: SHA-256 ([OpenSSL_SHA]), secp256k1
    ([OpenSSL_EC], [OpenSSL_EC_laws]), AES and PBKDF2 on lengths an [int] holds
    ([OpenSSL_EVP]), [cpp_int] ([Boost]), [std::sort] ([StdSort]), the position of a
    stream opened to append ([Filebuf]), Qt's text forms and file system ([QtText],
    [QtFiles]).

    Security theorems assume no hardness: they conclude "equal, or two of the messages
    the code hashed for the two collide".  That a collision exists somewhere is a fact of
    counting and would say nothing; so the messages are listed ([TaggedHash_hashed],
    [ComputeMerkleRoot_hashed], [block_hashed]), the lists are proved complete
    ([TaggedHash_agree], [ComputeMerkleRoot_agree]), and whether one holds a collision is
    decidable.

    ** Fuel

    Loops are structural or run on fuel that is proved enough: [merkle_loop] on the
    number of leaves ([merkle_loop_done]); [size_loop] on the number of bytes of the
    target ([size_loop_spec]); the transaction index's [load_loop] and the key store's
    [read_keys] on the length of the input, of which every round consumes a part.
    [loop_m] counts in binary, so the 2^32 nonces of [MineGenesis] and of the miner are
    the code's own bound, not fuel; it computes lazily from the outside in.
    [print_digits] has fuel for 64 digits, enough for 64 bits in any base
    ([digits_print]).

    ** What the theorems show

    - Consensus: [ValidateTransactions] decides exactly [valid_transactions]; an
      accepted block creates no more than the subsidy and what it spends, spends
      nothing twice, and is bound to its hash; applied to the UTXO set it never
      fails and survives a flush and a restart, and no chain holds more than
      20,999,999.9769 DRM. Serialization is canonical, and Merkle roots and hashes
      commit to their input. The version-bits machine is the one params.h documents
      where no start or timeout is -1, is insensitive to the order of the history, and
      never leaves ACTIVE along a chain. Retargets stay within their bounds, and the two proof-of-work checks
      agree. Schnorr verification decides the BIP-340 equation. The genesis search
      returns the first nonce that works, or throws.
    - Storage: what is written is read back, for every iteration order; the block store
      refines a map from heights to blocks over any writes and restarts; what a cut file
      does is stated for every cut.
    - Miners: a block the CPU miner finishes is one [ValidateBlock] accepts, with the
      least nonce; the GPU kernels compute the reference compression over the blocks
      they build, and a launch ends with one winner's answer stored whole, or none.
    - Services: the mempool refines a bounded FIFO queue; the peer-to-peer queue
      delivers in order, loses no wake-up and stops; the key store, below
      2^25 keys, and the configuration parser invert their writers; the bridge queues
      every message it is given, verified or not.
    - Desktop: wallet balances account for every credit and spend; a locked wallet
      spends nothing; the window always shows the wallet's present state and the
      addresses generated so far, and no event it can receive is undefined behaviour.

    Where modelling showed the code to do something else than it means to, a
    theorem says what it does: the difficulty encoding that loses a bit
    ([retarget_stall]), signature malleability, the version-bits value -1
    that disables nothing, the bridge whose tip never advances and whose queue asks for
    no proof, index files read without a check, the window that blocks on its own
    mutex and so never confirms a credit ([desktop_never_spends]), amounts
    truncated in binary, GPU digests that no nonce changes
    ([digest_ignores_nonce]).

    ** Not modelled

    The sizes and looks of widgets, tests, build files, scripts.  The host program that
    would launch the GPU kernels is not in the repository.  Allocation failures, disk
    errors past opening a file, and races between two threads outside P2p.v and Gpu.v
    (every other object holds one mutex for each whole call, or has none) are outside
    the model.

    ** Plan

    Next: a two-thread model of Config's and Log's globals; a class for the promise
    [Chainstate] makes to validation, so that Ledger's theorems hold for any provider
    that keeps it; reorganisation over [BlockStore] heights; the exact range of the
    amounts a double of the send page rounds to. *)

From Stdlib Require Export Init.Byte.
From stdpp Require Export base list gmap sets strings numbers.

(** stdpp's list lemmas take precedence over the Standard Library's of the same name. *)
Export stdpp.list_basics.list stdpp.list_relations.list stdpp.list_monad.list
  stdpp.list_misc.list.

#[global] Open Scope Z_scope.

Create HintDb drachma.

Abbreviation byte := Init.Byte.byte.

(** ** Outcomes of C++ code

    A C++ function that may throw is a function to [result]: [Ok] is a normal
    return, [Throw] an exception, [Undef] an execution the C++ standard gives no
    meaning to (signed overflow, integer division by zero, a shift by a negative
    count, a read of an
    indeterminate value, an access outside an object). *)
Inductive exn :=
  | runtime_error (what : string)
  | invalid_argument (what : string)
  | out_of_range (what : string).

Inductive ub :=
  | signed_overflow
  | division_by_zero
  | invalid_shift
  | indeterminate_value
  | out_of_bounds.

Inductive result (A : Type) :=
  | Ok (a : A)
  | Throw (e : exn)
  | Undef (why : ub).
Arguments Ok {A} a.
Arguments Throw {A} e.
Arguments Undef {A} why.

#[global] Instance exn_eq_dec : EqDecision exn.
Proof. solve_decision. Defined.
#[global] Instance ub_eq_dec : EqDecision ub.
Proof. solve_decision. Defined.
#[global] Instance result_eq_dec `{EqDecision A} : EqDecision (result A).
Proof. solve_decision. Defined.

#[global] Instance result_ret : MRet result := λ A a, Ok a.
#[global] Instance result_bind : MBind result := λ A B f m,
  match m with Ok a => f a | Throw e => Throw e | Undef u => Undef u end.
#[global] Instance result_fmap : FMap result := λ A B f m,
  match m with Ok a => Ok (f a) | Throw e => Throw e | Undef u => Undef u end.

(** [throw_if b e] is [if (b) throw e;]. *)
Definition throw_if (b : bool) (e : exn) : result unit :=
  if b then Throw e else Ok tt.

Lemma bind_Ok_inv {A B} (m : result A) (f : A → result B) b :
  m ≫= f = Ok b → ∃ a, m = Ok a ∧ f a = Ok b.
Proof. destruct m; simpl; [eauto|done|done]. Qed.

Lemma bind_assoc {A B C} (m : result A) (f : A → result B) (g : B → result C) :
  (m ≫= f) ≫= g = m ≫= (λ a, f a ≫= g).
Proof. by destruct m. Qed.

Lemma bind_ret_r {A} (m : result A) : m ≫= Ok = m.
Proof. by destruct m. Qed.

Lemma throw_if_Ok b e u : throw_if b e = Ok u → b = false.
Proof. by destruct b. Qed.

(** Inverts every [m ≫= f = Ok b] hypothesis into the [Ok] results of its steps. *)
Ltac result_step :=
  match goal with
  | H : mbind _ _ = Ok _ |- _ =>
      let a := fresh "a" in let Ha := fresh "H" in
      apply bind_Ok_inv in H as (a & Ha & H)
  | H : mret _ = Ok _ |- _ => injection H as H
  | H : Ok _ = Ok _ |- _ => injection H as H
  | H : throw_if _ _ = Ok _ |- _ => apply throw_if_Ok in H
  | H : Throw _ = Ok _ |- _ => discriminate H
  | H : Undef _ = Ok _ |- _ => discriminate H
  end.
Ltac destruct_pairs :=
  repeat match goal with p : (_ * _)%type |- _ => destruct p end.
Ltac simplify_result :=
  repeat (result_step; destruct_pairs;
    repeat match goal with H : _ = Ok _ |- _ => progress cbn beta iota in H end;
    simplify_eq).

(** Proves a closed decidable goal by evaluating its decision procedure. *)
Ltac by_decide :=
  match goal with |- ?P =>
    refine (bool_decide_eq_true_1 P _); vm_compute; reflexivity
  end.

(** Splits on a decidable proposition and evaluates its tests in the goal. *)
Ltac bool_cases P :=
  destruct (decide P);
  [rewrite ?(bool_decide_true P) by done|rewrite ?(bool_decide_false P) by done]; cbv iota.

(** ** Machine integers

    Every integer is a [Z] inside the range of its C++ type.  [uN] is the
    conversion to an unsigned type of N bits, [iN] the conversion to a signed
    one; [chk_iN] is the result of a signed operation, undefined outside the
    type's range. *)
Definition u8 (z : Z) : Z := z mod 2 ^ 8.
Definition u32 (z : Z) : Z := z mod 2 ^ 32.
Definition u64 (z : Z) : Z := z mod 2 ^ 64.
Definition i32 (z : Z) : Z := (z + 2 ^ 31) mod 2 ^ 32 - 2 ^ 31.
Definition i64 (z : Z) : Z := (z + 2 ^ 63) mod 2 ^ 64 - 2 ^ 63.

Definition UINT32_MAX : Z := 2 ^ 32 - 1.
Definition UINT64_MAX : Z := 2 ^ 64 - 1.

Abbreviation is_u32 z := (0 ≤ z < 2 ^ 32).
Abbreviation is_u64 z := (0 ≤ z < 2 ^ 64).
Abbreviation is_i32 z := (- 2 ^ 31 ≤ z < 2 ^ 31).
Abbreviation is_i64 z := (- 2 ^ 63 ≤ z < 2 ^ 63).

Definition chk_i32 (z : Z) : result Z :=
  if bool_decide (is_i32 z) then Ok z else Undef signed_overflow.
Definition chk_i64 (z : Z) : result Z :=
  if bool_decide (is_i64 z) then Ok z else Undef signed_overflow.

Lemma u32_id z : is_u32 z → u32 z = z.
Proof. intros. unfold u32. by rewrite Z.mod_small. Qed.
Lemma u32_range z : is_u32 (u32 z).
Proof. unfold u32. apply Z.mod_pos_bound. lia. Qed.
Lemma u64_id z : is_u64 z → u64 z = z.
Proof. intros. unfold u64. by rewrite Z.mod_small. Qed.
Lemma i32_id z : is_i32 z → i32 z = z.
Proof. intros. unfold i32. rewrite Z.mod_small by lia. lia. Qed.
Lemma i64_id z : is_i64 z → i64 z = z.
Proof. intros. unfold i64. rewrite Z.mod_small by lia. lia. Qed.
Lemma i64_add_l a b : i64 (i64 a + b) = i64 (a + b).
Proof.
  unfold i64. f_equal.
  replace ((a + 2 ^ 63) mod 2 ^ 64 - 2 ^ 63 + b + 2 ^ 63) with ((a + 2 ^ 63) mod 2 ^ 64 + b) by lia.
  rewrite Zplus_mod_idemp_l. f_equal. lia.
Qed.
Lemma i64_range z : is_i64 (i64 z).
Proof. unfold i64. pose proof (Z.mod_pos_bound (z + 2 ^ 63) (2 ^ 64) ltac:(lia)). lia. Qed.
Lemma i32_add_l a b : i32 (i32 a + b) = i32 (a + b).
Proof.
  unfold i32. f_equal.
  replace ((a + 2 ^ 31) mod 2 ^ 32 - 2 ^ 31 + b + 2 ^ 31) with ((a + 2 ^ 31) mod 2 ^ 32 + b) by lia.
  rewrite Zplus_mod_idemp_l. f_equal. lia.
Qed.
Lemma u32_i32 z : u32 (i32 z) = u32 z.
Proof. unfold u32, i32. rewrite Zminus_mod_idemp_l. f_equal. lia. Qed.
Lemma chk_i32_Ok z : is_i32 z → chk_i32 z = Ok z.
Proof. intros. unfold chk_i32. by rewrite bool_decide_true. Qed.
Lemma chk_i64_Ok z : is_i64 z → chk_i64 z = Ok z.
Proof. intros. unfold chk_i64. by rewrite bool_decide_true. Qed.

(** ** Lists measured in [Z] and C array access *)
Abbreviation zlen l := (Z.of_nat (length l)).

(** [slice l off n] is the range [l.begin()+off, l.begin()+off+n). *)
Definition slice {A} (l : list A) (off n : Z) : list A :=
  take (Z.to_nat n) (drop (Z.to_nat off) l).

Lemma Forall_elem {A} (P : A → Prop) l : Forall P l ↔ ∀ x, x ∈ l → P x.
Proof. apply list.Forall_forall. Qed.

Lemma list_app_subseteq {A} (l k Q : list A) : l ++ k ⊆ Q ↔ l ⊆ Q ∧ k ⊆ Q.
Proof. set_solver. Qed.

Lemma exists_elem_cons {A} (P : A → Prop) x l :
  (∃ y, y ∈ x :: l ∧ P y) ↔ P x ∨ ∃ y, y ∈ l ∧ P y.
Proof. setoid_rewrite elem_of_cons. naive_solver. Qed.

(** [c.empty()] *)
Definition is_empty {A} (l : list A) : bool :=
  match l with [] => true | _ => false end.

Lemma is_empty_false {A} (l : list A) : l ≠ [] → is_empty l = false.
Proof. by destruct l. Qed.
Lemma is_empty_perm {A} (l k : list A) : l ≡ₚ k → is_empty l = is_empty k.
Proof.
  intros Hp. destruct l, k; try done.
  - by apply Permutation_nil_l in Hp.
  - by apply Permutation_nil_r in Hp.
Qed.

Lemma filter_ext_in {A} (P Q : A → Prop) `{!∀ x : A, Decision (P x)} `{!∀ x : A, Decision (Q x)} (l : list A) :
  (∀ x, x ∈ l → P x ↔ Q x) → filter P l = filter Q l.
Proof.
  induction l as [|x l IH]; intros E; [done|]. rewrite !filter_cons, IH.
  - pose proof (E x ltac:(by left)). repeat case_decide; tauto.
  - intros y Hy. apply E. by right.
Qed.

Definition sum_Z (l : list Z) : Z := foldr Z.add 0 l.

Lemma sum_Z_cons x l : sum_Z (x :: l) = x + sum_Z l.
Proof. done. Qed.

Lemma sum_Z_app l k : sum_Z (l ++ k) = sum_Z l + sum_Z k.
Proof. induction l; simpl; lia. Qed.

Lemma sum_Z_nonneg l : Forall (λ z, 0 ≤ z) l → 0 ≤ sum_Z l.
Proof. induction 1; simpl; lia. Qed.

Lemma slice_app_mid {A} (a b c : list A) off n :
  off = zlen a → n = zlen b → slice (a ++ b ++ c) off n = b.
Proof.
  intros -> ->. unfold slice. rewrite !Nat2Z.id, drop_app_length.
  by rewrite take_app_length.
Qed.

Lemma slice_length {A} (l : list A) off n :
  0 ≤ off → 0 ≤ n → off + n ≤ zlen l → zlen (slice l off n) = n.
Proof. intros. unfold slice. rewrite length_take, length_drop. lia. Qed.

Lemma slice_split {A} (l : list A) off n off' m k :
  0 ≤ off → 0 ≤ n → 0 ≤ m → off' = off + n → k = n + m →
  slice l off n ++ slice l off' m = slice l off k.
Proof.
  intros ? ? ? -> ->. unfold slice. rewrite !Z2Nat.inj_add, <-drop_drop by lia.
  by rewrite take_take_drop.
Qed.

Lemma slice_all {A} (l : list A) n : zlen l = n → slice l 0 n = l.
Proof. intros Hn. unfold slice. rewrite drop_0. apply take_ge. lia. Qed.

Lemma take_slice {A} (l : list A) off n :
  0 ≤ off → 0 ≤ n →
  take (Z.to_nat (off + n)) l = take (Z.to_nat off) l ++ slice l off n.
Proof.
  intros. unfold slice.
  replace (Z.to_nat (off + n)) with (Z.to_nat off + Z.to_nat n)%nat by lia.
  by rewrite take_take_drop.
Qed.

(** ** Bytes and the little-endian codec

    [byte] is [uint8_t].  The host is little-endian: the bytes of an integer
    object in memory, and those the [WriteUintN] loops push, are [le_bytes]. *)
Definition byte_to_Z (b : byte) : Z := Z.of_N (Byte.to_N b).
Definition byte_of_Z (z : Z) : byte :=
  default x00 (Byte.of_N (Z.to_N (u8 z))).

#[global] Instance byte_eq_dec : EqDecision byte := Byte.byte_eq_dec.
#[global] Instance byte_inhabited : Inhabited byte := populate x00.
#[global] Program Instance byte_countable : Countable byte :=
  inj_countable Byte.to_N Byte.of_N _.
Next Obligation. intros b. apply Byte.of_to_N. Qed.

Lemma byte_to_Z_range b : 0 ≤ byte_to_Z b < 256.
Proof. unfold byte_to_Z. pose proof (Byte.to_N_bounded b). lia. Qed.

Lemma byte_of_to_Z b : byte_of_Z (byte_to_Z b) = b.
Proof.
  unfold byte_of_Z, u8. rewrite Z.mod_small by apply byte_to_Z_range.
  unfold byte_to_Z. by rewrite N2Z.id, Byte.of_to_N.
Qed.

Lemma byte_to_of_Z z : byte_to_Z (byte_of_Z z) = z mod 256.
Proof.
  unfold byte_of_Z, u8. change (2 ^ 8) with 256.
  pose proof (Z.mod_pos_bound z 256 ltac:(lia)).
  destruct (Byte.of_N _) as [b|] eqn:E; simpl.
  - apply Byte.to_of_N in E. unfold byte_to_Z. lia.
  - apply Byte.of_N_None_iff in E. lia.
Qed.

#[global] Instance byte_to_Z_inj : Inj (=) (=) byte_to_Z.
Proof. intros a b E. by rewrite <-(byte_of_to_Z a), E, byte_of_to_Z. Qed.

(** The bytes [(v >> 8*i) & 0xFF] for i = 0 .. n-1. *)
Definition le_bytes (n : nat) (v : Z) : list byte :=
  (λ i, byte_of_Z (Z.land (Z.shiftr v (8 * i)) 255)) <$> seqZ 0 (Z.of_nat n).

Fixpoint le_val (bs : list byte) : Z :=
  match bs with
  | [] => 0
  | b :: bs => byte_to_Z b + 256 * le_val bs
  end.

(** Big-endian value: the loop [v <<= 8; v += byte] of the hash comparisons. *)
Definition be_val (bs : list byte) : Z :=
  foldl (λ v b, Z.shiftl v 8 + byte_to_Z b) 0 bs.

#[global] Arguments le_bytes : simpl never.

Lemma le_bytes_S n v : le_bytes (S n) v = byte_of_Z v :: le_bytes n (Z.shiftr v 8).
Proof.
  unfold le_bytes. rewrite seqZ_cons by lia. simpl. f_equal.
  - apply (inj byte_to_Z). rewrite !byte_to_of_Z, Z.shiftr_0_r.
    change 255 with (Z.ones 8). rewrite Z.land_ones by lia. by rewrite Zmod_mod.
  - replace (Z.pred (Z.of_nat (S n))) with (Z.of_nat n) by lia.
    change (Z.succ 0) with (1 + 0). rewrite <-fmap_add_seqZ, <-list_fmap_compose.
    apply list_fmap_ext. intros j i [-> _]%lookup_seqZ. simpl.
    rewrite Z.shiftr_shiftr by lia. do 3 f_equal. lia.
Qed.

Lemma length_le_bytes n v : length (le_bytes n v) = n.
Proof. unfold le_bytes. rewrite length_fmap, length_seqZ. lia. Qed.

Lemma le_val_bytes n v : le_val (le_bytes n v) = v mod 2 ^ (8 * Z.of_nat n).
Proof.
  revert v. induction n as [|n IH]; intros v; [by rewrite Z.mod_1_r|].
  rewrite le_bytes_S. cbn [le_val]. rewrite IH, byte_to_of_Z, Z.shiftr_div_pow2 by lia.
  replace (8 * Z.of_nat (S n)) with (8 + 8 * Z.of_nat n) by lia.
  rewrite Z.pow_add_r, Z.rem_mul_r by lia. done.
Qed.

Lemma le_val_range bs : 0 ≤ le_val bs < 2 ^ (8 * zlen bs).
Proof.
  induction bs as [|b bs IH]; [done|]. cbn [le_val length].
  pose proof (byte_to_Z_range b).
  replace (8 * Z.of_nat (S (length bs))) with (8 + 8 * zlen bs) by lia.
  rewrite Z.pow_add_r by lia. lia.
Qed.

Lemma le_bytes_val bs : le_bytes (length bs) (le_val bs) = bs.
Proof.
  induction bs as [|b bs IH]; [done|]. cbn [length le_val].
  pose proof (byte_to_Z_range b). rewrite le_bytes_S. f_equal.
  - apply (inj byte_to_Z). rewrite byte_to_of_Z.
    rewrite (Z.mul_comm 256), Z.mod_add, Z.mod_small; lia.
  - rewrite Z.shiftr_div_pow2 by lia. change (2 ^ 8) with 256.
    by rewrite (Z.mul_comm 256), Z.div_add, Z.div_small by lia.
Qed.

Lemma le_bytes_val_eq n bs : length bs = n → le_bytes n (le_val bs) = bs.
Proof. intros <-. apply le_bytes_val. Qed.

Lemma le_val_zeros bs n : le_val (bs ++ replicate n x00) = le_val bs.
Proof.
  induction bs as [|b bs IH]; cbn [app le_val]; [|by rewrite IH].
  induction n as [|n IH]; [done|]. cbn [replicate le_val]. by rewrite IH.
Qed.

Lemma Z_add_shiftl a b k :
  0 ≤ k → 0 ≤ a < 2 ^ k → Z.lor a (Z.shiftl b k) = a + 2 ^ k * b.
Proof.
  intros Hk Ha. rewrite Z.shiftl_mul_pow2, (Z.mul_comm (2 ^ k)) by done.
  rewrite <-Z.add_lor_land.
  assert (Z.land a (b * 2 ^ k) = 0) as ->; [|lia].
  apply Z.bits_inj'. intros i Hi. rewrite Z.land_spec, Z.bits_0.
  destruct (decide (i < k)) as [?|?].
  - rewrite Z.mul_pow2_bits_low by lia. apply andb_false_r.
  - rewrite <-(Z.mod_small a (2 ^ k)), Z.mod_pow2_bits_high by lia. done.
Qed.

Lemma le_val_lor b bs : le_val (b :: bs) = Z.lor (byte_to_Z b) (Z.shiftl (le_val bs) 8).
Proof. pose proof (byte_to_Z_range b). by rewrite Z_add_shiftl. Qed.

Lemma le_val_snoc bs b :
  le_val (bs ++ [b]) = Z.lor (le_val bs) (Z.shiftl (byte_to_Z b) (8 * zlen bs)).
Proof.
  pose proof (le_val_range bs). rewrite Z_add_shiftl by lia.
  clear H. induction bs as [|c bs IH]; cbn [app le_val length].
  - change (2 ^ (8 * Z.of_nat 0)) with 1. lia.
  - rewrite IH. replace (8 * Z.of_nat (S (length bs))) with (8 + 8 * zlen bs) by lia.
    rewrite Z.pow_add_r by lia. lia.
Qed.

Lemma be_val_snoc bs b : be_val (bs ++ [b]) = 256 * be_val bs + byte_to_Z b.
Proof.
  unfold be_val. rewrite foldl_app. cbn [foldl]. rewrite Z.shiftl_mul_pow2 by lia.
  change (2 ^ 8) with 256. lia.
Qed.

Lemma be_val_reverse bs : be_val (reverse bs) = le_val bs.
Proof.
  induction bs as [|b bs IH]; [done|]. rewrite reverse_cons, be_val_snoc, IH. simpl. lia.
Qed.

Lemma be_val_range bs : 0 ≤ be_val bs < 2 ^ (8 * zlen bs).
Proof.
  rewrite <-(reverse_involutive bs), be_val_reverse, length_reverse. apply le_val_range.
Qed.

Lemma slice_snoc (l : list byte) off n :
  0 ≤ off → 0 ≤ n → off + n < zlen l →
  slice l off (n + 1) = slice l off n ++ [l !!! Z.to_nat (off + n)].
Proof.
  intros. unfold slice. replace (Z.to_nat (n + 1)) with (S (Z.to_nat n)) by lia.
  apply take_S_r. rewrite lookup_drop.
  replace (Z.to_nat off + Z.to_nat n)%nat with (Z.to_nat (off + n)) by lia.
  apply list_lookup_lookup_total_lt. lia.
Qed.

(** The byte-wise read loop [v |= data[offset+i] << (8*i)] is [le_val]. *)
Lemma read_loop_le_val (data : list byte) off n :
  0 ≤ off → off + Z.of_nat n ≤ zlen data →
  foldl (λ v i, Z.lor v (Z.shiftl (byte_to_Z (data !!! Z.to_nat (off + i))) (8 * i)))
    0 (seqZ 0 (Z.of_nat n)) = le_val (slice data off (Z.of_nat n)).
Proof.
  intros Hoff. induction n as [|n IH]; intros Hlen; [done|].
  rewrite seqZ_S, foldl_app, IH by lia. simpl.
  replace (Z.of_nat (S n)) with (Z.of_nat n + 1) by lia.
  rewrite slice_snoc, le_val_snoc, slice_length by lia. done.
Qed.

(** ** Loops

    [foldM] is a range-for over a container whose body may throw.  [loop_m p]
    runs a loop body at most [p] times, with the count in binary so that a bound
    of 2^32 iterations evaluates; the body either continues with a new state
    ([inl]) or leaves the loop with a value ([inr]). *)
Fixpoint foldM {A S} (f : S → A → result S) (s : S) (l : list A) : result S :=
  match l with
  | [] => Ok s
  | x :: l => f s x ≫= λ s', foldM f s' l
  end.

Definition flow_bind {S R} (m : result (S + R)) (f : S → result (S + R)) :
    result (S + R) :=
  m ≫= λ r, match r with inl s => f s | inr v => Ok (inr v) end.

Fixpoint loop_m {S R} (p : positive) (f : S → result (S + R)) (s : S) :
    result (S + R) :=
  match p with
  | xH => f s
  | xO q => flow_bind (loop_m q f s) (loop_m q f)
  | xI q => flow_bind (f s) (λ s', flow_bind (loop_m q f s') (loop_m q f))
  end.

Fixpoint loop_nat {S R} (n : nat) (f : S → result (S + R)) (s : S) :
    result (S + R) :=
  match n with
  | O => Ok (inl s)
  | Datatypes.S n => flow_bind (f s) (loop_nat n f)
  end.

(** [for (uint32_t i = 0; i < n; ++i) body] *)
Definition for_range {S} (n : Z) (body : Z → S → result S) (s : S) : result S :=
  match n with
  | Zpos p =>
      r ← loop_m (R := Empty_set) p
        (λ '(i, s), s' ← body i s; Ok (inl (i + 1, s'))) (0, s);
      match r with inl (_, s') => Ok s' | inr e => Empty_set_rect (λ _, result S) e end
  | _ => Ok s
  end.

Lemma flow_bind_assoc {S R} (m : result (S + R)) f g :
  flow_bind (flow_bind m f) g = flow_bind m (λ s, flow_bind (f s) g).
Proof. by destruct m as [[]| |]. Qed.

Lemma flow_bind_ext {S R} (m : result (S + R)) f g :
  (∀ s, f s = g s) → flow_bind m f = flow_bind m g.
Proof. intros E. destruct m as [[]| |]; simpl; by rewrite ?E. Qed.

Lemma loop_nat_add {S R} n m (f : S → result (S + R)) s :
  loop_nat (n + m) f s = flow_bind (loop_nat n f s) (loop_nat m f).
Proof.
  revert s. induction n as [|n IH]; intros s; simpl; [done|].
  rewrite flow_bind_assoc. by apply flow_bind_ext.
Qed.

Lemma loop_m_nat {S R} p (f : S → result (S + R)) s :
  loop_m p f s = loop_nat (Pos.to_nat p) f s.
Proof.
  revert s. induction p as [p IH|p IH|]; intros s; cbn [loop_m].
  - replace (Pos.to_nat p~1) with (Datatypes.S (Pos.to_nat p + Pos.to_nat p)) by lia.
    cbn [loop_nat]. apply flow_bind_ext. intros s'. rewrite loop_nat_add, IH.
    by apply flow_bind_ext.
  - replace (Pos.to_nat p~0) with (Pos.to_nat p + Pos.to_nat p)%nat by lia.
    rewrite loop_nat_add, IH. by apply flow_bind_ext.
  - change (Pos.to_nat 1) with 1%nat. simpl.
    by destruct (f s) as [[]| |].
Qed.

(** A loop whose body goes on from each of the states [st 0 .. st (n-1)] ends in
    [st n]; one that leaves at the [k]th state has the value it leaves with. *)
Lemma loop_nat_continues {S R} n (f : S → result (S + R)) (st : nat → S) :
  (∀ i, (i < n)%nat → f (st i) = Ok (inl (st (Datatypes.S i)))) →
  loop_nat n f (st O) = Ok (inl (st n)).
Proof.
  intros Hf. induction n as [|n IH]; [done|].
  replace (Datatypes.S n) with (n + 1)%nat at 1 by lia. rewrite loop_nat_add, IH by auto.
  unfold flow_bind. cbn [mbind result_bind loop_nat]. by rewrite Hf by lia.
Qed.

Lemma loop_nat_leaves {S R} n k (f : S → result (S + R)) (st : nat → S) (o : result R) :
  (k < n)%nat → (∀ i, (i < k)%nat → f (st i) = Ok (inl (st (Datatypes.S i)))) →
  f (st k) = inr <$> o →
  loop_nat n f (st O) = inr <$> o.
Proof.
  intros Hk Hf E. replace n with (k + Datatypes.S (n - k - 1))%nat by lia.
  rewrite loop_nat_add, (loop_nat_continues k f st) by done.
  unfold flow_bind at 1. cbn [mbind result_bind loop_nat]. rewrite E. by destruct o.
Qed.

(** The least index below [n] a test passes, if any. *)
Lemma find_first (passes : Z → bool) (n : nat) :
  (∃ k, (k < n)%nat ∧ passes (Z.of_nat k) = true ∧
     ∀ i, (i < k)%nat → passes (Z.of_nat i) = false) ∨
  (∀ i, (i < n)%nat → passes (Z.of_nat i) = false).
Proof.
  induction n as [|n [(k & ? & ? & ?)|IH]];
    [right; lia|left; exists k; split_and!; (done || lia)|].
  destruct (passes (Z.of_nat n)) eqn:E; [left; exists n; split_and!; (done || lia)|right].
  intros i Hi. destruct (decide (i = n)) as [->|]; [done|]. apply IH. lia.
Qed.

Lemma foldM_app {A S} (f : S → A → result S) s l k :
  foldM f s (l ++ k) = foldM f s l ≫= λ s', foldM f s' k.
Proof.
  revert s. induction l as [|x l IH]; intros s; simpl; [done|].
  rewrite bind_assoc. destruct (f s x); simpl; auto.
Qed.

Lemma foldM_ext {A S} (f g : S → A → result S) s l :
  (∀ s x, x ∈ l → f s x = g s x) → foldM f s l = foldM g s l.
Proof.
  revert s. induction l as [|x l IH]; intros s E; simpl; [done|].
  rewrite E by set_solver. destruct (g s x); simpl; [|done..].
  apply IH. intros. apply E. set_solver.
Qed.

Lemma loop_nat_range {S} n (body : Z → S → result S) i s :
  loop_nat (R := Empty_set) n
    (λ '(i, s), s' ← body i s; Ok (inl (i + 1, s'))) (i, s)
  = s' ← foldM (λ s i, body i s) s (seqZ i (Z.of_nat n));
    Ok (inl (i + Z.of_nat n, s')).
Proof.
  revert i s. induction n as [|n IH]; intros i s.
  - simpl. by rewrite Z.add_0_r.
  - rewrite seqZ_cons by lia. simpl.
    destruct (body i s) as [s'| |]; simpl; [|done..]. rewrite IH.
    replace (Z.pred (Z.of_nat (Datatypes.S n))) with (Z.of_nat n) by lia.
    unfold Z.succ. destruct (foldM _ _ _); simpl; [|done..].
    do 3 f_equal. lia.
Qed.

Lemma for_range_foldM {S} n (body : Z → S → result S) s :
  for_range n body s = foldM (λ s i, body i s) s (seqZ 0 n).
Proof.
  destruct n as [|p|p]; [done| |by rewrite seqZ_nil by lia].
  simpl. rewrite loop_m_nat, loop_nat_range, positive_nat_Z.
  by destruct (foldM _ _ _).
Qed.

(** Loop-invariant rule for range-for loops that return normally. *)
Lemma foldM_inv {A S} (P : list A → S → Prop) (f : S → A → result S) s l s' :
  P [] s →
  (∀ k x t t', P k t → f t x = Ok t' → P (k ++ [x]) t') →
  foldM f s l = Ok s' → P l s'.
Proof.
  intros H0 Hstep. change l with ([] ++ l) at 2. revert s H0. generalize (@nil A).
  induction l as [|x l IH]; intros k s H0 E; simpl in *.
  - rewrite app_nil_r. by simplify_result.
  - simplify_result. replace (k ++ x :: l) with ((k ++ [x]) ++ l) by by rewrite <-app_assoc.
    eauto.
Qed.

Lemma for_range_ext {S} n (f g : Z → S → result S) s :
  (∀ i s, f i s = g i s) → for_range n f s = for_range n g s.
Proof. intros E. rewrite !for_range_foldM. by apply foldM_ext. Qed.

Lemma foldM_fmap {A B S} (f : S → B → result S) (g : A → B) s l :
  foldM f s (g <$> l) = foldM (λ s x, f s (g x)) s l.
Proof.
  revert s. induction l as [|x l IH]; intros s; [done|]. cbn.
  destruct (f s (g x)); [|done..]. apply IH.
Qed.

Lemma foldM_not_Undef {A S} (f : S → A → result S) s l u :
  (∀ s x, x ∈ l → f s x ≠ Undef u) → foldM f s l ≠ Undef u.
Proof.
  revert s. induction l as [|x l IH]; intros s Hf; [done|]. cbn [foldM].
  destruct (f s x) eqn:E; cbn [mbind result_bind].
  - apply IH. intros. apply Hf. by apply elem_of_cons; right.
  - done.
  - intros [= ->]. by apply (Hf s x); [apply elem_of_cons; left|].
Qed.

Lemma foldM_total {A S} (f : S → A → result S) s l :
  (∀ s x, x ∈ l → ∃ s', f s x = Ok s') → ∃ s', foldM f s l = Ok s'.
Proof.
  revert s. induction l as [|x l IH]; intros s Hf; [by eexists|]. cbn [foldM].
  destruct (Hf s x) as [s' ->]; [by apply elem_of_cons; left|]. cbn [mbind result_bind].
  apply IH. intros. apply Hf. by apply elem_of_cons; right.
Qed.

(** ** Early returns

    A validation function leaves with [return false] at the first failed test.
    [verdict A] is a step of one: [accept a] goes on with [a], [reject] is
    [return false]; a step may still throw. *)
Definition verdict (A : Type) : Type := result (option A).
Definition accept {A} (a : A) : verdict A := Ok (Some a).
Definition reject {A} : verdict A := Ok None.
Definition vbind {A B} (m : verdict A) (f : A → verdict B) : verdict B :=
  match m with
  | Ok (Some a) => f a
  | Ok None => reject
  | Throw e => Throw e
  | Undef u => Undef u
  end.
(** [if (b) return false;] *)
Definition reject_if (b : bool) : verdict unit := if b then reject else accept tt.
(** A call whose value is used, an optional that must be engaged, a call that must
    return true. *)
Definition call {A} (m : result A) : verdict A := Some <$> m.
Definition require_some {A} (o : option A) : verdict A := Ok o.
Definition require_true (m : result bool) : verdict unit :=
  b ← m; Ok (if b : bool then Some tt else None).

(** The boolean a validation function returns. *)
Definition answer {A} (m : verdict A) : result bool :=
  r ← m; Ok (match r with Some _ => true | None => false end).

Declare Scope verdict_scope.
Delimit Scope verdict_scope with verdict.
Notation "x ←? m ; k" := (vbind m (λ x, k))
  (at level 20, m at level 100, k at level 200) : verdict_scope.
Notation "' x ←? m ; k" := (vbind m (λ x, k))
  (at level 20, x pattern, m at level 100, k at level 200) : verdict_scope.
Notation "m ;? k" := (vbind m (λ _, k))
  (at level 100, k at level 200, right associativity) : verdict_scope.

(** Loops over a container, by element and with the element's index. *)
Fixpoint foldV {A S} (f : S → A → verdict S) (s : S) (l : list A) : verdict S :=
  match l with
  | [] => accept s
  | x :: l => vbind (f s x) (λ s', foldV f s' l)
  end.
Fixpoint foldVi {A S} (f : S → nat → A → verdict S) (s : S) (i : nat) (l : list A) :
    verdict S :=
  match l with
  | [] => accept s
  | x :: l => vbind (f s i x) (λ s', foldVi f s' (Datatypes.S i) l)
  end.

(** [returns m P a]: the step returns, goes on with [a] if [P] and rejects if not. *)
Definition returns {A} (m : verdict A) (P : Prop) (a : A) : Prop :=
  (P ∧ m = Ok (Some a)) ∨ (¬ P ∧ m = Ok None).

Lemma returns_accept {A} (a : A) : returns (accept a) True a.
Proof. by left. Qed.

Lemma returns_iff {A} (m : verdict A) P Q a : returns m P a → (P ↔ Q) → returns m Q a.
Proof. unfold returns. intuition. Qed.

Lemma returns_reject_if b (P : Prop) : (b = false ↔ P) → returns (reject_if b) P tt.
Proof. intros E. unfold returns. destruct b; [right|left]; by rewrite <-E. Qed.

Lemma returns_some {A} (o : option A) P a :
  (P → o = Some a) → (¬ P → o = None) → Decision P → returns (require_some o) P a.
Proof.
  unfold require_some. intros HP HN [H|H]; [left|right]; (split; [done|]).
  - by rewrite HP.
  - by rewrite HN.
Qed.

Lemma returns_vbind {A B} (m : verdict A) (f : A → verdict B) P Q a b :
  returns m P a → (P → returns (f a) Q b) → returns (vbind m f) (P ∧ Q) b.
Proof.
  intros [[HP ->]|[HP ->]] Hf; cbn; [|right; by split; [intros []|]].
  destruct (Hf HP) as [[? ->]|[? ->]]; [left|right]; intuition.
Qed.

Lemma returns_accepts {A} (m : verdict A) P a : returns m P a → m = Ok (Some a) ↔ P.
Proof. intros [[? ->]|[? ->]]; naive_solver. Qed.
