(* ===== verification/Crypto.v ===== *)
(** * Hashing: pow/sha256d.cpp, crypto/tagged_hash.cpp

    SHA-256 itself is OpenSSL's and a parameter, the class [OpenSSL_SHA]: a
    function from byte strings to 32-byte strings.  Nothing else is assumed of it.
    Some two byte strings have one digest, by counting, so a statement that rests on
    collision resistance does not say that a collision exists: it says that there is
    one among the messages the code itself hashes ([collision_in] of the lists
    [.._hashed]), which is decidable and would be a break of SHA-256. *)

From S2P Require Import Prelude.

(** The digest [SHA256_Init], one or more [SHA256_Update] and [SHA256_Final]
    compute over the concatenation of the updates. *)
Class OpenSSL_SHA := {
  sha256 : list byte → list byte;
  sha256_length : ∀ m, length (sha256 m) = 32%nat;
}.

(** [std::array<uint8_t, 32>]; the length is the invariant [is_hash]. *)
Abbreviation uint256 := (list byte).
Definition is_hash (h : uint256) : Prop := length h = 32%nat.
Definition uint256_zero : uint256 := replicate 32 x00.

#[global] Instance is_hash_dec h : Decision (is_hash h).
Proof. unfold is_hash. apply _. Defined.

Section Hashing.
  Context `{OpenSSL_SHA}.

Definition SHA256 (data : list byte) : uint256 := sha256 data.

Definition SHA256d (data : list byte) : uint256 :=
  let first := SHA256 data in
  SHA256 first.

(** SHA256(SHA256(tag) || SHA256(tag) || data) *)
Definition TaggedHash (tag : string) (data : list byte) : uint256 :=
  let tagHash := SHA256 (String.list_byte_of_string tag) in
  let preimage := tagHash ++ tagHash ++ data in
  SHA256 preimage.

(** The messages whose SHA-256 [TaggedHash] computes. *)
Definition TaggedHash_hashed (tag : string) (data : list byte) : list (list byte) :=
  let tagHash := SHA256 (String.list_byte_of_string tag) in
  [String.list_byte_of_string tag; tagHash ++ tagHash ++ data].

(** Two different messages of [Q] with one digest. *)
Definition collision_in (Q : list (list byte)) : Prop :=
  ∃ a b, a ∈ Q ∧ b ∈ Q ∧ a ≠ b ∧ sha256 a = sha256 b.

Lemma collision_in_Exists Q :
  collision_in Q ↔ Exists (λ a, Exists (λ b, a ≠ b ∧ sha256 a = sha256 b) Q) Q.
Proof.
  rewrite Exists_exists. split.
  - intros (a & b & Ha & Hb & E). exists a. split; [done|]. apply Exists_exists. by exists b.
  - intros (a & Ha & (b & Hb & E)%Exists_exists). by exists a, b.
Qed.

#[global] Instance collision_in_dec Q : Decision (collision_in Q).
Proof.
  destruct (decide (Exists (λ a, Exists (λ b, a ≠ b ∧ sha256 a = sha256 b) Q) Q)) as [E|E];
    [left|right]; by rewrite collision_in_Exists.
Defined.

Lemma TaggedHash_preimage tag data :
  let tagHash := SHA256 (String.list_byte_of_string tag) in
  tagHash ++ tagHash ++ data ∈ TaggedHash_hashed tag data.
Proof. by apply elem_of_cons; right; apply elem_of_cons; left. Qed.

Lemma SHA256_is_hash m : is_hash (SHA256 m).
Proof. apply sha256_length. Qed.

Lemma TaggedHash_is_hash tag m : is_hash (TaggedHash tag m).
Proof. apply sha256_length. Qed.

(** One tag separates messages: equal digests are equal messages or a collision. *)
Lemma TaggedHash_inj Q tag a b :
  TaggedHash_hashed tag a ⊆ Q → TaggedHash_hashed tag b ⊆ Q →
  TaggedHash tag a = TaggedHash tag b → a = b ∨ collision_in Q.
Proof.
  intros Ha Hb E. destruct (decide (a = b)) as [|Hne]; [by left|right].
  eexists _, _. split_and!; [apply Ha, TaggedHash_preimage|apply Hb, TaggedHash_preimage| |exact E].
  intros Heq. apply Hne. by do 2 apply app_inv_head in Heq.
Qed.

(** Domain separation: digests under two different tags are equal only through a
    collision, of the tag digests or of the final hash. *)
Lemma TaggedHash_domain Q tag tag' a b :
  String.list_byte_of_string tag ≠ String.list_byte_of_string tag' →
  TaggedHash_hashed tag a ⊆ Q → TaggedHash_hashed tag' b ⊆ Q →
  TaggedHash tag a = TaggedHash tag' b → collision_in Q.
Proof.
  intros Hne Ha Hb E.
  destruct (decide (SHA256 (String.list_byte_of_string tag)
                    = SHA256 (String.list_byte_of_string tag'))) as [Et|Et].
  { eexists _, _. split_and!; [apply Ha|apply Hb|exact Hne|exact Et]; by apply elem_of_cons; left. }
  eexists _, _. split_and!; [apply Ha, TaggedHash_preimage|apply Hb, TaggedHash_preimage| |exact E].
  intros Heq. apply Et.
  apply app_inj_1 in Heq as [-> _]; [done|]. unfold SHA256. by rewrite !sha256_length.
Qed.

Lemma uint256_zero_is_hash : is_hash uint256_zero.
Proof. done. Qed.

End Hashing.

(** Two hash functions with the same digests of the messages of [Q]. *)
Definition agree_on (S1 S2 : OpenSSL_SHA) (Q : list (list byte)) : Prop :=
  ∀ m, m ∈ Q → @sha256 S1 m = @sha256 S2 m.

(** The list is complete: [TaggedHash] is the same under two hash functions that agree
    on it. *)
Lemma TaggedHash_agree (S1 S2 : OpenSSL_SHA) tag data :
  agree_on S1 S2 (@TaggedHash_hashed S1 tag data) →
  @TaggedHash S1 tag data = @TaggedHash S2 tag data.
Proof.
  intros Hm. pose proof (Hm _ (@TaggedHash_preimage S1 tag data)) as E.
  assert (@sha256 S1 (String.list_byte_of_string tag) = @sha256 S2 (String.list_byte_of_string tag))
    as Et by (apply Hm, elem_of_cons; by left).
  unfold TaggedHash, SHA256 in *. by rewrite E, Et.
Qed.

#[export] Hint Resolve SHA256_is_hash TaggedHash_is_hash uint256_zero_is_hash : drachma.
