(* ===== verification/Sha256Ref.v ===== *)
(** * A concrete SHA-256 (FIPS 180-4)

    The development is parametric in SHA-256 ([Crypto.OpenSSL_SHA]).  This file
    writes the published algorithm out as an executable instance, on which the
    witnesses and the regression examples (the vectors of src/tests) evaluate.  No
    property of the development depends on it. *)

From S2P Require Import Prelude Crypto.

Module Sha256Ref.

(** The round constants and the initial state are, by definition, the first 32 bits
    of the fractional parts of the cube roots of the first 64 primes and of the
    square roots of the first 8. *)
Definition is_prime (n : Z) : bool :=
  forallb (λ d, negb (bool_decide (n mod d = 0))) (seqZ 2 (n - 2)).

Definition primes : list Z := List.filter is_prime (seqZ 2 310).

(** The integer cube root, bit by bit from [2^k]. *)
Fixpoint cbrt_from (k : nat) (n r : Z) : Z :=
  match k with
  | O => r
  | S k =>
      let r' := r + 2 ^ Z.of_nat k in
      cbrt_from k n (if bool_decide (r' ^ 3 ≤ n) then r' else r)
  end.

Definition K : list Z :=
  Eval vm_compute in (λ p, u32 (cbrt_from 36 (p * 2 ^ 96) 0)) <$> take 64 primes.

Definition H0 : list Z :=
  Eval vm_compute in (λ p, u32 (Z.sqrt (p * 2 ^ 64))) <$> take 8 primes.

Definition rotr (x n : Z) : Z := u32 (Z.lor (Z.shiftr x n) (Z.shiftl x (32 - n))).
Definition bsig0 (x : Z) : Z := Z.lxor (rotr x 2) (Z.lxor (rotr x 13) (rotr x 22)).
Definition bsig1 (x : Z) : Z := Z.lxor (rotr x 6) (Z.lxor (rotr x 11) (rotr x 25)).
Definition ssig0 (x : Z) : Z := Z.lxor (rotr x 7) (Z.lxor (rotr x 18) (Z.shiftr x 3)).
Definition ssig1 (x : Z) : Z := Z.lxor (rotr x 17) (Z.lxor (rotr x 19) (Z.shiftr x 10)).
Definition ch (x y z : Z) : Z := Z.lxor (Z.land x y) (Z.land (UINT32_MAX - x) z).
Definition maj (x y z : Z) : Z :=
  Z.lxor (Z.land x y) (Z.lxor (Z.land x z) (Z.land y z)).

(** Big-endian words and bytes. *)
Fixpoint words (bs : list byte) : list Z :=
  match bs with
  | a :: b :: c :: d :: bs => be_val [a; b; c; d] :: words bs
  | _ => []
  end.

Definition be_bytes (n : nat) (v : Z) : list byte := rev (le_bytes n v).

Definition pad (m : list byte) : list byte :=
  m ++ x80 :: replicate (Z.to_nat ((55 - zlen m) mod 64)) x00
    ++ be_bytes 8 (8 * zlen m).

(** The message schedule, kept newest first. *)
Definition sched_next (w : list Z) : Z :=
  u32 (ssig1 (w !!! 1%nat) + (w !!! 6%nat) + ssig0 (w !!! 14%nat) + (w !!! 15%nat)).

Fixpoint sched (n : nat) (w : list Z) : list Z :=
  match n with
  | O => rev w
  | S n => sched n (sched_next w :: w)
  end.

Definition round (h : list Z) (kw : Z * Z) : list Z :=
  match h with
  | [a; b; c; d; e; f; g; hh] =>
      let t1 := hh + bsig1 e + ch e f g + kw.1 + kw.2 in
      let t2 := bsig0 a + maj a b c in
      [u32 (t1 + t2); a; b; c; u32 (d + t1); e; f; g]
  | _ => h
  end.

Definition compress (h : list Z) (block : list Z) : list Z :=
  zip_with (λ x y, u32 (x + y)) h (foldl round h (zip K (sched 48 (rev block)))).

Fixpoint blocks (n : nat) (h : list Z) (w : list Z) : list Z :=
  match n with
  | O => h
  | S n => blocks n (compress h (take 16 w)) (drop 16 w)
  end.

Definition digest (m : list byte) : list byte :=
  let w := words (pad m) in
  mjoin (be_bytes 4 <$> blocks (length w / 16) H0 w).

(** The digest cut to its 32 bytes, so that the length law needs no proof about
    the compression function. *)
Definition sha256_ref (m : list byte) : list byte :=
  take 32 (digest m ++ replicate 32 x00).

Lemma sha256_ref_length m : length (sha256_ref m) = 32%nat.
Proof. unfold sha256_ref. rewrite length_take, length_app, length_replicate. lia. Qed.

#[export] Instance sha : OpenSSL_SHA :=
  {| sha256 := sha256_ref; sha256_length := sha256_ref_length |}.

(** A degenerate instance, on which distinct inputs do collide: it shows that a
    conclusion of the form "equal, or a collision among the messages hashed" covers
    both cases. *)
Definition const_sha : OpenSSL_SHA :=
  {| sha256 := λ _, replicate 32 x00; sha256_length := λ _, eq_refl |}.

(** FIPS 180-4 vector: the digest of "abc". *)
Example sha256_abc :
  be_val (SHA256 (String.list_byte_of_string "abc"))
  = 0xba7816bf8f01cfea414140de5dae2223b00361a396177a9cb410ff61f20015ad.
Proof. vm_compute. reflexivity. Qed.

End Sha256Ref.
