(* ===== verification/Codec.v ===== *)
(** * Offset-passing readers and the encodings they read back

    The deserializers of the code take a buffer and a reference to an offset they
    advance.  [Codec enc dec wf] is the contract between a writer and such a
    reader: the reader returns what the writer wrote wherever it stands in the
    buffer, reads nothing else back, and has no undefined behaviour. *)

From S2P Require Import Prelude.

(** [enc_at data off bs]: the buffer holds [bs] at offset [off]. *)
Definition enc_at (data : list byte) (off : Z) (bs : list byte) : Prop :=
  ∃ pre post, data = pre ++ bs ++ post ∧ off = zlen pre.

Lemma enc_at_nonneg data off bs : enc_at data off bs → 0 ≤ off.
Proof. intros (?&?&_&->). lia. Qed.

Lemma enc_at_bound data off bs : enc_at data off bs → off + zlen bs ≤ zlen data.
Proof. intros (?&?&->&->). rewrite !length_app. lia. Qed.

Lemma enc_at_slice data off bs : enc_at data off bs → slice data off (zlen bs) = bs.
Proof. intros (?&?&->&->). by apply slice_app_mid. Qed.

Lemma enc_at_app data off a b :
  enc_at data off (a ++ b) ↔ enc_at data off a ∧ enc_at data (off + zlen a) b.
Proof.
  split.
  - intros (pre&post&->&->). split.
    + exists pre, (b ++ post). by rewrite <-(assoc_L _ a).
    + exists (pre ++ a), post. rewrite length_app. split; [|lia].
      by rewrite <-!(assoc_L (++)).
  - intros [(pre&post&->&->) (pre'&post'&E&Hlen)].
    exists pre, post'. split; [|done].
    rewrite (assoc_L (++)) in E. apply app_inj_1 in E as [<- ->].
    + by rewrite <-!(assoc_L (++)).
    + rewrite length_app. lia.
Qed.

Lemma enc_at_here data post : enc_at (data ++ post) 0 data.
Proof. by exists [], post. Qed.

Lemma enc_at_slice_intro data off n :
  0 ≤ off → 0 ≤ n → off + n ≤ zlen data → enc_at data off (slice data off n).
Proof.
  intros. exists (take (Z.to_nat off) data), (drop (Z.to_nat (off + n)) data).
  rewrite length_take. split; [|lia].
  rewrite (assoc_L (++)), <-take_slice by lia. by rewrite take_drop.
Qed.

Lemma enc_at_nil data off : 0 ≤ off ≤ zlen data → enc_at data off [].
Proof. intros. apply (enc_at_slice_intro data off 0); lia. Qed.

(** Two encodings at one offset: one is a prefix of the other. *)
Lemma enc_at_same_length data off a b :
  enc_at data off a → enc_at data off b → length a = length b → a = b.
Proof.
  intros Ha%enc_at_slice Hb%enc_at_slice E. rewrite <-Ha, <-Hb. by rewrite E.
Qed.

Abbreviation reader A := (list byte → Z → result (A * Z)).

Class Codec {A} (enc : A → list byte) (dec : reader A) (wf : A → Prop) : Prop := {
  dec_enc data off a :
    wf a → enc_at data off (enc a) → dec data off = Ok (a, off + zlen (enc a));
  enc_dec data off a off' :
    0 ≤ off ≤ zlen data → dec data off = Ok (a, off') →
    wf a ∧ enc_at data off (enc a) ∧ off' = off + zlen (enc a);
  dec_defined data off u : dec data off ≠ Undef u;
}.

(** Encodings are prefix-free, hence injective. *)
Lemma codec_prefix_free {A} (enc : A → list byte) dec wf `{!Codec enc dec wf} data off a b :
  wf a → wf b → enc_at data off (enc a) → enc_at data off (enc b) → a = b.
Proof.
  intros Ha Hb Ea Eb. pose proof (dec_enc data off a Ha Ea) as E1.
  rewrite (dec_enc data off b Hb Eb) in E1. by simplify_eq.
Qed.

Lemma codec_inj {A} (enc : A → list byte) dec wf `{!Codec enc dec wf} a b :
  wf a → wf b → enc a = enc b → a = b.
Proof.
  intros Ha Hb E. apply (codec_prefix_free enc dec wf (enc a) 0); [done..| |].
  - rewrite <-(app_nil_r (enc a)) at 1. apply enc_at_here.
  - rewrite E. rewrite <-(app_nil_r (enc b)) at 1. apply enc_at_here.
Qed.

(** ** Sequences of records

    [read_n dec n data off] reads [n] consecutive records, the shape of the
    [for (uint32_t i = 0; i < n; ++i)] loops of the deserializers. *)
Definition read_n {A} (dec : reader A) (n : Z) (data : list byte) (off : Z) :
    result (list A * Z) :=
  for_range n (λ _ '(acc, off),
    '(x, off) ← dec data off; Ok (acc ++ [x], off)) ([], off).

Definition enc_list {A} (enc : A → list byte) (l : list A) : list byte :=
  l ≫= enc.

Lemma enc_list_cons {A} (enc : A → list byte) x l :
  enc_list enc (x :: l) = enc x ++ enc_list enc l.
Proof. done. Qed.

#[global] Arguments enc_list : simpl never.

Section ReadN.
  Context {A : Type} (enc : A → list byte) (dec : reader A) (wf : A → Prop).
  Context `{!Codec enc dec wf}.

Local Abbreviation body data := (λ s (_ : Z), let '(acc, off) := s in
  '(x, off) ← dec data off; Ok (acc ++ [x], off)).

Lemma read_n_loop_enc data l acc off i :
  Forall wf l → enc_at data off (enc_list enc l) →
  foldM (body data) (acc, off) (seqZ i (zlen l))
  = Ok (acc ++ l, off + zlen (enc_list enc l)).
Proof.
  intros Hwf. revert acc off i. induction Hwf as [|x l Hx Hl IH]; intros acc off i Hat.
  - simpl. by rewrite app_nil_r, Z.add_0_r.
  - rewrite enc_list_cons in Hat. apply enc_at_app in Hat as [Hx' Hl'].
    rewrite seqZ_cons by (simpl; lia).
    replace (Z.pred (zlen (x :: l))) with (zlen l) by (simpl; lia).
    cbn [foldM]. rewrite (dec_enc _ _ _ Hx Hx'). simpl. rewrite IH by done.
    rewrite <-(assoc_L (++)), enc_list_cons, length_app.
    do 2 f_equal. lia.
Qed.

Lemma read_n_loop_dec data n acc off i r off' :
  0 ≤ off ≤ zlen data →
  foldM (body data) (acc, off) (seqZ i (Z.of_nat n)) = Ok (r, off') →
  ∃ l, r = acc ++ l ∧ length l = n ∧ Forall wf l ∧
       enc_at data off (enc_list enc l) ∧ off' = off + zlen (enc_list enc l).
Proof.
  revert acc off i. induction n as [|n IH]; intros acc off i Hoff E.
  - simpl in E. simplify_result. exists []. rewrite app_nil_r.
    split_and!; [done..|by apply enc_at_nil|]. simpl. lia.
  - rewrite seqZ_cons in E by lia.
    replace (Z.pred (Z.of_nat (S n))) with (Z.of_nat n) in E by lia.
    cbn [foldM] in E. simplify_result.
    match goal with H : dec _ _ = Ok (?y, _) |- _ =>
      rename y into x; apply enc_dec in H as (Hx & Hat & ->); [|done] end.
    pose proof (enc_at_bound _ _ _ Hat).
    apply IH in E as (l & -> & <- & Hl & Hat' & ->); [|lia].
    exists (x :: l). rewrite enc_list_cons, enc_at_app, length_app.
    split_and!; [by rewrite <-(assoc_L (++))|done|by constructor|done|done|lia].
Qed.

Lemma foldM_defined data l acc u : foldM (body data) acc l ≠ Undef u.
Proof.
  revert acc. induction l as [|i l IH]; intros [acc off]; [done|]. cbn [foldM].
  destruct (dec data off) as [[x o]| |] eqn:E; cbn [mbind result_bind];
    [apply IH|done|]. by apply dec_defined in E.
Qed.

(** A negative count, which no caller passes, reads nothing. *)
#[export] Instance read_n_codec n :
  Codec (enc_list enc) (read_n dec n) (λ l, Forall wf l ∧ zlen l = Z.max 0 n).
Proof.
  split; intros data off; unfold read_n; rewrite for_range_foldM.
  - intros l [Hwf Hn] Hat.
    replace (seqZ 0 n) with (seqZ 0 (zlen l)).
    + exact (read_n_loop_enc data l [] off 0 Hwf Hat).
    + rewrite Hn. destruct (decide (0 ≤ n)); [by rewrite Z.max_r|].
      by rewrite !seqZ_nil by lia.
  - intros l off' Hoff E.
    replace (seqZ 0 n) with (seqZ 0 (Z.of_nat (Z.to_nat n))) in E.
    + apply read_n_loop_dec in E as (k & -> & Hk & ? & ? & ?); [|done].
      split_and!; [done|simpl; lia|done..].
    + destruct (decide (0 ≤ n)); [by rewrite Z2Nat.id|]. by rewrite !seqZ_nil by lia.
  - intros u. apply foldM_defined.
Qed.
End ReadN.

(** ** Automation for readers of several fields

    [encode_fields] splits the encoding of a record into its fields, [read_fields]
    steps a reader over them, [decode_fields] turns each successful field read into
    the encoding it read, and [reader_defined] shows a reader free of undefined
    behaviour from the readers it calls. *)
Ltac encode_fields :=
  repeat match goal with
  | H : enc_at _ _ (_ ++ _) |- _ => apply enc_at_app in H as [? H]
  end.

Ltac read_fields :=
  repeat (match goal with
  | H : enc_at ?data ?off _ |- context [mbind _ (_ ?data ?off)] =>
      rewrite (λ W, dec_enc _ _ _ W H) by done; cbn [mbind result_bind]
  end);
  rewrite ?length_app, ?Nat2Z.inj_add, ?Z.add_assoc.

Ltac decode_fields :=
  repeat match goal with
  | H : _ ?data ?off = Ok (_, ?o) |- _ =>
      is_var o;
      let W := fresh "W" in let P := fresh "P" in let B := fresh "B" in
      eapply enc_dec in H as (W & P & ->);
      [pose proof (enc_at_bound _ _ _ P) as B|lia]
  end.

Ltac reader_defined :=
  repeat match goal with
  | |- mbind _ (throw_if ?b _) ≠ _ => destruct b eqn:?; [done|]; cbn [mbind result_bind throw_if]
  | |- mbind _ ?m ≠ Undef ?u =>
      let E := fresh "E" in
      destruct m as [[? ?]| |] eqn:E; cbn [mbind result_bind];
      [|done|exact (False_ind _ (dec_defined _ _ _ E))]
  | |- Ok _ ≠ _ => done
  end.
