(* ===== verification/Transaction.v ===== *)
(** * Transactions: tx/transaction.h, tx/transaction.cpp

    The transaction records, the little-endian writers and the bounds-checked
    readers, [Serialize], [DeserializeTransaction] and the transaction hash.  A
    reader takes the buffer and the offset and returns the advanced offset. *)

From S2P Require Import Prelude Crypto Sha256Ref Codec.

Record OutPoint := mkOutPoint { op_hash : uint256; op_index : Z }.

Record TxIn := mkTxIn { prevout : OutPoint; scriptSig : list byte; sequence : Z }.

Record TxOut := mkTxOut { value : Z; scriptPubKey : list byte }.

Record Transaction := mkTransaction {
  tx_version : Z;
  vin : list TxIn;
  vout : list TxOut;
  lockTime : Z;
}.

(** [Transaction{}]: the default member initialisers. *)
Definition Transaction_default : Transaction := mkTransaction 1 [] [] 0.

#[global] Instance OutPoint_eq_dec : EqDecision OutPoint.
Proof. solve_decision. Defined.
#[global] Instance TxIn_eq_dec : EqDecision TxIn.
Proof. solve_decision. Defined.
#[global] Instance TxOut_eq_dec : EqDecision TxOut.
Proof. solve_decision. Defined.
#[global] Instance Transaction_eq_dec : EqDecision Transaction.
Proof. solve_decision. Defined.
#[global] Program Instance OutPoint_countable : Countable OutPoint :=
  inj_countable' (λ o, (op_hash o, op_index o)) (λ p, mkOutPoint p.1 p.2) _.
Next Obligation. by intros []. Qed.

(** ** Writers (transaction.cpp, 5-39) *)

Definition WriteUint32 (out : list byte) (v : Z) : list byte := out ++ le_bytes 4 v.

Definition WriteUint64 (out : list byte) (v : Z) : list byte := out ++ le_bytes 8 v.

Definition WriteVarBytes (out bytes : list byte) : list byte :=
  let out := WriteUint32 out (u32 (zlen bytes)) in
  out ++ bytes.

(** ** Readers (transaction.cpp, 11-48)

    Offsets are [size_t]; a vector has at most 2^63-1 elements, so the sums
    [offset + n] do not wrap and are plain sums here. *)

Definition ReadUint32 (data : list byte) (offset : Z) : result (Z * Z) :=
  throw_if (bool_decide (offset + 4 > zlen data))
    (runtime_error "deserialize uint32 overflow");;
  let v := foldl (λ v i,
    Z.lor v (Z.shiftl (byte_to_Z (data !!! Z.to_nat (offset + i))) (8 * i)))
    0 (seqZ 0 4) in
  Ok (v, offset + 4).

Definition ReadUint64 (data : list byte) (offset : Z) : result (Z * Z) :=
  throw_if (bool_decide (offset + 8 > zlen data))
    (runtime_error "deserialize uint64 overflow");;
  let v := foldl (λ v i,
    Z.lor v (Z.shiftl (byte_to_Z (data !!! Z.to_nat (offset + i))) (8 * i)))
    0 (seqZ 0 8) in
  Ok (v, offset + 8).

Definition ReadVarBytes (data : list byte) (offset : Z) : result (list byte * Z) :=
  '(len, offset) ← ReadUint32 data offset;
  throw_if (bool_decide (offset + len > zlen data))
    (runtime_error "deserialize var bytes overflow");;
  let out := slice data offset len in
  Ok (out, offset + len).

(** ** Serialize and DeserializeTransaction *)

(** Body of the input loop of [Serialize] (55-60). *)
Definition WriteTxIn (out : list byte) (i : TxIn) : list byte :=
  let out := out ++ op_hash (prevout i) in
  let out := WriteUint32 out (op_index (prevout i)) in
  let out := WriteVarBytes out (scriptSig i) in
  WriteUint32 out (sequence i).

(** Body of the output loop of [Serialize] (62-65). *)
Definition WriteTxOut (out : list byte) (o : TxOut) : list byte :=
  let out := WriteUint64 out (value o) in
  WriteVarBytes out (scriptPubKey o).

Definition Serialize (tx : Transaction) : list byte :=
  let out := [] in
  let out := WriteUint32 out (tx_version tx) in
  let out := WriteUint32 out (u32 (zlen (vin tx))) in
  let out := foldl WriteTxIn out (vin tx) in
  let out := WriteUint32 out (u32 (zlen (vout tx))) in
  let out := foldl WriteTxOut out (vout tx) in
  WriteUint32 out (lockTime tx).

(** Body of the input loop of [DeserializeTransaction] (77-85). *)
Definition ReadTxIn (data : list byte) (offset : Z) : result (TxIn * Z) :=
  throw_if (bool_decide (offset + 32 > zlen data))
    (runtime_error "deserialize hash overflow");;
  let hash := slice data offset 32 in
  let offset := offset + 32 in
  '(index, offset) ← ReadUint32 data offset;
  '(sig, offset) ← ReadVarBytes data offset;
  '(seq, offset) ← ReadUint32 data offset;
  Ok (mkTxIn (mkOutPoint hash index) sig seq, offset).

(** Body of the output loop (88-91). *)
Definition ReadTxOut (data : list byte) (offset : Z) : result (TxOut * Z) :=
  '(val, offset) ← ReadUint64 data offset;
  '(script, offset) ← ReadVarBytes data offset;
  Ok (mkTxOut val script, offset).

(** [DeserializeTransaction] up to the trailing-data check (72-92).  The vectors
    are resized to the counts read and then filled slot by slot; here the slots are
    appended as they are filled. *)
Definition ReadTransaction (data : list byte) (offset : Z) : result (Transaction * Z) :=
  '(version, offset) ← ReadUint32 data offset;
  '(vinSize, offset) ← ReadUint32 data offset;
  '(ins, offset) ← read_n ReadTxIn vinSize data offset;
  '(voutSize, offset) ← ReadUint32 data offset;
  '(outs, offset) ← read_n ReadTxOut voutSize data offset;
  '(lock, offset) ← ReadUint32 data offset;
  Ok (mkTransaction version ins outs lock, offset).

Definition DeserializeTransaction (data : list byte) : result Transaction :=
  '(tx, offset) ← ReadTransaction data 0;
  throw_if (negb (bool_decide (offset = zlen data)))
    (runtime_error "unexpected trailing data");;
  Ok tx.

Section TxHash.
  Context `{OpenSSL_SHA}.

Definition TransactionHash (tx : Transaction) : uint256 :=
  let bytes := Serialize tx in
  TaggedHash "TX" bytes.

(** The messages whose SHA-256 [TransactionHash] computes. *)
Definition TransactionHash_hashed (tx : Transaction) : list (list byte) :=
  TaggedHash_hashed "TX" (Serialize tx).

Definition GetHash (tx : Transaction) : uint256 := TransactionHash tx.

End TxHash.

(** ** Well-formedness: the ranges of the C++ types, and element counts that fit
    the 32-bit length fields *)

Definition wf_varbytes (bs : list byte) : Prop := is_u32 (zlen bs).
Definition wf_txin (i : TxIn) : Prop :=
  is_hash (op_hash (prevout i)) ∧ is_u32 (op_index (prevout i)) ∧
  wf_varbytes (scriptSig i) ∧ is_u32 (sequence i).
Definition wf_txout (o : TxOut) : Prop :=
  is_u64 (value o) ∧ wf_varbytes (scriptPubKey o).
Definition wf_tx (tx : Transaction) : Prop :=
  is_u32 (tx_version tx) ∧ is_u32 (lockTime tx) ∧
  is_u32 (zlen (vin tx)) ∧ is_u32 (zlen (vout tx)) ∧
  Forall wf_txin (vin tx) ∧ Forall wf_txout (vout tx).

#[global] Instance wf_txin_dec i : Decision (wf_txin i).
Proof. unfold wf_txin, wf_varbytes. apply _. Defined.
#[global] Instance wf_txout_dec o : Decision (wf_txout o).
Proof. unfold wf_txout, wf_varbytes. apply _. Defined.
#[global] Instance wf_tx_dec tx : Decision (wf_tx tx).
Proof. unfold wf_tx. apply _. Defined.

(** ** Writers append *)

#[global] Arguments WriteUint32 : simpl never.
#[global] Arguments WriteUint64 : simpl never.
#[global] Arguments WriteVarBytes : simpl never.
#[global] Arguments WriteTxIn : simpl never.
#[global] Arguments WriteTxOut : simpl never.
#[global] Arguments ReadUint32 : simpl never.
#[global] Arguments ReadUint64 : simpl never.

Lemma WriteUint32_app out v : WriteUint32 out v = out ++ WriteUint32 [] v.
Proof. done. Qed.
Lemma WriteUint64_app out v : WriteUint64 out v = out ++ WriteUint64 [] v.
Proof. done. Qed.
Lemma WriteVarBytes_app out bs : WriteVarBytes out bs = out ++ WriteVarBytes [] bs.
Proof. unfold WriteVarBytes, WriteUint32. by rewrite <-(assoc_L (++)). Qed.
Lemma WriteTxIn_app out i : WriteTxIn out i = out ++ WriteTxIn [] i.
Proof.
  unfold WriteTxIn. rewrite (WriteVarBytes_app (WriteUint32 _ _)), (WriteVarBytes_app (WriteUint32 ([] ++ _) _)).
  unfold WriteUint32. by rewrite <-!(assoc_L (++)).
Qed.
Lemma WriteTxOut_app out o : WriteTxOut out o = out ++ WriteTxOut [] o.
Proof.
  unfold WriteTxOut. rewrite WriteVarBytes_app, (WriteVarBytes_app (WriteUint64 [] _)).
  unfold WriteUint64. by rewrite <-!(assoc_L (++)).
Qed.

Lemma foldl_write {A} (w : list byte → A → list byte) out l :
  (∀ out a, w out a = out ++ w [] a) → foldl w out l = out ++ enc_list (w []) l.
Proof.
  intros E. revert out. induction l as [|x l IH]; intros out; simpl.
  - by rewrite app_nil_r.
  - by rewrite IH, E, enc_list_cons, <-(assoc_L (++)).
Qed.

Lemma Serialize_eq tx :
  Serialize tx = WriteUint32 [] (tx_version tx) ++ WriteUint32 [] (u32 (zlen (vin tx)))
    ++ enc_list (WriteTxIn []) (vin tx) ++ WriteUint32 [] (u32 (zlen (vout tx)))
    ++ enc_list (WriteTxOut []) (vout tx) ++ WriteUint32 [] (lockTime tx).
Proof.
  unfold Serialize.
  rewrite !(foldl_write _ _ _ WriteTxOut_app), !(foldl_write _ _ _ WriteTxIn_app).
  unfold WriteUint32. by rewrite <-!(assoc_L (++)).
Qed.

(** ** Codec instances *)

(** The shape [ReadUint32] and [ReadUint64] share. *)
Definition read_uint (n : nat) (e : exn) (data : list byte) (offset : Z) : result (Z * Z) :=
  throw_if (bool_decide (offset + Z.of_nat n > zlen data)) e;;
  Ok (foldl (λ v i,
    Z.lor v (Z.shiftl (byte_to_Z (data !!! Z.to_nat (offset + i))) (8 * i)))
    0 (seqZ 0 (Z.of_nat n)), offset + Z.of_nat n).

Lemma read_uint_codec n e :
  Codec (le_bytes n) (read_uint n e) (λ v, 0 ≤ v < 2 ^ (8 * Z.of_nat n)).
Proof.
  split; intros data off.
  - intros v Hv Hat. unfold read_uint. pose proof (enc_at_bound _ _ _ Hat) as Hb.
    pose proof (enc_at_nonneg _ _ _ Hat). rewrite length_le_bytes in *.
    rewrite bool_decide_false by lia. simpl. rewrite read_loop_le_val by lia.
    apply enc_at_slice in Hat. rewrite length_le_bytes in Hat.
    by rewrite Hat, le_val_bytes, Z.mod_small.
  - intros v off' Hoff E. unfold read_uint in E. simplify_result.
    apply bool_decide_eq_false in H. rewrite read_loop_le_val by lia.
    assert (zlen (slice data off (Z.of_nat n)) = Z.of_nat n) as Hl by (apply slice_length; lia).
    set (bs := slice data off (Z.of_nat n)) in *.
    pose proof (le_val_range bs) as Hr. rewrite Hl in Hr.
    assert (le_bytes n (le_val bs) = bs) as ->.
    { rewrite <-(le_bytes_val bs) at 2. f_equal. lia. }
    split_and!; [lia..|apply enc_at_slice_intro; lia|lia].
  - intros u. unfold read_uint. by destruct (bool_decide _).
Qed.

#[export] Instance ReadUint32_codec : Codec (WriteUint32 []) ReadUint32 (λ v, is_u32 v).
Proof. apply (read_uint_codec 4). Qed.
#[export] Instance ReadUint64_codec : Codec (WriteUint64 []) ReadUint64 (λ v, is_u64 v).
Proof. apply (read_uint_codec 8). Qed.

#[export] Instance ReadVarBytes_codec : Codec (WriteVarBytes []) ReadVarBytes wf_varbytes.
Proof.
  unfold WriteVarBytes, wf_varbytes. split; intros data off.
  - intros bs Hbs [H1 H2]%enc_at_app. rewrite u32_id in * by done. unfold ReadVarBytes.
    rewrite (dec_enc _ _ _ Hbs H1). cbn [mbind result_bind].
    pose proof (enc_at_bound _ _ _ H2).
    rewrite bool_decide_false by lia. cbn [mbind result_bind throw_if]. rewrite (enc_at_slice _ _ _ H2).
    rewrite length_app. do 2 f_equal. lia.
  - intros bs off' Hoff E. unfold ReadVarBytes in E. simplify_result.
    decode_fields. apply bool_decide_eq_false in H0.
    rewrite slice_length, u32_id by lia.
    rewrite length_app, Nat2Z.inj_add, slice_length by lia.
    split_and!; [lia..| |lia].
    apply enc_at_app. split; [done|]. apply enc_at_slice_intro; lia.
  - intros u. unfold ReadVarBytes. reader_defined.
Qed.

Lemma WriteTxIn_eq i :
  WriteTxIn [] i = op_hash (prevout i) ++ WriteUint32 [] (op_index (prevout i))
    ++ WriteVarBytes [] (scriptSig i) ++ WriteUint32 [] (sequence i).
Proof.
  unfold WriteTxIn. rewrite (WriteVarBytes_app (WriteUint32 _ _)).
  unfold WriteUint32. by rewrite <-!(assoc_L (++)).
Qed.

Lemma WriteTxOut_eq o :
  WriteTxOut [] o = WriteUint64 [] (value o) ++ WriteVarBytes [] (scriptPubKey o).
Proof. unfold WriteTxOut. by rewrite (WriteVarBytes_app (WriteUint64 _ _)). Qed.

#[export] Instance ReadTxOut_codec : Codec (WriteTxOut []) ReadTxOut wf_txout.
Proof.
  split; intros data off.
  - intros [v spk] [Hv Hs]. rewrite WriteTxOut_eq.
    cbn [value scriptPubKey] in *. intros Hat.
    encode_fields. unfold ReadTxOut. read_fields. done.
  - intros o off' Hoff E. unfold ReadTxOut in E. simplify_result. decode_fields.
    rewrite WriteTxOut_eq, !enc_at_app, !length_app. cbn [value scriptPubKey].
    split_and!; [by split|done|done|lia].
  - intros u. unfold ReadTxOut. reader_defined.
Qed.

#[export] Instance ReadTxIn_codec : Codec (WriteTxIn []) ReadTxIn wf_txin.
Proof.
  split; intros data off.
  - intros [[h i] sig sq] (Hh & Hi & Hs & Hq). rewrite WriteTxIn_eq.
    cbn [prevout op_hash op_index scriptSig sequence] in *. unfold is_hash in Hh. intros Hat. pose proof (enc_at_bound _ _ _ Hat) as Hb.
    rewrite length_app in Hb. encode_fields. unfold ReadTxIn.
    rewrite bool_decide_false by lia. cbn [mbind result_bind throw_if].
    replace 32 with (zlen h) by lia. rewrite (enc_at_slice data off h) by done.
    read_fields. done.
  - intros o off' Hoff E. unfold ReadTxIn in E. simplify_result.
    apply bool_decide_eq_false in H. decode_fields.
    assert (zlen (slice data off 32) = 32) as Hl by (apply slice_length; lia).
    rewrite WriteTxIn_eq, !enc_at_app, !length_app. cbn [prevout op_hash op_index scriptSig sequence].
    rewrite Hl. split_and!; try done; [|apply enc_at_slice_intro; lia|lia].
    unfold wf_txin, is_hash. cbn [prevout op_hash op_index scriptSig sequence].
    split_and!; try done; lia.
  - intros u. unfold ReadTxIn. reader_defined.
Qed.

(** The transaction encoding itself, as [Serialize] builds it. *)
#[export] Instance ReadTransaction_codec : Codec Serialize ReadTransaction wf_tx.
Proof.
  split; intros data off.
  - intros [v ins outs lk] (Hv & Hl & Hi & Ho & Hins & Houts). rewrite Serialize_eq.
    cbn [tx_version vin vout lockTime] in *. rewrite !u32_id by done. intros Hat.
    encode_fields. unfold ReadTransaction.
    assert (zlen ins = Z.max 0 (zlen ins)) by lia.
    assert (zlen outs = Z.max 0 (zlen outs)) by lia.
    read_fields. done.
  - intros tx off' Hoff E. unfold ReadTransaction in E. simplify_result.
    decode_fields. destruct_and!.
    rewrite Serialize_eq. cbn [tx_version vin vout lockTime].
    rewrite !u32_id, !enc_at_app, !length_app by lia.
    unfold wf_tx. cbn [tx_version vin vout lockTime].
    repeat match goal with H : zlen _ = Z.max 0 _ |- _ => rewrite Z.max_r in H by lia; rewrite H end.
    split_and!; try done; lia.
  - intros u. unfold ReadTransaction. reader_defined.
Qed.

(** ** DeserializeTransaction *)

Lemma enc_at_all data bs : enc_at data 0 bs → zlen bs = zlen data → bs = data.
Proof.
  intros ([|]&post&->&?) E; [|simpl in *; lia].
  simpl in *. rewrite length_app in E. destruct post; [by rewrite app_nil_r|simpl in E; lia].
Qed.

Lemma DeserializeTransaction_Ok data tx :
  DeserializeTransaction data = Ok tx ↔ wf_tx tx ∧ data = Serialize tx.
Proof.
  unfold DeserializeTransaction. split.
  - intros E. simplify_result. apply negb_false_iff, bool_decide_eq_true in H0 as ->.
    apply enc_dec in H as (Hwf & Hat & E'); [|lia].
    split; [done|]. symmetry. apply enc_at_all; [done|lia].
  - intros [Hwf ->]. rewrite (dec_enc _ 0 tx) by
      (done || (rewrite <-(app_nil_r (Serialize tx)) at 1; apply enc_at_here)).
    cbn [mbind result_bind]. by rewrite bool_decide_true by lia.
Qed.

Lemma DeserializeTransaction_defined data u : DeserializeTransaction data ≠ Undef u.
Proof.
  unfold DeserializeTransaction.
  destruct (ReadTransaction data 0) as [[tx off]| |] eqn:E; cbn [mbind result_bind].
  - by destruct (negb _).
  - done.
  - by apply dec_defined in E.
Qed.

Lemma Serialize_inj a b : wf_tx a → wf_tx b → Serialize a = Serialize b → a = b.
Proof. apply (codec_inj Serialize ReadTransaction wf_tx). Qed.

(** No well-formed encoding is a proper prefix of another. *)
Lemma Serialize_prefix_free a b post :
  wf_tx a → wf_tx b → Serialize a ++ post = Serialize b → post = [] ∧ a = b.
Proof.
  intros Ha Hb E. assert (a = b) as <-.
  { apply (codec_prefix_free Serialize ReadTransaction wf_tx (Serialize b) 0); [done..| |].
    - rewrite <-E. apply enc_at_here.
    - rewrite <-(app_nil_r (Serialize b)) at 1. apply enc_at_here. }
  split; [|done]. by apply (app_inv_head (Serialize a)); rewrite app_nil_r.
Qed.

(** A small transaction for the witnesses. *)
Definition example_tx : Transaction :=
  mkTransaction 1
    [mkTxIn (mkOutPoint (replicate 32 x01) 7) (String.list_byte_of_string "spend") 1]
    [mkTxOut 2500000000 (replicate 32 x02)] 0.

(** ** Properties *)

(** C7. The wire format is canonical and lossless: [DeserializeTransaction]
    accepts a buffer, with transaction [tx], exactly when [tx] is well formed and
    the buffer is [Serialize tx].  Every well-formed transaction reads back as
    itself, and a transaction has one accepted encoding. *)
Theorem DeserializeTransaction_roundtrip data tx :
  DeserializeTransaction data = Ok tx ↔ wf_tx tx ∧ data = Serialize tx.
Proof. apply DeserializeTransaction_Ok. Qed.

(** A buffer cut short or extended never parses: every proper prefix and every
    proper extension of an encoding ends in an exception, never in a transaction
    and never in undefined behaviour. *)
Theorem DeserializeTransaction_rejects tx data :
  wf_tx tx → data ≠ Serialize tx →
  data `prefix_of` Serialize tx ∨ Serialize tx `prefix_of` data →
  ∃ e, DeserializeTransaction data = Throw e.
Proof.
  intros Hwf Hne Hpre. destruct (DeserializeTransaction data) as [tx'|e|u] eqn:E.
  - apply DeserializeTransaction_Ok in E as [Hwf' ->]. exfalso. apply Hne.
    destruct Hpre as [[post E]|[post E]]; symmetry in E;
      by apply Serialize_prefix_free in E as [_ ->].
  - eauto.
  - by apply DeserializeTransaction_defined in E.
Qed.

Lemma DeserializeTransaction_rejects_witness :
  ∃ e, DeserializeTransaction (take 20 (Serialize example_tx)) = Throw e.
Proof.
  apply (DeserializeTransaction_rejects example_tx).
  - by_decide.
  - by_decide.
  - left. exists (drop 20 (Serialize example_tx)). symmetry. apply take_drop.
Defined.

(** A transaction hash commits to the whole transaction: two well-formed
    transactions with one [TransactionHash] are equal, or there is a SHA-256 collision
    among the messages hashed for the two. *)
Theorem TransactionHash_binding `{OpenSSL_SHA} a b :
  wf_tx a → wf_tx b → TransactionHash a = TransactionHash b →
  a = b ∨ collision_in (TransactionHash_hashed a ++ TransactionHash_hashed b).
Proof.
  intros Ha Hb E.
  eapply TaggedHash_inj in E as [E|?]; [left; by apply Serialize_inj|right; done|set_solver..].
Qed.

Lemma TransactionHash_binding_witness :
  example_tx = Transaction_default ∨ @collision_in Sha256Ref.const_sha
    (@TransactionHash_hashed Sha256Ref.const_sha example_tx ++
     @TransactionHash_hashed Sha256Ref.const_sha Transaction_default).
Proof.
  apply (TransactionHash_binding (H := Sha256Ref.const_sha) example_tx Transaction_default);
    [by_decide..|reflexivity].
Defined.
