(* ===== verification/Block.v ===== *)
(** * Block headers and blocks: block/block.h, block/block.cpp

    [BlockHeader] is hashed and stored as the 80 bytes of the C++ object: on a
    little-endian host with 4-byte alignment the struct has no padding, so these
    are the fields in order ([header_bytes]). *)

From S2P Require Import Prelude Crypto Sha256Ref Codec Transaction.

Record BlockHeader := mkBlockHeader {
  hdr_version : Z;
  prevBlockHash : uint256;
  merkleRoot : uint256;
  hdr_time : Z;
  bits : Z;
  nonce : Z;
}.

Record Block := mkBlock {
  header : BlockHeader;
  transactions : list Transaction;
}.

#[global] Instance BlockHeader_eq_dec : EqDecision BlockHeader.
Proof. solve_decision. Defined.
#[global] Instance Block_eq_dec : EqDecision Block.
Proof. solve_decision. Defined.

Definition wf_header (h : BlockHeader) : Prop :=
  is_u32 (hdr_version h) ∧ is_hash (prevBlockHash h) ∧ is_hash (merkleRoot h) ∧
  is_u32 (hdr_time h) ∧ is_u32 (bits h) ∧ is_u32 (nonce h).
Definition wf_block (b : Block) : Prop :=
  wf_header (header b) ∧ Forall wf_tx (transactions b).

#[global] Instance wf_header_dec h : Decision (wf_header h).
Proof. unfold wf_header. apply _. Defined.
#[global] Instance wf_block_dec b : Decision (wf_block b).
Proof. unfold wf_block. apply _. Defined.

(** [sizeof(BlockHeader)] *)
Definition sizeof_BlockHeader : Z := 80.

(** [reinterpret_cast<const uint8_t*>(&header)], [sizeof(BlockHeader)] bytes. *)
Definition header_bytes (h : BlockHeader) : list byte :=
  le_bytes 4 (hdr_version h) ++ prevBlockHash h ++ merkleRoot h ++
  le_bytes 4 (hdr_time h) ++ le_bytes 4 (bits h) ++ le_bytes 4 (nonce h).

(** [memcpy(&header, bytes, sizeof(BlockHeader))] *)
Definition header_of_bytes (bs : list byte) : BlockHeader :=
  mkBlockHeader (le_val (slice bs 0 4)) (slice bs 4 32) (slice bs 36 32)
    (le_val (slice bs 68 4)) (le_val (slice bs 72 4)) (le_val (slice bs 76 4)).

Section BlockHash.
  Context `{OpenSSL_SHA}.

Definition BlockHash (header : BlockHeader) : uint256 :=
  TaggedHash "BLOCK" (header_bytes header).

(** The messages whose SHA-256 [BlockHash] computes. *)
Definition BlockHash_hashed (header : BlockHeader) : list (list byte) :=
  TaggedHash_hashed "BLOCK" (header_bytes header).

End BlockHash.

(** ** The header layout is a bijection on 80-byte strings *)

Lemma header_bytes_length h : wf_header h → zlen (header_bytes h) = sizeof_BlockHeader.
Proof.
  intros (_&Hp&Hm&_). unfold header_bytes, is_hash in *.
  rewrite !length_app, !length_le_bytes, Hp, Hm. done.
Qed.

Lemma header_of_bytes_bytes h : wf_header h → header_of_bytes (header_bytes h) = h.
Proof.
  destruct h as [v p m t b n]. intros (Hv&Hp&Hm&Ht&Hb&Hn).
  unfold is_hash in *. cbn in * |-. unfold header_of_bytes, header_bytes.
  cbn [hdr_version prevBlockHash merkleRoot hdr_time bits nonce].
  assert (∀ w, length (le_bytes 4 w) = 4%nat) as L by (intros; apply length_le_bytes).
  f_equal.
  - rewrite <-(app_nil_l (le_bytes 4 v ++ _)), slice_app_mid by (rewrite ?L; done).
    rewrite le_val_bytes. by apply Z.mod_small.
  - rewrite slice_app_mid by (rewrite ?L; lia). done.
  - rewrite (assoc_L (++) (le_bytes 4 v)), slice_app_mid by (rewrite ?length_app, ?L; lia). done.
  - rewrite !(assoc_L (++)). rewrite <-(assoc_L (++) _ _ (le_bytes 4 n)), <-(assoc_L (++) _ (le_bytes 4 t)).
    rewrite slice_app_mid by (rewrite ?length_app, ?L; lia).
    rewrite le_val_bytes. by apply Z.mod_small.
  - rewrite !(assoc_L (++)). rewrite <-(assoc_L (++) _ (le_bytes 4 b)).
    rewrite slice_app_mid by (rewrite ?length_app, ?L; lia).
    rewrite le_val_bytes. by apply Z.mod_small.
  - rewrite !(assoc_L (++)). rewrite <-(app_nil_r (_ ++ le_bytes 4 n)), <-(assoc_L (++)).
    rewrite slice_app_mid by (rewrite ?length_app, ?L; lia).
    rewrite le_val_bytes. by apply Z.mod_small.
Qed.

Lemma header_of_bytes_wf bs : zlen bs = sizeof_BlockHeader → wf_header (header_of_bytes bs).
Proof.
  unfold sizeof_BlockHeader. intros Hl.
  assert (∀ off n, 0 ≤ off → 0 ≤ n → off + n ≤ 80 → zlen (slice bs off n) = n) as Hs
    by (intros; apply slice_length; lia).
  assert (∀ off, 0 ≤ off → off + 4 ≤ 80 → is_u32 (le_val (slice bs off 4))) as Hw.
  { intros off ? ?. pose proof (le_val_range (slice bs off 4)) as Hr.
    rewrite Hs in Hr by lia. exact Hr. }
  assert (∀ off, 0 ≤ off → off + 32 ≤ 80 → is_hash (slice bs off 32)) as Hh.
  { intros off ? ?. pose proof (Hs off 32 ltac:(lia) ltac:(lia) ltac:(lia)). unfold is_hash. lia. }
  split_and!; cbn; first [apply Hw; lia|apply Hh; lia].
Qed.

(** The other half of the bijection. *)
Lemma header_bytes_of_bytes bs : zlen bs = sizeof_BlockHeader →
  header_bytes (header_of_bytes bs) = bs.
Proof.
  unfold sizeof_BlockHeader. intros Hl. unfold header_bytes, header_of_bytes.
  cbn [hdr_version prevBlockHash merkleRoot hdr_time bits nonce].
  rewrite !le_bytes_val_eq by (apply Nat2Z.inj; apply (slice_length bs); lia).
  rewrite (slice_split bs 72 4 76 4 8), (slice_split bs 68 4 72 8 12),
    (slice_split bs 36 32 68 12 44), (slice_split bs 4 32 36 44 76),
    (slice_split bs 0 4 4 76 80) by lia.
  by apply slice_all.
Qed.

Lemma header_bytes_inj a b : wf_header a → wf_header b → header_bytes a = header_bytes b → a = b.
Proof.
  intros Ha Hb E. by rewrite <-(header_of_bytes_bytes a), E, header_of_bytes_bytes.
Qed.

Lemma BlockHash_inj `{OpenSSL_SHA} Q a b :
  wf_header a → wf_header b → BlockHash_hashed a ⊆ Q → BlockHash_hashed b ⊆ Q →
  BlockHash a = BlockHash b → a = b ∨ collision_in Q.
Proof.
  intros Ha Hb Qa Qb [E|?]%(TaggedHash_inj Q); [left; by apply header_bytes_inj|by right|done..].
Qed.

Lemma BlockHash_is_hash `{OpenSSL_SHA} h : is_hash (BlockHash h).
Proof. apply TaggedHash_is_hash. Qed.
