(* ===== verification/Params.v ===== *)
(** * Consensus parameters and monetary policy: consensus/params.h, params.cpp *)

From S2P Require Import Prelude.

Record VBDeployment := mkVBDeployment {
  bit : Z;
  nStartTime : Z;
  nTimeout : Z;
}.

(** [enum DeploymentPos] *)
Definition DEPLOYMENT_TESTDUMMY : nat := 0.
Definition MAX_VERSION_BITS_DEPLOYMENTS : nat := 1.

Record Params := mkParams {
  nSubsidyHalvingInterval : Z;
  nPowTargetSpacing : Z;
  nPowTargetTimespan : Z;
  nDifficultyAdjustmentInterval : Z;
  nMaxMoneyOut : Z;
  fPowAllowMinDifficultyBlocks : bool;
  nGenesisTime : Z;
  nGenesisBits : Z;
  nGenesisNonce : Z;
  genesisMessage : string;
  nRuleChangeActivationThreshold : Z;
  nMinerConfirmationWindow : Z;
  vDeployments : list VBDeployment;
}.

Definition COIN : Z := 100000000.
Definition DEFAULT_WINDOW : Z := 2016.
Definition DEFAULT_THRESHOLD : Z := u32 (DEFAULT_WINDOW * 95) `quot` 100.

Definition Main : Params := {|
  nSubsidyHalvingInterval := 210000;
  nPowTargetSpacing := 60;
  nPowTargetTimespan := 3600;
  nDifficultyAdjustmentInterval := 60;
  nMaxMoneyOut := 42000000 * COIN;
  fPowAllowMinDifficultyBlocks := false;
  nGenesisTime := 1735689600;
  nGenesisBits := 0x1e0fffff;
  nGenesisNonce := 0;
  genesisMessage := "DRACHMA: Proof before trust";
  nRuleChangeActivationThreshold := DEFAULT_THRESHOLD;
  nMinerConfirmationWindow := DEFAULT_WINDOW;
  vDeployments := [mkVBDeployment 28 (-1) (-1)];
|}.

Definition Testnet : Params := {|
  nSubsidyHalvingInterval := 210000;
  nPowTargetSpacing := 60;
  nPowTargetTimespan := 3600;
  nDifficultyAdjustmentInterval := 60;
  nMaxMoneyOut := 42000000 * COIN;
  fPowAllowMinDifficultyBlocks := true;
  nGenesisTime := 1735689600;
  nGenesisBits := 0x1f00ffff;
  nGenesisNonce := 0;
  genesisMessage := "DRACHMA TESTNET";
  nRuleChangeActivationThreshold := DEFAULT_THRESHOLD;
  nMinerConfirmationWindow := DEFAULT_WINDOW;
  vDeployments := [mkVBDeployment 28 (-1) (-1)];
|}.

(** [height / static_cast<int>(interval)] is a signed division; shifting by a
    negative count (a halving interval above INT_MAX) is undefined. *)
Definition GetBlockSubsidy (height : Z) (params : Params) : result Z :=
  if bool_decide (height < 0) then Ok 0 else
  let interval := i32 (nSubsidyHalvingInterval params) in
  if bool_decide (interval = 0) then Undef division_by_zero else
  let halvings := height `quot` interval in
  if bool_decide (64 ≤ halvings) then Ok 0 else
  if bool_decide (halvings < 0) then Undef invalid_shift else
  let subsidy := 50 * COIN in
  Ok (Z.shiftr subsidy halvings).

Definition GetMaxMoney (params : Params) : Z := nMaxMoneyOut params.

Definition MoneyRange (amount : Z) (params : Params) : bool :=
  bool_decide (amount ≤ nMaxMoneyOut params).

(** The ranges under which the parameters are used without undefined behaviour. *)
Definition wf_params (p : Params) : Prop :=
  0 < nSubsidyHalvingInterval p < 2 ^ 31 ∧
  0 < nPowTargetTimespan p < 2 ^ 32 ∧
  is_u64 (nMaxMoneyOut p) ∧ is_u32 (nGenesisTime p) ∧
  is_u32 (nGenesisBits p) ∧ is_u32 (nGenesisNonce p).

#[global] Instance wf_params_dec p : Decision (wf_params p).
Proof. unfold wf_params. apply _. Defined.

(** ** The subsidy schedule *)

(** The mathematical schedule: 50 coins, halved [height / interval] times. *)
Definition subsidy_at (interval height : Z) : Z := Z.shiftr (50 * COIN) (height `div` interval).

Lemma GetBlockSubsidy_spec params height :
  wf_params params → 0 ≤ height →
  GetBlockSubsidy height params
  = Ok (subsidy_at (nSubsidyHalvingInterval params) height).
Proof.
  intros [Hi _] Hh. unfold GetBlockSubsidy, subsidy_at.
  rewrite bool_decide_false, i32_id, bool_decide_false, Z.quot_div_nonneg by lia.
  set (k := height `div` _). assert (0 ≤ k) by (apply Z.div_pos; lia).
  case_bool_decide.
  - rewrite Z.shiftr_div_pow2, Z.div_small; [done| |done].
    split; [unfold COIN; lia|]. apply Z.lt_le_trans with (2 ^ 64); [done|].
    apply Z.pow_le_mono_r; lia.
  - by rewrite bool_decide_false by lia.
Qed.

Lemma subsidy_at_range i h : 0 < i → 0 ≤ h → 0 ≤ subsidy_at i h ≤ 50 * COIN.
Proof.
  intros. unfold subsidy_at. pose proof (Z.div_pos h i).
  rewrite Z.shiftr_div_pow2 by lia.
  assert (0 < 2 ^ (h `div` i)) by (apply Z.pow_pos_nonneg; lia).
  split; [apply Z.div_pos; [done|lia]|].
  apply Z.div_le_upper_bound; [done|]. unfold COIN. lia.
Qed.

(** Coins issued by the blocks of heights [0 .. n-1]. *)
Definition issued (i n : Z) : Z := sum_Z (subsidy_at i <$> seqZ 0 n).

(** Sum of the first [q] epoch rewards. *)
Definition epochs (q : nat) : Z :=
  sum_Z ((λ k, Z.shiftr (50 * COIN) k) <$> seqZ 0 (Z.of_nat q)).

Lemma issued_S i n : 0 ≤ n → issued i (n + 1) = issued i n + subsidy_at i n.
Proof.
  intros. unfold issued. rewrite seqZ_app, fmap_app, sum_Z_app by lia.
  rewrite Z.add_0_l, (seqZ_cons n), (seqZ_nil _ (Z.pred 1)) by lia. simpl. lia.
Qed.

Lemma epochs_S q : epochs (S q) = epochs q + Z.shiftr (50 * COIN) (Z.of_nat q).
Proof. unfold epochs. rewrite seqZ_S, fmap_app, sum_Z_app, Z.add_0_l.
  cbn [fmap list_fmap sum_Z foldr]. lia. Qed.

(** Whole epochs, then the begun one. *)
Lemma issued_epochs i n : 0 < i →
  issued i (Z.of_nat n) =
  i * epochs (Z.to_nat (Z.of_nat n `div` i)) + (Z.of_nat n `mod` i) * subsidy_at i (Z.of_nat n).
Proof.
  intros Hi. induction n as [|n IH].
  - rewrite Z.mod_0_l, Z.div_0_l by lia. unfold epochs, issued. simpl. lia.
  - replace (Z.of_nat (S n)) with (Z.of_nat n + 1) by lia.
    rewrite issued_S, IH by lia. unfold subsidy_at. set (m := Z.of_nat n) in *.
    pose proof (Z.div_mod m i ltac:(lia)). pose proof (Z.mod_pos_bound m i ltac:(lia)).
    assert (0 ≤ m `div` i) by (apply Z.div_pos; lia).
    destruct (decide (m `mod` i = i - 1)) as [E|E].
    + assert ((m + 1) `div` i = m `div` i + 1) as -> by (symmetry; apply (Z.div_unique _ _ _ 0); lia).
      assert ((m + 1) `mod` i = 0) as -> by (symmetry; apply (Z.mod_unique _ _ (m `div` i + 1)); lia).
      replace (Z.to_nat (m `div` i + 1)) with (S (Z.to_nat (m `div` i))) by lia.
      rewrite epochs_S, E, Z2Nat.id by lia. ring.
    + assert ((m + 1) `div` i = m `div` i) as -> by (symmetry; apply (Z.div_unique _ _ _ (m `mod` i + 1)); lia).
      assert ((m + 1) `mod` i = m `mod` i + 1) as -> by (symmetry; apply (Z.mod_unique _ _ (m `div` i)); lia).
      ring.
Qed.

Lemma shiftr_late k : 33 ≤ k → Z.shiftr (50 * COIN) k = 0.
Proof.
  intros. rewrite Z.shiftr_div_pow2, Z.div_small; [done| |lia].
  split; [done|]. apply Z.lt_le_trans with (2 ^ 33); [done|]. apply Z.pow_le_mono_r; lia.
Qed.

Lemma epochs_late q : (33 ≤ q)%nat → epochs q = 9999999989.
Proof.
  induction 1 as [|q Hq IH]; [vm_compute; reflexivity|].
  rewrite epochs_S, IH, shiftr_late by lia. done.
Qed.

Lemma epochs_mono q q' : (q ≤ q')%nat → epochs q ≤ epochs q'.
Proof.
  induction 1 as [|q' Hq IH]; [done|]. rewrite epochs_S.
  assert (0 ≤ Z.shiftr (50 * COIN) (Z.of_nat q')) by by apply Z.shiftr_nonneg.
  lia.
Qed.

Lemma issued_bound i n : 0 < i → 0 ≤ n →
  issued i n ≤ i * 9999999989 ∧ (33 * i ≤ n → issued i n = i * 9999999989).
Proof.
  intros Hi Hn. replace n with (Z.of_nat (Z.to_nat n)) by lia.
  rewrite issued_epochs, Z2Nat.id by done. set (q := n `div` i).
  assert (0 ≤ q) by by apply Z.div_pos.
  pose proof (Z.mod_pos_bound n i ltac:(lia)).
  pose proof (epochs_mono (S (Z.to_nat q)) (Nat.max (S (Z.to_nat q)) 33) ltac:(lia)) as Hm.
  rewrite (epochs_late (Nat.max _ _)), epochs_S, Z2Nat.id in Hm by lia.
  unfold subsidy_at. fold q.
  assert (0 ≤ Z.shiftr (50 * COIN) q) by by apply Z.shiftr_nonneg.
  split; [nia|]. intros Hl. assert (33 ≤ q) by (apply Z.div_le_lower_bound; lia).
  rewrite shiftr_late, epochs_late by lia. lia.
Qed.

(** Specification: the exact sum of the subsidies of the blocks at heights
    [0 .. n-1].  No function of the code computes it. *)
Definition supply (params : Params) (n : Z) : result Z :=
  foldM (λ acc h, s ← GetBlockSubsidy h params; Ok (acc + s)) 0 (seqZ 0 n).

Lemma supply_issued params n : wf_params params → 0 ≤ n →
  supply params n = Ok (issued (nSubsidyHalvingInterval params) n).
Proof.
  intros Hwf Hn. unfold supply.
  replace (foldM _ 0 (seqZ 0 n)) with
    (foldM (λ acc h, Ok (acc + subsidy_at (nSubsidyHalvingInterval params) h)) 0 (seqZ 0 n)).
  - unfold issued. generalize 0 at 2 3. intros k.
    enough (∀ acc l, foldM (λ acc h, Ok (acc + subsidy_at (nSubsidyHalvingInterval params) h))
      acc l = Ok (acc + sum_Z (subsidy_at (nSubsidyHalvingInterval params) <$> l))) as -> by done.
    intros acc l. revert acc. induction l as [|x l IH]; intros acc; simpl.
    + by rewrite Z.add_0_r.
    + by rewrite IH, Z.add_assoc.
  - apply foldM_ext. intros acc h [??]%elem_of_seqZ.
    by rewrite GetBlockSubsidy_spec by (done || lia).
Qed.

(** ** Properties *)

(** C15. The emission schedule is bounded: for every parameter set whose halving
    interval fits an [int], the subsidies of the first [n] blocks total at most
    9,999,999,989 base units per block of an interval, exactly that from the 33rd
    halving on, and no subsidy computation is undefined.  With the 210,000-block
    interval of [Main] and [Testnet] that is 20,999,999.9769 DRM, half of the
    42,000,000 DRM of [nMaxMoneyOut]. *)
Theorem supply_bounded params n :
  wf_params params → 0 ≤ n →
  ∃ t, supply params n = Ok t ∧
    0 ≤ t ≤ nSubsidyHalvingInterval params * 9999999989 ∧
    (33 * nSubsidyHalvingInterval params ≤ n →
     t = nSubsidyHalvingInterval params * 9999999989).
Proof.
  intros Hwf Hn. exists (issued (nSubsidyHalvingInterval params) n).
  split; [by apply supply_issued|]. destruct Hwf as [Hi _].
  pose proof (issued_bound (nSubsidyHalvingInterval params) n) as [??]; [lia..|].
  split_and!; [|done..]. apply sum_Z_nonneg, Forall_fmap, Forall_seqZ.
  intros h ?. apply subsidy_at_range; lia.
Qed.

Lemma supply_bounded_witness :
  ∃ t, supply Main 6930000 = Ok t ∧ 0 ≤ t ≤ 210000 * 9999999989 ∧
    (33 * 210000 ≤ 6930000 → t = 210000 * 9999999989).
Proof. apply (supply_bounded Main 6930000); by_decide. Defined.
