(* ===== verification/Versionbits.v ===== *)
(** * Version-bits signalling: consensus/versioning/versionbits.h, versionbits.cpp

    The deployment state machine DEFINED / STARTED / LOCKED_IN / ACTIVE / FAILED
    evaluated over the periods of a history, and the block version a miner sets.  The
    machine params.h documents treats a start or timeout of -1 specially, the code's
    does not; both are instances of one transition relation.

    [std::sort] with the height comparator leaves the order of samples of equal
    height unspecified, so it is the class [StdSort]: any function that returns an
    ordered permutation. *)

From stdpp Require Import sorting.
From S2P Require Import Prelude Params.

Inductive ThresholdState := DEFINED | STARTED | LOCKED_IN | ACTIVE | FAILED.

#[global] Instance ThresholdState_eq_dec : EqDecision ThresholdState.
Proof. solve_decision. Defined.

Record BlockVersionSample := mkSample { height : Z; time : Z; version : Z }.

Definition by_height (a b : BlockVersionSample) : Prop := height a ≤ height b.
#[global] Instance by_height_dec : RelDecision by_height.
Proof. intros a b. unfold by_height. apply _. Defined.

Class StdSort := {
  sort_samples : list BlockVersionSample → list BlockVersionSample;
  sort_samples_perm l : sort_samples l ≡ₚ l;
  sort_samples_sorted l : StronglySorted by_height (sort_samples l);
}.

Definition VersionBitsMask (deployment : VBDeployment) : result Z :=
  throw_if (bool_decide (bit deployment < 0) || bool_decide (bit deployment > 28))
    (invalid_argument "Version bits deployment bit out of range");;
  Ok (u32 (Z.shiftl 1 (bit deployment))).

(** [version & mask]: the signed version is converted to unsigned. *)
Definition VersionBitsSignal (version : Z) (deployment : VBDeployment) : result bool :=
  mask ← VersionBitsMask deployment;
  Ok (negb (bool_decide (Z.land (u32 version) mask = 0))).

Definition MedianTime (window : list BlockVersionSample) : result Z :=
  if is_empty window then Ok 0 else
  let times := merge_sort Z.le (time <$> window) in
  let mid := (length times / 2)%nat in
  if bool_decide (length times `mod` 2 ≠ 0)%nat then Ok (times !!! mid) else
  s ← chk_i64 ((times !!! (mid - 1)%nat) + (times !!! mid));
  Ok (s `quot` 2).

(** The signal count of the STARTED case (80-84). *)
Definition count_signals (deployment : VBDeployment) (window : list BlockVersionSample) :
    result Z :=
  foldM (λ signals entry,
    b ← VersionBitsSignal (version entry) deployment;
    Ok (if b : bool then signals + 1 else signals)) 0 window.

(** The switch over the state of the period (66-95). *)
Definition period_step (deployment : VBDeployment) (threshold : Z)
    (window : list BlockVersionSample) (mtp : Z) (state : ThresholdState) :
    result ThresholdState :=
  match state with
  | DEFINED =>
      if bool_decide (nTimeout deployment ≤ mtp) then Ok FAILED
      else if bool_decide (nStartTime deployment ≤ mtp) then Ok STARTED
      else Ok DEFINED
  | STARTED =>
      if bool_decide (nTimeout deployment ≤ mtp) then Ok FAILED
      else
        signals ← count_signals deployment window;
        if bool_decide (threshold ≤ signals) then Ok LOCKED_IN else Ok STARTED
  | LOCKED_IN => Ok ACTIVE
  | ACTIVE | FAILED => Ok state
  end.

(** The samples of [sorted] in one period (58-62). *)
Definition period_window (periodStart periodEnd : Z) (sorted : list BlockVersionSample) :
    list BlockVersionSample :=
  filter (λ e, periodStart ≤ height e ∧ height e ≤ periodEnd) sorted.

(** [periodStart] and [periodEnd] of period [p] (55-56), in [int] arithmetic. *)
Definition period_bounds (period p : Z) : result (Z * Z) :=
  periodStart ← chk_i32 (p * period);
  p1 ← chk_i32 (p + 1);
  nextStart ← chk_i32 (p1 * period);
  periodEnd ← chk_i32 (nextStart - 1);
  Ok (periodStart, periodEnd).

Definition sample_default : BlockVersionSample := mkSample 0 0 0.

Section VersionBits.
  Context `{StdSort}.

Definition VersionBitsState (params : Params) (deployment : VBDeployment)
    (history : list BlockVersionSample) : result ThresholdState :=
  if is_empty history then Ok DEFINED else
  let sortedHistory := sort_samples history in
  let period := i32 (nMinerConfirmationWindow params) in
  let threshold := i32 (nRuleChangeActivationThreshold params) in
  let currentHeight := height (List.last sortedHistory sample_default) in
  next ← chk_i32 (currentHeight + 1);
  if bool_decide (period = 0) then Undef division_by_zero else
  currentPeriod ← chk_i32 (next `quot` period);
  for_range (currentPeriod + 1) (λ p state,
    '(periodStart, periodEnd) ← period_bounds period p;
    let window := period_window periodStart periodEnd sortedHistory in
    mtp ← MedianTime window;
    period_step deployment threshold window mtp state) DEFINED.

End VersionBits.

Definition ComputeBlockVersion (params : Params) (deployments : list VBDeployment)
    (medianTimePast : Z) : result Z :=
  version ← foldM (λ version dep,
    if bool_decide (bit dep < 0) then Ok version else
    if bool_decide (nStartTime dep = -1) then Ok version else
    if bool_decide (medianTimePast < nStartTime dep) then Ok version else
    if bool_decide (nTimeout dep ≠ -1) && bool_decide (nTimeout dep ≤ medianTimePast)
    then Ok version else
    mask ← VersionBitsMask dep;
    Ok (Z.lor version mask)) 0x20000000 deployments;
  Ok (Z.lor version 0x10000000).

#[global] Instance by_height_total : Total by_height.
Proof. intros a b. unfold by_height. lia. Qed.
#[global] Instance by_height_trans : Transitive by_height.
Proof. intros a b c. unfold by_height. lia. Qed.

(** One implementation of the interface. *)
#[export] Program Instance merge_StdSort : StdSort :=
  {| sort_samples := merge_sort by_height |}.
Next Obligation. apply merge_sort_Permutation. Qed.
Next Obligation. apply (StronglySorted_merge_sort by_height). Qed.

(** ** The result depends on the history as a multiset *)

Lemma last_max (l : list BlockVersionSample) d e :
  StronglySorted by_height l → e ∈ l → height e ≤ height (List.last l d).
Proof.
  intros Hs. revert e.
  induction Hs as [|x l Hs IH Hx]; intros e He; [by apply not_elem_of_nil in He|].
  destruct l as [|y l]; [by apply list_elem_of_singleton in He as ->|].
  change (List.last (x :: y :: l) d) with (List.last (y :: l) d).
  apply elem_of_cons in He as [->|He]; [|by apply IH].
  trans (height y); [by inversion_clear Hx|]. apply IH. set_solver.
Qed.

Lemma last_elem (l : list BlockVersionSample) d : l ≠ [] → List.last l d ∈ l.
Proof.
  induction l as [|x [|y l] IH]; intros Hl; [done|set_solver|].
  apply elem_of_cons. right. by apply IH.
Qed.

Lemma sort_samples_nil `{StdSort} l : l ≠ [] → sort_samples l ≠ [].
Proof. intros Hl E. apply Hl, Permutation_nil. by rewrite <-E, sort_samples_perm. Qed.

Lemma tip_height_perm (s1 s2 : list BlockVersionSample) d :
  StronglySorted by_height s1 → StronglySorted by_height s2 →
  s1 ≡ₚ s2 → s1 ≠ [] → height (List.last s1 d) = height (List.last s2 d).
Proof.
  intros H1 H2 Hp Hne. assert (s2 ≠ []) by (intros ->; by apply Permutation_nil_r in Hp).
  apply Z.le_antisymm.
  - apply last_max; [done|]. rewrite <-Hp. by apply last_elem.
  - apply last_max; [done|]. rewrite Hp. by apply last_elem.
Qed.

Lemma MedianTime_perm w w' : w ≡ₚ w' → MedianTime w = MedianTime w'.
Proof.
  intros Hp. unfold MedianTime.
  assert (merge_sort Z.le (time <$> w) = merge_sort Z.le (time <$> w')) as ->.
  { eapply (StronglySorted_unique Z.le); try apply (StronglySorted_merge_sort Z.le).
    by rewrite !merge_sort_Permutation, Hp. }
  by rewrite (is_empty_perm _ _ Hp).
Qed.

(** Counting with a fixed mask. *)
Lemma count_signals_eq d w :
  count_signals d w =
  match w with
  | [] => Ok 0
  | _ => mask ← VersionBitsMask d;
         Ok (zlen (filter (λ e, Z.land (u32 (version e)) mask ≠ 0) w))
  end.
Proof.
  unfold count_signals, VersionBitsSignal.
  destruct (VersionBitsMask d) as [m| |]; [|by destruct w..]. cbn [mbind result_bind].
  enough (∀ acc, foldM (λ signals entry,
    b ← Ok (negb (bool_decide (Z.land (u32 (version entry)) m = 0)));
    Ok (if b : bool then signals + 1 else signals)) acc w
    = Ok (acc + zlen (filter (λ e, Z.land (u32 (version e)) m ≠ 0) w))) as E.
  { destruct w; [done|]. exact (E 0). }
  induction w as [|e w IH]; intros acc; [by rewrite Z.add_0_r|].
  cbn [foldM mbind result_bind]. rewrite IH, filter_cons.
  case_bool_decide; case_decide; try done;
    cbn [negb length]; f_equal; lia.

Qed.

Lemma count_signals_perm d w w' : w ≡ₚ w' → count_signals d w = count_signals d w'.
Proof.
  intros Hp. rewrite !count_signals_eq.
  destruct w as [|x w], w' as [|y w']; [done| | |].
  - by apply Permutation_nil_l in Hp.
  - by apply Permutation_nil_r in Hp.
  - destruct (VersionBitsMask d); [|done..]. simpl mbind. by rewrite Hp.
Qed.

Lemma period_step_perm d t w w' mtp st :
  w ≡ₚ w' → period_step d t w mtp st = period_step d t w' mtp st.
Proof. intros Hp. unfold period_step. by rewrite (count_signals_perm d w w'). Qed.

Lemma VersionBitsState_multiset (S1 S2 : StdSort) params dep h h' :
  h ≡ₚ h' →
  @VersionBitsState S1 params dep h = @VersionBitsState S2 params dep h'.
Proof.
  intros Hp. unfold VersionBitsState. rewrite (is_empty_perm _ _ Hp).
  destruct h' as [|x h']; [done|]. cbn [is_empty].
  assert (h ≠ []) as Hh by (intros ->; by apply Permutation_nil_l in Hp).
  assert (@sort_samples S1 h ≡ₚ @sort_samples S2 (x :: h')) as Hsort.
  { by rewrite !sort_samples_perm. }
  rewrite (tip_height_perm _ (@sort_samples S2 (x :: h')) _
    (sort_samples_sorted _) (sort_samples_sorted _) Hsort (sort_samples_nil _ Hh)).
  destruct (chk_i32 (height _ + 1)) as [next| |]; [|done..]. cbn [mbind result_bind].
  case_bool_decide; [done|].
  destruct (chk_i32 (next `quot` _)) as [cp| |]; [|done..]. cbn [mbind result_bind].
  apply for_range_ext. intros p st.
  destruct (period_bounds _ p) as [[ps pe]| |]; [|done..]. cbn [mbind result_bind].
  assert (period_window ps pe (@sort_samples S1 h)
          ≡ₚ period_window ps pe (@sort_samples S2 (x :: h'))) as Hw
    by (unfold period_window; by rewrite Hsort).
  rewrite (MedianTime_perm _ _ Hw).
  destruct (MedianTime _); [|done..]. cbn [mbind result_bind]. by apply period_step_perm.
Qed.

(** ** The state machine as a transition relation

    The rules say when a median time starts a deployment and when it times it out:
    [documented_rules] as the comment on [VBDeployment] in params.h has it, where -1
    disables a deployment or keeps it for ever; [code_rules] as versionbits.cpp compares.
    [vb_trans r d t w s s'] is one period of the deployment [d] with threshold [t] under
    the rules [r] over the samples [w]; [vb_run] chains the periods of a history. *)
Record vb_rules := mkRules { starts : Z → Prop; times_out : Z → Prop }.

Definition documented_rules (d : VBDeployment) : vb_rules := {|
  starts m := nStartTime d ≠ -1 ∧ nStartTime d ≤ m;
  times_out m := nTimeout d ≠ -1 ∧ nTimeout d ≤ m;
|}.
Definition code_rules (d : VBDeployment) : vb_rules := {|
  starts m := nStartTime d ≤ m;
  times_out m := nTimeout d ≤ m;
|}.

(** Rules with the same meaning. *)
#[export] Instance vb_rules_equiv : Equiv vb_rules := λ r r',
  ∀ m, (starts r m ↔ starts r' m) ∧ (times_out r m ↔ times_out r' m).

Inductive vb_trans (r : vb_rules) (d : VBDeployment) (t : Z) (w : list BlockVersionSample) :
    ThresholdState → ThresholdState → Prop :=
  | vb_timeout s m : s = DEFINED ∨ s = STARTED → MedianTime w = Ok m →
      times_out r m → vb_trans r d t w s FAILED
  | vb_wait m : MedianTime w = Ok m → ¬ times_out r m → ¬ starts r m →
      vb_trans r d t w DEFINED DEFINED
  | vb_start m : MedianTime w = Ok m → ¬ times_out r m → starts r m →
      vb_trans r d t w DEFINED STARTED
  | vb_signalling m n : MedianTime w = Ok m → ¬ times_out r m →
      count_signals d w = Ok n → n < t → vb_trans r d t w STARTED STARTED
  | vb_lock m n : MedianTime w = Ok m → ¬ times_out r m →
      count_signals d w = Ok n → t ≤ n → vb_trans r d t w STARTED LOCKED_IN
  | vb_activate m : MedianTime w = Ok m → vb_trans r d t w LOCKED_IN ACTIVE
  | vb_final s m : s = ACTIVE ∨ s = FAILED → MedianTime w = Ok m → vb_trans r d t w s s.

Inductive vb_run (r : vb_rules) (d : VBDeployment) (t : Z) :
    list (list BlockVersionSample) → ThresholdState → ThresholdState → Prop :=
  | vb_done s : vb_run r d t [] s s
  | vb_step w ws s s' s'' : vb_trans r d t w s s' → vb_run r d t ws s' s'' →
      vb_run r d t (w :: ws) s s''.


#[export] Instance vb_trans_proper :
  Proper ((≡) ==> eq ==> eq ==> eq ==> eq ==> eq ==> impl) vb_trans.
Proof.
  intros r r' Hr d ? <- t ? <- w ? <- s ? <- s' ? <- Ht.
  destruct Ht as [s m ?? H|m ? H H'|m ? H H'|m n ? H|m n ? H| |];
    try (rewrite (proj2 (Hr m)) in H); try (rewrite (proj1 (Hr m)) in H');
    econstructor; eauto.
Qed.

#[export] Instance vb_run_proper :
  Proper ((≡) ==> eq ==> eq ==> eq ==> eq ==> eq ==> impl) vb_run.
Proof.
  intros r r' Hr d ? <- t ? <- ws ? <- s ? <- s' ? <- Hrun.
  induction Hrun as [s|w ws s s1 s2 Ht _ IH]; [constructor|]. rewrite Hr in Ht. by econstructor.
Qed.

#[export] Instance vb_rules_equivalence : Equivalence (≡@{vb_rules}).
Proof.
  split; [by intros r m|intros r r' Hr m; by destruct (Hr m)|].
  intros r1 r2 r3 H1 H2 m. destruct (H1 m) as [-> ->]. apply H2.
Qed.

#[export] Hint Constructors vb_trans vb_run : drachma.

Definition period_exec (d : VBDeployment) (t : Z) (s : ThresholdState)
    (w : list BlockVersionSample) : result ThresholdState :=
  mtp ← MedianTime w; period_step d t w mtp s.

Lemma period_exec_trans d t w s s' :
  period_exec d t s w = Ok s' ↔ vb_trans (code_rules d) d t w s s'.
Proof.
  unfold period_exec, period_step. split.
  - intros E. apply bind_Ok_inv in E as (m & Hm & E).
    destruct s; repeat case_bool_decide; simplify_result;
      repeat case_bool_decide; simplify_eq; eauto 6 with drachma lia.
  - destruct 1 as [s m Hs Hm|m Hm|m Hm|m n Hm ? Hc|m n Hm ? Hc|m Hm|s m Hs Hm];
      rewrite Hm; cbn [mbind result_bind code_rules starts times_out] in *.
    1: destruct Hs as [-> | ->]; by rewrite bool_decide_true.
    5: done.
    5: by destruct Hs as [-> | ->].
    all: rewrite bool_decide_false by lia; rewrite ?Hc; cbn [mbind result_bind].
    all: first [by rewrite bool_decide_true by lia|by rewrite bool_decide_false by lia].
Qed.

Lemma foldM_run d t ws s s' :
  foldM (period_exec d t) s ws = Ok s' ↔ vb_run (code_rules d) d t ws s s'.
Proof.
  revert s. induction ws as [|w ws IH]; intros s; cbn [foldM].
  - split; [intros [= ->]; constructor|by inversion_clear 1].
  - split.
    + intros (s1 & H1%period_exec_trans & H2%IH)%bind_Ok_inv. eauto with drachma.
    + inversion_clear 1 as [|? ? ? s1 ? H1%period_exec_trans H2].
      rewrite H1. by apply IH.
Qed.

(** ** Inputs on which no [int] or [int64_t] operation overflows *)

Definition sample_safe (params : Params) (e : BlockVersionSample) : Prop :=
  0 ≤ height e ∧ height e + 1 + nMinerConfirmationWindow params < 2 ^ 31 ∧
  - 2 ^ 62 ≤ time e < 2 ^ 62.
Definition vb_safe (params : Params) (h : list BlockVersionSample) : Prop :=
  0 < nMinerConfirmationWindow params < 2 ^ 31 ∧
  0 ≤ nRuleChangeActivationThreshold params < 2 ^ 31 ∧
  Forall (sample_safe params) h.

#[global] Instance vb_safe_dec params h : Decision (vb_safe params h).
Proof. unfold vb_safe, sample_safe. apply _. Defined.

Section Safe.
  Context `{StdSort}.

(** Period of the block after the tip, and the samples of each period up to it. *)
Definition tip_height (h : list BlockVersionSample) : Z :=
  height (List.last (sort_samples h) sample_default).
Definition current_period (params : Params) (h : list BlockVersionSample) : Z :=
  (tip_height h + 1) `div` nMinerConfirmationWindow params.
Definition window_of (params : Params) (h : list BlockVersionSample) (p : Z) :
    list BlockVersionSample :=
  let n := nMinerConfirmationWindow params in
  period_window (p * n) ((p + 1) * n - 1) (sort_samples h).
Definition windows (params : Params) (h : list BlockVersionSample) :
    list (list BlockVersionSample) :=
  window_of params h <$> seqZ 0 (current_period params h + 1).

Lemma tip_height_elem h : h ≠ [] → ∃ e, e ∈ h ∧ height e = tip_height h.
Proof.
  intros Hh. unfold tip_height. eexists. split; [|done].
  apply list_elem_of_In, (Permutation_in _ (sort_samples_perm h)), list_elem_of_In.
  by apply last_elem, sort_samples_nil.
Qed.

Lemma period_bounds_Ok n p : 0 ≤ p → 0 < n → (p + 1) * n < 2 ^ 31 →
  period_bounds n p = Ok (p * n, (p + 1) * n - 1).
Proof.
  intros. unfold period_bounds.
  rewrite chk_i32_Ok by nia. cbn [mbind result_bind].
  rewrite chk_i32_Ok by nia. cbn [mbind result_bind].
  rewrite chk_i32_Ok by nia. cbn [mbind result_bind].
  rewrite chk_i32_Ok by nia. done.
Qed.

Lemma VersionBitsState_run params dep h :
  vb_safe params h → h ≠ [] →
  VersionBitsState params dep h =
  foldM (period_exec dep (nRuleChangeActivationThreshold params)) DEFINED (windows params h).
Proof.
  intros (Hn & Ht & Hall) Hh. unfold VersionBitsState, windows, current_period.
  rewrite is_empty_false, !i32_id by (done || lia). fold (tip_height h).
  destruct (tip_height_elem h Hh) as (e & He & <-).
  eapply Forall_elem in Hall as (?&?&_); [|done].
  set (n := nMinerConfirmationWindow params) in *. set (cp := (height e + 1) `div` n).
  assert (0 ≤ cp) by (apply Z.div_pos; lia).
  pose proof (Z.mul_div_le (height e + 1) n ltac:(lia)). fold cp in H2.
  rewrite chk_i32_Ok by lia. cbn [mbind result_bind].
  rewrite bool_decide_false, Z.quot_div_nonneg by lia. fold cp.
  rewrite chk_i32_Ok by nia. cbn [mbind result_bind].
  rewrite for_range_foldM, foldM_fmap. apply foldM_ext.
  intros s p Hp%elem_of_seqZ. rewrite period_bounds_Ok by nia. done.
Qed.

Lemma VersionBitsState_vb_run params dep h s :
  vb_safe params h →
  VersionBitsState params dep h = Ok s ↔
  if is_empty h then s = DEFINED
  else vb_run (code_rules dep) dep (nRuleChangeActivationThreshold params) (windows params h)
         DEFINED s.
Proof.
  intros Hsafe. destruct h as [|e h]; [unfold VersionBitsState; naive_solver|].
  rewrite VersionBitsState_run by done. apply foldM_run.
Qed.
End Safe.

Lemma times_elem w i : i < zlen w → 0 ≤ i →
  ∃ e, e ∈ w ∧ (merge_sort Z.le (time <$> w)) !!! Z.to_nat i = time e.
Proof.
  intros. assert (length (merge_sort Z.le (time <$> w)) = length w) as L.
  { by rewrite merge_sort_Permutation, length_fmap. }
  destruct (lookup_lt_is_Some_2 (merge_sort Z.le (time <$> w)) (Z.to_nat i)) as [z Hz];
    [lia|].
  rewrite (list_lookup_total_correct _ _ _ Hz).
  apply list_elem_of_lookup_2 in Hz. rewrite merge_sort_Permutation in Hz.
  apply list_elem_of_fmap in Hz as (e & -> & ?). eauto.
Qed.

(** The median of a window exists and lies above every non-positive lower bound of
    its times. *)
Lemma MedianTime_Ok w :
  Forall (λ e, - 2 ^ 62 ≤ time e < 2 ^ 62) w →
  ∃ m, MedianTime w = Ok m ∧ (Forall (λ e, 0 ≤ time e) w → 0 ≤ m).
Proof.
  intros Hw. unfold MedianTime. destruct (decide (w = [])) as [->|Hne].
  { exists 0. split; [done|lia]. }
  rewrite is_empty_false by done.
  assert (length (merge_sort Z.le (time <$> w)) = length w) as ->.
  { by rewrite merge_sort_Permutation, length_fmap. }
  assert (0 < length w)%nat by (destruct w; [done|simpl; lia]).
  set (k := (length w / 2)%nat). assert (k < length w)%nat by (apply Nat.div_lt; lia).
  destruct (times_elem w (Z.of_nat k)) as (e & He & Ee); [lia..|].
  rewrite Nat2Z.id in Ee. case_bool_decide as Hodd.
  - exists (time e). rewrite Ee. split; [done|]. rewrite Forall_elem. auto.
  - assert (1 ≤ k)%nat. { unfold k. apply Nat.div_le_lower_bound; [lia|].
      destruct (length w) as [|[|]]; simpl in *; lia. }
    destruct (times_elem w (Z.of_nat (k - 1))) as (e' & He' & Ee'); [lia..|].
    rewrite Nat2Z.id in Ee'. rewrite Ee, Ee'.
    rewrite Forall_elem in Hw. pose proof (Hw e He). pose proof (Hw e' He').
    rewrite chk_i64_Ok by lia. eexists. split; [done|].
    rewrite Forall_elem. intros Hp. apply Z.quot_pos; [|lia].
    pose proof (Hp e He). pose proof (Hp e' He'). lia.
Qed.


Section Periods.
  Context `{StdSort}.

Lemma window_elem params h w : w ∈ windows params h → ∀ e, e ∈ w → e ∈ h.
Proof.
  intros (p & -> & _)%list_elem_of_fmap e He.
  unfold window_of, period_window in He. apply list_elem_of_filter in He as [_ He].
  apply list_elem_of_In, (Permutation_in _ (sort_samples_perm h)), list_elem_of_In. done.
Qed.

Lemma windows_median params h w : vb_safe params h → w ∈ windows params h →
  ∃ m, MedianTime w = Ok m ∧ (Forall (λ e, 0 ≤ time e) h → 0 ≤ m).
Proof.
  intros (_ & _ & Hall) Hw. rewrite Forall_elem in Hall.
  destruct (MedianTime_Ok w) as (m & Hm & Hpos).
  - apply Forall_elem. intros e He. by apply Hall, (window_elem params h w).
  - exists m. split; [done|]. rewrite Forall_elem. intros Hh. apply Hpos, Forall_elem.
    intros e He. by apply Hh, (window_elem params h w).
Qed.

Lemma current_period_nonneg params h : vb_safe params h → h ≠ [] → 0 ≤ current_period params h.
Proof.
  intros (Hn & _ & Hall) Hh. destruct (tip_height_elem h Hh) as (e & He & E).
  eapply Forall_elem in Hall as (?&?&_); [|done].
  apply Z.div_pos; lia.
Qed.


End Periods.

(** What a run that ends in ACTIVE went through, by the state it starts in. *)
Lemma vb_run_active d t ws s s' : vb_run (code_rules d) d t ws s s' → s' = ACTIVE →
  let started w := ∃ m, MedianTime w = Ok m ∧ nStartTime d ≤ m < nTimeout d in
  let locked w := ∃ m n, MedianTime w = Ok m ∧ m < nTimeout d ∧
                         count_signals d w = Ok n ∧ t ≤ n in
  match s with
  | DEFINED => ∃ i j w w', (i < j)%nat ∧ (S j < length ws)%nat ∧
      ws !! i = Some w ∧ ws !! j = Some w' ∧ started w ∧ locked w'
  | STARTED => ∃ j w', (S j < length ws)%nat ∧ ws !! j = Some w' ∧ locked w'
  | LOCKED_IN => (0 < length ws)%nat
  | ACTIVE => True
  | FAILED => False
  end.
Proof.
  intros Hrun ->. remember ACTIVE as a eqn:Ea.
  induction Hrun as [s|w ws s s1 s2 Ht Hr IH]; subst; [done|].
  specialize (IH eq_refl). destruct Ht; simpl in *; try done; try lia.
  - destruct IH as (i & j & u & u' & ? & ? & ? & ? & ? & ?).
    exists (S i), (S j), u, u'. split_and!; [lia|lia|done..].
  - destruct IH as (j & u' & ? & ? & ?). exists O, (S j), w, u'.
    split_and!; [lia|lia|done|done| |done]. eauto with lia.
  - destruct IH as (j & u' & ? & ? & ?). exists (S j), u'. split_and!; [lia|done|done].
  - exists O, w. split_and!; [lia|done|]. eauto 6 with lia.
  - by destruct H as [-> | ->].
Qed.

Lemma foldM_final dep t s ws :
  s = ACTIVE ∨ s = FAILED → (∀ w, w ∈ ws → ∃ m, MedianTime w = Ok m) →
  foldM (period_exec dep t) s ws = Ok s.
Proof.
  intros Hs. induction ws as [|w ws IH]; intros Hm; [done|]. cbn [foldM].
  destruct (Hm w) as [m Em]; [by apply elem_of_cons; left|].
  replace (period_exec dep t s w) with (Ok s).
  - apply IH. intros. apply Hm. by apply elem_of_cons; right.
  - unfold period_exec. rewrite Em. by destruct Hs as [-> | ->].
Qed.

(** ** The special value -1 *)

Section Sentinels.
  Context `{StdSort}.

(** The first period, and its median, which non-negative times keep from being below 0. *)
Lemma windows_first params h :
  vb_safe params h → h ≠ [] → Forall (λ e, 0 ≤ time e) h →
  ∃ w ws m, windows params h = w :: ws ∧ MedianTime w = Ok m ∧ 0 ≤ m.
Proof.
  intros Hsafe Hne Htimes. pose proof (current_period_nonneg _ _ Hsafe Hne).
  pose proof (windows_median params h) as Hmed. unfold windows in *.
  rewrite seqZ_cons, fmap_cons in * by lia.
  destruct (Hmed (window_of params h 0)) as (m & Em & Hm); [done|by apply elem_of_cons; left|].
  eexists _, _, m. split_and!; [reflexivity|done|by apply Hm].
Qed.

Lemma VersionBitsState_times_out params dep h :
  vb_safe params h → h ≠ [] → Forall (λ e, 0 ≤ time e) h → nTimeout dep ≤ 0 →
  VersionBitsState params dep h = Ok FAILED.
Proof.
  intros Hsafe Hne Htimes Hto. rewrite VersionBitsState_run by done.
  destruct (windows_first _ _ Hsafe Hne Htimes) as (w & ws & m & E & Em & Hm).
  assert (∀ w, w ∈ windows params h → ∃ m, MedianTime w = Ok m) as Hmed.
  { intros w' Hw. destruct (windows_median _ _ _ Hsafe Hw) as (m' & ? & _). by exists m'. }
  rewrite E in *. cbn [foldM]. unfold period_exec at 2. rewrite Em.
  cbn [mbind result_bind period_step]. rewrite bool_decide_true by lia.
  apply foldM_final; [by right|]. intros w' Hw. apply Hmed, elem_of_cons. by right.
Qed.



End Sentinels.

(** As documented, a deployment with two -1 would stay DEFINED. *)
Lemma documented_disabled d t ws s : nStartTime d = -1 → nTimeout d = -1 →
  vb_run (documented_rules d) d t ws DEFINED s → s = DEFINED.
Proof.
  intros Hs Ht Hr. remember DEFINED as s0 eqn:E0. induction Hr as [|w ws s s1 s2 Htr _ IH]; [done|].
  assert (s1 = DEFINED) as E1 by (subst s; inversion Htr; subst; cbn in *; naive_solver).
  subst. by apply IH.
Qed.

(** ** The signalled version *)

(** The deployments [ComputeBlockVersion] signals for. *)
Definition eligible (mtp : Z) (dep : VBDeployment) : Prop :=
  0 ≤ bit dep ∧ nStartTime dep ≠ -1 ∧ nStartTime dep ≤ mtp ∧
  (nTimeout dep = -1 ∨ mtp < nTimeout dep).
#[global] Instance eligible_dec mtp dep : Decision (eligible mtp dep).
Proof. unfold eligible. apply _. Defined.

(** Body of the loop of [ComputeBlockVersion], by eligibility. *)
Lemma version_step mtp version dep :
  (if bool_decide (bit dep < 0) then Ok version else
    if bool_decide (nStartTime dep = -1) then Ok version else
    if bool_decide (mtp < nStartTime dep) then Ok version else
    if bool_decide (nTimeout dep ≠ -1) && bool_decide (nTimeout dep ≤ mtp)
    then Ok version else
    mask ← VersionBitsMask dep; Ok (Z.lor version mask))
  = if decide (eligible mtp dep) then
      mask ← VersionBitsMask dep; Ok (Z.lor version mask)
    else Ok version.
Proof.
  unfold eligible. case_decide as E; repeat case_bool_decide; cbn [andb]; try done;
    exfalso; lia.
Qed.

Lemma VersionBitsMask_Ok dep : 0 ≤ bit dep ≤ 28 → VersionBitsMask dep = Ok (2 ^ bit dep).
Proof.
  intros. unfold VersionBitsMask. rewrite !bool_decide_false by lia. simpl.
  rewrite Z.shiftl_1_l, u32_id; [done|]. split; [apply Z.pow_nonneg; lia|].
  apply Z.pow_lt_mono_r; lia.
Qed.

Lemma version_loop mtp deps v0 :
  (∃ v, foldM (λ version dep, if decide (eligible mtp dep) then
      mask ← VersionBitsMask dep; Ok (Z.lor version mask) else Ok version) v0 deps = Ok v ∧
    ∀ i, Z.testbit v i = true ↔
      Z.testbit v0 i = true ∨ ∃ dep, dep ∈ deps ∧ eligible mtp dep ∧ bit dep = i) ∨
  (∃ dep, dep ∈ deps ∧ eligible mtp dep ∧ 28 < bit dep ∧
    foldM (λ version dep, if decide (eligible mtp dep) then
      mask ← VersionBitsMask dep; Ok (Z.lor version mask) else Ok version) v0 deps
    = Throw (invalid_argument "Version bits deployment bit out of range")).
Proof.
  revert v0. induction deps as [|d deps IH]; intros v0.
  { left. exists v0. split; [done|]. intros i. setoid_rewrite elem_of_nil. naive_solver. }
  cbn [foldM]. case_decide as Hd.
  - destruct (decide (bit d ≤ 28)) as [Hb|Hb].
    + rewrite VersionBitsMask_Ok by (destruct Hd; lia). cbn [mbind result_bind].
      destruct (IH (Z.lor v0 (2 ^ bit d))) as [(v & -> & Hv)|(d' & ? & ? & ? & ->)].
      * left. exists v. split; [done|]. intros i.
        rewrite Hv, Z.lor_spec, orb_true_iff, Z.pow2_bits_eqb, Z.eqb_eq by (by destruct Hd).
        rewrite (exists_elem_cons (λ dep, eligible mtp dep ∧ bit dep = i)). tauto.
      * right. exists d'. rewrite elem_of_cons. auto.
    + right. exists d. split_and!; [by apply elem_of_cons; left|done|lia|].
      unfold VersionBitsMask. by rewrite (bool_decide_true (bit d > 28)), orb_true_r by lia.
  - cbn [mbind result_bind].
    destruct (IH v0) as [(v & -> & Hv)|(d' & ? & ? & ? & ->)].
    + left. exists v. split; [done|]. intros i. rewrite Hv.
      rewrite (exists_elem_cons (λ dep, eligible mtp dep ∧ bit dep = i)). tauto.
    + right. exists d'. rewrite elem_of_cons. auto.
Qed.

(** ** Properties *)

(** The state of a deployment is a function of the history as a multiset: any
    two implementations of the unspecified [std::sort] order, and any reordering
    of the samples, give the same outcome (value, exception or undefined
    behaviour). *)
Theorem VersionBitsState_order_independent (S1 S2 : StdSort) params dep h h' :
  h ≡ₚ h' →
  @VersionBitsState S1 params dep h = @VersionBitsState S2 params dep h'.
Proof. apply VersionBitsState_multiset. Qed.

Definition example_history : list BlockVersionSample :=
  [mkSample 2016 1735700000 0x20000001; mkSample 0 1735690000 0; mkSample 2016 1735700060 0].

Lemma VersionBitsState_order_independent_witness :
  VersionBitsState Main (mkVBDeployment 0 0 (2 ^ 40)) example_history
  = VersionBitsState Main (mkVBDeployment 0 0 (2 ^ 40)) (rev example_history).
Proof.
  apply VersionBitsState_order_independent. symmetry. apply Permutation_rev.
Defined.



(** C17. No activation without signalling: when the state is ACTIVE, some period
    [p] had its median time in [nStartTime, nTimeout), and a later period [q],
    itself followed by another, reached the threshold of signalling samples with
    its median time still below [nTimeout]. *)
Theorem VersionBitsState_active `{StdSort} params dep h :
  vb_safe params h → VersionBitsState params dep h = Ok ACTIVE →
  ∃ p q m m' n, 0 ≤ p < q ∧ q < current_period params h ∧
    MedianTime (window_of params h p) = Ok m ∧ nStartTime dep ≤ m < nTimeout dep ∧
    MedianTime (window_of params h q) = Ok m' ∧ m' < nTimeout dep ∧
    count_signals dep (window_of params h q) = Ok n ∧
    nRuleChangeActivationThreshold params ≤ n.
Proof.
  intros Hsafe E. apply VersionBitsState_vb_run in E; [|done].
  destruct h as [|e h]; [done|].
  apply vb_run_active in E as (i & j & w & w' & Hij & Hj & Hi & Hj' & Hw & Hw'); [|done].
  pose proof (current_period_nonneg _ _ Hsafe ltac:(done)).
  unfold windows in *. rewrite length_fmap, length_seqZ in Hj.
  apply list_lookup_fmap_Some in Hi as (? & -> & [-> ?]%lookup_seqZ).
  apply list_lookup_fmap_Some in Hj' as (? & -> & [-> ?]%lookup_seqZ).
  destruct Hw as (m & ? & ?), Hw' as (m' & n & ? & ? & ? & ?).
  exists (0 + Z.of_nat i), (0 + Z.of_nat j), m, m', n. split_and!; try done; lia.
Qed.

(** One-block periods, for small histories. *)
Definition tiny_params : Params := {|
  nSubsidyHalvingInterval := 210000; nPowTargetSpacing := 60;
  nPowTargetTimespan := 3600; nDifficultyAdjustmentInterval := 60;
  nMaxMoneyOut := 42000000 * COIN; fPowAllowMinDifficultyBlocks := false;
  nGenesisTime := 1735689600; nGenesisBits := 0x1e0fffff; nGenesisNonce := 0;
  genesisMessage := ""; nRuleChangeActivationThreshold := 1;
  nMinerConfirmationWindow := 1; vDeployments := [mkVBDeployment 3 100 200];
|}.

Definition tiny_history : list BlockVersionSample :=
  [mkSample 0 110 0; mkSample 1 120 8; mkSample 2 130 0].

Lemma VersionBitsState_active_witness :
  ∃ p q m m' n, 0 ≤ p < q ∧ q < current_period tiny_params tiny_history ∧
    MedianTime (window_of tiny_params tiny_history p) = Ok m ∧ 100 ≤ m < 200 ∧
    MedianTime (window_of tiny_params tiny_history q) = Ok m' ∧ m' < 200 ∧
    count_signals (mkVBDeployment 3 100 200) (window_of tiny_params tiny_history q) = Ok n ∧
    1 ≤ n.
Proof.
  apply (VersionBitsState_active tiny_params (mkVBDeployment 3 100 200) tiny_history);
    by_decide.
Defined.

(** A deployment without a positive timeout fails at once: on a non-empty
    history of non-negative times, [nTimeout <= 0] makes the state FAILED, whatever
    the bit, the start time and the signals.  [nTimeout = -1], which params.h
    documents as "active indefinitely once started" and which both [Main] and
    [Testnet] use, is such a value. *)
Theorem VersionBitsState_no_timeout_fails `{StdSort} params dep h :
  vb_safe params h → h ≠ [] → Forall (λ e, 0 ≤ time e) h → nTimeout dep ≤ 0 →
  VersionBitsState params dep h = Ok FAILED.
Proof.
  apply VersionBitsState_times_out.
Qed.

Lemma VersionBitsState_no_timeout_fails_witness :
  VersionBitsState Main (mkVBDeployment 28 (-1) (-1)) example_history = Ok FAILED.
Proof. apply VersionBitsState_no_timeout_fails; by_decide. Defined.

(** C19. The version to mine, bit by bit: [ComputeBlockVersion] either returns a
    version whose set bits are exactly 28, 29 and the bits of the deployments
    eligible at the median time past, or throws because an eligible deployment has
    a bit above 28. *)
Theorem ComputeBlockVersion_bits params deployments mtp :
  (∃ v, ComputeBlockVersion params deployments mtp = Ok v ∧
    ∀ i, Z.testbit v i = true ↔
      i = 28 ∨ i = 29 ∨ ∃ dep, dep ∈ deployments ∧ eligible mtp dep ∧ bit dep = i) ∨
  (∃ dep, dep ∈ deployments ∧ eligible mtp dep ∧ 28 < bit dep ∧
    ComputeBlockVersion params deployments mtp
    = Throw (invalid_argument "Version bits deployment bit out of range")).
Proof.
  unfold ComputeBlockVersion.
  rewrite (foldM_ext _ _ _ _ (λ v dep _, version_step mtp v dep)).
  destruct (version_loop mtp deployments 0x20000000) as [(v & -> & Hv)|(d & ? & ? & ? & ->)];
    [left|right; by exists d].
  cbn [mbind result_bind]. eexists. split; [done|]. intros i.
  change 0x20000000 with (2 ^ 29) in Hv. change 0x10000000 with (2 ^ 28).
  rewrite Z.lor_spec, orb_true_iff, Hv, !Z.pow2_bits_eqb, !Z.eqb_eq by lia.
  split; intros; destruct_or?; auto.
Qed.

(** Bit 28 is always signalled: any version [ComputeBlockVersion] returns,
    read back as the signed version of a header, signals for every deployment on
    bit 28 - the bit of DEPLOYMENT_TESTDUMMY - also when that deployment is
    disabled, not started or timed out. *)
Theorem ComputeBlockVersion_signals_28 params deployments mtp v dep :
  ComputeBlockVersion params deployments mtp = Ok v → bit dep = 28 →
  VersionBitsSignal (i32 v) dep = Ok true.
Proof.
  intros E Hb. unfold VersionBitsSignal. rewrite VersionBitsMask_Ok, Hb by lia.
  cbn [mbind result_bind]. rewrite bool_decide_false; [done|]. intros E0.
  apply (f_equal (λ z, Z.testbit z 28)) in E0. revert E0.
  rewrite Z.land_spec, Z.pow2_bits_true, andb_true_r, Z.bits_0, u32_i32 by lia.
  unfold u32. rewrite Z.mod_pow2_bits_low by lia.
  unfold ComputeBlockVersion in E. simplify_result.
  by rewrite Z.lor_spec, orb_true_r.
Qed.

Lemma ComputeBlockVersion_signals_28_witness :
  VersionBitsSignal (i32 0x30000000) (mkVBDeployment 28 (-1) (-1)) = Ok true.
Proof.
  apply (ComputeBlockVersion_signals_28 Main (vDeployments Main) 1735700000);
    vm_compute; reflexivity.
Defined.

(** ** Extending the history *)

Section Extend.
  Context `{StdSort}.

Lemma tip_height_max h e : e ∈ h → height e ≤ tip_height h.
Proof.
  intros He. apply last_max; [apply sort_samples_sorted|].
  apply list_elem_of_In, (Permutation_in _ (Permutation_sym (sort_samples_perm h))), list_elem_of_In.
  done.
Qed.

(** Samples above the tip do not change the periods that the tip completes. *)
Lemma window_of_extend params h later p :
  0 < nMinerConfirmationWindow params → p < current_period params h →
  Forall (λ e, tip_height h < height e) later →
  window_of params (h ++ later) p ≡ₚ window_of params h p.
Proof.
  intros Hn Hp Hl. unfold window_of, period_window. rewrite !sort_samples_perm, filter_app.
  unfold current_period in Hp. set (n := nMinerConfirmationWindow params) in *.
  pose proof (Z.mul_div_le (tip_height h + 1) n Hn).
  replace (filter _ later) with (@nil BlockVersionSample); [by rewrite app_nil_r|].
  induction Hl as [|e later He _ IH]; [done|]. rewrite filter_cons, decide_False by nia. done.
Qed.

Lemma period_exec_perm d t s w w' : w ≡ₚ w' → period_exec d t s w = period_exec d t s w'.
Proof.
  intros Hp. unfold period_exec. rewrite (MedianTime_perm _ _ Hp).
  destruct (MedianTime w'); [|done..]. by apply period_step_perm.
Qed.

Lemma current_period_extend params h later :
  vb_safe params h → h ≠ [] → current_period params h ≤ current_period params (h ++ later).
Proof.
  intros ((Hn & _) & _) Hh. destruct (tip_height_elem h Hh) as (e & He & E).
  apply Z.div_le_mono; [done|]. rewrite <-E.
  pose proof (tip_height_max (h ++ later) e ltac:(apply elem_of_app; by left)). lia.
Qed.

(** The windows up to and including the current period, and those after it. *)
Lemma windows_split params h cp : 0 ≤ cp ≤ current_period params h →
  windows params h =
    (window_of params h <$> seqZ 0 cp) ++ window_of params h cp ::
    (window_of params h <$> seqZ (cp + 1) (current_period params h - cp)).
Proof.
  intros Hcp. unfold windows.
  replace (current_period params h + 1) with (cp + (current_period params h + 1 - cp)) by lia.
  rewrite seqZ_app, fmap_app, (seqZ_cons (0 + cp)) by lia. cbn [fmap list_fmap].
  rewrite Z.add_0_l. repeat f_equal. lia.
Qed.

End Extend.

(** C18. ACTIVE is final: once a deployment is active for a tip, it is active for every
    history that extends it with blocks above that tip. *)
Theorem VersionBitsState_active_final `{StdSort} params dep h later :
  vb_safe params (h ++ later) → h ≠ [] → Forall (λ e, tip_height h < height e) later →
  VersionBitsState params dep h = Ok ACTIVE →
  VersionBitsState params dep (h ++ later) = Ok ACTIVE.
Proof.
  intros Hsafe Hh Hl. assert (vb_safe params h) as Hsafe'.
  { destruct Hsafe as (? & ? & [? _]%Forall_app). done. }
  rewrite !VersionBitsState_run by (done || by destruct h).
  pose proof (current_period_nonneg _ _ Hsafe' Hh) as Hcp.
  pose proof (current_period_extend params h later Hsafe' Hh) as Hle.
  rewrite (windows_split params h (current_period params h)),
    (windows_split params (h ++ later) (current_period params h)) by lia.
  assert (∀ w, w ∈ windows params (h ++ later) → ∃ m, MedianTime w = Ok m) as Hm.
  { intros w Hw. destruct (windows_median _ _ _ Hsafe Hw) as (m & ? & _). by exists m. }
  rewrite (windows_split params (h ++ later) (current_period params h)) in Hm by lia.
  set (cp := current_period params h) in *.
  set (step := period_exec dep (nRuleChangeActivationThreshold params)) in *.
  assert (foldM step DEFINED (window_of params (h ++ later) <$> seqZ 0 cp)
          = foldM step DEFINED (window_of params h <$> seqZ 0 cp)) as Epre.
  { rewrite !foldM_fmap. apply foldM_ext. intros s p Hp%elem_of_seqZ.
    apply period_exec_perm, window_of_extend; [|lia|done]. by destruct Hsafe as ((? & _) & _). }
  rewrite !foldM_app, Epre.
  set (before := foldM step DEFINED _).
  destruct before as [s1| |]; cbn [mbind result_bind foldM]; [|done..].
  rewrite Z.sub_diag. intros E. apply bind_Ok_inv in E as (s2 & E & [= ->]).
  destruct (Hm (window_of params (h ++ later) cp)) as [m Em]; [set_solver|].
  assert (step s1 (window_of params (h ++ later) cp) = Ok ACTIVE) as ->.
  { apply period_exec_trans in E. apply period_exec_trans.
    inversion E; subst; eauto with drachma. }
  cbn [mbind result_bind]. apply foldM_final; [by left|]. set_solver.
Qed.

Definition tiny_later : list BlockVersionSample := [mkSample 3 300 0; mkSample 4 90 0].

Lemma VersionBitsState_active_final_witness :
  VersionBitsState tiny_params (mkVBDeployment 3 100 200) (tiny_history ++ tiny_later) = Ok ACTIVE.
Proof.
  apply (VersionBitsState_active_final tiny_params (mkVBDeployment 3 100 200));
    by_decide.
Defined.

(** FAILED, final within one evaluation, is not final along the chain: the last period
    is evaluated on the blocks seen so far, and blocks with earlier times lower its
    median again. *)
Example VersionBitsState_failed_withdrawn :
  let dep := mkVBDeployment 3 100 200 in
  VersionBitsState Main dep [mkSample 0 200 0] = Ok FAILED ∧
  VersionBitsState Main dep [mkSample 0 200 0; mkSample 1 0 0; mkSample 2 0 0] = Ok DEFINED.
Proof. split; vm_compute; reflexivity. Qed.
