(* ===== verification/Merkle.v ===== *)
(** * Merkle roots: merkle/merkle.cpp

    [ComputeMerkleRoot] and what a root commits to: odd layers duplicate their last
    hash, so distinct lists can share a root ([merkle_padding]), and duplicates are
    the only reason they can ([merkle_loop_binding]). *)

From S2P Require Import Prelude Crypto Sha256Ref Codec Transaction.

Section Merkle.
  Context `{OpenSSL_SHA}.

(** The inner loop over pairs (22-27), on a layer of even size. *)
Fixpoint hash_pairs (layer : list uint256) : list uint256 :=
  match layer with
  | l :: r :: layer => TaggedHash "MERKLE" (l ++ r) :: hash_pairs layer
  | _ => []
  end.

(** [if (layer.size() % 2 != 0) layer.push_back(layer.back())] (17-18) *)
Definition pad_layer (layer : list uint256) : list uint256 :=
  if bool_decide (length layer `mod` 2 ≠ 0)%nat
  then layer ++ [List.last layer uint256_zero] else layer.

(** One iteration of the outer loop: the next layer. *)
Definition merkle_step (layer : list uint256) : list uint256 :=
  hash_pairs (pad_layer layer).

(** [while (layer.size() > 1)], at most [fuel] iterations; the number of leaves is
    enough ([merkle_loop_done]). *)
Fixpoint merkle_loop (fuel : nat) (layer : list uint256) : list uint256 :=
  match fuel with
  | O => layer
  | S fuel =>
      if bool_decide (1 < length layer)%nat
      then merkle_loop fuel (merkle_step layer) else layer
  end.

Definition ComputeMerkleRoot (txs : list Transaction) : uint256 :=
  if is_empty txs then uint256_zero else
  let layer := TransactionHash <$> txs in
  List.hd uint256_zero (merkle_loop (length layer) layer).

(** ** The messages a root hashes

    Every SHA-256 of [ComputeMerkleRoot] is of a message of [ComputeMerkleRoot_hashed]
    ([ComputeMerkleRoot_agree]). *)

Fixpoint pairs_hashed (layer : list uint256) : list (list byte) :=
  match layer with
  | l :: r :: layer => TaggedHash_hashed "MERKLE" (l ++ r) ++ pairs_hashed layer
  | _ => []
  end.

Definition step_hashed (layer : list uint256) : list (list byte) :=
  pairs_hashed (pad_layer layer).

Fixpoint loop_hashed (fuel : nat) (layer : list uint256) : list (list byte) :=
  match fuel with
  | O => []
  | S fuel =>
      if bool_decide (1 < length layer)%nat
      then step_hashed layer ++ loop_hashed fuel (merkle_step layer) else []
  end.

Definition ComputeMerkleRoot_hashed (txs : list Transaction) : list (list byte) :=
  (txs ≫= TransactionHash_hashed) ++ loop_hashed (length txs) (TransactionHash <$> txs).

(** ** Layers halve and the loop ends with one hash *)

Lemma hash_pairs_length layer : length (hash_pairs layer) = (length layer / 2)%nat.
Proof.
  revert layer. fix IH 1. intros [|l [|r layer]]; [done..|].
  cbn [hash_pairs length]. rewrite IH.
  replace (S (S (length layer))) with (length layer + 1 * 2)%nat by lia.
  rewrite Nat.div_add by lia. lia.
Qed.

Lemma pad_layer_length layer :
  length (pad_layer layer) = (2 * ((length layer + 1) / 2))%nat.
Proof.
  unfold pad_layer. pose proof (Nat.div_mod_eq (length layer) 2).
  pose proof (Nat.mod_upper_bound (length layer) 2 ltac:(lia)).
  pose proof (Nat.div_mod_eq (length layer + 1) 2).
  pose proof (Nat.mod_upper_bound (length layer + 1) 2 ltac:(lia)).
  case_bool_decide; [rewrite length_app; cbn [length]|]; lia.
Qed.

Lemma merkle_step_length layer : length (merkle_step layer) = ((length layer + 1) / 2)%nat.
Proof.
  unfold merkle_step. rewrite hash_pairs_length, pad_layer_length.
  by rewrite Nat.mul_comm, Nat.div_mul by lia.
Qed.

Lemma half_lt n : (1 < n)%nat → (1 ≤ (n + 1) / 2 < n)%nat.
Proof.
  intros. split; [apply Nat.div_le_lower_bound; lia|apply Nat.Div0.div_lt_upper_bound; lia].
Qed.

Lemma merkle_loop_done fuel layer :
  (1 ≤ length layer ≤ S fuel)%nat → length (merkle_loop fuel layer) = 1%nat.
Proof.
  revert layer. induction fuel as [|fuel IH]; intros layer Hl; cbn [merkle_loop]; [lia|].
  case_bool_decide; [|lia]. pose proof (half_lt (length layer) ltac:(done)).
  apply IH. rewrite merkle_step_length. lia.
Qed.

Lemma merkle_loop_one fuel layer : (length layer ≤ 1)%nat → merkle_loop fuel layer = layer.
Proof. intros. destruct fuel; [done|]. cbn [merkle_loop]. by rewrite bool_decide_false by lia. Qed.

(** Fuel beyond the size of the layer changes nothing. *)
Lemma merkle_loop_fuel f1 f2 layer :
  (length layer ≤ S f1)%nat → (length layer ≤ S f2)%nat →
  merkle_loop f1 layer = merkle_loop f2 layer.
Proof.
  revert f2 layer. induction f1 as [|f1 IH]; intros f2 layer H1 H2.
  - by rewrite !merkle_loop_one by lia.
  - destruct f2 as [|f2]; [by rewrite !merkle_loop_one by lia|]. cbn [merkle_loop].
    case_bool_decide; [|done]. pose proof (half_lt (length layer) ltac:(done)).
    apply IH; rewrite merkle_step_length; lia.
Qed.

Lemma merkle_loop_step fuel layer :
  (1 < length layer ≤ S fuel)%nat →
  merkle_loop fuel layer = merkle_loop fuel (merkle_step layer).
Proof.
  intros Hl. destruct fuel as [|fuel]; [lia|].
  trans (merkle_loop fuel (merkle_step layer)).
  { cbn [merkle_loop]. by rewrite bool_decide_true by lia. }
  pose proof (half_lt (length layer) ltac:(lia)).
  apply merkle_loop_fuel; rewrite merkle_step_length; lia.
Qed.

Lemma loop_hashed_one fuel layer : (length layer ≤ 1)%nat → loop_hashed fuel layer = [].
Proof. intros. destruct fuel; [done|]. cbn [loop_hashed]. by rewrite bool_decide_false by lia. Qed.

Lemma loop_hashed_fuel f1 f2 layer :
  (length layer ≤ S f1)%nat → (length layer ≤ S f2)%nat →
  loop_hashed f1 layer = loop_hashed f2 layer.
Proof.
  revert f2 layer. induction f1 as [|f1 IH]; intros f2 layer H1 H2.
  - by rewrite !loop_hashed_one by lia.
  - destruct f2 as [|f2]; [by rewrite !loop_hashed_one by lia|]. cbn [loop_hashed].
    case_bool_decide; [|done]. pose proof (half_lt (length layer) ltac:(done)).
    f_equal. apply IH; rewrite merkle_step_length; lia.
Qed.

(** ** What a root commits to *)

Section Binding.
  (** The messages hashed so far. *)
  Context (Q : list (list byte)).

(** Hashes of complete trees of a given depth over messages of [Q]: a transaction hash
    at depth 0, the MERKLE hash of two trees above. *)
Inductive tree_hash : nat → uint256 → Prop :=
  | tree_leaf tx : TransactionHash_hashed tx ⊆ Q → tree_hash 0 (TransactionHash tx)
  | tree_node n l r : tree_hash n l → tree_hash n r → TaggedHash_hashed "MERKLE" (l ++ r) ⊆ Q →
      tree_hash (S n) (TaggedHash "MERKLE" (l ++ r)).

Lemma tree_hash_is_hash n h : tree_hash n h → is_hash h.
Proof. destruct 1; apply TaggedHash_is_hash. Qed.

Lemma node_inj (l r l' r' : uint256) : is_hash l → is_hash l' →
  TaggedHash_hashed "MERKLE" (l ++ r) ⊆ Q → TaggedHash_hashed "MERKLE" (l' ++ r') ⊆ Q →
  TaggedHash "MERKLE" (l ++ r) = TaggedHash "MERKLE" (l' ++ r') →
  (l = l' ∧ r = r') ∨ collision_in Q.
Proof.
  intros Hl Hl' Hq Hq' [E|?]%(TaggedHash_inj Q); [left|by right|done..].
  apply app_inj_1 in E; [done|]. unfold is_hash in *. by rewrite Hl, Hl'.
Qed.

Lemma tree_hash_depth n m h : tree_hash n h → tree_hash m h → n = m ∨ collision_in Q.
Proof.
  intros Hn. revert m. induction Hn as [tx Hq|n l r Hl IH Hr _ Hq]; intros m Hm.
  - inversion Hm as [tx' ? E0 E|n l r Hl Hr ? E0 E]; subst; [by left|right].
    unfold TransactionHash in E. by eapply TaggedHash_domain in E.
  - inversion Hm as [tx' ? E0 E|m' l' r' Hl' Hr' ? E0 E]; subst.
    { right. unfold TransactionHash in E. by eapply TaggedHash_domain in E. }
    apply node_inj in E as [[<- _]|?];
      [|by right|by eapply tree_hash_is_hash|by eapply tree_hash_is_hash|done..].
    destruct (IH m' Hl') as [->|?]; auto.
Qed.

Lemma pad_layer_cons2 (l r : uint256) layer :
  pad_layer (l :: r :: layer) = l :: r :: pad_layer layer.
Proof.
  unfold pad_layer. cbn [length].
  replace (S (S (length layer)) `mod` 2)%nat with (length layer `mod` 2)%nat.
  - case_bool_decide as Hodd; [|done]. destruct layer; [by simpl in Hodd|done].
  - replace (S (S (length layer))) with (length layer + 1 * 2)%nat by lia.
    by rewrite Nat.Div0.mod_add.
Qed.

Lemma merkle_step_cons2 l r layer :
  merkle_step (l :: r :: layer) = TaggedHash "MERKLE" (l ++ r) :: merkle_step layer.
Proof. unfold merkle_step. by rewrite pad_layer_cons2. Qed.

Lemma step_hashed_cons2 l r layer :
  step_hashed (l :: r :: layer) = TaggedHash_hashed "MERKLE" (l ++ r) ++ step_hashed layer.
Proof. unfold step_hashed. by rewrite pad_layer_cons2. Qed.

(** Induction two elements at a time. *)
Lemma list_pair_ind {A} (P : list A → Prop) :
  P [] → (∀ x, P [x]) → (∀ x y l, P l → P (x :: y :: l)) → ∀ l, P l.
Proof.
  intros H0 H1 H2. fix IH 1. intros [|x [|y l]]; [exact H0|apply H1|apply H2, IH].
Qed.

Lemma merkle_step_elem layer h :
  h ∈ merkle_step layer → ∃ l r, l ∈ layer ∧ r ∈ layer ∧ h = TaggedHash "MERKLE" (l ++ r) ∧
    TaggedHash_hashed "MERKLE" (l ++ r) ⊆ step_hashed layer.
Proof.
  revert layer. apply (list_pair_ind (λ layer, h ∈ merkle_step layer → _)).
  - intros Hh. by apply not_elem_of_nil in Hh.
  - intros x Hh%list_elem_of_singleton. exists x, x. split_and!; [set_solver..|done|].
    intros m Hm. by apply elem_of_app; left.
  - intros x y layer IH. rewrite merkle_step_cons2, step_hashed_cons2.
    intros [->|Hh]%elem_of_cons.
    + exists x, y. split_and!; [set_solver..|done|]. intros m Hm. by apply elem_of_app; left.
    + destruct (IH Hh) as (l & r & ? & ? & -> & Hq). exists l, r. split_and!; [set_solver..|done|].
      intros m Hm. apply elem_of_app; right. by apply Hq.
Qed.

Lemma merkle_step_tree n layer :
  step_hashed layer ⊆ Q → Forall (tree_hash n) layer → Forall (tree_hash (S n)) (merkle_step layer).
Proof.
  rewrite !Forall_elem. intros Hq Hl h (l & r & ? & ? & -> & ?)%merkle_step_elem.
  constructor; [auto..|by etrans].
Qed.

Lemma merkle_step_NoDup n layer :
  step_hashed layer ⊆ Q → Forall (tree_hash n) layer → NoDup layer →
  NoDup (merkle_step layer) ∨ collision_in Q.
Proof.
  revert layer. apply (list_pair_ind (λ layer, _ → _ → _ → _)).
  - left. constructor.
  - intros x _ _ _. left. apply NoDup_singleton.
  - intros x y layer IH. rewrite !Forall_cons, !NoDup_cons, merkle_step_cons2, step_hashed_cons2.
    intros [Hq Hqs]%list_app_subseteq (Hx & Hy & Hl) (Hnx & Hny & Hnd).
    destruct (IH Hqs Hl Hnd) as [Hs|?]; [|by right].
    destruct (decide (TaggedHash "MERKLE" (x ++ y) ∈ merkle_step layer)) as [Hin|Hin].
    + right. apply merkle_step_elem in Hin as (l & r & Hl' & _ & E & Hq').
      rewrite Forall_elem in Hl. apply node_inj in E as [[-> _]|?];
        [set_solver|done|by eapply tree_hash_is_hash|by eapply tree_hash_is_hash, Hl|done|by etrans].
    + left. by constructor.
Qed.

(** A layer without duplicates is determined by the next one. *)
Lemma merkle_step_inj n l1 l2 :
  step_hashed l1 ⊆ Q → step_hashed l2 ⊆ Q →
  Forall (tree_hash n) l1 → Forall (tree_hash n) l2 → NoDup l1 → NoDup l2 →
  merkle_step l1 = merkle_step l2 → l1 = l2 ∨ collision_in Q.
Proof.
  revert l1 l2. apply (list_pair_ind (λ l1, ∀ l2, _ → _ → _ → _ → _ → _ → _ → _)).
  - intros [|x [|y l2]] _ _ _ _ _ _ E; [by left|done|]. by rewrite merkle_step_cons2 in E.
  - intros x [|x' [|y' l2]] Q1 Q2 H1 H2 _ N2 E; [done| |].
    + injection E as E. apply list_app_subseteq in Q1 as [Q1 _], Q2 as [Q2 _].
      decompose_Forall_hyps. apply node_inj in E as [[-> _]|?];
        [by left|by right|by eapply tree_hash_is_hash..|done|done].
    + rewrite merkle_step_cons2 in E. rewrite step_hashed_cons2 in Q2.
      apply list_app_subseteq in Q1 as [Q1 _], Q2 as [Q2 _].
      injection E as E _. decompose_Forall_hyps.
      apply node_inj in E as [[-> ->]|?];
        [|by right|by eapply tree_hash_is_hash..|done|done].
      apply NoDup_cons in N2 as [N2 _]. set_solver.
  - intros x y l1 IH [|x' [|y' l2]] Q1 Q2 H1 H2 N1 N2 E; rewrite merkle_step_cons2 in E;
      rewrite step_hashed_cons2 in Q1; apply list_app_subseteq in Q1 as [Q1 Q1']; [done| |].
    + apply list_app_subseteq in Q2 as [Q2 _]. injection E as E _. decompose_Forall_hyps.
      apply node_inj in E as [[-> ->]|?]; [|by right|by eapply tree_hash_is_hash..|done|done].
      apply NoDup_cons in N1 as [N1 _]. set_solver.
    + rewrite step_hashed_cons2 in Q2; apply list_app_subseteq in Q2 as [Q2 Q2'].
      rewrite merkle_step_cons2 in E. injection E as E E'.
      decompose_Forall_hyps. rewrite !NoDup_cons in N1, N2. destruct_and!.
      apply node_inj in E as [[-> ->]|?]; [|by right|by eapply tree_hash_is_hash..|done|done].
      destruct (IH l2) as [->|?]; auto.
Qed.

Lemma merkle_loop_tree fuel n layer :
  (1 < length layer ≤ S fuel)%nat → loop_hashed fuel layer ⊆ Q → Forall (tree_hash n) layer →
  ∃ d, (n < d)%nat ∧ tree_hash d (List.hd uint256_zero (merkle_loop fuel layer)).
Proof.
  revert n layer. induction fuel as [|fuel IH]; intros n layer Hl Hq Ht; [lia|].
  cbn [merkle_loop loop_hashed] in *. rewrite bool_decide_true in * by lia.
  apply list_app_subseteq in Hq as [Hq Hqs]. apply merkle_step_tree in Ht; [|done]. pose proof (half_lt (length layer) ltac:(lia)).
  destruct (decide (length (merkle_step layer) = 1%nat)) as [E|E].
  - rewrite merkle_loop_one by lia. exists (S n). split; [lia|].
    destruct (merkle_step layer) as [|h [|]]; try done. by decompose_Forall_hyps.
  - rewrite merkle_step_length in E.
    destruct (IH (S n) (merkle_step layer)) as (d & ? & ?);
      [rewrite merkle_step_length; lia|done|done|]. exists d. split; [lia|done].
Qed.

Lemma merkle_loop_binding fuel n l1 l2 :
  (1 ≤ length l1 ≤ S fuel)%nat → (1 ≤ length l2 ≤ S fuel)%nat →
  loop_hashed fuel l1 ⊆ Q → loop_hashed fuel l2 ⊆ Q →
  Forall (tree_hash n) l1 → Forall (tree_hash n) l2 → NoDup l1 → NoDup l2 →
  List.hd uint256_zero (merkle_loop fuel l1) = List.hd uint256_zero (merkle_loop fuel l2) →
  l1 = l2 ∨ collision_in Q.
Proof.
  revert n l1 l2. induction fuel as [|fuel IH]; intros n l1 l2 H1 H2 Q1 Q2 T1 T2 N1 N2 E.
  { destruct l1 as [|x [|]], l2 as [|y [|]]; simpl in *; try lia. left. congruence. }
  destruct (decide (length l1 = 1%nat)) as [E1|E1], (decide (length l2 = 1%nat)) as [E2|E2].
  - rewrite !merkle_loop_one in E by lia.
    destruct l1 as [|x [|]], l2 as [|y [|]]; simpl in *; try lia. left. congruence.
  - right. rewrite (merkle_loop_one _ l1) in E by lia.
    destruct (merkle_loop_tree (S fuel) n l2) as (d & ? & Hd); [lia|done|done|].
    rewrite <-E in Hd. destruct l1 as [|x [|]]; try done. rewrite Forall_singleton in T1.
    destruct (tree_hash_depth n d x) as [->|?]; [done|done|lia|done].
  - right. rewrite (merkle_loop_one _ l2) in E by lia.
    destruct (merkle_loop_tree (S fuel) n l1) as (d & ? & Hd); [lia|done|done|].
    rewrite E in Hd. destruct l2 as [|x [|]]; try done. rewrite Forall_singleton in T2.
    destruct (tree_hash_depth n d x) as [->|?]; [done|done|lia|done].
  - cbn [merkle_loop loop_hashed] in E, Q1, Q2. rewrite bool_decide_true in E, Q1, Q2 by lia.
    rewrite bool_decide_true in E by lia.
    apply list_app_subseteq in Q1 as [Q1 Q1'], Q2 as [Q2 Q2'].
    pose proof (half_lt (length l1) ltac:(lia)). pose proof (half_lt (length l2) ltac:(lia)).
    destruct (merkle_step_NoDup n l1 Q1 T1 N1) as [?|?]; [|by right].
    destruct (merkle_step_NoDup n l2 Q2 T2 N2) as [?|?]; [|by right].
    destruct (IH (S n) (merkle_step l1) (merkle_step l2)) as [E'|?];
      [rewrite merkle_step_length; lia|rewrite merkle_step_length; lia|done|done
      |by apply merkle_step_tree..|done|done|done|by apply (merkle_step_inj n)|by right].
Qed.

Lemma leaves_tree txs : txs ≫= TransactionHash_hashed ⊆ Q →
  Forall (tree_hash 0) (TransactionHash <$> txs).
Proof.
  intros Hq. apply Forall_fmap, Forall_elem. intros tx Htx. apply tree_leaf.
  intros m Hm. apply Hq, list_elem_of_bind. by exists tx.
Qed.

(** Distinct transactions have distinct hashes. *)
Lemma TransactionHash_NoDup txs : txs ≫= TransactionHash_hashed ⊆ Q →
  Forall wf_tx txs → NoDup txs → NoDup (TransactionHash <$> txs) ∨ collision_in Q.
Proof.
  induction txs as [|tx txs IH]; [by left; constructor|].
  rewrite bind_cons, Forall_cons, NoDup_cons.
  intros [Hq Hqs]%list_app_subseteq [Hw Hws] [Hn Hnd].
  destruct (IH Hqs Hws Hnd) as [Hnd'|?]; [|by right].
  destruct (decide (TransactionHash tx ∈ TransactionHash <$> txs)) as [Hin|Hin].
  - right. apply list_elem_of_fmap in Hin as (tx' & E & Hin).
    apply (TaggedHash_inj Q) in E as [E|?]; [|done..|].
    + rewrite Forall_forall in Hws. apply Serialize_inj in E; [by subst|done|auto].
    + intros m Hm. apply Hqs, list_elem_of_bind. by exists tx'.
  - left. by constructor.
Qed.

Lemma TransactionHash_list_inj txs txs' :
  txs ≫= TransactionHash_hashed ⊆ Q → txs' ≫= TransactionHash_hashed ⊆ Q →
  Forall wf_tx txs → Forall wf_tx txs' →
  TransactionHash <$> txs = TransactionHash <$> txs' → txs = txs' ∨ collision_in Q.
Proof.
  revert txs'. induction txs as [|tx txs IH]; intros [|tx' txs'] Hq Hq' Hw Hw' E;
    try done; [by left|].
  rewrite bind_cons in Hq, Hq'.
  apply list_app_subseteq in Hq as [Hq Hqs], Hq' as [Hq' Hqs'].
  apply Forall_cons in Hw as [? ?], Hw' as [? ?]. injection E as E E'.
  apply (TaggedHash_inj Q) in E as [E|?]; [|by right|done..].
  apply Serialize_inj in E as ->; [|done..].
  destruct (IH txs') as [->|?]; auto.
Qed.

End Binding.

Lemma ComputeMerkleRoot_eq fuel txs : txs ≠ [] → (length txs ≤ S fuel)%nat →
  ComputeMerkleRoot txs = List.hd uint256_zero (merkle_loop fuel (TransactionHash <$> txs)).
Proof.
  intros Hne Hf. unfold ComputeMerkleRoot. rewrite is_empty_false by done. f_equal.
  apply merkle_loop_fuel; rewrite ?length_fmap; lia.
Qed.

Lemma ComputeMerkleRoot_inj Q txs txs' :
  ComputeMerkleRoot_hashed txs ⊆ Q → ComputeMerkleRoot_hashed txs' ⊆ Q →
  Forall wf_tx txs → Forall wf_tx txs' → txs ≠ [] → txs' ≠ [] → NoDup txs → NoDup txs' →
  ComputeMerkleRoot txs = ComputeMerkleRoot txs' → txs = txs' ∨ collision_in Q.
Proof.
  intros [Ht Hq]%list_app_subseteq [Ht' Hq']%list_app_subseteq Hw Hw' Hne Hne' Hnd Hnd' E.
  assert (∀ l : list Transaction, l ≠ [] → (1 ≤ length l)%nat) as Hlen by (intros []; [done|simpl; lia]).
  pose proof (Hlen _ Hne). pose proof (Hlen _ Hne'). clear Hlen.
  rewrite (ComputeMerkleRoot_eq (length txs + length txs') txs),
    (ComputeMerkleRoot_eq (length txs + length txs') txs') in E by (done || lia).
  destruct (TransactionHash_NoDup Q txs) as [?|?]; [done..| |by right].
  destruct (TransactionHash_NoDup Q txs') as [?|?]; [done..| |by right].
  rewrite (loop_hashed_fuel _ (length txs + length txs')) in Hq by (rewrite length_fmap; lia).
  rewrite (loop_hashed_fuel _ (length txs + length txs')) in Hq' by (rewrite length_fmap; lia).
  apply (merkle_loop_binding Q _ 0) in E as [E|?];
    [|by right|rewrite length_fmap; lia|rewrite length_fmap; lia|done|done
     |by apply leaves_tree..|done|done].
  by apply TransactionHash_list_inj.
Qed.

Lemma merkle_step_pad (layer : list uint256) : (length layer `mod` 2 ≠ 0)%nat →
  merkle_step (layer ++ [List.last layer uint256_zero]) = merkle_step layer.
Proof.
  intros Hodd. unfold merkle_step. f_equal. unfold pad_layer at 2.
  rewrite bool_decide_true by done. unfold pad_layer.
  rewrite bool_decide_false; [done|]. rewrite length_app. cbn [length].
  intros Hc. apply Hc. rewrite <-Nat.Div0.add_mod_idemp_l.
  pose proof (Nat.mod_upper_bound (length layer) 2 ltac:(lia)).
  replace (length layer `mod` 2)%nat with 1%nat by lia. done.
Qed.

End Merkle.

(** ** The list of hashed messages is complete *)

Section Agree.
  Context (S1 S2 : OpenSSL_SHA).

Lemma hash_pairs_agree layer : agree_on S1 S2 (@pairs_hashed S1 layer) →
  @hash_pairs S1 layer = @hash_pairs S2 layer.
Proof.
  revert layer. apply (list_pair_ind (λ layer, _ → _)); [done..|].
  intros l r layer IH Hm. cbn [hash_pairs pairs_hashed] in *. f_equal.
  - apply TaggedHash_agree. intros m ?. apply Hm, elem_of_app. by left.
  - apply IH. intros m ?. apply Hm, elem_of_app. by right.
Qed.

Lemma merkle_loop_agree fuel layer : agree_on S1 S2 (@loop_hashed S1 fuel layer) →
  @merkle_loop S1 fuel layer = @merkle_loop S2 fuel layer.
Proof.
  revert layer. induction fuel as [|fuel IH]; intros layer Hm; [done|].
  cbn [merkle_loop loop_hashed] in *. case_bool_decide; [|done].
  assert (@merkle_step S1 layer = @merkle_step S2 layer) as <-.
  { apply hash_pairs_agree. intros m ?. apply Hm, elem_of_app. by left. }
  apply IH. intros m ?. apply Hm, elem_of_app. by right.
Qed.

(** The root is the same under two hash functions that agree on the messages listed:
    it is computed from the digests of these messages and nothing else. *)
Lemma ComputeMerkleRoot_agree txs : agree_on S1 S2 (@ComputeMerkleRoot_hashed S1 txs) →
  @ComputeMerkleRoot S1 txs = @ComputeMerkleRoot S2 txs.
Proof.
  intros Hm. unfold ComputeMerkleRoot. destruct (is_empty txs); [done|].
  assert (@TransactionHash S1 <$> txs = @TransactionHash S2 <$> txs) as E.
  { apply list_fmap_ext. intros i tx Htx%list_elem_of_lookup_2. apply TaggedHash_agree.
    intros m ?. apply Hm, elem_of_app. left. apply list_elem_of_bind. by exists tx. }
  rewrite <-E, !length_fmap. f_equal. apply merkle_loop_agree.
  intros m ?. apply Hm, elem_of_app. by right.
Qed.

End Agree.

Lemma last_fmap {A B} (f : A → B) (l : list A) d d' :
  l ≠ [] → List.last (f <$> l) d' = f (List.last l d).
Proof.
  induction l as [|x [|y l] IH]; intros Hl; [done|done|]. by apply IH.
Qed.

(** ** Properties *)

(** C13. A Merkle root commits to its transactions: two non-empty lists of
    well-formed, pairwise distinct transactions - of whatever lengths - with one
    [ComputeMerkleRoot] are equal, or two of the messages hashed in computing the two
    roots are a SHA-256 collision. *)
Theorem ComputeMerkleRoot_binding `{OpenSSL_SHA} txs txs' :
  Forall wf_tx txs → Forall wf_tx txs' → txs ≠ [] → txs' ≠ [] → NoDup txs → NoDup txs' →
  ComputeMerkleRoot txs = ComputeMerkleRoot txs' →
  txs = txs' ∨ collision_in (ComputeMerkleRoot_hashed txs ++ ComputeMerkleRoot_hashed txs').
Proof. apply ComputeMerkleRoot_inj; set_solver. Qed.

(** Three distinct transactions. *)
Definition example_txs : list Transaction :=
  [example_tx; Transaction_default; mkTransaction 2 [] [] 0].

Lemma ComputeMerkleRoot_binding_witness :
  example_txs = [example_tx; Transaction_default] ∨ @collision_in Sha256Ref.const_sha
    (@ComputeMerkleRoot_hashed Sha256Ref.const_sha example_txs ++
     @ComputeMerkleRoot_hashed Sha256Ref.const_sha [example_tx; Transaction_default]).
Proof.
  apply (ComputeMerkleRoot_binding (H := Sha256Ref.const_sha)); by_decide.
Defined.

(** The second case is a real event, decided by evaluation: there is none among the
    messages hashed for the root of one transaction. *)
Example ComputeMerkleRoot_no_collision :
  ¬ @collision_in Sha256Ref.sha (@ComputeMerkleRoot_hashed Sha256Ref.sha [example_tx]).
Proof. by_decide. Qed.

(** The duplication ambiguity of odd layers (the shape of CVE-2012-2459):
    repeating the last of an odd number, above one, of transactions leaves the
    root unchanged, so the root alone does not identify the list. *)
Theorem ComputeMerkleRoot_duplicate `{OpenSSL_SHA} txs d :
  (1 < length txs)%nat → (length txs `mod` 2 ≠ 0)%nat →
  ComputeMerkleRoot (txs ++ [List.last txs d]) = ComputeMerkleRoot txs.
Proof.
  intros Hlen Hodd. assert (txs ≠ []) as Hne by (by intros ->; simpl in *; lia).
  rewrite (ComputeMerkleRoot_eq (S (length txs)) txs),
    (ComputeMerkleRoot_eq (S (length txs)) (_ ++ _)) by
    (rewrite ?length_app; simpl; (lia || by destruct txs)).
  f_equal. rewrite fmap_app. cbn [fmap list_fmap].
  rewrite <-(last_fmap TransactionHash txs d uint256_zero) by done.
  rewrite (merkle_loop_step _ (_ ++ _)), (merkle_loop_step _ (TransactionHash <$> txs))
    by (rewrite ?length_app, ?length_fmap; cbn [length]; lia).
  by rewrite merkle_step_pad by (by rewrite length_fmap).
Qed.

Lemma ComputeMerkleRoot_duplicate_witness :
  @ComputeMerkleRoot Sha256Ref.sha (example_txs ++ [mkTransaction 2 [] [] 0])
  = @ComputeMerkleRoot Sha256Ref.sha example_txs.
Proof.
  apply (ComputeMerkleRoot_duplicate (H := Sha256Ref.sha) example_txs Transaction_default);
    by_decide.
Defined.

(** The vector of tests/merkle/merkle_test.cpp. *)
Example merkle_test_vector :
  be_val (@ComputeMerkleRoot Sha256Ref.sha
    [mkTransaction 1
       [mkTxIn (mkOutPoint uint256_zero UINT32_MAX) (String.list_byte_of_string "coinbase") UINT32_MAX]
       [mkTxOut 50 (String.list_byte_of_string "pay-to-pubkey")] 0;
     mkTransaction 1
       [mkTxIn (mkOutPoint (replicate 32 x01) 0) (String.list_byte_of_string "spend") 1]
       [mkTxOut 25 (String.list_byte_of_string "pay2")] 0])
  = 0xf72dba20f5d6464ad5a0e5641772af5b41d646a1fd5d358fed5b3619934cdc6f.
Proof. vm_compute. reflexivity. Qed.
