(* ===== verification/Difficulty.v ===== *)
(** * Difficulty: pow/difficulty.cpp (namespace powalgo)

    The compact target encoding, the retarget rule and the proof-of-work check.
    [cpp_int] is [Z]; what the code relies on of Boost beyond exact integers is the
    class [Boost]. *)

From S2P Require Import Prelude Crypto Params.

(** Boost.Multiprecision: [convert_to<uint32_t>] is exact where the value fits; a
    division by zero and a shift by a negative count throw. *)
Class Boost := {
  convert_to_u32 : Z → Z;
  convert_to_u32_exact z : is_u32 z → convert_to_u32 z = z;
  cpp_int_div_by_zero : exn;
  cpp_int_negative_shift : exn;
}.

(** The documented exceptions; a conversion that keeps the low 32 bits. *)
Definition boost : Boost := {|
  convert_to_u32 := u32;
  convert_to_u32_exact := u32_id;
  cpp_int_div_by_zero := runtime_error "Integer Division by zero.";
  cpp_int_negative_shift := out_of_range "Can not shift by a negative value.";
|}.

Definition COMPACT_MANTISSA_MASK : Z := 0x007fffff.
Definition COMPACT_SIGN_MASK : Z := 0x00800000.

Definition CompactToTarget (nBits : Z) : result Z :=
  let exponent := Z.shiftr nBits 24 in
  let mantissa := Z.land nBits COMPACT_MANTISSA_MASK in
  throw_if (negb (bool_decide (Z.land nBits COMPACT_SIGN_MASK = 0)))
    (runtime_error "Negative compact target");;
  let target := mantissa in
  Ok (if bool_decide (exponent ≤ 3)
      then Z.shiftr target (8 * (3 - exponent))
      else Z.shiftl target (8 * (exponent - 3))).

(** [while (tmp > 0) { tmp >>= 8; ++size; }], at most [fuel] iterations; one per
    byte of [tmp] is enough ([size_loop_spec]). *)
Fixpoint size_loop (fuel : nat) (tmp size : Z) : Z :=
  match fuel with
  | O => size
  | S fuel =>
      if bool_decide (tmp > 0) then size_loop fuel (Z.shiftr tmp 8) (size + 1) else size
  end.

Definition size_fuel (target : Z) : nat := Z.to_nat (Z.log2 target / 8 + 1).

Section Difficulty.
  Context `{Boost}.

Definition TargetToCompact (target : Z) : Z :=
  if bool_decide (target ≤ 0) then 0 else
  let size := size_loop (size_fuel target) target 0 in
  let compact := target in
  let compact :=
    if bool_decide (size > 3) then Z.shiftr compact (8 * (size - 3)) else compact in
  let '(compact, size) :=
    if bool_decide (Z.land compact 0x008000 ≠ 0)
    then (Z.shiftr compact 8, size + 1) else (compact, size) in
  let result := Z.land (convert_to_u32 compact) 0x007fffff in
  Z.lor result (u32 (Z.shiftl (u32 size) 24)).

(** [std::clamp] *)
Definition clamp (v lo hi : Z) : Z :=
  if bool_decide (v < lo) then lo else if bool_decide (hi < v) then hi else v.

Definition CalculateNextWorkRequired (lastBits actualTimespan : Z) (params : Params) :
    result Z :=
  let targetTimespan := nPowTargetTimespan params in
  let actualTimespan := clamp actualTimespan
    ((targetTimespan * 3) `quot` 4) ((targetTimespan * 5) `quot` 4) in
  lastTarget ← CompactToTarget lastBits;
  throw_if (bool_decide (targetTimespan = 0)) cpp_int_div_by_zero;;
  let newTarget := (lastTarget * actualTimespan) `quot` targetTimespan in
  powLimit ← CompactToTarget (nGenesisBits params);
  let newTarget := if bool_decide (newTarget > powLimit) then powLimit else newTarget in
  Ok (TargetToCompact newTarget).

Definition CheckProofOfWork (hash : uint256) (nBits : Z) (params : Params) : result bool :=
  target ← CompactToTarget nBits;
  powLimit ← CompactToTarget (nGenesisBits params);
  if bool_decide (target ≤ 0) || bool_decide (target > powLimit) then Ok false else
  let value := be_val hash in
  Ok (bool_decide (value ≤ target)).

End Difficulty.

(** The vectors of tests/pow/retarget_test.cpp. *)
Example retarget_test :
  CalculateNextWorkRequired (H := boost) 0x1e0fffff 3600 Main = Ok 0x1f000fff ∧
  CalculateNextWorkRequired (H := boost) 0x1e0fffff 4500 Main = Ok 0x1f000fff ∧
  CalculateNextWorkRequired (H := boost) 0x1e0fffff 1800 Main = Ok 0x1f000bff.
Proof. by vm_compute. Qed.

(** ** The compact encoding *)

(** The encoding of exponent [e] and mantissa [m], and the target it stands for. *)
Definition compact (e m : Z) : Z := m + 2 ^ 24 * e.
Definition compact_value (e m : Z) : Z :=
  if bool_decide (e ≤ 3) then m `div` 256 ^ (3 - e) else m * 256 ^ (e - 3).

(** The number of bytes of a positive target, and its three leading bytes. *)
Definition byte_size (t : Z) : Z := Z.log2 t / 8 + 1.
Definition top3 (t : Z) : Z := t `div` 256 ^ (Z.max 3 (byte_size t) - 3).

Lemma pow256 k : 0 ≤ k → 2 ^ (8 * k) = 256 ^ k.
Proof. intros. by rewrite Z.pow_mul_r. Qed.

Lemma land_pow2_zero a k : 0 ≤ k → Z.land a (2 ^ k) = 0 ↔ Z.testbit a k = false.
Proof.
  intros Hk. split.
  - intros E. rewrite <-(andb_true_r (Z.testbit a k)), <-(Z.pow2_bits_true k) by done.
    by rewrite <-Z.land_spec, E, Z.bits_0.
  - intros E. apply Z.bits_inj'. intros i Hi. rewrite Z.land_spec, Z.bits_0.
    destruct (decide (k = i)) as [<-|?]; [by rewrite E|].
    by rewrite Z.pow2_bits_false, andb_false_r.
Qed.

Lemma testbit_23 m : 0 ≤ m < 2 ^ 24 → Z.testbit m 23 = bool_decide (2 ^ 23 ≤ m).
Proof.
  intros. pose proof (Z.testbit_spec' m 23 ltac:(lia)) as E.
  case_bool_decide.
  - replace (m `div` 2 ^ 23) with 1 in E by (apply (Z.div_unique _ _ _ (m - 2 ^ 23)); lia).
    by destruct (Z.testbit m 23).
  - rewrite Z.div_small in E by lia. by destruct (Z.testbit m 23).
Qed.

Lemma CompactToTarget_compact e m :
  0 ≤ e → 0 ≤ m < 2 ^ 23 → CompactToTarget (compact e m) = Ok (compact_value e m).
Proof.
  intros He Hm. unfold CompactToTarget, compact.
  assert (Z.shiftr (m + 2 ^ 24 * e) 24 = e) as ->.
  { rewrite Z.shiftr_div_pow2 by lia. symmetry. apply (Z.div_unique _ _ _ m); lia. }
  assert ((m + 2 ^ 24 * e) `mod` 2 ^ 23 = m) as Hmod
    by (symmetry; apply (Z.mod_unique _ _ (2 * e)); lia).
  change COMPACT_MANTISSA_MASK with (Z.ones 23). rewrite Z.land_ones, Hmod by lia.
  assert (Z.land (m + 2 ^ 24 * e) COMPACT_SIGN_MASK = 0) as ->.
  { change COMPACT_SIGN_MASK with (2 ^ 23). apply land_pow2_zero; [lia|].
    apply Z.b2z_inj. rewrite Z.testbit_spec' by lia.
    replace ((m + 2 ^ 24 * e) `div` 2 ^ 23) with (2 * e) by (apply (Z.div_unique _ _ _ m); lia).
    by rewrite (Z.mul_comm 2 e), Z.mod_mul by lia. }
  rewrite (bool_decide_true (0 = 0)) by done. cbn [negb throw_if mbind result_bind]. f_equal.
  unfold compact_value. case_bool_decide.
  - by rewrite Z.shiftr_div_pow2, pow256 by lia.
  - by rewrite Z.shiftl_mul_pow2, pow256 by lia.
Qed.

(** Every word with a clear sign bit is such an encoding; the others throw. *)
Lemma CompactToTarget_cases nBits : is_u32 nBits →
  (∃ e m, nBits = compact e m ∧ 0 ≤ e < 256 ∧ 0 ≤ m < 2 ^ 23 ∧
     CompactToTarget nBits = Ok (compact_value e m)) ∨
  (Z.testbit nBits 23 = true ∧
   CompactToTarget nBits = Throw (runtime_error "Negative compact target")).
Proof.
  intros Hb. pose proof (Z.div_mod nBits (2 ^ 24) ltac:(lia)) as Hd.
  pose proof (Z.mod_pos_bound nBits (2 ^ 24) ltac:(lia)).
  assert (0 ≤ nBits `div` 2 ^ 24 < 256).
  { split; [apply Z.div_pos; lia|apply Z.div_lt_upper_bound; lia]. }
  destruct (Z.testbit nBits 23) eqn:E; [right|left].
  - split; [done|]. unfold CompactToTarget.
    rewrite (bool_decide_false (_ = 0)); [done|]. change COMPACT_SIGN_MASK with (2 ^ 23).
    rewrite land_pow2_zero by lia. by rewrite E.
  - assert (nBits `mod` 2 ^ 24 < 2 ^ 23).
    { apply Z.nle_gt. intros Hge. rewrite <-(Z.mod_pow2_bits_low _ 24) in E by lia.
      rewrite testbit_23, bool_decide_true in E by lia. done. }
    exists (nBits `div` 2 ^ 24), (nBits `mod` 2 ^ 24).
    assert (nBits = compact (nBits `div` 2 ^ 24) (nBits `mod` 2 ^ 24)) as E' by (unfold compact; lia).
    split_and!; [done|lia..|]. rewrite E' at 1. apply CompactToTarget_compact; lia.
Qed.

Lemma compact_value_nonneg e m : 0 ≤ m → 0 ≤ compact_value e m.
Proof.
  intros. unfold compact_value. case_bool_decide.
  - apply Z.div_pos; [done|]. apply Z.pow_pos_nonneg; lia.
  - apply Z.mul_nonneg_nonneg; [done|]. apply Z.pow_nonneg. lia.
Qed.

Lemma byte_size_spec t : 0 < t → 1 ≤ byte_size t ∧ 256 ^ (byte_size t - 1) ≤ t < 256 ^ byte_size t.
Proof.
  intros Ht. unfold byte_size. pose proof (Z.log2_spec t Ht) as [Hl Hu].
  pose proof (Z.log2_nonneg t). pose proof (Z.div_mod (Z.log2 t) 8 ltac:(lia)).
  pose proof (Z.mod_pos_bound (Z.log2 t) 8 ltac:(lia)). pose proof (Z.div_pos (Z.log2 t) 8 ltac:(lia) ltac:(lia)).
  split; [lia|]. rewrite <-!pow256 by lia. split.
  - etrans; [|exact Hl]. apply Z.pow_le_mono_r; lia.
  - eapply Z.lt_le_trans; [exact Hu|]. apply Z.pow_le_mono_r; lia.
Qed.

Lemma size_loop_spec fuel t s :
  0 < t → byte_size t ≤ Z.of_nat fuel → size_loop fuel t s = s + byte_size t.
Proof.
  revert t s. induction fuel as [|fuel IH]; intros t s Ht Hf.
  { pose proof (byte_size_spec t Ht). lia. }
  cbn [size_loop]. rewrite bool_decide_true by lia.
  destruct (decide (t < 256)) as [Hs|Hs].
  - assert (Z.shiftr t 8 = 0) as ->.
    { rewrite Z.shiftr_div_pow2, Z.div_small by lia. done. }
    assert (byte_size t = 1) as ->.
    { unfold byte_size. pose proof (Z.log2_nonneg t).
      assert (Z.log2 t < 8) by (apply Z.log2_lt_pow2; lia). rewrite Z.div_small by lia. done. }
    by destruct fuel.
  - assert (byte_size t = byte_size (Z.shiftr t 8) + 1) as E.
    { unfold byte_size. rewrite Z.log2_shiftr by lia.
      assert (8 ≤ Z.log2 t) by (apply Z.log2_le_pow2; lia).
      rewrite Z.max_r by lia.
      replace (Z.log2 t) with (Z.log2 t - 8 + 1 * 8) at 1 by lia.
      rewrite Z.div_add by lia. lia. }
    rewrite IH; [lia| |lia]. rewrite Z.shiftr_div_pow2 by lia.
    apply Z.div_str_pos. lia.
Qed.

Lemma size_loop_fuel t : 0 < t → size_loop (size_fuel t) t 0 = byte_size t.
Proof.
  intros Ht. rewrite size_loop_spec; [done..|]. pose proof (byte_size_spec t Ht).
  unfold size_fuel, byte_size in *. lia.
Qed.

(** The three leading bytes: [t = top3 t * 256^k + rest]. *)
Lemma top3_spec t : 0 < t →
  let k := Z.max 3 (byte_size t) - 3 in
  0 ≤ top3 t < 2 ^ 24 ∧ top3 t * 256 ^ k ≤ t < (top3 t + 1) * 256 ^ k ∧
  (3 ≤ byte_size t → 2 ^ 16 ≤ top3 t).
Proof.
  intros Ht k. pose proof (byte_size_spec t Ht) as (H1 & Hl & Hu).
  assert (0 ≤ k) by (unfold k; lia). assert (0 < 256 ^ k) by (apply Z.pow_pos_nonneg; lia).
  unfold top3. fold k. pose proof (Z.div_mod t (256 ^ k) ltac:(lia)).
  pose proof (Z.mod_pos_bound t (256 ^ k) ltac:(lia)).
  split_and!; [apply Z.div_pos; lia| |lia|lia|].
  - apply Z.div_lt_upper_bound; [done|]. eapply Z.lt_le_trans; [exact Hu|].
    change (2 ^ 24) with (256 ^ 3). rewrite <-Z.pow_add_r by lia.
    apply Z.pow_le_mono_r; lia.
  - intros. apply Z.div_le_lower_bound; [done|]. etrans; [|exact Hl].
    change (2 ^ 16) with (256 ^ 2). rewrite <-Z.pow_add_r by lia.
    apply Z.pow_le_mono_r; lia.
Qed.

(** ** What [TargetToCompact] encodes *)

Lemma land_bit15 m : 0 ≤ m → Z.land m 0x008000 = 0 → Z.testbit m 15 = false.
Proof. intros. change 0x008000 with (2 ^ 15) in *. by apply land_pow2_zero. Qed.

Section Encode.
  Context `{Boost}.

(** The two branches: the low 23 bits of the leading bytes, or, where bit 15 is
    set, the leading bytes shifted right by one byte. *)
Lemma TargetToCompact_spec t : 0 < t → byte_size t < 255 →
  TargetToCompact t =
    if bool_decide (Z.land (top3 t) 0x008000 = 0)
    then compact (byte_size t) (top3 t `mod` 2 ^ 23)
    else compact (byte_size t + 1) (top3 t `div` 256).
Proof.
  intros Ht Hs. unfold TargetToCompact. rewrite bool_decide_false by lia.
  rewrite size_loop_fuel by done.
  pose proof (top3_spec t Ht) as (Hm & _ & _). pose proof (byte_size_spec t Ht) as [H1 _].
  assert ((if bool_decide (byte_size t > 3)
           then Z.shiftr t (8 * (byte_size t - 3)) else t) = top3 t) as ->.
  { unfold top3. case_bool_decide.
    - rewrite Z.shiftr_div_pow2, pow256, Z.max_r by lia. done.
    - by rewrite Z.max_l, Z.div_1_r by lia. }
  assert (∀ m e, 0 ≤ m < 2 ^ 24 → 0 ≤ e < 256 →
    Z.lor (Z.land (convert_to_u32 m) 0x007fffff) (u32 (Z.shiftl (u32 e) 24))
    = compact e (m `mod` 2 ^ 23)) as Hpack.
  { intros m e Hm' He. rewrite convert_to_u32_exact by lia.
    change 0x007fffff with (Z.ones 23). rewrite Z.land_ones by lia.
    pose proof (Z.mod_pos_bound m (2 ^ 23) ltac:(lia)).
    assert (u32 (Z.shiftl (u32 e) 24) = Z.shiftl e 24) as ->.
    { rewrite (u32_id e) by lia. rewrite u32_id; [done|]. rewrite Z.shiftl_mul_pow2; lia. }
    rewrite Z_add_shiftl by lia. done. }
  case_bool_decide as Hb; case_bool_decide as Hb'; try done.
  - rewrite Z.shiftr_div_pow2 by lia. change (2 ^ 8) with 256.
    assert (0 ≤ top3 t `div` 256 < 2 ^ 16)
      by (split; [apply Z.div_pos; lia|apply Z.div_lt_upper_bound; lia]).
    rewrite Hpack, Z.mod_small by lia. done.
  - rewrite Hpack by lia. done.
Qed.

Lemma compact_u32 e m : 0 ≤ e < 256 → 0 ≤ m < 2 ^ 23 → is_u32 (compact e m).
Proof. unfold compact. lia. Qed.

(** The value read back, as a multiple of [256^k] where the target has at least
    three bytes. *)
Lemma TargetToCompact_decode t : 0 < t → byte_size t < 255 →
  is_u32 (TargetToCompact t) ∧
  ∃ v, CompactToTarget (TargetToCompact t) = Ok v ∧ 0 ≤ v ≤ t ∧
    (3 ≤ byte_size t →
     v = 256 ^ (byte_size t - 3) *
       (if bool_decide (Z.land (top3 t) 0x008000 = 0)
        then top3 t `mod` 2 ^ 23 else 256 * (top3 t `div` 256))).
Proof.
  intros Ht Hs. rewrite TargetToCompact_spec by done.
  pose proof (top3_spec t Ht) as (Hm & [Hl _] & _). pose proof (byte_size_spec t Ht) as [H1 _].
  set (m := top3 t) in *. set (s := byte_size t) in *.
  pose proof (Z.mod_pos_bound m (2 ^ 23) ltac:(lia)). pose proof (Z.mod_le m (2 ^ 23) ltac:(lia) ltac:(lia)).
  pose proof (Z.mul_div_le m 256 ltac:(lia)).
  assert (0 ≤ m `div` 256 < 2 ^ 23)
    by (split; [apply Z.div_pos; lia|apply Z.div_lt_upper_bound; lia]).
  assert (∀ e x, 0 ≤ x → x `div` 256 ^ e ≤ x) as Hdiv.
  { intros e x Hx. destruct (decide (e < 0)).
    - rewrite Z.pow_neg_r, Z.div_0_r_ext by lia. done.
    - apply Z.div_le_upper_bound; [apply Z.pow_pos_nonneg; lia|].
      assert (0 < 256 ^ e) by (apply Z.pow_pos_nonneg; lia). nia. }
  assert (0 < 256 ^ (Z.max 3 s - 3)) by (apply Z.pow_pos_nonneg; lia).
  assert (m ≤ t) by nia.
  case_bool_decide.
  - split; [apply compact_u32; lia|]. eexists. split; [apply CompactToTarget_compact; lia|].
    split; [split; [apply compact_value_nonneg; lia|]|].
    + unfold compact_value. case_bool_decide.
      * etrans; [apply Hdiv; lia|]. lia.
      * rewrite Z.max_r in * by lia. nia.
    + intros Hs3. unfold compact_value. case_bool_decide; [|lia].
      replace s with 3 by lia. rewrite Z.div_1_r. lia.
  - split; [apply compact_u32; lia|]. eexists. split; [apply CompactToTarget_compact; lia|].
    split; [split; [apply compact_value_nonneg; lia|]|].
    + unfold compact_value. case_bool_decide.
      * etrans; [apply Hdiv; lia|]. lia.
      * replace (s + 1 - 3) with (1 + (s - 3)) by lia.
        destruct (decide (s = 2)) as [->|].
        { rewrite Z.mul_1_r. lia. }
        rewrite Z.max_r in * by lia. rewrite Z.pow_add_r by lia. nia.
    + intros Hs3. unfold compact_value. rewrite bool_decide_false by lia.
      replace (s + 1 - 3) with (1 + (s - 3)) by lia. rewrite Z.pow_add_r by lia. lia.
Qed.

(** With a clear leading bit the encoding keeps at least 255/256 of the target. *)
Lemma TargetToCompact_precise t v :
  0 < t → byte_size t < 255 → 3 ≤ byte_size t → top3 t < 2 ^ 23 →
  CompactToTarget (TargetToCompact t) = Ok v → 255 * t < 256 * v.
Proof.
  intros Ht Hs Hs3 Htop E.
  destruct (TargetToCompact_decode t Ht Hs) as (_ & v' & E' & _ & Hv).
  rewrite E' in E. simplify_eq. rewrite (Hv Hs3).
  pose proof (top3_spec t Ht) as (Hm & Hr & Hlo). specialize (Hlo Hs3).
  rewrite Z.max_r in Hr by lia. set (m := top3 t) in *. clearbody m.
  pose proof (Z.div_mod m 256 ltac:(lia)). pose proof (Z.mod_pos_bound m 256 ltac:(lia)).
  assert (0 < 256 ^ (byte_size t - 3)) by (apply Z.pow_pos_nonneg; lia).
  set (p := 256 ^ (byte_size t - 3)) in *. clearbody p.
  case_bool_decide.
  - rewrite Z.mod_small by lia. nia.
  - nia.
Qed.

End Encode.

(** ** Retargeting and the proof-of-work check *)

(** The exact target a retarget aims at, before it is encoded. *)
Definition retarget (old lim T timespan : Z) : Z :=
  Z.min lim ((old * clamp timespan ((T * 3) `div` 4) ((T * 5) `div` 4)) `div` T).

Lemma clamp_range v lo hi : lo ≤ hi → lo ≤ clamp v lo hi ≤ hi.
Proof. intros. unfold clamp. repeat case_bool_decide; lia. Qed.

Lemma byte_size_le t n : 0 < t → 0 ≤ n → t < 256 ^ n → byte_size t ≤ n.
Proof.
  intros Ht Hn Hlt. pose proof (byte_size_spec t Ht) as (? & Hl & _).
  apply Z.nlt_ge. intros Hc. assert (256 ^ n ≤ 256 ^ (byte_size t - 1)) by (apply Z.pow_le_mono_r; lia).
  lia.
Qed.

Lemma byte_size_ge t n : 0 ≤ n → 256 ^ n ≤ t → n + 1 ≤ byte_size t.
Proof.
  intros Hn Hle. assert (0 < 256 ^ n) by (apply Z.pow_pos_nonneg; lia).
  pose proof (byte_size_spec t ltac:(lia)) as (? & _ & Hu).
  apply Z.nlt_ge. intros Hc. assert (256 ^ byte_size t ≤ 256 ^ n) by (apply Z.pow_le_mono_r; lia).
  lia.
Qed.

Lemma CalculateNextWorkRequired_eq `{Boost} lastBits timespan params old lim :
  0 < nPowTargetTimespan params →
  0 ≤ old → CompactToTarget lastBits = Ok old →
  CompactToTarget (nGenesisBits params) = Ok lim →
  CalculateNextWorkRequired lastBits timespan params
  = Ok (TargetToCompact (retarget old lim (nPowTargetTimespan params) timespan)).
Proof.
  intros HT Ho E1 E2. unfold CalculateNextWorkRequired.
  rewrite E1. cbn [mbind result_bind]. rewrite bool_decide_false by lia.
  cbn [mbind result_bind throw_if]. rewrite E2. cbn [mbind result_bind].
  unfold retarget. set (T := nPowTargetTimespan params) in *.
  rewrite !(Z.quot_div_nonneg (T * _)) by lia.
  set (c := clamp _ _ _).
  assert (0 ≤ c).
  { assert (0 ≤ (T * 3) `div` 4) by (apply Z.div_pos; lia).
    pose proof (clamp_range timespan ((T * 3) `div` 4) ((T * 5) `div` 4)).
    assert ((T * 3) `div` 4 ≤ (T * 5) `div` 4) by (apply Z.div_le_mono; lia). lia. }
  rewrite Z.quot_div_nonneg by nia. case_bool_decide; do 2 f_equal; lia.
Qed.

(** A target below [lim] and at most a quarter above the old one. *)
Lemma retarget_range old lim T timespan :
  0 < T → 0 ≤ old → 0 ≤ lim →
  0 ≤ retarget old lim T timespan ≤ lim ∧ 4 * retarget old lim T timespan ≤ 5 * old.
Proof.
  intros HT Ho Hlim. unfold retarget.
  assert (0 ≤ (T * 3) `div` 4) by (apply Z.div_pos; lia).
  assert ((T * 3) `div` 4 ≤ (T * 5) `div` 4) by (apply Z.div_le_mono; lia).
  pose proof (clamp_range timespan ((T * 3) `div` 4) ((T * 5) `div` 4) ltac:(done)).
  pose proof (Z.mul_div_le (T * 5) 4 ltac:(lia)).
  set (c := clamp _ _ _) in *. clearbody c.
  assert (0 ≤ (old * c) `div` T) by (apply Z.div_pos; nia).
  assert (4 * ((old * c) `div` T) ≤ 5 * old); [|lia].
  pose proof (Z.mul_div_le (old * c) T HT). nia.
Qed.

(** ** Properties *)

(** C10. From any bits and network limit that decode (a clear sign bit), the limit below
    2^256, and a positive target timespan, a retarget returns, and the target it encodes
    is at most the network's limit, at most a quarter above the old target and at most the exact clamped
    retarget; where the leading byte of that exact target is below 0x80 (and it has
    at least three bytes) the loss is below 1/256. *)
Theorem CalculateNextWorkRequired_bounds `{Boost} lastBits timespan params old lim :
  is_u32 lastBits → is_u32 (nGenesisBits params) → 0 < nPowTargetTimespan params →
  CompactToTarget lastBits = Ok old → CompactToTarget (nGenesisBits params) = Ok lim →
  lim < 2 ^ 256 →
  ∃ next new, CalculateNextWorkRequired lastBits timespan params = Ok next ∧
    is_u32 next ∧ CompactToTarget next = Ok new ∧
    let t := retarget old lim (nPowTargetTimespan params) timespan in
    0 ≤ new ≤ t ∧ t ≤ lim ∧ 4 * t ≤ 5 * old ∧
    (2 ^ 16 ≤ t → top3 t < 2 ^ 23 → 255 * t < 256 * new).
Proof.
  intros Hl Hg HT Eo El Hlim.
  assert (∀ b v, is_u32 b → CompactToTarget b = Ok v → 0 ≤ v) as Hpos.
  { intros b v Hb E. destruct (CompactToTarget_cases b Hb) as [(e & m & _ & _ & ? & E')|[_ E']];
      rewrite E' in E; simplify_eq. apply compact_value_nonneg. lia. }
  pose proof (Hpos _ _ Hl Eo). pose proof (Hpos _ _ Hg El).
  rewrite (CalculateNextWorkRequired_eq _ _ _ old lim) by done.
  destruct (retarget_range old lim (nPowTargetTimespan params) timespan) as [[??]?]; [done..|].
  set (t := retarget _ _ _ _) in *.
  destruct (decide (t = 0)) as [->|].
  { exists 0, 0. cbn zeta. split_and!; (done || lia). }
  assert (byte_size t ≤ 32) by (apply byte_size_le; [lia..|change (256 ^ 32) with (2 ^ 256); lia]).
  destruct (TargetToCompact_decode t) as (? & v & E & ? & _); [lia..|].
  exists (TargetToCompact t), v. cbn zeta. split_and!; try (done || lia).
  intros Hbig Htop. apply TargetToCompact_precise; [lia..| |done|done].
  apply (byte_size_ge t 2); [lia|done].
Qed.

Lemma CalculateNextWorkRequired_bounds_witness :
  ∃ next new, CalculateNextWorkRequired (H := boost) 0x1e0fffff 1800 Main = Ok next ∧
    is_u32 next ∧ CompactToTarget next = Ok new ∧
    let t := retarget (0x0fffff * 256 ^ 27) (0x0fffff * 256 ^ 27) 3600 1800 in
    0 ≤ new ≤ t ∧ t ≤ 0x0fffff * 256 ^ 27 ∧ 4 * t ≤ 5 * (0x0fffff * 256 ^ 27) ∧
    (2 ^ 16 ≤ t → top3 t < 2 ^ 23 → 255 * t < 256 * new).
Proof.
  apply (CalculateNextWorkRequired_bounds (H := boost) 0x1e0fffff 1800 Main); by_decide.
Defined.

(** The missing case: a retarget whose exact target has a leading byte of
    0x80 or more, and bit 15 of its three leading bytes clear, encodes less than
    half of that target. *)
Theorem TargetToCompact_loses_leading_bit `{Boost} t :
  0 < t → byte_size t < 255 → 2 ^ 23 ≤ top3 t → Z.land (top3 t) 0x008000 = 0 →
  ∃ v, CompactToTarget (TargetToCompact t) = Ok v ∧ 2 * v < t.
Proof.
  intros Ht Hs Htop Hb.
  destruct (TargetToCompact_decode t Ht Hs) as (_ & v & E & _ & Hv).
  exists v. split; [done|]. pose proof (top3_spec t Ht) as (Hm & Hr & _).
  assert (3 ≤ byte_size t) as Hs3.
  { apply (byte_size_ge t 2); [lia|]. etrans; [|apply Hr].
    assert (0 < 256 ^ (Z.max 3 (byte_size t) - 3)) by (apply Z.pow_pos_nonneg; lia). nia. }
  rewrite (Hv Hs3), bool_decide_true by done. rewrite Z.max_r in Hr by lia.
  set (m := top3 t) in *. clearbody m.
  assert (m `mod` 2 ^ 23 = m - 2 ^ 23) as -> by (symmetry; apply (Z.mod_unique _ _ 1); lia).
  assert (0 < 256 ^ (byte_size t - 3)) by (apply Z.pow_pos_nonneg; lia).
  set (p := 256 ^ (byte_size t - 3)) in *. clearbody p. nia.
Qed.

Lemma TargetToCompact_loses_leading_bit_witness :
  ∃ v, CompactToTarget (TargetToCompact (H := boost) (0xc80000 * 256 ^ 20)) = Ok v ∧
    2 * v < 0xc80000 * 256 ^ 20.
Proof.
  apply (TargetToCompact_loses_leading_bit (H := boost) (0xc80000 * 256 ^ 20)); by_decide.
Defined.

(** With [Main]'s parameters the loss can stop the chain: from the valid bits
    0x1e008000, blocks exactly on schedule give bits that no hash satisfies. *)
Theorem retarget_stall `{Boost} :
  ∃ next, CalculateNextWorkRequired 0x1e008000 3600 Main = Ok next ∧
    ∀ hash, CheckProofOfWork hash next Main = Ok false.
Proof.
  exists (compact 29 0).
  rewrite (CalculateNextWorkRequired_eq _ _ _ (0x8000 * 256 ^ 27) (0x0fffff * 256 ^ 27)) by done.
  change (retarget _ _ _ _) with (0x8000 * 256 ^ 27). rewrite TargetToCompact_spec by done.
  split; [by vm_compute|]. intros hash. unfold CheckProofOfWork.
  rewrite CompactToTarget_compact by lia. done.
Qed.

(** C16. The proof-of-work check on every branch: a set sign bit is an exception,
    never an answer; otherwise the answer is whether the target [m * 256^(e-3)] is
    positive, at most the network's limit, and at least the hash read as a
    big-endian number. *)
Theorem CheckProofOfWork_spec hash nBits params lim :
  is_u32 nBits → CompactToTarget (nGenesisBits params) = Ok lim →
  (Z.testbit nBits 23 = true ∧
   CheckProofOfWork hash nBits params = Throw (runtime_error "Negative compact target")) ∨
  (∃ e m, nBits = compact e m ∧ 0 ≤ e < 256 ∧ 0 ≤ m < 2 ^ 23 ∧
   CheckProofOfWork hash nBits params =
   Ok (bool_decide (0 < compact_value e m ≤ lim ∧ be_val hash ≤ compact_value e m))).
Proof.
  intros Hb El. unfold CheckProofOfWork.
  destruct (CompactToTarget_cases nBits Hb) as [(e & m & -> & ? & ? & ->)|[? ->]]; [right|by left].
  exists e, m. split_and!; [done|lia..|]. cbn [mbind result_bind]. rewrite El.
  cbn [mbind result_bind].
  repeat case_bool_decide; cbn [orb]; try done; lia.
Qed.

Lemma CheckProofOfWork_spec_witness :
  let hash := uint256_zero in
  (Z.testbit 0x1d00ffff 23 = true ∧
   CheckProofOfWork hash 0x1d00ffff Main = Throw (runtime_error "Negative compact target")) ∨
  (∃ e m, 0x1d00ffff = compact e m ∧ 0 ≤ e < 256 ∧ 0 ≤ m < 2 ^ 23 ∧
   CheckProofOfWork hash 0x1d00ffff Main =
   Ok (bool_decide (0 < compact_value e m ≤ 0x0fffff * 256 ^ 27 ∧
                    be_val hash ≤ compact_value e m))).
Proof. apply (CheckProofOfWork_spec uint256_zero 0x1d00ffff Main); by_decide. Defined.
