(* ===== verification/Genesis.v ===== *)
(** * The genesis block: consensus/genesis.cpp

    The file has its own compact decoding and proof-of-work check; the theorems
    relate them to those of pow/difficulty.cpp. *)

From S2P Require Import Prelude Crypto Sha256Ref Codec Transaction Block Params Merkle Difficulty.

(** [while (size > 0 && target[32 - size] == 0) --size;] *)
Fixpoint significant_size (target : list byte) (size : nat) : nat :=
  match size with
  | O => O
  | S size' =>
      if bool_decide (byte_to_Z (target !!! (32 - size)%nat) = 0)
      then significant_size target size' else size
  end.

Definition CompactFromTarget (target : list byte) : Z :=
  let size := significant_size target 32 in
  let at_ i := byte_to_Z (target !!! i) in
  if bool_decide (3 < size)%nat then
    let mantissa := Z.lor (Z.lor (Z.shiftl (at_ (32 - size)%nat) 16)
      (Z.shiftl (at_ (32 - size + 1)%nat) 8)) (at_ (32 - size + 2)%nat) in
    Z.lor (Z.shiftl (Z.of_nat size) 24) mantissa
  else
    let mantissa := foldl (λ mantissa i,
      Z.lor mantissa (Z.shiftl (at_ (31 - i)%nat) (8 * Z.of_nat i))) 0 (seq 0 size) in
    Z.lor (Z.shiftl (Z.of_nat size) 24) mantissa.

(** The loop that stores the bytes of [target], the last first. *)
Definition store_be (target : Z) : list byte :=
  (foldl (λ '(out, target) i,
    (<[(31 - i)%nat := byte_of_Z (Z.land target 0xff)]> out, Z.shiftr target 8))
    (replicate 32 x00, target) (seq 0 32)).1.

Definition ToInteger (target : list byte) : Z :=
  foldl (λ result b, Z.lor (Z.shiftl result 8) (byte_to_Z b)) 0 target.

Section Genesis.
  Context `{OpenSSL_SHA} `{Boost}.

Definition TargetFromCompact (compact : Z) : result (list byte) :=
  let exponent := Z.shiftr compact 24 in
  let mantissa := Z.land compact 0x007fffff in
  let shift := 8 * (i32 exponent - 3) in
  throw_if (bool_decide (shift < 0)) cpp_int_negative_shift;;
  let target := Z.shiftl mantissa shift in
  Ok (store_be target).

Definition ComputeBlockHash (header : BlockHeader) : uint256 :=
  TaggedHash "BLOCK" (header_bytes header).

Definition CheckProofOfWork (header : BlockHeader) : result bool :=
  targetBytes ← TargetFromCompact (bits header);
  let target := ToInteger targetBytes in
  if bool_decide (target = 0) then Ok false else
  let hashVal := ToInteger (ComputeBlockHash header) in
  Ok (bool_decide (hashVal ≤ target)).

(** [genesis.header.nonce = nonce] *)
Definition set_nonce (b : Block) (n : Z) : Block :=
  let h := header b in
  mkBlock (mkBlockHeader (hdr_version h) (prevBlockHash h) (merkleRoot h) (hdr_time h)
    (bits h) n) (transactions b).

(** The loop body, on the block and the loop variable. *)
Definition mine_step (s : Block * Z) : result (Block * Z + Block) :=
  let '(genesis, nonce) := s in
  let genesis := set_nonce genesis nonce in
  ok ← CheckProofOfWork (header genesis);
  Ok (if ok : bool then inr genesis else inl (genesis, nonce + 1)).

(** [for (uint32_t nonce = 0; nonce < UINT32_MAX; ++nonce)] *)
Definition MineGenesis (genesis : Block) : result Block :=
  r ← loop_m 4294967295 mine_step (genesis, 0);
  match r with
  | inr genesis => Ok genesis
  | inl _ => Throw (runtime_error "Unable to find valid genesis nonce")
  end.

Definition BuildGenesisScript (message : string) : string := "OP_RETURN " +:+ message.

Definition CreateGenesisBlock (params : Params) : result Block :=
  let script := BuildGenesisScript (genesisMessage params) in
  let coinbase := mkTransaction (tx_version Transaction_default) []
    [mkTxOut (50 * COIN) (String.list_byte_of_string script)]
    (lockTime Transaction_default) in
  let transactions := [coinbase] in
  let genesis := mkBlock (mkBlockHeader 1 uint256_zero (ComputeMerkleRoot transactions)
    (nGenesisTime params) (nGenesisBits params) (nGenesisNonce params)) transactions in
  ok ← CheckProofOfWork (header genesis);
  if ok : bool then Ok genesis else
  throw_if (bool_decide (nGenesisNonce params ≠ 0))
    (runtime_error "Provided genesis nonce does not satisfy proof-of-work");;
  MineGenesis genesis.

End Genesis.

(** ** The two byte orders and integers *)

Lemma ToInteger_be_val bs : ToInteger bs = be_val bs.
Proof.
  unfold ToInteger, be_val. generalize 0. induction bs as [|b bs IH]; intros v; [done|].
  cbn [foldl]. rewrite IH. f_equal. pose proof (byte_to_Z_range b).
  rewrite Z.lor_comm, Z_add_shiftl, Z.shiftl_mul_pow2 by lia. lia.
Qed.

Lemma store_be_loop n t : (n ≤ 32)%nat →
  foldl (λ '(out, target) i,
    (<[(31 - i)%nat := byte_of_Z (Z.land target 0xff)]> out, Z.shiftr target 8))
    (replicate 32 x00, t) (seq 0 n)
  = (replicate (32 - n) x00 ++ reverse (le_bytes n t), Z.shiftr t (8 * Z.of_nat n)).
Proof.
  induction n as [|n IH]; intros Hn; [by rewrite Z.shiftr_0_r|].
  rewrite seq_S, foldl_app, IH by lia. cbn [foldl]. f_equal.
  - replace (32 - n)%nat with (S (32 - S n)) by lia.
    rewrite replicate_S_end, <-(assoc_L (++)), insert_app_r_alt by (rewrite length_replicate; lia).
    rewrite length_replicate. replace (31 - (0 + n) - (32 - S n))%nat with 0%nat by lia. cbn.
    f_equal. unfold le_bytes. replace (Z.of_nat (S n)) with (Z.of_nat n + 1) by lia.
    rewrite seqZ_app, fmap_app, reverse_app by lia.
    rewrite (seqZ_cons (0 + Z.of_nat n)), (seqZ_nil _ (Z.pred 1)) by lia. cbn.
    rewrite Z.add_0_l. done.
  - rewrite Z.shiftr_shiftr by lia. f_equal. lia.
Qed.

Lemma store_be_eq t : store_be t = reverse (le_bytes 32 t).
Proof. unfold store_be. by rewrite store_be_loop by lia. Qed.

Lemma ToInteger_store_be t : 0 ≤ t < 2 ^ 256 → ToInteger (store_be t) = t.
Proof.
  intros. rewrite ToInteger_be_val, store_be_eq, be_val_reverse, le_val_bytes.
  by apply Z.mod_small.
Qed.

(** ** Agreement with pow/difficulty.cpp *)

Lemma ToInteger_hash_range h : is_hash h → 0 ≤ ToInteger h < 2 ^ 256.
Proof. intros E. rewrite ToInteger_be_val. pose proof (be_val_range h) as Hr. rewrite E in Hr. done. Qed.

Lemma TargetFromCompact_compact `{Boost} e m :
  3 ≤ e < 256 → 0 ≤ m < 2 ^ 23 →
  TargetFromCompact (compact e m) = Ok (store_be (compact_value e m)).
Proof.
  intros He Hm. unfold TargetFromCompact, compact.
  assert (Z.shiftr (m + 2 ^ 24 * e) 24 = e) as ->.
  { rewrite Z.shiftr_div_pow2 by lia. symmetry. apply (Z.div_unique _ _ _ m); lia. }
  assert (Z.land (m + 2 ^ 24 * e) 0x007fffff = m) as ->.
  { change 0x007fffff with (Z.ones 23). rewrite Z.land_ones by lia.
    symmetry. apply (Z.mod_unique _ _ (2 * e)); lia. }
  rewrite i32_id by lia. rewrite bool_decide_false by lia. cbn [throw_if mbind result_bind].
  do 2 f_equal. rewrite Z.shiftl_mul_pow2, pow256 by lia. unfold compact_value.
  case_bool_decide; [|done]. replace e with 3 by lia. rewrite Z.div_1_r. lia.
Qed.

Lemma CheckProofOfWork_agrees `{OpenSSL_SHA} `{Boost} h e m params :
  bits h = compact e m → 3 ≤ e < 256 → 0 ≤ m < 2 ^ 23 → compact_value e m < 2 ^ 256 →
  nGenesisBits params = bits h →
  CheckProofOfWork h = Difficulty.CheckProofOfWork (BlockHash h) (bits h) params ∧
  CheckProofOfWork h = Ok (bool_decide
    (0 < compact_value e m ∧ be_val (BlockHash h) ≤ compact_value e m)).
Proof.
  intros Hb He Hm Hv Hg. unfold CheckProofOfWork, Difficulty.CheckProofOfWork.
  rewrite Hg, Hb, TargetFromCompact_compact, CompactToTarget_compact by lia.
  cbn [mbind result_bind].
  pose proof (compact_value_nonneg e m ltac:(lia)).
  rewrite ToInteger_store_be by lia. rewrite ToInteger_be_val.
  change (ComputeBlockHash h) with (BlockHash h).
  repeat case_bool_decide; cbn [orb]; try (split; done); lia.
Qed.

(** ** The diagnostic encoder *)

Lemma store_be_byte t i : (i < 32)%nat →
  byte_to_Z (store_be t !!! (31 - i)%nat) = (t `div` 256 ^ Z.of_nat i) `mod` 256.
Proof.
  intros Hi. rewrite store_be_eq.
  assert (reverse (le_bytes 32 t) !! (31 - i)%nat
          = Some (byte_of_Z (Z.land (Z.shiftr t (8 * Z.of_nat i)) 255))) as E.
  { rewrite reverse_lookup by (rewrite length_le_bytes; lia). rewrite length_le_bytes.
    replace (32 - S (31 - i))%nat with i by lia. unfold le_bytes.
    rewrite list_lookup_fmap, lookup_seqZ_lt by lia. cbn [fmap option_fmap option_map].
    by rewrite Z.add_0_l. }
  rewrite (list_lookup_total_correct _ _ _ E), byte_to_of_Z.
  change 255 with (Z.ones 8). rewrite Z.land_ones, Zmod_mod by lia.
  by rewrite Z.shiftr_div_pow2, pow256 by lia.
Qed.

Lemma significant_size_spec bs e n : (0 < e ≤ n)%nat →
  (∀ j, (e ≤ j < n)%nat → byte_to_Z (bs !!! (31 - j)%nat) = 0) →
  byte_to_Z (bs !!! (32 - e)%nat) ≠ 0 → significant_size bs n = e.
Proof.
  intros [He Hn] Hz Hnz. induction n as [|n IH]; [lia|]. cbn [significant_size].
  change (32 - S n)%nat with (31 - n)%nat. destruct (decide (e = S n)) as [->|].
  - by rewrite bool_decide_false.
  - rewrite bool_decide_true by (apply Hz; lia). apply IH; [lia|]. intros. apply Hz. lia.
Qed.

(** A target [m * 256^(e-3)] with a leading byte: its bytes above the mantissa are 0
    and its three leading bytes are those of [m]. *)
Lemma compact_bytes e m i : 3 ≤ e → 0 ≤ m < 2 ^ 23 → 0 ≤ i → e - 3 ≤ i →
  (compact_value e m `div` 256 ^ i) `mod` 256 = (m `div` 256 ^ (i - (e - 3))) `mod` 256.
Proof.
  intros He Hm Hi Hle. assert (compact_value e m = m * 256 ^ (e - 3)) as ->.
  { unfold compact_value. case_bool_decide; [|done]. replace e with 3 by lia.
    rewrite Z.div_1_r. simpl. lia. }
  replace i with ((i - (e - 3)) + (e - 3)) at 1 by lia.
  rewrite Z.pow_add_r, Z.div_mul_cancel_r; (done || lia || (apply Z.pow_nonzero; lia)).
Qed.

(** ** The nonce search *)

Section Search.
  Context `{OpenSSL_SHA} `{Boost}.

(** [g] with the nonce of the [i]th iteration, as the loop leaves it. *)
Lemma set_nonce_twice g n n' : set_nonce (set_nonce g n) n' = set_nonce g n'.
Proof. done. Qed.

Lemma mine_step_miss g i :
  CheckProofOfWork (header (set_nonce g i)) = Ok false →
  ∀ g', set_nonce g' i = set_nonce g i →
  mine_step (g', i) = Ok (inl (set_nonce g i, i + 1)).
Proof. intros E g' E'. unfold mine_step. by rewrite E', E. Qed.

(** The states of the search: the block before iteration [i]. *)
Definition mine_state (g : Block) (i : nat) : Block * Z :=
  (match i with O => g | S j => set_nonce g (Z.of_nat j) end, Z.of_nat i).

Lemma mine_step_state g i b :
  CheckProofOfWork (header (set_nonce g (Z.of_nat i))) = Ok b →
  mine_step (mine_state g i) =
    Ok (if b then inr (set_nonce g (Z.of_nat i)) else inl (mine_state g (S i))).
Proof.
  intros E. unfold mine_step, mine_state.
  replace (set_nonce _ (Z.of_nat i)) with (set_nonce g (Z.of_nat i)) by (by destruct i).
  rewrite E. cbn [mbind result_bind]. destruct b; [done|]. do 3 f_equal. lia.
Qed.

(** If every check answers, the search returns the block with the least nonce that
    passes, or throws when none below 2^32-1 does. *)
Lemma MineGenesis_spec g (passes : Z → bool) :
  (∀ n, 0 ≤ n < UINT32_MAX → CheckProofOfWork (header (set_nonce g n)) = Ok (passes n)) →
  (∃ n, 0 ≤ n < UINT32_MAX ∧ passes n = true ∧ (∀ k, 0 ≤ k < n → passes k = false) ∧
     MineGenesis g = Ok (set_nonce g n)) ∨
  ((∀ n, 0 ≤ n < UINT32_MAX → passes n = false) ∧
   MineGenesis g = Throw (runtime_error "Unable to find valid genesis nonce")).
Proof.
  intros Hc. unfold MineGenesis. rewrite loop_m_nat.
  set (N := Pos.to_nat 4294967295).
  assert (Z.of_nat N = UINT32_MAX) as HN by (unfold N; by rewrite positive_nat_Z).
  clearbody N. change (g, 0) with (mine_state g 0).
  destruct (find_first passes N) as [(k & Hk & Hp & Hlt)|Hall].
  - left. exists (Z.of_nat k). split_and!; [lia..|done| |].
    { intros j Hj. rewrite <-(Z2Nat.id j) by lia. apply Hlt. lia. }
    rewrite (loop_nat_leaves N k _ (mine_state g) (Ok (set_nonce g (Z.of_nat k)))); [done|done| |].
    + intros i Hi. rewrite (mine_step_state g i false); [done|]. rewrite Hc by lia. by rewrite Hlt.
    + rewrite (mine_step_state g k true); [done|]. rewrite Hc by lia. by rewrite Hp.
  - right. split.
    { intros n Hn. rewrite <-(Z2Nat.id n) by lia. apply Hall. lia. }
    rewrite (loop_nat_continues N _ (mine_state g)); [done|].
    intros i Hi. rewrite (mine_step_state g i false); [done|]. rewrite Hc by lia. by rewrite Hall.
Qed.

End Search.

(** The block [CreateGenesisBlock] builds, with a given nonce. *)
Definition genesis_coinbase (params : Params) : Transaction :=
  mkTransaction 1 []
    [mkTxOut (50 * COIN)
       (String.list_byte_of_string (BuildGenesisScript (genesisMessage params)))] 0.

Definition genesis_block `{OpenSSL_SHA} (params : Params) (n : Z) : Block :=
  mkBlock (mkBlockHeader 1 uint256_zero (TransactionHash (genesis_coinbase params))
    (nGenesisTime params) (nGenesisBits params) n) [genesis_coinbase params].

(** ** Properties *)

(** The genesis file's own proof-of-work check and [powalgo]'s give the same
    answer on every header whose bits are the network's limit and decode below
    2^256 (exponent at least 3, sign bit clear). *)
Theorem genesis_pow_agrees `{OpenSSL_SHA} `{Boost} h e m params :
  bits h = compact e m → 3 ≤ e < 256 → 0 ≤ m < 2 ^ 23 → compact_value e m < 2 ^ 256 →
  nGenesisBits params = bits h →
  CheckProofOfWork h = Difficulty.CheckProofOfWork (BlockHash h) (bits h) params.
Proof. intros. by eapply CheckProofOfWork_agrees. Qed.

Lemma genesis_pow_agrees_witness :
  let h := header (@genesis_block Sha256Ref.const_sha Main 0) in
  @CheckProofOfWork Sha256Ref.const_sha boost h
  = Difficulty.CheckProofOfWork (@BlockHash Sha256Ref.const_sha h) (bits h) Main.
Proof.
  apply (genesis_pow_agrees (H := Sha256Ref.const_sha) (H0 := boost) _ 30 0x0fffff Main);
    by_decide || reflexivity.
Defined.

(** C11. For declared bits with a clear sign, an exponent of at least 3 and a target
    below 2^256, [CreateGenesisBlock] returns or throws, with no undefined behaviour: the
    block it returns has the declared time and bits, the one coinbase that
    [genesisMessage] determines, its root and a header that meets the proof of work
    of pow/difficulty.cpp, with the declared nonce, or, where that is 0, the least
    nonce that does; it throws only when the declared nonzero nonce or every nonce
    below 2^32-1 fails. *)
Theorem CreateGenesisBlock_spec `{OpenSSL_SHA} `{Boost} params e m :
  nGenesisBits params = compact e m → 3 ≤ e < 256 → 0 ≤ m < 2 ^ 23 →
  compact_value e m < 2 ^ 256 →
  let ok n := Difficulty.CheckProofOfWork (BlockHash (header (genesis_block params n)))
    (nGenesisBits params) params in
  (∃ n, CreateGenesisBlock params = Ok (genesis_block params n) ∧ ok n = Ok true ∧
     (nGenesisNonce params ≠ 0 → n = nGenesisNonce params) ∧
     (nGenesisNonce params = 0 → 0 ≤ n < UINT32_MAX ∧ ∀ k, 0 ≤ k < n → ok k = Ok false)) ∨
  (∃ what, CreateGenesisBlock params = Throw (runtime_error what) ∧
     if bool_decide (nGenesisNonce params = 0)
     then ∀ n, 0 ≤ n < UINT32_MAX → ok n = Ok false
     else ok (nGenesisNonce params) = Ok false).
Proof.
  intros Hb He Hm Hv ok.
  set (passes n := bool_decide (0 < compact_value e m ∧
    be_val (BlockHash (header (genesis_block params n))) ≤ compact_value e m)).
  assert (∀ n, CheckProofOfWork (header (genesis_block params n)) = Ok (passes n) ∧
               ok n = Ok (passes n)) as Hc.
  { intros n. destruct (CheckProofOfWork_agrees (header (genesis_block params n)) e m params)
      as [E1 E2]; [done..|]. split; [exact E2|]. unfold ok. etrans; [symmetry; exact E1|exact E2]. }
  clearbody passes ok.
  assert (CreateGenesisBlock params =
    if passes (nGenesisNonce params) then Ok (genesis_block params (nGenesisNonce params))
    else if bool_decide (nGenesisNonce params = 0)
    then MineGenesis (genesis_block params (nGenesisNonce params))
    else Throw (runtime_error "Provided genesis nonce does not satisfy proof-of-work")) as ->.
  { pose proof (proj1 (Hc (nGenesisNonce params))) as E. revert E.
    unfold CreateGenesisBlock. change (mkBlock _ _) with (genesis_block params (nGenesisNonce params)).
    intros ->. cbn [mbind result_bind]. destruct (passes _); [done|].
    repeat case_bool_decide; done. }
  destruct (passes (nGenesisNonce params)) eqn:Ep.
  { left. exists (nGenesisNonce params). rewrite <-Ep at 1.
    split_and!; [done|by rewrite (proj2 (Hc _)), Ep|done|].
    intros E0. rewrite E0. split; [done|lia]. }
  case_bool_decide as Hn; [|right; eexists; split; [done|]; by rewrite (proj2 (Hc _)), Ep].
  destruct (MineGenesis_spec (genesis_block params (nGenesisNonce params)) passes)
    as [(n & ? & Hp & Hlt & ->)|[Hall ->]].
  { intros n Hr. apply Hc. }
  - left. exists n. split_and!; [done|by rewrite (proj2 (Hc _)), Hp|done|].
    intros _. split; [done|]. intros k Hk. by rewrite (proj2 (Hc _)), Hlt.
  - right. eexists. split; [done|]. intros n Hr. by rewrite (proj2 (Hc _)), Hall.
Qed.

Lemma CreateGenesisBlock_spec_witness :
  let ok n := Difficulty.CheckProofOfWork
    (@BlockHash Sha256Ref.const_sha (header (@genesis_block Sha256Ref.const_sha Testnet n)))
    (nGenesisBits Testnet) Testnet in
  (∃ n, @CreateGenesisBlock Sha256Ref.const_sha boost Testnet
          = Ok (@genesis_block Sha256Ref.const_sha Testnet n) ∧ ok n = Ok true ∧
     (nGenesisNonce Testnet ≠ 0 → n = nGenesisNonce Testnet) ∧
     (nGenesisNonce Testnet = 0 → 0 ≤ n < UINT32_MAX ∧ ∀ k, 0 ≤ k < n → ok k = Ok false)) ∨
  (∃ what, @CreateGenesisBlock Sha256Ref.const_sha boost Testnet = Throw (runtime_error what) ∧
     if bool_decide (nGenesisNonce Testnet = 0)
     then ∀ n, 0 ≤ n < UINT32_MAX → ok n = Ok false
     else ok (nGenesisNonce Testnet) = Ok false).
Proof.
  apply (CreateGenesisBlock_spec (H := Sha256Ref.const_sha) (H0 := boost) Testnet 31 0x00ffff);
    by_decide || reflexivity.
Defined.

(** The words the encoder assembles. *)
Lemma pack_bytes e x y z : 0 ≤ x < 128 → 0 ≤ y < 256 → 0 ≤ z < 256 →
  Z.lor (Z.shiftl e 24) (Z.lor (Z.lor (Z.shiftl x 16) (Z.shiftl y 8)) z)
  = compact e (65536 * x + 256 * y + z).
Proof.
  intros Hx Hy Hz.
  rewrite <-(Z.lor_assoc (Z.shiftl x 16)), (Z.lor_comm (Z.shiftl y 8)), Z_add_shiftl by lia.
  rewrite (Z.lor_comm (Z.shiftl x 16)), Z_add_shiftl by lia.
  rewrite Z.lor_comm, Z_add_shiftl by lia. unfold compact. lia.
Qed.

(** The three bytes below the exponent, and no byte above them. *)
Lemma stored_byte e m i : 3 ≤ e ≤ 32 → 0 ≤ m < 2 ^ 23 → e - 3 ≤ i < 32 →
  byte_to_Z (store_be (compact_value e m) !!! (31 - Z.to_nat i)%nat)
  = (m `div` 256 ^ (i - (e - 3))) `mod` 256.
Proof. intros He Hm Hi. by rewrite store_be_byte, Z2Nat.id, compact_bytes by lia. Qed.

Lemma stored_size e m : 3 ≤ e ≤ 32 → 2 ^ 16 ≤ m < 2 ^ 23 →
  significant_size (store_be (compact_value e m)) 32 = Z.to_nat e.
Proof.
  intros He Hm. apply significant_size_spec; [lia| |].
  - intros j Hj. rewrite <-(Nat2Z.id j), stored_byte by lia. rewrite Z.div_small; [done|].
    split; [lia|]. apply Z.lt_le_trans with (256 ^ 3); [lia|]. apply Z.pow_le_mono_r; lia.
  - replace (32 - Z.to_nat e)%nat with (31 - Z.to_nat (e - 1))%nat by lia.
    rewrite stored_byte by lia. replace (e - 1 - (e - 3)) with 2 by lia.
    change (256 ^ 2) with 65536. assert (0 ≤ m `div` 65536 < 128).
    { split; [apply Z.div_pos; lia|apply Z.div_lt_upper_bound; lia]. }
    rewrite Z.mod_small by lia. assert (1 ≤ m `div` 65536); [|lia].
    apply Z.div_le_lower_bound; lia.
Qed.

(** The diagnostic encoder inverts the decoder on normalised encodings, those
    with a leading mantissa byte between 1 and 0x7f and an exponent of 3 to 32. *)
Theorem CompactFromTarget_roundtrip `{Boost} e m :
  3 ≤ e ≤ 32 → 2 ^ 16 ≤ m < 2 ^ 23 →
  ∃ target, TargetFromCompact (compact e m) = Ok target ∧
    CompactFromTarget target = compact e m.
Proof.
  intros He Hm. exists (store_be (compact_value e m)).
  rewrite TargetFromCompact_compact by lia. split; [done|].
  unfold CompactFromTarget. rewrite stored_size, Z2Nat.id by lia.
  assert (0 ≤ m `div` 65536 < 128) as Htop.
  { split; [apply Z.div_pos; lia|apply Z.div_lt_upper_bound; lia]. }
  pose proof (Z.div_mod m 256 ltac:(lia)). pose proof (Z.div_mod (m `div` 256) 256 ltac:(lia)) as Hd.
  rewrite Z.div_div in Hd by lia. change (256 * 256) with 65536 in Hd.
  pose proof (Z.mod_pos_bound m 256 ltac:(lia)). pose proof (Z.mod_pos_bound (m `div` 256) 256 ltac:(lia)).
  pose proof (stored_byte e m (e - 1) ltac:(lia) ltac:(lia) ltac:(lia)) as B2.
  pose proof (stored_byte e m (e - 2) ltac:(lia) ltac:(lia) ltac:(lia)) as B1.
  pose proof (stored_byte e m (e - 3) ltac:(lia) ltac:(lia) ltac:(lia)) as B0.
  replace (e - 1 - (e - 3)) with 2 in B2 by lia. replace (e - 2 - (e - 3)) with 1 in B1 by lia.
  replace (e - 3 - (e - 3)) with 0 in B0 by lia. rewrite Z.div_1_r in B0.
  change (256 ^ 1) with 256 in B1. change (256 ^ 2) with 65536 in B2. rewrite (Z.mod_small (_ `div` _)) in B2 by lia.
  case_bool_decide as H3.
  - replace (32 - Z.to_nat e)%nat with (31 - Z.to_nat (e - 1))%nat by lia.
    replace (31 - Z.to_nat (e - 1) + 1)%nat with (31 - Z.to_nat (e - 2))%nat by lia.
    replace (31 - Z.to_nat (e - 1) + 2)%nat with (31 - Z.to_nat (e - 3))%nat by lia.
    rewrite B2, B1, B0, pack_bytes by lia. f_equal. lia.
  - assert (e = 3) as -> by lia. change (Z.to_nat 3) with 3%nat. cbn [seq foldl].
    change (Z.to_nat (3 - 1)) with 2%nat in B2. change (Z.to_nat (3 - 2)) with 1%nat in B1.
    change (Z.to_nat (3 - 3)) with 0%nat in B0. rewrite B2, B1, B0.
    rewrite Z.lor_0_l, Z.shiftl_0_r. change (8 * Z.of_nat 1) with 8. change (8 * Z.of_nat 2) with 16.
    rewrite Z.lor_comm, (Z.lor_comm (m `mod` 256)), (Z.lor_comm (Z.lor _ _) (Z.shiftl _ 16)), Z.lor_assoc.
    rewrite (Z.lor_comm _ (Z.shiftl 3 24)), pack_bytes by lia. f_equal. lia.
Qed.

Lemma CompactFromTarget_roundtrip_witness :
  ∃ target, @TargetFromCompact boost (compact 29 0x00ffff0) = Ok target ∧
    CompactFromTarget target = compact 29 0x00ffff0.
Proof. apply (CompactFromTarget_roundtrip (H := boost)); lia. Defined.
