(* ===== verification/Script.v ===== *)
(** * Signatures and scripts: crypto/schnorr.cpp, script/interpreter.cpp

    Elliptic-curve arithmetic and big-number conversion are OpenSSL's, the class
    [OpenSSL_EC]; the documented behaviour the theorems need is [OpenSSL_EC_laws].
    Allocation failures, which the code turns into [false], are not modelled. *)

From S2P Require Import Prelude Crypto Sha256Ref Codec Transaction.

Class OpenSSL_EC := {
  EC_POINT : Type;
  EC_POINT_set_compressed_coordinates : Z → Z → option EC_POINT;
  EC_POINT_is_on_curve : EC_POINT → bool;
  EC_GROUP_get_order : Z;
  EC_POINT_mul_generator : Z → EC_POINT;
  EC_POINT_mul : EC_POINT → Z → EC_POINT;
  EC_POINT_invert : EC_POINT → EC_POINT;
  EC_POINT_add : EC_POINT → EC_POINT → EC_POINT;
  EC_POINT_is_at_infinity : EC_POINT → bool;
  EC_POINT_get_affine_coordinates : EC_POINT → Z * Z;
  BN_bin2bn : list byte → Z;
  BN_bn2binpad : Z → list byte;
}.

(** Big-endian conversion; points form an abelian group whose generator has the
    group's order. *)
Class OpenSSL_EC_laws `(E : OpenSSL_EC) := {
  BN_bin2bn_be bs : BN_bin2bn bs = be_val bs;
  infinity : EC_POINT;
  add_assoc :: Assoc (=) EC_POINT_add;
  add_comm :: Comm (=) EC_POINT_add;
  add_infinity P : EC_POINT_add P infinity = P;
  add_invert P : EC_POINT_add P (EC_POINT_invert P) = infinity;
  mul_generator_order k : 0 ≤ k →
    EC_POINT_mul_generator (k + EC_GROUP_get_order) = EC_POINT_mul_generator k;
}.

(** The two-element group, a model of the laws. *)
Definition toy_EC : OpenSSL_EC := {|
  EC_POINT := bool;
  EC_POINT_set_compressed_coordinates x _ := Some (Z.odd x);
  EC_POINT_is_on_curve _ := true;
  EC_GROUP_get_order := 2;
  EC_POINT_mul_generator k := Z.odd k;
  EC_POINT_mul P k := P && Z.odd k;
  EC_POINT_invert P := P;
  EC_POINT_add := xorb;
  EC_POINT_is_at_infinity P := negb P;
  EC_POINT_get_affine_coordinates P := (Z.b2z P, 0);
  BN_bin2bn := be_val;
  BN_bn2binpad x := reverse (le_bytes 32 x);
|}.

#[export] Program Instance toy_EC_laws : OpenSSL_EC_laws toy_EC := {| infinity := false |}.
Next Obligation. done. Qed.
Next Obligation. intros [] [] []; done. Qed.
Next Obligation. intros [] []; done. Qed.
Next Obligation. by intros []. Qed.
Next Obligation. by intros []. Qed.
Next Obligation. intros k _. cbn. rewrite Z.odd_add. by destruct (Z.odd k). Qed.

Section Schnorr.
  Context `{OpenSSL_SHA} `{OpenSSL_EC}.

Definition TaggedHashBIP340 (msg : list byte) : list byte :=
  let tag := "BIP0340/challenge" in
  let taghash := sha256 (String.list_byte_of_string tag) in
  sha256 (taghash ++ taghash ++ msg).

Definition LoadPubKey (xonly : list byte) : option EC_POINT :=
  let x := BN_bin2bn xonly in
  match EC_POINT_set_compressed_coordinates x 0 with
  | Some p => if EC_POINT_is_on_curve p then Some p else None
  | None => None
  end.

Definition VerifySchnorr (pubkey sig msg : list byte) : bool :=
  let rBytes := take 32 sig in
  let sBytes := drop 32 sig in
  let s := BN_bin2bn sBytes in
  match LoadPubKey pubkey with
  | None => false
  | Some P =>
      let n := EC_GROUP_get_order in
      let preimage := rBytes ++ pubkey ++ msg in
      let eBytes := TaggedHashBIP340 preimage in
      let e := BN_bin2bn eBytes `mod` n in
      let sG := EC_POINT_mul_generator s in
      let eP := EC_POINT_mul P e in
      let eP := EC_POINT_invert eP in
      let R := EC_POINT_add sG eP in
      if EC_POINT_is_at_infinity R then false else
      let '(xR, yR) := EC_POINT_get_affine_coordinates R in
      let y_even := negb (Z.testbit yR 0) in
      let xBytes := BN_bn2binpad xR in
      y_even && bool_decide (xBytes = rBytes)
  end.

Definition VerifyScript (tx : Transaction) (inputIndex : nat) (utxo : TxOut) : result bool :=
  match vin tx !! inputIndex with
  | None => Throw (runtime_error "input index out of range")
  | Some in_ =>
      if negb (bool_decide (zlen (scriptSig in_) = 64)) then Ok false else
      if negb (bool_decide (zlen (scriptPubKey utxo) = 32)) then Ok false else
      let sig := scriptSig in_ in
      let pubkey := scriptPubKey utxo in
      let msg := Serialize tx in
      Ok (VerifySchnorr pubkey sig msg)
  end.

(** The BIP-340 challenge of a signature. *)
Definition challenge (pubkey sig msg : list byte) : Z :=
  BN_bin2bn (TaggedHash "BIP0340/challenge" (take 32 sig ++ pubkey ++ msg))
  `mod` EC_GROUP_get_order.

(** The BIP-340 acceptance condition: the key lifts to a point [P] and some finite
    point [R] with even y and x-coordinate [r] has [R + eP = sG]. *)
Definition schnorr_equation (pubkey sig msg : list byte) : Prop :=
  ∃ P R, LoadPubKey pubkey = Some P ∧
    EC_POINT_add R (EC_POINT_mul P (challenge pubkey sig msg))
      = EC_POINT_mul_generator (be_val (drop 32 sig)) ∧
    EC_POINT_is_at_infinity R = false ∧
    Z.testbit (EC_POINT_get_affine_coordinates R).2 0 = false ∧
    BN_bn2binpad (EC_POINT_get_affine_coordinates R).1 = take 32 sig.

(** ** The curve equation *)

Lemma add_cancel `{!OpenSSL_EC_laws _} P Q R :
  EC_POINT_add R Q = P ↔ R = EC_POINT_add P (EC_POINT_invert Q).
Proof.
  split; intros <- || intros ->.
  - by rewrite <-(assoc EC_POINT_add), add_invert, add_infinity.
  - by rewrite <-(assoc EC_POINT_add), (comm EC_POINT_add _ Q), add_invert, add_infinity.
Qed.

Lemma VerifySchnorr_equation `{!OpenSSL_EC_laws _} pubkey sig msg :
  VerifySchnorr pubkey sig msg = true ↔
  schnorr_equation pubkey sig msg.
Proof.
  unfold VerifySchnorr, schnorr_equation. rewrite BN_bin2bn_be.
  change (TaggedHashBIP340 ?m) with (TaggedHash "BIP0340/challenge" m).
  fold (challenge pubkey sig msg).
  setoid_rewrite add_cancel.
  destruct (LoadPubKey pubkey) as [P|]; [|split; [done|by intros (?&?&?&_)]].
  set (R := EC_POINT_add _ _).
  destruct (EC_POINT_get_affine_coordinates R) as [x y] eqn:EC.
  split.
  - destruct (EC_POINT_is_at_infinity R) eqn:EI; [done|].
    intros [Hy Hx%bool_decide_eq_true]%andb_true_iff.
    apply negb_true_iff in Hy. exists P, R. by rewrite EC.
  - intros (P' & R' & HP & HR & HI & Hy & Hx). simplify_eq. fold R in HI, Hy, Hx.
    rewrite HI. rewrite EC in Hy, Hx. cbn [fst snd] in Hy, Hx. rewrite Hy, Hx.
    by rewrite bool_decide_true.
Qed.

End Schnorr.

(** A transaction's encoding contains each of its input scripts. *)
Lemma Serialize_scriptSig tx i in_ :
  vin tx !! i = Some in_ → ∃ pre post, Serialize tx = pre ++ scriptSig in_ ++ post.
Proof.
  intros (l1 & l2 & E & _)%list_elem_of_split_length. rewrite Serialize_eq, E.
  unfold enc_list. rewrite bind_app, bind_cons, WriteTxIn_eq. unfold WriteVarBytes.
  set (head := WriteUint32 [] (tx_version tx)). set (n := WriteUint32 [] (u32 (zlen (l1 ++ _)))).
  set (len := WriteUint32 [] (u32 (zlen (scriptSig in_)))).
  set (idx := WriteUint32 [] (op_index (prevout in_))). set (sq := WriteUint32 [] (sequence in_)).
  set (e1 := l1 ≫= _). set (e2 := l2 ≫= _). set (rest := WriteUint32 [] (u32 (zlen (vout tx))) ++ _).
  exists (head ++ n ++ e1 ++ op_hash (prevout in_) ++ idx ++ len), (sq ++ e2 ++ rest).
  by rewrite <-!(assoc_L (++)).
Qed.

(** ** Properties *)

(** C14. Signature verification decides the BIP-340 equation: a signature [r || s]
    is accepted exactly when the x-only key lifts to a point [P] and some finite
    point [R] with even y and x-coordinate [r] satisfies [R + eP = sG] for the
    challenge [e]. *)
Theorem VerifySchnorr_correct `{OpenSSL_SHA} `{OpenSSL_EC_laws} pubkey sig msg :
  VerifySchnorr pubkey sig msg = true ↔
  schnorr_equation pubkey sig msg.
Proof. apply VerifySchnorr_equation. Qed.

Lemma VerifySchnorr_correct_witness :
  let sig := replicate 31 x00 ++ [x01] ++ replicate 31 x00 ++ [x01] in
  @VerifySchnorr Sha256Ref.const_sha toy_EC (replicate 32 x00) sig [] = true ↔
  @schnorr_equation Sha256Ref.const_sha toy_EC (replicate 32 x00) sig [].
Proof. apply (VerifySchnorr_correct (H := Sha256Ref.const_sha) (E := toy_EC)). Defined.

(** The check that [s] is below the group order is missing: adding the order
    to [s] gives a second signature with the same answer. *)
Theorem VerifySchnorr_malleable `{OpenSSL_SHA} `{OpenSSL_EC_laws} pubkey r s s' msg :
  length r = 32%nat → be_val s' = be_val s + EC_GROUP_get_order →
  VerifySchnorr pubkey (r ++ s') msg = VerifySchnorr pubkey (r ++ s) msg.
Proof.
  intros Hr Hs. apply eq_true_iff_eq. rewrite !VerifySchnorr_equation.
  unfold schnorr_equation, challenge. rewrite <-Hr, !take_app_length, !drop_app_length, Hs.
  rewrite mul_generator_order; [done|]. apply be_val_range.
Qed.

Lemma VerifySchnorr_malleable_witness :
  let r := replicate 31 x00 ++ [x01] in
  let s := replicate 31 x00 ++ [x01] in
  let s' := replicate 31 x00 ++ [x03] in
  @VerifySchnorr Sha256Ref.const_sha toy_EC (replicate 32 x00) (r ++ s') []
  = @VerifySchnorr Sha256Ref.const_sha toy_EC (replicate 32 x00) (r ++ s) [].
Proof.
  apply (VerifySchnorr_malleable (H := Sha256Ref.const_sha) (E := toy_EC)); reflexivity.
Defined.

(** An accepted input script is a 64-byte signature under a 32-byte key of a
    message that contains that very signature: [VerifyScript] signs
    [Serialize tx], input scripts included. *)
Theorem VerifyScript_accepts `{OpenSSL_SHA} `{OpenSSL_EC} tx i utxo :
  VerifyScript tx i utxo = Ok true →
  ∃ in_ pre post, vin tx !! i = Some in_ ∧
    zlen (scriptSig in_) = 64 ∧ zlen (scriptPubKey utxo) = 32 ∧
    VerifySchnorr (scriptPubKey utxo) (scriptSig in_) (pre ++ scriptSig in_ ++ post) = true.
Proof.
  unfold VerifyScript. destruct (vin tx !! i) as [in_|] eqn:E; [|done].
  do 2 (case_bool_decide; [|done]). cbn. intros [= Hv].
  destruct (Serialize_scriptSig tx i in_ E) as (pre & post & Hs).
  exists in_, pre, post. by rewrite <-Hs.
Qed.

(** An input the model of the curve accepts. *)
Definition example_signed_tx : Transaction :=
  mkTransaction 1
    [mkTxIn (mkOutPoint (replicate 32 x0a) 1)
       (replicate 31 x00 ++ [x01] ++ replicate 31 x00 ++ [x01]) 0]
    [mkTxOut 50 (replicate 32 x01)] 0.

Lemma VerifyScript_accepts_witness :
  ∃ in_ pre post, vin example_signed_tx !! 0%nat = Some in_ ∧
    zlen (scriptSig in_) = 64 ∧ zlen (scriptPubKey (mkTxOut 60 (replicate 32 x00))) = 32 ∧
    @VerifySchnorr Sha256Ref.const_sha toy_EC (scriptPubKey (mkTxOut 60 (replicate 32 x00)))
      (scriptSig in_) (pre ++ scriptSig in_ ++ post) = true.
Proof.
  apply (VerifyScript_accepts (H := Sha256Ref.const_sha) (H0 := toy_EC) example_signed_tx 0
    (mkTxOut 60 (replicate 32 x00))). vm_compute. reflexivity.
Defined.
