(* ===== verification/Validation.v ===== *)
(** * Block validation: validation/validation.cpp

    [ValidateBlockHeader], [ValidateTransactions] and [ValidateBlock].  The UTXO
    provider, a [std::function] that may be empty, is an [option] of a lookup
    function.  [valid_transactions] states what a valid list of transactions is
    without loops or early returns; the code decides exactly that. *)

From S2P Require Import Prelude Crypto Sha256Ref Codec Transaction Block Params Merkle.
From S2P Require Import Difficulty Script Genesis.

Local Open Scope verdict_scope.

Definition UTXOLookup : Type := option (OutPoint → option TxOut).

Definition IsNullOutPoint (prevout : OutPoint) : bool :=
  forallb (λ b, bool_decide (byte_to_Z b = 0)) (op_hash prevout)
  && bool_decide (op_index prevout = UINT32_MAX).

Definition OutPointEq (a b : OutPoint) : bool :=
  bool_decide (op_index a = op_index b) &&
  bool_decide (op_hash a = take (length (op_hash a)) (op_hash b)).

Definition SafeAdd (a b : Z) : option Z :=
  if bool_decide (a > UINT64_MAX - b) then None else Some (u64 (a + b)).

Definition IsCoinbase (tx : Transaction) : bool :=
  match vin tx with
  | [i] => IsNullOutPoint (prevout i)
  | _ => false
  end.

(** The body of the two loops over outputs (71-80, 89-98). *)
Definition check_output (params : Params) (total : Z) (out : TxOut) : verdict Z :=
  next ←? require_some (SafeAdd total (value out));
  reject_if (negb (MoneyRange (value out) params) || negb (MoneyRange next params)) ;?
  reject_if (negb (bool_decide (zlen (scriptPubKey out) = 32))) ;?
  accept next.

Section Validation.
  Context `{OpenSSL_SHA} `{OpenSSL_EC}.

(** The body of the loop over inputs (115-136), with [seenPrevouts] a set. *)
Definition check_input (params : Params) (lookup : OutPoint → option TxOut)
    (tx : Transaction) (s : gset OutPoint * Z) (inIdx : nat) (in_ : TxIn) :
    verdict (gset OutPoint * Z) :=
  let '(seenPrevouts, totalIn) := s in
  reject_if (IsNullOutPoint (prevout in_)) ;?
  reject_if (is_empty (scriptSig in_)) ;?
  reject_if (bool_decide (prevout in_ ∈ seenPrevouts)) ;?
  let seenPrevouts := {[prevout in_]} ∪ seenPrevouts in
  utxo ←? require_some (lookup (prevout in_));
  require_true (VerifyScript tx inIdx utxo) ;?
  next ←? require_some (SafeAdd totalIn (value utxo));
  reject_if (negb (MoneyRange next params)) ;?
  accept (seenPrevouts, next).

(** The body of the loop over transactions (86-148). *)
Definition check_tx (params : Params) (lookup : UTXOLookup)
    (s : gset OutPoint * Z) (i : nat) (tx : Transaction) : verdict (gset OutPoint * Z) :=
  let '(seenPrevouts, totalFees) := s in
  totalOut ←? foldV (check_output params) 0 (vout tx);
  if bool_decide (i = 0%nat) then accept (seenPrevouts, totalFees) else
  reject_if (IsCoinbase tx) ;?
  lookup ←? require_some lookup;
  reject_if (is_empty (vin tx) || is_empty (vout tx)) ;?
  ' (seenPrevouts, totalIn) ←? foldVi (check_input params lookup tx) (seenPrevouts, 0) 0 (vin tx);
  reject_if (bool_decide (totalOut > totalIn)) ;?
  let fee := totalIn - totalOut in
  nextFees ←? require_some (SafeAdd totalFees fee);
  reject_if (negb (MoneyRange nextFees params)) ;?
  accept (seenPrevouts, nextFees).

Definition check_transactions (txs : list Transaction) (params : Params) (height : Z)
    (lookup : UTXOLookup) : verdict unit :=
  match txs with
  | [] => reject
  | front :: _ =>
      reject_if (negb (IsCoinbase front)) ;?
      reject_if (is_empty (vout front)) ;?
      let coinbaseSig := match vin front with i :: _ => scriptSig i | [] => [] end in
      reject_if (bool_decide (zlen coinbaseSig < 2) || bool_decide (zlen coinbaseSig > 100)) ;?
      coinbaseOutTotal ←? foldV (check_output params) 0 (vout front);
      ' (_, totalFees) ←? foldVi (check_tx params lookup) (∅, 0) 0 txs;
      maxCoinbase ←? call (GetBlockSubsidy height params);
      maxCoinbase ←? require_some (SafeAdd maxCoinbase totalFees);
      reject_if (bool_decide (coinbaseOutTotal > maxCoinbase))
  end.

(** The answer: [true] if no check rejects. *)
Definition ValidateTransactions (txs : list Transaction) (params : Params) (height : Z)
    (lookup : UTXOLookup) : result bool :=
  answer (check_transactions txs params height lookup).

Definition ValidateBlockHeader (header : BlockHeader) (params : Params) : result bool :=
  Difficulty.CheckProofOfWork (BlockHash header) (bits header) params.

Definition ValidateBlock (block : Block) (params : Params) (height : Z)
    (lookup : UTXOLookup) : result bool :=
  (ok ← ValidateBlockHeader (header block) params;
  if negb ok then Ok false else
  ok ← ValidateTransactions (transactions block) params height lookup;
  if negb ok then Ok false else
  if negb (bool_decide (ComputeMerkleRoot (transactions block) = merkleRoot (header block)))
  then Ok false else
  Ok true)%stdpp.

End Validation.

(** ** What a valid list of transactions is *)

Definition NullOutPoint : OutPoint := mkOutPoint uint256_zero UINT32_MAX.

(** Value spent and created by a transaction, and the fees of several. *)
Definition spent (lookup : OutPoint → option TxOut) (tx : Transaction) : Z :=
  sum_Z ((λ i, from_option value 0 (lookup (prevout i))) <$> vin tx).
Definition created (tx : Transaction) : Z := sum_Z (value <$> vout tx).
Definition fees (lookup : OutPoint → option TxOut) (txs : list Transaction) : Z :=
  sum_Z ((λ tx, spent lookup tx - created tx) <$> txs).

(** The subsidy of a height, 0 below height 0. *)
Definition subsidy (params : Params) (height : Z) : Z :=
  if bool_decide (height < 0) then 0 else subsidy_at (nSubsidyHalvingInterval params) height.

Definition outputs_ok (params : Params) (outs : list TxOut) : Prop :=
  sum_Z (value <$> outs) ≤ nMaxMoneyOut params ∧
  Forall (λ o, zlen (scriptPubKey o) = 32) outs.

Section Spec.
  Context `{OpenSSL_SHA} `{OpenSSL_EC}.

(** An input spends an existing output with a signature that verifies. *)
Definition input_ok (lookup : OutPoint → option TxOut) (tx : Transaction) (i : nat)
    (in_ : TxIn) : Prop :=
  prevout in_ ≠ NullOutPoint ∧ scriptSig in_ ≠ [] ∧
  ∃ utxo, lookup (prevout in_) = Some utxo ∧ VerifyScript tx i utxo = Ok true.

Definition spend_ok (params : Params) (lookup : OutPoint → option TxOut) (tx : Transaction) :
    Prop :=
  vin tx ≠ [] ∧ vout tx ≠ [] ∧ outputs_ok params (vout tx) ∧
  (∀ i in_, vin tx !! i = Some in_ → input_ok lookup tx i in_) ∧
  created tx ≤ spent lookup tx ≤ nMaxMoneyOut params.

Definition coinbase_ok (params : Params) (tx : Transaction) : Prop :=
  (∃ i, vin tx = [i] ∧ prevout i = NullOutPoint ∧ 2 ≤ zlen (scriptSig i) ≤ 100) ∧
  vout tx ≠ [] ∧ outputs_ok params (vout tx).

(** The outpoints a list of transactions spends. *)
Definition prevouts (txs : list Transaction) : list OutPoint :=
  prevout <$> (txs ≫= vin).

Definition valid_transactions (txs : list Transaction) (params : Params) (height : Z)
    (lookup : UTXOLookup) : Prop :=
  let lk := default (λ _, None) lookup in
  ∃ cb rest, txs = cb :: rest ∧ coinbase_ok params cb ∧
    Forall (spend_ok params lk) rest ∧ NoDup (prevouts rest) ∧
    fees lk rest ≤ nMaxMoneyOut params ∧
    created cb ≤ subsidy params height + fees lk rest ≤ UINT64_MAX.

End Spec.

(** The ranges of the C++ types of everything a validation reads. *)
Definition wf_inputs (txs : list Transaction) (params : Params) (lookup : UTXOLookup) : Prop :=
  wf_params params ∧ Forall wf_tx txs ∧
  ∀ lk o u, lookup = Some lk → lk o = Some u → is_u64 (value u).

(** ** Helpers *)

Lemma forallb_zero bs :
  forallb (λ b, bool_decide (byte_to_Z b = 0)) bs = true ↔ bs = replicate (length bs) x00.
Proof.
  induction bs as [|b bs IH]; [done|]. cbn [forallb length replicate].
  rewrite andb_true_iff, bool_decide_eq_true, IH. split.
  - intros [Hb ->]. f_equal; [by apply (inj byte_to_Z)|by rewrite length_replicate].
  - intros [= -> E]. done.
Qed.

Lemma IsNullOutPoint_spec o : is_hash (op_hash o) → IsNullOutPoint o = bool_decide (o = NullOutPoint).
Proof.
  intros Hh. apply eq_true_iff_eq. unfold IsNullOutPoint.
  rewrite andb_true_iff, !bool_decide_eq_true, forallb_zero, Hh.
  destruct o as [h i]. unfold NullOutPoint, uint256_zero. simpl.
  split; [by intros [-> ->]|by intros [= -> ->]].
Qed.

(** The comparison of the set of spent outpoints is equality. *)
Lemma OutPointEq_spec a b : is_hash (op_hash a) → is_hash (op_hash b) →
  OutPointEq a b = bool_decide (a = b).
Proof.
  intros Ha Hb. apply eq_true_iff_eq. unfold OutPointEq.
  rewrite andb_true_iff, !bool_decide_eq_true, Ha, <-Hb, take_ge by lia.
  destruct a, b. simpl. split; [by intros [-> ->]|by intros [= -> ->]].
Qed.

Lemma SafeAdd_Some a b : is_u64 a → is_u64 b → a + b ≤ UINT64_MAX → SafeAdd a b = Some (a + b).
Proof.
  unfold SafeAdd, UINT64_MAX. intros. rewrite bool_decide_false by lia.
  by rewrite u64_id by lia.
Qed.
Lemma SafeAdd_None a b : a + b > UINT64_MAX → SafeAdd a b = None.
Proof. unfold SafeAdd. intros. by rewrite bool_decide_true by lia. Qed.

Lemma returns_SafeAdd a b : is_u64 a → is_u64 b →
  returns (require_some (SafeAdd a b)) (a + b ≤ UINT64_MAX) (a + b).
Proof.
  intros. apply returns_some; [by apply SafeAdd_Some|intros; apply SafeAdd_None; lia|apply _].
Qed.

Lemma MoneyRange_spec v params : MoneyRange v params = bool_decide (v ≤ nMaxMoneyOut params).
Proof. done. Qed.

Lemma GetBlockSubsidy_subsidy params height : wf_params params →
  GetBlockSubsidy height params = Ok (subsidy params height).
Proof.
  intros Hp. unfold subsidy. case_bool_decide.
  - unfold GetBlockSubsidy. by rewrite bool_decide_true.
  - by apply GetBlockSubsidy_spec; [|lia].
Qed.

Lemma subsidy_range params height : wf_params params → 0 ≤ subsidy params height ≤ 50 * COIN.
Proof.
  intros [? _]. unfold subsidy. case_bool_decide; [by unfold COIN|].
  apply subsidy_at_range; lia.
Qed.

(** ** The loops decide the specification *)

Section Loops.
  Context (params : Params) (Hmax : is_u64 (nMaxMoneyOut params)).

Lemma check_output_returns total out :
  0 ≤ total ≤ nMaxMoneyOut params → is_u64 (value out) →
  returns (check_output params total out)
    (total + value out ≤ nMaxMoneyOut params ∧ zlen (scriptPubKey out) = 32)
    (total + value out).
Proof.
  intros Ht Hv. unfold check_output.
  eapply returns_iff.
  { eapply returns_vbind; [apply returns_SafeAdd; lia|intros Hle].
    eapply returns_vbind; [apply (returns_reject_if _ (total + value out ≤ nMaxMoneyOut params))|intros _].
    { rewrite !MoneyRange_spec. repeat case_bool_decide; cbn; (split; [done || lia|done || lia]). }
    eapply returns_vbind; [apply (returns_reject_if _ (zlen (scriptPubKey out) = 32))|intros _].
    { case_bool_decide; done. }
    apply returns_accept. }
  unfold UINT64_MAX. intuition lia.
Qed.

Lemma check_outputs_returns outs total :
  0 ≤ total ≤ nMaxMoneyOut params → Forall (λ o, is_u64 (value o)) outs →
  returns (foldV (check_output params) total outs)
    (total + sum_Z (value <$> outs) ≤ nMaxMoneyOut params ∧
     Forall (λ o, zlen (scriptPubKey o) = 32) outs)
    (total + sum_Z (value <$> outs)).
Proof.
  revert total. induction outs as [|o outs IH]; intros total Ht Hv; cbn [foldV fmap list_fmap sum_Z foldr].
  - rewrite Z.add_0_r. eapply returns_iff; [apply returns_accept|]. split; [|done].
    intros _. split; [lia|constructor].
  - apply Forall_cons in Hv as [Hv Hvs].
    assert (0 ≤ sum_Z (value <$> outs)) as Hpos.
    { apply sum_Z_nonneg, Forall_fmap. eapply Forall_impl; [exact Hvs|]. cbn. lia. }
    rewrite Z.add_assoc. eapply returns_iff.
    { eapply returns_vbind; [by apply check_output_returns|]. intros [? _].
      apply IH; [lia|done]. }
    rewrite Forall_cons. unfold sum_Z in *. intuition lia.
Qed.

End Loops.

Section InputLoop.
  Context `{OpenSSL_SHA} `{OpenSSL_EC}.
  Context (params : Params) (Hmax : is_u64 (nMaxMoneyOut params)).
  Context (lk : OutPoint → option TxOut).
  Context (Hlk : ∀ o u, lk o = Some u → is_u64 (value u)).

Lemma VerifyScript_returns tx i in_ utxo : vin tx !! i = Some in_ →
  ∃ b, VerifyScript tx i utxo = Ok b.
Proof. intros E. unfold VerifyScript. rewrite E. repeat case_bool_decide; cbn; eauto. Qed.

Abbreviation input_value i := (from_option value 0 (lk (prevout i))) (only parsing).

Lemma input_value_range i : is_u64 (input_value i).
Proof. destruct (lk (prevout i)) eqn:E; cbn; [by eapply Hlk|lia]. Qed.

Lemma check_input_returns tx seen total i in_ :
  vin tx !! i = Some in_ → is_hash (op_hash (prevout in_)) →
  0 ≤ total ≤ nMaxMoneyOut params →
  returns (check_input params lk tx (seen, total) i in_)
    (input_ok lk tx i in_ ∧ (prevout in_ ∉ seen) ∧
     total + (input_value in_) ≤ nMaxMoneyOut params)
    ({[prevout in_]} ∪ seen, total + (input_value in_)).
Proof.
  intros Hi Hh Ht. unfold check_input, input_ok.
  destruct (lk (prevout in_)) as [u|] eqn:Eu; cbn [from_option].
  - pose proof (Hlk _ _ Eu). destruct (VerifyScript_returns tx i in_ u Hi) as [b Hb].
    eapply returns_iff.
    { eapply returns_vbind; [apply (returns_reject_if _ (prevout in_ ≠ NullOutPoint))|intros _].
      { rewrite IsNullOutPoint_spec by done. by rewrite bool_decide_eq_false. }
      eapply returns_vbind; [apply (returns_reject_if _ (scriptSig in_ ≠ []))|intros _].
      { by destruct (scriptSig in_). }
      eapply returns_vbind; [apply (returns_reject_if _ (prevout in_ ∉ seen))|intros _].
      { by rewrite bool_decide_eq_false. }
      eapply returns_vbind; [apply (returns_accept u)|intros _].
      eapply returns_vbind; [apply (returns_iff _ (b = true)); [|reflexivity]|intros _].
      { unfold require_true. rewrite Hb. destruct b; [by left|by right]. }
      eapply returns_vbind; [apply returns_SafeAdd; lia|intros Hle].
      eapply returns_vbind; [apply (returns_reject_if _ (total + value u ≤ nMaxMoneyOut params))|intros _].
      { rewrite MoneyRange_spec. case_bool_decide; cbn; (split; [done || lia|done || lia]). }
      apply returns_accept. }
    split.
    + intros (?&?&?&_&->&?&?&_). split_and!; [done|done|by exists u|done|done].
    + intros ((?&?&u'&[= <-]&Hv)&?&?). rewrite Hb in Hv. unfold UINT64_MAX.
      split_and!; try done; [congruence|lia].
  - right. split; [by intros [(_&_&?&?&_) _]|].
    destruct (IsNullOutPoint _); [done|]. cbn. destruct (is_empty _); [done|]. cbn.
    by case_bool_decide.
Qed.

Lemma check_inputs_returns tx l i seen total :
  (∀ k in_, l !! k = Some in_ → vin tx !! (i + k)%nat = Some in_) →
  Forall (λ in_, is_hash (op_hash (prevout in_))) l →
  0 ≤ total ≤ nMaxMoneyOut params →
  returns (foldVi (check_input params lk tx) (seen, total) i l)
    ((∀ k in_, l !! k = Some in_ → input_ok lk tx (i + k) in_) ∧
     NoDup (prevout <$> l) ∧ (∀ o, o ∈ prevout <$> l → o ∉ seen) ∧
     total + sum_Z ((λ i, input_value i) <$> l) ≤ nMaxMoneyOut params)
    (list_to_set (prevout <$> l) ∪ seen, total + sum_Z ((λ i, input_value i) <$> l)).
Proof.
  revert i seen total. induction l as [|in_ l IH]; intros i seen total Hl Hh Ht; cbn [foldVi].
  - cbn. rewrite Z.add_0_r. replace (∅ ∪ seen) with seen by set_solver. eapply returns_iff; [apply returns_accept|].
    split; [|done]. intros _. split_and!; [done|constructor|set_solver|lia].
  - apply Forall_cons in Hh as [Hh Hhs].
    cbn [fmap list_fmap sum_Z foldr list_to_set]. rewrite Z.add_assoc.
    assert (0 ≤ sum_Z ((λ i, input_value i) <$> l)) as Hpos.
    { apply sum_Z_nonneg, Forall_fmap, Forall_true. intros x. cbn.
      pose proof (input_value_range x). lia. }
    unfold sum_Z in Hpos.
    replace ({[prevout in_]} ∪ list_to_set (prevout <$> l) ∪ seen)
      with (list_to_set (C := gset OutPoint) (prevout <$> l) ∪ ({[prevout in_]} ∪ seen)) by set_solver.
    pose proof (input_value_range in_).
    eapply returns_iff.
    { eapply returns_vbind; [apply check_input_returns|].
      + replace i with (i + 0)%nat by lia. by apply Hl.
      + done.
      + done.
      + intros (_&_&?). apply IH; [|done|lia].
        intros k in' Hk. replace (S i + k)%nat with (i + S k)%nat by lia. by apply Hl. }
    rewrite NoDup_cons. split.
    + intros ((?&?&?)&Hall&?&Hnew&?). split_and!; [|set_solver|done| |done].
      * intros [|k] in' Hk; [simplify_eq/=; by rewrite Nat.add_0_r|].
        replace (i + S k)%nat with (S i + k)%nat by lia. by apply Hall.
      * intros o [->|Ho]%elem_of_cons; [done|set_solver].
    + intros (Hall&[??]&Hnew&?). split_and!.
      * rewrite <-(Nat.add_0_r i). by apply Hall.
      * apply Hnew. by left.
      * unfold sum_Z in *. lia.
      * intros k in' Hk. replace (S i + k)%nat with (i + S k)%nat by lia. by apply Hall.
      * done.
      * intros o Ho. apply not_elem_of_union. split; [set_solver|]. apply Hnew. by right.
      * done.
Qed.

End InputLoop.

Section TxLoop.
  Context `{OpenSSL_SHA} `{OpenSSL_EC}.
  Context (params : Params) (Hmax : is_u64 (nMaxMoneyOut params)).
  Context (lookup : UTXOLookup).
  Context (Hlk : ∀ lk o u, lookup = Some lk → lk o = Some u → is_u64 (value u)).

Abbreviation lk := (default (λ _, None) lookup) (only parsing).

Lemma lk_value o u : lk o = Some u → is_u64 (value u).
Proof. destruct lookup as [f|] eqn:E; [by apply (Hlk f)|done]. Qed.

Lemma created_nonneg tx : wf_tx tx → 0 ≤ created tx.
Proof.
  intros (_&_&_&_&_&Ho). apply sum_Z_nonneg, Forall_fmap.
  eapply Forall_impl; [exact Ho|]. intros o [??]. cbn. lia.
Qed.

Lemma IsCoinbase_spec tx : wf_tx tx →
  IsCoinbase tx = true ↔ ∃ i, vin tx = [i] ∧ prevout i = NullOutPoint.
Proof.
  intros (_&_&_&_&Hi&_). unfold IsCoinbase. split.
  - destruct (vin tx) as [|i [|]]; try done. apply Forall_singleton in Hi as [Hh _].
    rewrite IsNullOutPoint_spec, bool_decide_eq_true by done. eauto.
  - intros (i & -> & E). by rewrite E.
Qed.

Lemma spend_not_coinbase f tx : wf_tx tx → spend_ok params f tx → IsCoinbase tx = false.
Proof.
  intros Hw (_&_&_&Hin&_). apply not_true_iff_false. intros (i & E & En)%IsCoinbase_spec; [|done].
  destruct (Hin 0%nat i) as [Hne _]; [by rewrite E|done].
Qed.

Lemma wf_tx_values tx : wf_tx tx → Forall (λ o, is_u64 (value o)) (vout tx).
Proof. intros (_&_&_&_&_&Ho). eapply Forall_impl; [exact Ho|]. by intros o [??]. Qed.

Lemma wf_tx_hashes tx : wf_tx tx → Forall (λ i, is_hash (op_hash (prevout i))) (vin tx).
Proof. intros (_&_&_&_&Hi&_). eapply Forall_impl; [exact Hi|]. by intros i [??]. Qed.

(** The coinbase iteration only repeats the checks on the outputs. *)
Lemma check_tx_coinbase seen total tx : wf_tx tx →
  returns (check_tx params lookup (seen, total) 0 tx) (outputs_ok params (vout tx)) (seen, total).
Proof.
  intros Hw. unfold check_tx. cbn [bool_decide]. eapply returns_iff.
  { eapply returns_vbind; [apply check_outputs_returns; [done|lia|by apply wf_tx_values]|intros _].
    apply returns_accept. }
  unfold outputs_ok. rewrite Z.add_0_l. intuition.
Qed.

Lemma check_tx_returns seen total i tx : wf_tx tx →
  0 ≤ total ≤ nMaxMoneyOut params →
  returns (check_tx params lookup (seen, total) (S i) tx)
    (spend_ok params lk tx ∧ NoDup (prevout <$> vin tx) ∧
     (∀ o, o ∈ prevout <$> vin tx → o ∉ seen) ∧
     total + (spent lk tx - created tx) ≤ nMaxMoneyOut params)
    (list_to_set (prevout <$> vin tx) ∪ seen, total + (spent lk tx - created tx)).
Proof.
  intros Hw Ht. unfold check_tx. rewrite bool_decide_false by done.
  pose proof (created_nonneg tx Hw).
  eapply returns_iff.
  { eapply returns_vbind; [apply check_outputs_returns; [done|lia|by apply wf_tx_values]|intros [? _]].
    eapply returns_vbind; [apply (returns_reject_if _ (IsCoinbase tx = false)); done|intros _].
    eapply returns_vbind.
    { apply (returns_some _ (is_Some lookup) lk); [by intros [f ->]| |apply _].
      intros Hn. by apply eq_None_not_Some. }
    intros Hs. eapply returns_vbind; [apply (returns_reject_if _ (vin tx ≠ [] ∧ vout tx ≠ []))|intros _].
    { destruct (vin tx), (vout tx); cbn; intuition done. }
    eapply returns_vbind.
    { apply (check_inputs_returns params Hmax lk lk_value tx (vin tx) 0 seen 0);
        [done|by apply wf_tx_hashes|lia]. }
    intros (_&_&_&?). fold (spent lk tx). cbn beta iota. rewrite !Z.add_0_l.
    fold (created tx). fold (spent lk tx) in *. rewrite Z.add_0_l in *.
    eapply returns_vbind; [apply (returns_reject_if _ (created tx ≤ spent lk tx))|intros ?].
    { rewrite bool_decide_eq_false. lia. }
    eapply returns_vbind; [apply returns_SafeAdd; lia|intros _].
    eapply returns_vbind;
      [apply (returns_reject_if _ (total + (spent lk tx - created tx) ≤ nMaxMoneyOut params))|intros _].
    { rewrite MoneyRange_spec. case_bool_decide; cbn; (split; [done || lia|done || lia]). }
    apply returns_accept. }
  rewrite !Z.add_0_l. fold (spent lk tx) (created tx).
  split.
  - intros ([??]&?&?&[??]&(Hin&?&?&?)&?&?&?&_). unfold spend_ok, outputs_ok.
    split_and!; try done. 
  - intros ((?&?&[??]&Hin&?)&?&?&?). unfold UINT64_MAX.
    assert (is_Some lookup).
    { destruct lookup as [f|]; [done|]. destruct (vin tx) as [|i0 l] eqn:Ev; [done|].
      destruct (Hin 0%nat i0 eq_refl) as (_&_&u&?&_). done. }
    split_and!; try done; try lia. by eapply spend_not_coinbase.
Qed.

End TxLoop.

Section Decide.
  Context `{OpenSSL_SHA} `{OpenSSL_EC}.

Lemma prevouts_cons tx txs : prevouts (tx :: txs) = (prevout <$> vin tx) ++ prevouts txs.
Proof. unfold prevouts. by rewrite bind_cons, fmap_app. Qed.

Lemma fees_cons f tx txs : fees f (tx :: txs) = (spent f tx - created tx) + fees f txs.
Proof. done. Qed.

Lemma fees_nonneg params f txs : Forall (spend_ok params f) txs → 0 ≤ fees f txs.
Proof.
  intros Hs. apply sum_Z_nonneg, Forall_fmap. eapply Forall_impl; [exact Hs|].
  intros tx (_&_&_&_&?). cbn. lia.
Qed.

Lemma check_txs_returns params lookup txs i seen total :
  wf_inputs txs params lookup → 0 ≤ total ≤ nMaxMoneyOut params →
  let lk := default (λ _, None) lookup in
  returns (foldVi (check_tx params lookup) (seen, total) (S i) txs)
    (Forall (spend_ok params lk) txs ∧ NoDup (prevouts txs) ∧
     (∀ o, o ∈ prevouts txs → o ∉ seen) ∧ total + fees lk txs ≤ nMaxMoneyOut params)
    (list_to_set (prevouts txs) ∪ seen, total + fees lk txs).
Proof.
  intros (Hp & Hw & Hlk) Ht. cbn zeta. assert (is_u64 (nMaxMoneyOut params)) as Hmax by apply Hp.
  revert i seen total Ht. induction Hw as [|tx txs Hw Hws IH]; intros i seen total Ht; cbn [foldVi].
  - cbn. rewrite Z.add_0_r. replace (∅ ∪ seen) with seen by set_solver.
    eapply returns_iff; [apply returns_accept|].
    split; [|done]. intros _. split_and!; [constructor|constructor|set_solver|lia].
  - rewrite prevouts_cons, fees_cons, list_to_set_app_L, Z.add_assoc.
    replace (list_to_set (prevout <$> vin tx) ∪ list_to_set (prevouts txs) ∪ seen)
      with (list_to_set (C := gset OutPoint) (prevouts txs) ∪ (list_to_set (prevout <$> vin tx) ∪ seen))
      by set_solver.
    eapply returns_iff.
    { eapply returns_vbind; [by apply (check_tx_returns params Hmax lookup Hlk)|].
      intros ((_&_&_&_&?&_)&_&_&?). apply IH. lia. }
    rewrite Forall_cons, NoDup_app. split.
    + intros ((?&?&?&?)&?&?&Hnew&?). split_and!; try done.
      * intros o Ho Ho'. apply (Hnew o Ho'). set_solver.
      * intros o [Ho|Ho]%elem_of_app; [auto|set_solver].
    + intros ([??]&(?&Hd&?)&Hnew&?). split_and!; try done.
      * intros o Ho. apply Hnew. set_solver.
      * pose proof (fees_nonneg params _ txs ltac:(done)). lia.
      * intros o Ho [Ho'|Ho']%elem_of_union; [|apply (Hnew o); set_solver].
        apply elem_of_list_to_set in Ho'. by apply (Hd o).
Qed.

Lemma check_transactions_returns txs params height lookup :
  wf_inputs txs params lookup →
  returns (check_transactions txs params height lookup)
    (valid_transactions txs params height lookup) tt.
Proof.
  intros Hwf. pose proof Hwf as (Hp & Hw & Hlk).
  assert (is_u64 (nMaxMoneyOut params)) as Hmax by apply Hp.
  pose proof (subsidy_range params height Hp) as Hsub. unfold COIN in Hsub.
  unfold check_transactions. destruct txs as [|cb rest].
  { right. split; [by intros (?&?&?&_)|done]. }
  apply Forall_cons in Hw as [Hcb Hws].
  assert (wf_inputs rest params lookup) as Hwf' by done.
  eapply returns_iff.
  { eapply returns_vbind; [apply (returns_reject_if _ (IsCoinbase cb = true));
      by rewrite negb_false_iff|intros Hc].
    eapply returns_vbind; [apply (returns_reject_if _ (vout cb ≠ []))|intros _].
    { by destruct (vout cb). }
    apply IsCoinbase_spec in Hc as (i & Ei & En); [|done].
    eapply returns_vbind; [apply (returns_reject_if _ (∀ i, vin cb = [i] → 2 ≤ zlen (scriptSig i) ≤ 100))|intros _].
    { rewrite Ei. split.
      - intros E j [= <-]. repeat case_bool_decide; done || lia.
      - intros Hj. specialize (Hj i eq_refl). by rewrite !bool_decide_false by lia. }
    eapply returns_vbind; [apply check_outputs_returns; [done|lia|by apply wf_tx_values]|intros [? _]].
    eapply returns_vbind.
    { cbn [foldVi]. eapply returns_vbind; [by apply check_tx_coinbase|intros _].
      apply (check_txs_returns params lookup rest 0 ∅ 0); [done|lia]. }
    intros (_&Hs&_&_&?). cbn beta iota. rewrite !Z.add_0_l in *. fold (created cb) in *.
    set (lk := default (λ _, None) lookup) in *. pose proof (fees_nonneg _ _ _ Hs).
    eapply returns_vbind.
    { rewrite GetBlockSubsidy_subsidy by done. apply (returns_accept (subsidy params height)). }
    intros _. eapply returns_vbind; [apply returns_SafeAdd; lia|intros _].
    apply (returns_reject_if _ (created cb ≤ subsidy params height + fees lk rest)).
    rewrite bool_decide_eq_false. lia. }
  rewrite !Z.add_0_l. fold (created cb). rewrite IsCoinbase_spec by done.
  unfold valid_transactions. set (lk := default (λ _, None) lookup). split.
  - intros ((i&Ei&En)&?&Hj&[??]&(?&?&?&?&?)&_&?&?). exists cb, rest.
    split_and!; try done. split; [|split; [done|by split]].
    exists i. split_and!; try done; by apply Hj.
  - intros (cb' & rest' & [= <- <-] & ((i&Ei&En&?)&?&?&?)&?&?&?&?).
    split_and!; try (done || lia); [by exists i|].
    intros j Hj. rewrite Ei in Hj. by simplify_eq.
Qed.

Lemma ValidateTransactions_decides txs params height lookup :
  wf_inputs txs params lookup →
  ∃ b, ValidateTransactions txs params height lookup = Ok b ∧
    (b = true ↔ valid_transactions txs params height lookup).
Proof.
  intros Hwf. unfold ValidateTransactions, answer.
  destruct (check_transactions_returns txs params height lookup Hwf) as [[? ->]|[? ->]];
    [by exists true|by exists false].
Qed.

End Decide.

(** ** Blocks *)

Section Blocks.
  Context `{OpenSSL_SHA} `{OpenSSL_EC}.

(** The transactions of a valid list are pairwise distinct. *)
Lemma valid_transactions_NoDup txs params height lookup :
  valid_transactions txs params height lookup → NoDup txs.
Proof.
  intros (cb & rest & -> & ((i&Ei&En&_)&_&_) & Hs & Hnd & _). apply NoDup_cons. split.
  - intros Hin. rewrite Forall_forall in Hs. destruct (Hs cb Hin) as (_&_&_&Hok&_).
    destruct (Hok 0%nat i) as [Hne _]; [by rewrite Ei|done].
  - clear -Hs Hnd. induction Hs as [|tx txs (Hv&_) Hs IH]; [constructor|].
    rewrite prevouts_cons in Hnd. apply NoDup_app in Hnd as (_ & Hd & Hnd).
    apply NoDup_cons. split; [|by apply IH]. intros Hin.
    destruct (vin tx) as [|i l] eqn:Ev; [done|].
    apply (Hd (prevout i)); [by left|]. unfold prevouts.
    apply list_elem_of_fmap. exists i. split; [done|]. apply list_elem_of_bind.
    exists tx. split; [|done]. rewrite Ev. by left.
Qed.

Lemma ValidateBlock_accepts b params height lookup :
  ValidateBlock b params height lookup = Ok true →
  ValidateBlockHeader (header b) params = Ok true ∧
  ValidateTransactions (transactions b) params height lookup = Ok true ∧
  ComputeMerkleRoot (transactions b) = merkleRoot (header b).
Proof.
  unfold ValidateBlock. intros E. simplify_result.
  repeat match goal with H : (if negb ?b then _ else _) = Ok _ |- _ =>
    destruct b eqn:?; cbn [negb] in H; simplify_result end; try done.
  by split_and!; [..|eapply bool_decide_eq_true].
Qed.

Lemma ValidateBlock_valid b params height lookup :
  wf_inputs (transactions b) params lookup →
  ValidateBlock b params height lookup = Ok true →
  valid_transactions (transactions b) params height lookup.
Proof.
  intros Hwf (_ & E & _)%ValidateBlock_accepts.
  destruct (ValidateTransactions_decides _ _ height _ Hwf) as (v & E' & Hv).
  rewrite E' in E. simplify_eq. by apply Hv.
Qed.

(** Value created over a list of transactions. *)
Lemma created_fees f txs :
  sum_Z (created <$> txs) + fees f txs = sum_Z (spent f <$> txs).
Proof. induction txs; [done|]. rewrite !fmap_cons, !sum_Z_cons, fees_cons. lia. Qed.

End Blocks.

(** ** Properties *)

(** C1. [ValidateTransactions] always returns, and returns [true] exactly on the
    valid lists: a coinbase first, with one null input, a script of 2 to 100 bytes
    and at least one output; then transactions with at least one input and output,
    whose inputs spend existing, non-null outpoints, all distinct across the block,
    with scripts that verify, and create no more than they spend; every script 32
    bytes, every sum within [nMaxMoneyOut]; and a coinbase of at most the subsidy
    plus the fees. *)
Theorem ValidateTransactions_correct `{OpenSSL_SHA} `{OpenSSL_EC} txs params height lookup :
  wf_inputs txs params lookup →
  ∃ b, ValidateTransactions txs params height lookup = Ok b ∧
    (b = true ↔ valid_transactions txs params height lookup).
Proof. apply ValidateTransactions_decides. Qed.

(** The coinbase and the block of tests/validation/validation_tests.cpp, and a
    spend the toy curve accepts. *)
Definition MakeCoinbase (v : Z) : Transaction :=
  mkTransaction 1 [mkTxIn NullOutPoint [x01; x02] 0xffffffff]
    [mkTxOut v (replicate 32 x01)] 0.
Definition example_lookup : UTXOLookup :=
  Some (λ o, if bool_decide (o = mkOutPoint (replicate 32 x0a) 1)
             then Some (mkTxOut 60 (replicate 32 x00)) else None).
Definition example_block_txs : list Transaction := [MakeCoinbase 5000000010; example_signed_tx].

Lemma example_wf : wf_inputs example_block_txs Main example_lookup.
Proof.
  split; [by_decide|]. split; [by_decide|]. intros lk o u [= <-].
  case_bool_decide; [|done]. by intros [= <-].
Qed.

Lemma ValidateTransactions_correct_witness :
  ∃ b, @ValidateTransactions Sha256Ref.const_sha toy_EC example_block_txs Main 1 example_lookup
         = Ok b ∧
    (b = true ↔
     @valid_transactions Sha256Ref.const_sha toy_EC example_block_txs Main 1 example_lookup).
Proof.
  apply (ValidateTransactions_correct (H := Sha256Ref.const_sha) (H0 := toy_EC)), example_wf.
Defined.

(** The spend, and its overpaying and missing-output variants. *)
Example validation_tests :
  @ValidateTransactions Sha256Ref.const_sha toy_EC example_block_txs Main 1 example_lookup = Ok true ∧
  @ValidateTransactions Sha256Ref.const_sha toy_EC [MakeCoinbase 5000000000] Main 1 None = Ok true ∧
  @ValidateTransactions Sha256Ref.const_sha toy_EC [MakeCoinbase 5000000001] Main 1 None = Ok false ∧
  @ValidateTransactions Sha256Ref.const_sha toy_EC
    [MakeCoinbase 5000000000; example_signed_tx] Main 1 (Some (λ _, None)) = Ok false.
Proof. by vm_compute. Qed.

Definition example_block (txs : list Transaction) : Block :=
  mkBlock (mkBlockHeader 1 uint256_zero uint256_zero 1735689600 0x1e0fffff 0) txs.

(** No inflation: in an accepted block the value created by all transactions
    is at most the subsidy of its height plus the value of the outputs spent. *)
Theorem ValidateBlock_no_inflation `{OpenSSL_SHA} `{OpenSSL_EC} b params height lookup :
  wf_inputs (transactions b) params lookup →
  ValidateBlock b params height lookup = Ok true →
  let lk := default (λ _, None) lookup in
  sum_Z (created <$> transactions b)
  ≤ subsidy params height + sum_Z (spent lk <$> tail (transactions b)).
Proof.
  intros Hwf E lk.
  destruct (ValidateBlock_valid b params height lookup Hwf E)
    as (cb & rest & -> & _ & _ & _ & _ & Hc & _).
  rewrite fmap_cons, sum_Z_cons. cbn [tail]. pose proof (created_fees lk rest).
  unfold lk in *. lia.
Qed.

Lemma ValidateBlock_no_inflation_witness :
  sum_Z (created <$> example_block_txs)
  ≤ subsidy Main 1 + sum_Z (spent (default (λ _, None) example_lookup) <$> tail example_block_txs).
Proof.
  apply (ValidateBlock_no_inflation (H := Sha256Ref.const_sha) (H0 := toy_EC)
    (example_block example_block_txs)); [apply example_wf|vm_compute; reflexivity].
Defined.

(** C2. No double spend: the inputs of an accepted block, the coinbase's aside,
    spend pairwise distinct outpoints, each of which exists and is spent with a
    script that verifies. *)
Theorem ValidateBlock_no_double_spend `{OpenSSL_SHA} `{OpenSSL_EC} b params height lk :
  wf_inputs (transactions b) params (Some lk) →
  ValidateBlock b params height (Some lk) = Ok true →
  NoDup (prevouts (tail (transactions b))) ∧
  ∀ tx i in_, tx ∈ tail (transactions b) → vin tx !! i = Some in_ →
    ∃ utxo, lk (prevout in_) = Some utxo ∧ VerifyScript tx i utxo = Ok true.
Proof.
  intros Hwf E.
  destruct (ValidateBlock_valid b params height (Some lk) Hwf E)
    as (cb & rest & -> & _ & Hs & Hnd & _). cbn [tail].
  split; [done|]. intros tx i in_ Htx Hi. rewrite Forall_forall in Hs.
  destruct (Hs tx Htx) as (_&_&_&Hin&_). by destruct (Hin i in_ Hi) as (_&_&?).
Qed.

Lemma ValidateBlock_no_double_spend_witness :
  NoDup (prevouts [example_signed_tx]) ∧
  ∀ tx i in_, tx ∈ [example_signed_tx] → vin tx !! i = Some in_ →
    ∃ utxo, default (λ _, None) example_lookup (prevout in_) = Some utxo ∧
      @VerifyScript Sha256Ref.const_sha toy_EC tx i utxo = Ok true.
Proof.
  apply (ValidateBlock_no_double_spend (H := Sha256Ref.const_sha) (H0 := toy_EC)
    (example_block example_block_txs) Main 1); [apply example_wf|vm_compute; reflexivity].
Defined.

(** The messages hashed for a block: by [BlockHash] and by [ComputeMerkleRoot]. *)
Definition block_hashed `{OpenSSL_SHA} (b : Block) : list (list byte) :=
  BlockHash_hashed (header b) ++ ComputeMerkleRoot_hashed (transactions b).

(** C3. A block hash commits to the whole block: two accepted blocks with one
    [BlockHash] have the same header and the same transactions, or two of the messages
    hashed for the two block hashes and the two Merkle roots are a SHA-256 collision -
    the Merkle duplication ambiguity included, since the transactions of an accepted
    block are distinct. *)
Theorem ValidateBlock_hash_binding `{OpenSSL_SHA} `{OpenSSL_EC} b b' params params' h h' l l' :
  wf_block b → wf_block b' →
  wf_inputs (transactions b) params l → wf_inputs (transactions b') params' l' →
  ValidateBlock b params h l = Ok true → ValidateBlock b' params' h' l' = Ok true →
  BlockHash (header b) = BlockHash (header b') →
  b = b' ∨ collision_in (block_hashed b ++ block_hashed b').
Proof.
  intros [Hh Ht] [Hh' Ht'] Hwf Hwf' E E' Eh.
  assert (∃ Q, Q = block_hashed b ++ block_hashed b') as [Q EQ] by eauto. rewrite <-EQ.
  assert (BlockHash_hashed (header b) ⊆ Q ∧ BlockHash_hashed (header b') ⊆ Q ∧
    ComputeMerkleRoot_hashed (transactions b) ⊆ Q ∧
    ComputeMerkleRoot_hashed (transactions b') ⊆ Q) as (Qh & Qh' & Qt & Qt')
    by (unfold block_hashed in EQ; set_solver).
  clear EQ. destruct (BlockHash_inj Q _ _ Hh Hh' Qh Qh' Eh) as [Eh'|?]; [|by right].
  pose proof (ValidateBlock_valid _ _ _ _ Hwf E) as Hv.
  pose proof (ValidateBlock_valid _ _ _ _ Hwf' E') as Hv'.
  apply ValidateBlock_accepts in E as (_ & _ & E). apply ValidateBlock_accepts in E' as (_ & _ & E').
  destruct (ComputeMerkleRoot_inj Q (transactions b) (transactions b')) as [Et|?]; try done.
  - by destruct Hv as (?&?&->&_).
  - by destruct Hv' as (?&?&->&_).
  - by eapply valid_transactions_NoDup.
  - by eapply valid_transactions_NoDup.
  - by rewrite E, E', Eh'.
  - left. destruct b, b'. by simpl in *; subst.
  - by right.
Qed.

Lemma ValidateBlock_hash_binding_witness :
  example_block example_block_txs = example_block [MakeCoinbase 7]
  ∨ @collision_in Sha256Ref.const_sha
      (@block_hashed Sha256Ref.const_sha (example_block example_block_txs) ++
       @block_hashed Sha256Ref.const_sha (example_block [MakeCoinbase 7])).
Proof.
  apply (ValidateBlock_hash_binding (H := Sha256Ref.const_sha) (H0 := toy_EC) _ _
    Main Main 1 1 example_lookup None);
    [by_decide|by_decide|apply example_wf| |vm_compute; reflexivity..].
  split; [by_decide|]. by split; [by_decide|].
Defined.

(** The genesis block of every network fails [ValidateTransactions]: its
    coinbase has no input. *)
Theorem genesis_fails_validation `{OpenSSL_SHA} `{OpenSSL_EC} params n lookup height :
  ValidateTransactions (transactions (genesis_block params n)) params height lookup = Ok false.
Proof. done. Qed.
