(* ===== verification/Streams.v ===== *)
(** * Binary file streams and unordered maps

    What chainstate/coins.cpp, storage/blockstore.cpp, index/txindex.cpp and
    wallet/keystore/keystore.cpp use of the C++ library: [std::ifstream::read], whose
    failure is sticky and leaves the rest of the buffer as it was, and
    [std::unordered_map], whose iteration order is unspecified.  A file is an
    [option (list byte)], [None] if it does not exist. *)

From S2P Require Import Prelude.

Record istream := mkStream { remaining : list byte; failed : bool }.

(** A stream just opened on an existing file. *)
Abbreviation good bs := (mkStream bs false).

Definition open_in (file : option (list byte)) : istream :=
  match file with Some data => good data | None => mkStream [] true end.

(** [in.read(buf, buf.size())]: the new contents of the buffer and the stream. *)
Definition istream_read (buf : list byte) (s : istream) : list byte * istream :=
  if failed s then (buf, s) else
  if bool_decide (length buf ≤ length (remaining s))%nat
  then (take (length buf) (remaining s), good (drop (length buf) (remaining s)))
  else (remaining s ++ drop (length (remaining s)) buf, mkStream [] true).

(** Reads into an integer object of [n] bytes with value [v]. *)
Definition read_int (n : nat) (v : Z) (s : istream) : Z * istream :=
  let '(bs, s) := istream_read (le_bytes n v) s in (le_val bs, s).

(** [std::unordered_map]: lookups and updates are those of [gmap]; the order of
    iteration is some permutation of the entries. *)
Class UnorderedMap K `{Countable K} V := {
  iter : gmap K V → list (K * V);
  iter_perm m : iter m ≡ₚ map_to_list m;
}.

(** [ArrayHasher], the hash function of the maps keyed by 32-byte arrays. *)
Definition hash_bytes (data : list byte) : Z :=
  foldl (λ h b, Z.lxor (u64 (h * 131)) (byte_to_Z b)) 0 data.

(** The container asks for no more than that equal keys hash equally; distinct keys are
    made to collide at will. *)
Example hash_bytes_collides :
  let k := [x00; x83] ++ replicate 30 x00 in let k' := [x01; x00] ++ replicate 30 x00 in
  k ≠ k' ∧ hash_bytes k = hash_bytes k'.
Proof. split; [done|by vm_compute]. Qed.

(** The order of [map_to_list], for evaluation. *)
Definition canonical_order K `{Countable K} V : UnorderedMap K V :=
  {| iter := map_to_list; iter_perm m := reflexivity (map_to_list m) |}.

(** [m.emplace(k, v)] keeps an entry already there. *)
Definition emplace `{Countable K} {V} (m : gmap K V) (kv : K * V) : gmap K V :=
  match m !! kv.1 with Some _ => m | None => <[kv.1 := kv.2]> m end.

(** ** Reading *)

Lemma read_good bs r buf : length bs = length buf →
  istream_read buf (good (bs ++ r)) = (bs, good r).
Proof.
  intros E. unfold istream_read. cbn [failed remaining].
  rewrite bool_decide_true by (rewrite length_app; lia).
  by rewrite <-E, take_app_length, drop_app_length.
Qed.

Lemma read_not_failed buf s bs s' :
  istream_read buf s = (bs, s') → failed s' = false →
  failed s = false ∧ length bs = length buf ∧ remaining s = bs ++ remaining s' .
Proof.
  unfold istream_read. destruct s as [r []]; cbn [failed remaining]; [intros [= <- <-]; done|].
  case_bool_decide; intros [= <- <-]; [|done]. intros _. cbn [remaining].
  split_and!; [done|rewrite length_take; lia|by rewrite take_drop].
Qed.

Lemma read_int_good n v w r : 0 ≤ w < 2 ^ (8 * Z.of_nat n) →
  read_int n v (good (le_bytes n w ++ r)) = (w, good r).
Proof.
  intros. unfold read_int. rewrite read_good by (by rewrite !length_le_bytes).
  rewrite le_val_bytes. by rewrite Z.mod_small.
Qed.

Lemma read_int_not_failed n v s w s' :
  read_int n v s = (w, s') → failed s' = false →
  failed s = false ∧ 0 ≤ w < 2 ^ (8 * Z.of_nat n) ∧ remaining s = le_bytes n w ++ remaining s'.
Proof.
  unfold read_int. destruct (istream_read _ s) as [bs s''] eqn:E. intros [= <- <-] Hf.
  destruct (read_not_failed _ _ _ _ E Hf) as (Hs & Hl & Hr).
  rewrite length_le_bytes in Hl. pose proof (le_val_range bs) as Hv. rewrite Hl in Hv.
  split_and!; [done|lia..|]. rewrite <-Hl, le_bytes_val. done.
Qed.

(** ** Records

    [StreamCodec enc rd wf]: [rd] reads back what [enc] writes, and a read that does
    not fail has read an encoding. *)
Class StreamCodec {A} (enc : A → list byte) (rd : istream → A * istream) (wf : A → Prop) :
    Prop := {
  rd_enc a r : wf a → rd (good (enc a ++ r)) = (a, good r);
  rd_sound s a s' : rd s = (a, s') → failed s' = false →
    failed s = false ∧ wf a ∧ remaining s = enc a ++ remaining s';
}.

(** A call that does not return. *)
Definition fails {A} (bad : exn + ub) : result A :=
  match bad with inl e => Throw e | inr u => Undef u end.

Definition enc_all {A} (enc : A → list byte) (l : list A) : list byte := l ≫= enc.

Lemma enc_all_cons {A} (enc : A → list byte) x l : enc_all enc (x :: l) = enc x ++ enc_all enc l.
Proof. done. Qed.

#[global] Arguments enc_all : simpl never.

Lemma stream_enc_inj {A} (enc : A → list byte) rd wf `{!StreamCodec enc rd wf} a b r r' :
  wf a → wf b → enc a ++ r = enc b ++ r' → a = b ∧ r = r'.
Proof.
  intros Ha Hb E. pose proof (rd_enc a r Ha) as E1. rewrite E, (rd_enc b r' Hb) in E1.
  by simplify_eq.
Qed.

Lemma enc_all_prefix_free {A} (enc : A → list byte) rd wf `{!StreamCodec enc rd wf} l k r r' :
  Forall wf l → Forall wf k → length l = length k →
  enc_all enc l ++ r = enc_all enc k ++ r' → l = k ∧ r = r'.
Proof.
  revert k. induction l as [|a l IH]; intros [|b k] Hl Hk Hlen E; try done.
  apply Forall_cons in Hl as [Ha Hl], Hk as [Hb Hk].
  rewrite !enc_all_cons, <-!(assoc_L (++)) in E.
  apply (stream_enc_inj enc rd wf) in E as [-> E]; [|done..].
  apply IH in E as [-> ->]; auto.
Qed.

Lemma read_count data : (4 ≤ length data)%nat →
  read_int 4 0 (good data) = (le_val (take 4 data), good (drop 4 data)).
Proof.
  intros. rewrite <-(take_drop 4 data) at 1.
  assert (length (take 4 data) = 4%nat) as E by (rewrite length_take; lia).
  rewrite <-(le_bytes_val_eq 4 (take 4 data)) at 1 by done.
  apply read_int_good. pose proof (le_val_range (take 4 data)) as Hr. by rewrite E in Hr.
Qed.

Lemma read_count_short data : (length data < 4)%nat →
  read_int 4 0 (good data) = (le_val data, mkStream [] true).
Proof.
  intros Hlen. unfold read_int, istream_read. cbn [failed remaining].
  rewrite length_le_bytes, bool_decide_false by lia. f_equal.
  change (le_bytes 4 0) with (replicate 4 x00). by rewrite drop_replicate, le_val_zeros.
Qed.

Section Records.
  Context {A S : Type} (enc : A → list byte) (rd : istream → A * istream) (wf : A → Prop).
  Context `{!StreamCodec enc rd wf}.
  Context (step : S → A → S) (bad : exn + ub).

(** The body of the loops of [Chainstate::Load] and [BlockStore::LoadIndex]: read a
    record, leave with [bad] if the stream failed, take the record in. *)
Definition load_record (s : istream * S) (_ : Z) : result (istream * S) :=
  let '(s, acc) := s in
  let '(a, s) := rd s in
  if failed s then fails bad else Ok (s, step acc a).

Lemma load_records_Ok n s acc i s' acc' :
  failed s = false →
  foldM load_record (s, acc) (seqZ i (Z.of_nat n)) = Ok (s', acc') ↔
  ∃ l, length l = n ∧ Forall wf l ∧ remaining s = enc_all enc l ++ remaining s' ∧
    failed s' = false ∧ acc' = foldl step acc l.
Proof.
  revert s acc i. induction n as [|n IH]; intros s acc i Hs.
  - split.
    + intros [= <- <-]. by exists [].
    + intros ([|]&?&_&Hr&Hf&->); [|done]. cbn in Hr. destruct s, s'; cbn in *. by subst.
  - rewrite seqZ_cons by lia.
    replace (Z.pred (Z.of_nat (Datatypes.S n))) with (Z.of_nat n) by lia.
    cbn [foldM load_record]. destruct (rd s) as [a s1] eqn:Er. split.
    + intros E. destruct (failed s1) eqn:Ef.
      { by destruct bad. }
      cbn [mbind result_bind] in E.
      destruct (rd_sound _ _ _ Er Ef) as (_ & Ha & Hr).
      apply IH in E as (l & <- & Hl & Hr' & Hf & ->); [|done].
      exists (a :: l). split_and!; [done|by constructor| |done|done].
      by rewrite enc_all_cons, <-(assoc_L (++)), <-Hr'.
    + intros ([|a' l] & Hlen & Hl & Hr & Hf & ->); [done|].
      apply Forall_cons in Hl as [Ha' Hl]. destruct s as [r f]. cbn in Hs, Hr. subst f.
      rewrite Hr in Er. rewrite enc_all_cons, <-(assoc_L (++)), rd_enc in Er by done.
      simplify_eq. cbn [failed mbind result_bind]. apply IH; [done|].
      exists l. split_and!; try done. by simplify_eq/=.
Qed.

Lemma load_records_bad l s acc :
  (∃ s', foldM load_record (s, acc) l = Ok s') ∨ foldM load_record (s, acc) l = fails bad.
Proof.
  revert s acc. induction l as [|i l IH]; intros s acc; [left; by eexists|].
  cbn [foldM load_record]. destruct (rd s) as [a s1].
  destruct (failed s1); [|apply IH]. right. by destruct bad.
Qed.

(** The whole function: nothing where the file does not open, a 32-bit count into a
    zeroed object, then that many records. *)
Definition load_counted (init : S) (file : option (list byte)) : result S :=
  let in_ := open_in file in
  if failed in_ then Ok init else
  let '(count, in_) := read_int 4 0 in_ in
  '(_, acc) ← for_range count (λ i s, load_record s i) (in_, init);
  Ok acc.

Lemma load_counted_loop init data count r : read_int 4 0 (good data) = (count, r) →
  load_counted init (Some data) =
    '(_, acc) ← foldM load_record (r, init) (seqZ 0 count); Ok acc.
Proof. intros E. unfold load_counted. cbn [open_in failed]. by rewrite E, for_range_foldM. Qed.

(** A file with a whole count loads exactly if that many records follow. *)
Lemma load_counted_Ok init data acc : (4 ≤ length data)%nat →
  load_counted init (Some data) = Ok acc ↔
  ∃ l junk, data = le_bytes 4 (zlen l) ++ enc_all enc l ++ junk ∧
    is_u32 (zlen l) ∧ Forall wf l ∧ acc = foldl step init l.
Proof.
  intros Hlen. rewrite (load_counted_loop _ _ _ _ (read_count data Hlen)).
  assert (length (take 4 data) = 4%nat) as E4 by (rewrite length_take; lia).
  pose proof (le_val_range (take 4 data)) as Hr. rewrite E4 in Hr.
  set (count := le_val (take 4 data)) in *. split.
  - intros E. simplify_result. rewrite <-(Z2Nat.id count) in H by lia.
    apply load_records_Ok in H as (l & Hl & Hwf & Hrem & _ & ->); [|done].
    exists l, (remaining i). replace (zlen l) with count by lia.
    split_and!; [|lia..|done|done]. unfold count. rewrite le_bytes_val_eq by done.
    rewrite <-Hrem. cbn [remaining]. by rewrite take_drop.
  - intros (l & junk & -> & Hz & Hwf & ->).
    assert (count = zlen l) as ->.
    { unfold count. rewrite take_app_length' by (by rewrite length_le_bytes).
      rewrite le_val_bytes. by apply Z.mod_small. }
    rewrite drop_app_length' by (by rewrite length_le_bytes).
    assert (foldM load_record (good (enc_all enc l ++ junk), init) (seqZ 0 (zlen l))
      = Ok (good junk, foldl step init l)) as ->; [|done].
    apply load_records_Ok; [done|by exists l].
Qed.

Lemma load_counted_total init data : (4 ≤ length data)%nat →
  (∃ acc, load_counted init (Some data) = Ok acc) ∨ load_counted init (Some data) = fails bad.
Proof.
  intros Hlen. rewrite (load_counted_loop _ _ _ _ (read_count data Hlen)).
  destruct (load_records_bad (seqZ 0 (le_val (take 4 data))) (good (drop 4 data)) init)
    as [[[s m] ->]| ->]; [left; by exists m|right; by destruct bad].
Qed.

(** A file cut short within its count: the bytes missing count as zeros. *)
Lemma load_counted_short init data : (length data < 4)%nat →
  load_counted init (Some data) = if bool_decide (le_val data = 0) then Ok init else fails bad.
Proof.
  intros Hlen. rewrite (load_counted_loop _ _ _ _ (read_count_short data Hlen)).
  case_bool_decide as Hz; [by rewrite Hz|].
  pose proof (le_val_range data). rewrite seqZ_cons by lia.
  cbn [foldM load_record]. destruct (rd _) as [a s'] eqn:Er.
  destruct (failed s') eqn:Ef; [by destruct bad|]. by destruct (rd_sound _ _ _ Er Ef).
Qed.

(** The file written from the records [l]. *)
Definition counted (l : list A) : list byte := le_bytes 4 (zlen l) ++ enc_all enc l.

Lemma load_counted_counted init l : is_u32 (zlen l) → Forall wf l →
  load_counted init (Some (counted l)) = Ok (foldl step init l).
Proof.
  intros Hs Hf. apply load_counted_Ok.
  - unfold counted. rewrite length_app, length_le_bytes. lia.
  - exists l, []. by rewrite app_nil_r.
Qed.

(** Every proper prefix of it fails to load, but for the empty or all-zero start of
    its count. *)
Lemma load_counted_truncated init l p post : is_u32 (zlen l) → Forall wf l →
  counted l = p ++ post → post ≠ [] →
  load_counted init (Some p) =
    if bool_decide ((length p < 4)%nat ∧ le_val p = 0) then Ok init else fails bad.
Proof.
  intros Hs Hf E Hpost. destruct (decide (length p < 4)%nat) as [Hlen|Hlen].
  { rewrite load_counted_short by done. repeat case_bool_decide; tauto. }
  rewrite bool_decide_false by tauto.
  destruct (load_counted_total init p) as [[m Em]|?]; [lia| |done]. exfalso.
  apply load_counted_Ok in Em as (k & junk & -> & Hk & Hwk & _); [|lia].
  unfold counted in E. rewrite <-!(assoc_L (++)) in E.
  apply app_inj_1 in E as [En E]; [|by rewrite !length_le_bytes].
  apply (f_equal le_val) in En. rewrite !le_val_bytes, !Z.mod_small in En by done.
  rewrite <-(app_nil_r (enc_all _ l)) in E.
  apply (enc_all_prefix_free enc rd wf) in E as [_ E]; [|done|done|lia].
  by destruct junk, post.
Qed.

End Records.

(** ** Maps rebuilt by insertion *)

Section Emplace.
  Context `{Countable K} {V : Type}.

Lemma emplace_fresh (m : gmap K V) kv : m !! kv.1 = None → emplace m kv = <[kv.1 := kv.2]> m.
Proof. intros E. unfold emplace. by rewrite E. Qed.

Lemma foldl_emplace (l : list (K * V)) (m : gmap K V) :
  NoDup l.*1 → (∀ k, k ∈ l.*1 → m !! k = None) →
  foldl emplace m l = list_to_map l ∪ m.
Proof.
  revert m. induction l as [|[k v] l IH]; intros m Hnd Hm; cbn [foldl list_to_map foldr].
  - by rewrite map_empty_union.
  - cbn [fmap list_fmap fst] in Hnd, Hm. apply NoDup_cons in Hnd as [Hk Hnd].
    rewrite emplace_fresh by (apply Hm; by left). cbn [fst snd].
    rewrite IH; [|done|].
    + rewrite <-insert_union_r; [by rewrite insert_union_l|].
      by apply not_elem_of_list_to_map_1.
    + intros k' Hk'. rewrite lookup_insert_ne by (by intros ->). apply Hm. by right.
Qed.

Lemma iter_NoDup `{!UnorderedMap K V} (m : gmap K V) : NoDup (iter m).*1.
Proof. rewrite iter_perm. apply NoDup_fst_map_to_list. Qed.

Lemma iter_elem `{!UnorderedMap K V} (m : gmap K V) k v : (k, v) ∈ iter m ↔ m !! k = Some v.
Proof. rewrite iter_perm. apply elem_of_map_to_list. Qed.

Lemma iter_length `{!UnorderedMap K V} (m : gmap K V) : length (iter m) = size m.
Proof. rewrite iter_perm. apply length_map_to_list. Qed.

Lemma list_to_map_iter `{!UnorderedMap K V} (m : gmap K V) : list_to_map (iter m) = m.
Proof.
  rewrite <-(list_to_map_to_list m) at 2.
  apply list_to_map_proper; [apply iter_NoDup|apply iter_perm].
Qed.

Lemma foldl_insert (l : list (K * V)) (m : gmap K V) :
  NoDup l.*1 → foldl (λ m kv, <[kv.1 := kv.2]> m) m l = list_to_map l ∪ m.
Proof.
  revert m. induction l as [|[k v] l IH]; intros m Hnd; cbn [foldl list_to_map foldr].
  - by rewrite map_empty_union.
  - cbn [fmap list_fmap fst] in Hnd. apply NoDup_cons in Hnd as [Hk Hnd].
    cbn [fst snd]. rewrite IH by done.
    rewrite <-insert_union_r; [by rewrite insert_union_l|].
    by apply not_elem_of_list_to_map_1.
Qed.

(** Re-inserting a map's entries, in whatever order, rebuilds it. *)
Lemma foldl_emplace_iter `{!UnorderedMap K V} (m : gmap K V) : foldl emplace ∅ (iter m) = m.
Proof.
  rewrite foldl_emplace; [|apply iter_NoDup|intros; apply lookup_empty].
  by rewrite map_union_empty, list_to_map_iter.
Qed.

Lemma foldl_insert_iter `{!UnorderedMap K V} (m : gmap K V) :
  foldl (λ m kv, <[kv.1 := kv.2]> m) ∅ (iter m) = m.
Proof.
  rewrite foldl_insert by apply iter_NoDup. by rewrite map_union_empty, list_to_map_iter.
Qed.

End Emplace.
