(* ===== verification/Chainstate.v ===== *)
(** * The UTXO set and its file: chainstate/coins.cpp

    The set is a map from outpoints to outputs; every operation runs under the
    object's mutex, so each is one step on the map.  [Persist] writes it in the
    iteration order of the unordered map, [Load] (the constructor) reads it back. *)

From S2P Require Import Prelude Crypto Sha256Ref Codec Transaction Streams.

Abbreviation UTXOSet := (gmap OutPoint TxOut).

(** ** The keys of the unordered map *)

Definition OutPointHash (o : OutPoint) : Z :=
  let h := hash_bytes (op_hash o) in
  Z.lxor h (u64 (u64 (u64 (op_index o + 0x9e3779b97f4a7c15) + u64 (Z.shiftl h 6)) + Z.shiftr h 2)).

Definition KeyEq (a b : OutPoint) : bool :=
  bool_decide (op_index a = op_index b) &&
  bool_decide (op_hash a = take (length (op_hash a)) (op_hash b)).

(** What [std::unordered_map] asks of the two: they decide equality of outpoints and are
    compatible with it. *)
Lemma KeyEq_hash a b : is_hash (op_hash a) → is_hash (op_hash b) →
  (KeyEq a b = true ↔ a = b) ∧ (KeyEq a b = true → OutPointHash a = OutPointHash b).
Proof.
  unfold is_hash. intros Ha Hb. assert (KeyEq a b = true ↔ a = b) as Heq; [|by rewrite Heq; split; [|intros ->]].
  unfold KeyEq. rewrite andb_true_iff, !bool_decide_eq_true, take_ge by lia.
  destruct a, b; cbn. split; [by intros [-> ->]|by intros [= -> ->]].
Qed.

(** ** Operations on the set *)

Definition HaveUTXO (utxos : UTXOSet) (out : OutPoint) : bool :=
  bool_decide (is_Some (utxos !! out)).

Definition GetUTXO (utxos : UTXOSet) (out : OutPoint) : result TxOut :=
  match utxos !! out with
  | None => Throw (runtime_error "missing utxo")
  | Some txout => Ok txout
  end.

Definition AddUTXO (utxos : UTXOSet) (out : OutPoint) (txout : TxOut) : UTXOSet :=
  <[out := txout]> utxos.

Definition SpendUTXO (utxos : UTXOSet) (out : OutPoint) : result UTXOSet :=
  match utxos !! out with
  | None => Throw (runtime_error "spend missing utxo")
  | Some _ => Ok (delete out utxos)
  end.

(** ** The file *)

(** The reads of one entry (66-74). *)
Definition ReadUTXO (in_ : istream) : (OutPoint * TxOut) * istream :=
  let '(hash, in_) := istream_read (replicate 32 x00) in_ in
  let '(index, in_) := read_int 4 0 in_ in
  let '(val, in_) := read_int 8 0 in_ in
  let '(scriptSize, in_) := read_int 4 0 in_ in
  let '(script, in_) := istream_read (replicate (Z.to_nat scriptSize) x00) in_ in
  ((mkOutPoint hash index, mkTxOut val script), in_).

Definition LoadUTXOs (file : option (list byte)) : result UTXOSet :=
  load_counted ReadUTXO emplace (inl (runtime_error "corrupt utxo set")) ∅ file.

(** The writes of one entry (87-92). *)
Definition WriteUTXO (entry : OutPoint * TxOut) : list byte :=
  let '(op, txo) := entry in
  let scriptSize := u32 (zlen (scriptPubKey txo)) in
  op_hash op ++ le_bytes 4 (op_index op) ++ le_bytes 8 (value txo) ++
  le_bytes 4 scriptSize ++ take (Z.to_nat scriptSize) (scriptPubKey txo).

Section Persist.
  Context `{!UnorderedMap OutPoint TxOut}.

Definition PersistUTXOs (utxos : UTXOSet) : list byte :=
  let count := u32 (Z.of_nat (size utxos)) in
  le_bytes 4 count ++ enc_all WriteUTXO (iter utxos).

(** [Flush]: the new contents of the file, unchanged where it cannot be opened. *)
Definition FlushUTXOs (writable : bool) (file : option (list byte)) (utxos : UTXOSet) :
    option (list byte) :=
  if writable then Some (PersistUTXOs utxos) else file.

End Persist.

(** ** Well-formed sets: the ranges of the C++ types, a count that fits 32 bits *)

Definition wf_utxo (entry : OutPoint * TxOut) : Prop :=
  is_hash (op_hash entry.1) ∧ is_u32 (op_index entry.1) ∧ wf_txout entry.2.
Definition wf_utxos (utxos : UTXOSet) : Prop :=
  is_u32 (Z.of_nat (size utxos)) ∧ Forall wf_utxo (map_to_list utxos).

#[global] Instance wf_utxo_dec e : Decision (wf_utxo e).
Proof. unfold wf_utxo. apply _. Defined.
#[global] Instance wf_utxos_dec m : Decision (wf_utxos m).
Proof. unfold wf_utxos. apply _. Defined.

#[export] Instance ReadUTXO_codec : StreamCodec WriteUTXO ReadUTXO wf_utxo.
Proof.
  split.
  - intros [[h i] [v spk]] r (Hh & Hi & Hv & Hs).
    cbn [WriteUTXO fst snd op_hash op_index value scriptPubKey] in *. unfold is_hash, wf_varbytes in *.
    rewrite u32_id, Nat2Z.id, firstn_all by done. rewrite <-!(assoc_L (++)). unfold ReadUTXO.
    rewrite read_good, !read_int_good by (rewrite ?length_replicate; done || lia).
    by rewrite read_good by (rewrite length_replicate; lia).
  - intros s [[h i] [v spk]] s' E Hf. unfold ReadUTXO in E.
    destruct (istream_read _ s) as [h0 s1] eqn:E1. destruct (read_int 4 0 s1) as [i0 s2] eqn:E2.
    destruct (read_int 8 0 s2) as [v0 s3] eqn:E3. destruct (read_int 4 0 s3) as [n s4] eqn:E4.
    destruct (istream_read _ s4) as [b s5] eqn:E5. simplify_eq.
    apply read_not_failed in E5 as (F4 & L5 & R5); [|done].
    apply read_int_not_failed in E4 as (F3 & B4 & R4); [|done].
    apply read_int_not_failed in E3 as (F2 & B3 & R3); [|done].
    apply read_int_not_failed in E2 as (F1 & B2 & R2); [|done].
    apply read_not_failed in E1 as (F0 & L1 & R1); [|done].
    rewrite length_replicate in L1, L5. unfold wf_utxo, wf_txout, wf_varbytes, is_hash.
    cbn [WriteUTXO fst snd op_hash op_index value scriptPubKey].
    split_and!; [done|done|lia..|]. rewrite L5, Z2Nat.id, u32_id by lia.
    rewrite take_ge by lia. by rewrite <-!(assoc_L (++)), <-R5, <-R4, <-R3, <-R2.
Qed.

(** ** The file format *)

Section Format.
  Context `{!UnorderedMap OutPoint TxOut}.

Lemma wf_utxos_iter utxos : wf_utxos utxos →
  is_u32 (zlen (iter utxos)) ∧ Forall wf_utxo (iter utxos).
Proof. intros [Hs Hf]. rewrite iter_length. split; [done|]. by rewrite iter_perm. Qed.

Lemma PersistUTXOs_counted utxos : wf_utxos utxos →
  PersistUTXOs utxos = counted WriteUTXO (iter utxos).
Proof. intros [Hs _]. unfold PersistUTXOs, counted. by rewrite u32_id, iter_length. Qed.

Lemma load_flush utxos file : wf_utxos utxos → LoadUTXOs (FlushUTXOs true file utxos) = Ok utxos.
Proof.
  intros Hwf. cbn [FlushUTXOs]. rewrite PersistUTXOs_counted by done.
  destruct (wf_utxos_iter _ Hwf). unfold LoadUTXOs.
  rewrite (load_counted_counted WriteUTXO ReadUTXO wf_utxo) by done.
  by rewrite foldl_emplace_iter.
Qed.

End Format.

(** ** Sequences of operations *)

Inductive utxo_op :=
  | OpAdd (out : OutPoint) (txout : TxOut)
  | OpSpend (out : OutPoint).

Definition run_op (utxos : UTXOSet) (o : utxo_op) : result UTXOSet :=
  match o with
  | OpAdd out txout => Ok (AddUTXO utxos out txout)
  | OpSpend out => SpendUTXO utxos out
  end.

Lemma run_absent ops utxos utxos' out :
  foldM run_op utxos ops = Ok utxos' → utxos !! out = None →
  (∀ txout, OpAdd out txout ∉ ops) → utxos' !! out = None.
Proof.
  revert utxos. induction ops as [|op ops IH]; intros utxos E Ho Hn; cbn [foldM] in E.
  - by simplify_result.
  - simplify_result. apply (IH a); [done| |intros t Ht; apply (Hn t); by right].
    destruct op as [o t|o]; cbn [run_op] in H.
    + simplify_result. unfold AddUTXO. rewrite lookup_insert_ne; [done|].
      intros ->. apply (Hn t). by left.
    + unfold SpendUTXO in H. destruct (utxos !! o); simplify_result.
      destruct (decide (o = out)) as [->|]; [apply lookup_delete_eq|by rewrite lookup_delete_ne].
Qed.

(** ** Properties *)

(** C23. The UTXO file is lossless: whatever the iteration order of the map, what
    [Flush] writes [Load] reads back as the same set. *)
Theorem Chainstate_roundtrip `{!UnorderedMap OutPoint TxOut} utxos file :
  wf_utxos utxos → LoadUTXOs (FlushUTXOs true file utxos) = Ok utxos.
Proof.
  apply load_flush.
Qed.

(** A set of two outputs. *)
Definition example_utxos : UTXOSet :=
  {[ mkOutPoint (replicate 32 x01) 0 := mkTxOut 50 (replicate 32 x02);
     mkOutPoint (replicate 32 x01) 1 := mkTxOut 7 [] ]}.

Lemma Chainstate_roundtrip_witness :
  LoadUTXOs (@FlushUTXOs (canonical_order OutPoint TxOut) true None example_utxos)
  = Ok example_utxos.
Proof. apply (@Chainstate_roundtrip (canonical_order OutPoint TxOut)). by_decide. Defined.

(** What a cut file does: a proper prefix of a written file makes [Load] throw,
    except a prefix of fewer than four bytes, all zero, which loads as the empty
    set. *)
Theorem Chainstate_truncated `{!UnorderedMap OutPoint TxOut} utxos p post :
  wf_utxos utxos → PersistUTXOs utxos = p ++ post → post ≠ [] →
  LoadUTXOs (Some p) =
    if bool_decide ((length p < 4)%nat ∧ le_val p = 0) then Ok ∅
    else Throw (runtime_error "corrupt utxo set").
Proof.
  intros Hwf E Hpost. rewrite PersistUTXOs_counted in E by done.
  destruct (wf_utxos_iter _ Hwf).
  by apply (load_counted_truncated WriteUTXO ReadUTXO wf_utxo emplace
    (inl (runtime_error "corrupt utxo set")) ∅ (iter utxos) p post).
Qed.

Lemma Chainstate_truncated_witness :
  let bytes := @PersistUTXOs (canonical_order OutPoint TxOut) example_utxos in
  LoadUTXOs (Some (take 60 bytes)) =
    if bool_decide ((length (take 60 bytes) < 4)%nat ∧ le_val (take 60 bytes) = 0) then Ok ∅
    else Throw (runtime_error "corrupt utxo set").
Proof.
  intros bytes. apply (@Chainstate_truncated (canonical_order OutPoint TxOut) example_utxos _ (drop 60 bytes)).
  - by_decide.
  - symmetry. apply take_drop.
  - by_decide.
Defined.

(** An output is spent once: between two successful spends of one outpoint, in
    any sequence of operations, the outpoint was added again. *)
Theorem SpendUTXO_once ops1 ops2 ops3 out utxos utxos' :
  foldM run_op utxos (ops1 ++ OpSpend out :: ops2 ++ OpSpend out :: ops3) = Ok utxos' →
  ∃ txout, OpAdd out txout ∈ ops2.
Proof.
  rewrite foldM_app. intros E. simplify_result. cbn [foldM run_op] in E. simplify_result.
  rewrite foldM_app in E. simplify_result. cbn [foldM run_op] in E. simplify_result.
  assert (a0 !! out = None) as Hd.
  { unfold SpendUTXO in H0. destruct (a !! out); simplify_result. apply lookup_delete_eq. }
  assert (∀ o, Decision (∃ t, o = OpAdd out t)) as Hdec.
  { intros [o t|o]; [|right; by intros [? ?]]. destruct (decide (o = out)) as [->|Hne];
      [left; by exists t|right; by intros [? [= ->]]]. }
  destruct (decide (Exists (λ o, ∃ t, o = OpAdd out t) ops2)) as [(o & Ho & t & ->)%Exists_exists|Hn].
  - by exists t.
  - exfalso. assert (a1 !! out = None) as Hnone.
    { eapply run_absent; [done..|]. intros t Ht. apply Hn, Exists_exists. eauto. }
    unfold SpendUTXO in H2. by rewrite Hnone in H2.
Qed.

Lemma SpendUTXO_once_witness :
  ∃ txout, OpAdd (mkOutPoint (replicate 32 x01) 0) txout
           ∈ [OpAdd (mkOutPoint (replicate 32 x01) 0) (mkTxOut 9 [])].
Proof.
  apply (SpendUTXO_once [] _ [] (mkOutPoint (replicate 32 x01) 0) example_utxos
    (delete (mkOutPoint (replicate 32 x01) 0) example_utxos)).
  by_decide.
Defined.
