(* ===== verification/Ledger.v ===== *)
(** * Validation and the UTXO set together: validation.cpp over coins.cpp

    The repository validates a block against any UTXO provider and keeps a UTXO set; it
    has no code that connects a block.  Here is what the two promise each other: with
    [Chainstate]'s lookup as the provider, a block that validates can be applied by
    [SpendUTXO] for every input and then [AddUTXO] for every output, and no chain of
    such blocks holds more value than the schedule issues. *)

From S2P Require Import Prelude Crypto Sha256Ref Codec Transaction Block Params Merkle.
From S2P Require Import Difficulty Script Genesis Validation Streams Chainstate.

(** [Chainstate] as a provider. *)
Definition chain_lookup (utxos : UTXOSet) : UTXOLookup :=
  Some (λ o, match GetUTXO utxos o with Ok t => Some t | _ => None end).

Definition total_value (utxos : UTXOSet) : Z := sum_Z ((λ e, value e.2) <$> map_to_list utxos).

Definition values_ok (utxos : UTXOSet) : Prop := map_Forall (λ _ t, is_u64 (value t)) utxos.

Section Ledger.
  Context `{OpenSSL_SHA} `{OpenSSL_EC}.

(** The outputs of a transaction under their outpoints. *)
Definition output_ops (tx : Transaction) : list utxo_op :=
  imap (λ i out, OpAdd (mkOutPoint (TransactionHash tx) (Z.of_nat i)) out) (vout tx).

(** A block's inputs spent, the coinbase's aside, then its outputs added. *)
Definition block_ops (txs : list Transaction) : list utxo_op :=
  (OpSpend <$> prevouts (tail txs)) ++ (txs ≫= output_ops).

(** The UTXO sets of chains: the genesis coinbase, then blocks accepted and applied. *)
Inductive chain (params : Params) : Z → UTXOSet → Prop :=
  | chain_genesis n utxos :
      foldM run_op ∅ (transactions (genesis_block params n) ≫= output_ops) = Ok utxos →
      chain params 1 utxos
  | chain_block height utxos b utxos' :
      chain params height utxos → wf_block b →
      ValidateBlock b params height (chain_lookup utxos) = Ok true →
      foldM run_op utxos (block_ops (transactions b)) = Ok utxos' →
      chain params (height + 1) utxos'.

(** ** Value of a set under its operations *)

Lemma sum_Z_perm l k : l ≡ₚ k → sum_Z l = sum_Z k.
Proof. induction 1; rewrite ?sum_Z_cons; lia. Qed.

Lemma total_value_insert utxos o t : utxos !! o = None →
  total_value (<[o := t]> utxos) = value t + total_value utxos.
Proof.
  intros E. unfold total_value.
  by rewrite (sum_Z_perm _ _ (fmap_Permutation _ _ _ (map_to_list_insert utxos o t E))).
Qed.

Lemma total_value_delete utxos o t : utxos !! o = Some t →
  total_value utxos = value t + total_value (delete o utxos).
Proof.
  intros E. rewrite <-(total_value_insert (delete o utxos) o) by apply lookup_delete_eq.
  by rewrite insert_delete_id.
Qed.

Lemma values_ok_delete utxos o : values_ok utxos → values_ok (delete o utxos).
Proof. intros Hv. by apply map_Forall_delete. Qed.

Lemma total_value_add utxos o t : values_ok utxos → is_u64 (value t) →
  total_value (AddUTXO utxos o t) ≤ total_value utxos + value t ∧ values_ok (AddUTXO utxos o t).
Proof.
  intros Hv Ht. unfold AddUTXO. split; [|by apply map_Forall_insert_2].
  rewrite <-insert_delete_eq, total_value_insert by apply lookup_delete_eq.
  destruct (utxos !! o) as [t'|] eqn:E.
  - rewrite (total_value_delete utxos o t') by done. specialize (Hv o t' E). cbn in Hv. lia.
  - rewrite delete_id by done. lia.
Qed.

(** What an operation adds. *)
Definition added (o : utxo_op) : Z := match o with OpAdd _ t => value t | OpSpend _ => 0 end.

Lemma run_adds ops utxos :
  values_ok utxos → Forall (λ o, ∃ k t, o = OpAdd k t ∧ is_u64 (value t)) ops →
  ∃ utxos', foldM run_op utxos ops = Ok utxos' ∧ values_ok utxos' ∧
    total_value utxos' ≤ total_value utxos + sum_Z (added <$> ops).
Proof.
  intros Hv Ho. revert utxos Hv.
  induction Ho as [|o ops (k & t & -> & Ht) Ho IH]; intros utxos Hv.
  - exists utxos. split_and!; [done..|]. cbn. lia.
  - destruct (total_value_add utxos k t Hv Ht) as [Hle Hv'].
    destruct (IH _ Hv') as (utxos' & E & ? & ?). exists utxos'.
    cbn [foldM run_op mbind result_bind]. rewrite fmap_cons, sum_Z_cons. cbn [added].
    split_and!; (done || lia).
Qed.

Lemma run_spends outs utxos :
  values_ok utxos → NoDup outs → Forall (λ o, is_Some (utxos !! o)) outs →
  ∃ utxos', foldM run_op utxos (OpSpend <$> outs) = Ok utxos' ∧ values_ok utxos' ∧
    total_value utxos' = total_value utxos - sum_Z ((λ o, from_option value 0 (utxos !! o)) <$> outs).
Proof.
  intros Hv Hnd. revert utxos Hv. induction Hnd as [|o outs Hno Hnd IH]; intros utxos Hv Hs.
  - exists utxos. split_and!; [done..|]. cbn. lia.
  - apply Forall_cons in Hs as [[t Et] Hs]. destruct (IH (delete o utxos)) as (utxos' & E & ? & Ht).
    + by apply values_ok_delete.
    + rewrite Forall_forall in Hs |- *. intros o' Ho'. rewrite lookup_delete_ne; [by apply Hs|].
      by intros ->.
    + exists utxos'. rewrite fmap_cons. cbn [foldM run_op]. unfold SpendUTXO. rewrite Et.
      cbn [mbind result_bind]. split_and!; [done..|]. rewrite fmap_cons, sum_Z_cons, Et. cbn [from_option].
      rewrite Ht, (total_value_delete utxos o t) by done.
      rewrite (list_fmap_ext _ (λ o', from_option value 0 (utxos !! o')) outs); [lia|].
      intros i o' Hi. rewrite lookup_delete_ne; [done|]. intros ->.
      by apply Hno, list_elem_of_lookup_2 with i.
Qed.

(** ** Blocks *)

Lemma chain_lookup_eq utxos : ∀ o, default (λ _, None) (chain_lookup utxos) o = utxos !! o.
Proof. intros o. cbn. unfold GetUTXO. by destruct (utxos !! o). Qed.

Lemma output_ops_added tx : added <$> output_ops tx = value <$> vout tx.
Proof.
  unfold output_ops. rewrite fmap_imap. rewrite <-(imap_const value). by apply imap_ext.
Qed.

Lemma outputs_added txs : sum_Z (added <$> (txs ≫= output_ops)) = sum_Z (created <$> txs).
Proof.
  induction txs as [|tx txs IH]; [done|].
  by rewrite bind_cons, fmap_app, sum_Z_app, IH, output_ops_added, fmap_cons, sum_Z_cons.
Qed.

Lemma outputs_wf txs : Forall wf_tx txs →
  Forall (λ o, ∃ k t, o = OpAdd k t ∧ is_u64 (value t)) (txs ≫= output_ops).
Proof.
  intros Hwf. apply Forall_bind. eapply Forall_impl; [exact Hwf|].
  intros tx (_ & _ & _ & _ & _ & Ho). unfold output_ops.
  rewrite Forall_elem in Ho. apply Forall_elem. intros op (i & t & -> & Hi)%elem_of_lookup_imap.
  eexists _, t. split; [done|]. by apply (Ho t), list_elem_of_lookup_2 with i.
Qed.

Lemma spent_prevouts utxos txs :
  sum_Z (spent (default (λ _, None) (chain_lookup utxos)) <$> txs)
  = sum_Z ((λ o, from_option value 0 (utxos !! o)) <$> prevouts txs).
Proof.
  unfold prevouts. induction txs as [|tx txs IH]; [done|].
  rewrite bind_cons, !fmap_app, sum_Z_app, fmap_cons, sum_Z_cons, IH. f_equal.
  unfold spent. f_equal. rewrite <-list_fmap_compose. apply list_fmap_ext.
  intros i x _. cbn -[chain_lookup]. by rewrite chain_lookup_eq.
Qed.

Lemma wf_inputs_chain params txs utxos :
  wf_params params → Forall wf_tx txs → values_ok utxos → wf_inputs txs params (chain_lookup utxos).
Proof.
  intros Hp Ht Hv. split_and!; [done..|]. intros lk o u [= <-] E.
  pose proof (chain_lookup_eq utxos o) as El. cbn in El. rewrite El in E. by apply (Hv o u).
Qed.

Lemma block_applies params height utxos b :
  wf_params params → wf_block b → values_ok utxos →
  ValidateBlock b params height (chain_lookup utxos) = Ok true →
  ∃ utxos', foldM run_op utxos (block_ops (transactions b)) = Ok utxos' ∧ values_ok utxos' ∧
    total_value utxos' ≤ total_value utxos + subsidy params height.
Proof.
  intros Hp [_ Ht] Hv E.
  destruct (ValidateBlock_valid b params height _ (wf_inputs_chain _ _ _ Hp Ht Hv) E)
    as (cb & rest & Eb & _ & Hs & Hnd & _ & Hc & _).
  rewrite Eb in *. cbn [tail] in *. unfold block_ops. cbn [tail].
  destruct (run_spends (prevouts rest) utxos Hv Hnd) as (u1 & E1 & Hv1 & Ht1).
  { unfold prevouts. apply Forall_fmap, Forall_bind. eapply Forall_impl; [exact Hs|].
    intros tx (_ & _ & _ & Hin & _). apply Forall_lookup. intros i x Hi.
    destruct (Hin i x Hi) as (_ & _ & t & El & _). rewrite chain_lookup_eq in El. by exists t. }
  destruct (run_adds ((cb :: rest) ≫= output_ops) u1 Hv1 (outputs_wf _ Ht)) as (u2 & E2 & Hv2 & Ht2).
  exists u2. rewrite foldM_app, E1. cbn [mbind result_bind]. split_and!; [done..|].
  rewrite outputs_added, fmap_cons, sum_Z_cons in Ht2. rewrite <-spent_prevouts in Ht1.
  pose proof (created_fees (default (λ _, None) (chain_lookup utxos)) rest). lia.
Qed.

(** ** Applied blocks on disk *)

(** What an operation needs to keep a set well formed. *)
Definition op_wf (o : utxo_op) : Prop :=
  match o with OpAdd k t => wf_utxo (k, t) | OpSpend _ => True end.

Definition add_count (o : utxo_op) : nat := match o with OpAdd _ _ => 1 | OpSpend _ => 0 end.

Lemma run_op_wf o utxos utxos' :
  op_wf o → map_Forall (λ k t, wf_utxo (k, t)) utxos → run_op utxos o = Ok utxos' →
  map_Forall (λ k t, wf_utxo (k, t)) utxos' ∧ (size utxos' ≤ add_count o + size utxos)%nat.
Proof.
  destruct o as [k t|k]; cbn [run_op op_wf add_count]; intros Ho Hw E.
  - injection E as <-. unfold AddUTXO. split; [by apply map_Forall_insert_2|].
    rewrite map_size_insert. destruct (utxos !! k); cbn; lia.
  - unfold SpendUTXO in E. destruct (utxos !! k) eqn:Ek; simplify_result.
    split; [by apply map_Forall_delete|]. rewrite map_size_delete, Ek. lia.
Qed.

Lemma run_ops_wf ops : Forall op_wf ops → ∀ utxos utxos',
  map_Forall (λ k t, wf_utxo (k, t)) utxos → foldM run_op utxos ops = Ok utxos' →
  map_Forall (λ k t, wf_utxo (k, t)) utxos' ∧
  (size utxos' ≤ sum_list_with add_count ops + size utxos)%nat.
Proof.
  induction 1 as [|o ops Ho _ IH]; intros utxos utxos' Hw E; cbn [foldM] in E.
  { injection E as <-. split; [done|]. cbn. lia. }
  apply bind_Ok_inv in E as (u & E1 & E). destruct (run_op_wf _ _ _ Ho Hw E1) as [Hw1 Hs1].
  destruct (IH u utxos' Hw1 E) as [Hw' Hs']. split; [done|]. cbn [sum_list_with]. lia.
Qed.

(** The outputs of a block are what its operations add. *)
Lemma imap_adds l : ∀ f : nat → OutPoint,
  sum_list_with add_count (imap (λ i out, OpAdd (f i) out) l) = length l.
Proof.
  induction l as [|t l IH]; intros f; [done|]. rewrite imap_cons. cbn [sum_list_with add_count length].
  f_equal. apply (IH (f ∘ S)).
Qed.

Lemma block_ops_count txs : sum_list_with add_count (block_ops txs) = length (txs ≫= vout).
Proof.
  unfold block_ops. rewrite sum_list_with_app.
  assert (∀ outs, sum_list_with add_count (OpSpend <$> outs) = 0%nat) as ->.
  { induction outs as [|o outs IH]; [done|exact IH]. }
  induction txs as [|tx txs IH]; [done|].
  rewrite !bind_cons, sum_list_with_app, length_app, Nat.add_assoc, <-IH. f_equal.
  apply (imap_adds (vout tx) (λ i, mkOutPoint (TransactionHash tx) (Z.of_nat i))).
Qed.

Lemma outputs_op_wf txs : Forall wf_tx txs → Forall op_wf (txs ≫= output_ops).
Proof.
  intros Hwf. apply Forall_bind. eapply Forall_impl; [exact Hwf|]. intros tx Htx.
  destruct Htx as (_ & _ & _ & Hn & _ & Ho).
  unfold output_ops. rewrite Forall_elem in Ho. apply Forall_elem.
  intros op (i & t & -> & Hi)%elem_of_lookup_imap. cbn [op_wf]. split; [apply TaggedHash_is_hash|].
  pose proof (lookup_lt_Some _ _ _ Hi). split; [cbn; lia|].
  by apply (Ho t), list_elem_of_lookup_2 with i.
Qed.

Lemma block_ops_wf txs : Forall wf_tx txs → Forall op_wf (block_ops txs).
Proof.
  intros Hwf. apply Forall_app. split; [|by apply outputs_op_wf]. apply Forall_fmap, Forall_true. done.
Qed.

Lemma wf_utxos_map utxos :
  wf_utxos utxos ↔ is_u32 (Z.of_nat (size utxos)) ∧ map_Forall (λ k t, wf_utxo (k, t)) utxos.
Proof.
  unfold wf_utxos. rewrite Forall_elem. split; intros [Hs Hf]; (split; [exact Hs|]).
  - intros k t Hk. by apply Hf, elem_of_map_to_list.
  - intros [k t] Hk%elem_of_map_to_list. by apply Hf.
Qed.

(** ** Chains *)

Lemma genesis_added params n :
  sum_Z (added <$> (transactions (genesis_block params n) ≫= output_ops)) = 50 * COIN.
Proof. rewrite outputs_added. cbn. unfold created, sum_Z. cbn. lia. Qed.

Lemma chain_inv params height utxos :
  wf_params params → chain params height utxos →
  1 ≤ height ∧ values_ok utxos ∧
  total_value utxos ≤ issued (nSubsidyHalvingInterval params) height.
Proof.
  intros Hp. induction 1 as [n utxos E|height utxos b utxos' _ (Hh & Hv & Ht) Hb E Er].
  - destruct (run_adds (transactions (genesis_block params n) ≫= output_ops) ∅)
      as (u & E' & Hv & Ht); [apply map_Forall_empty| |].
    { apply Forall_bind, Forall_singleton. unfold output_ops, genesis_coinbase. cbn [vout imap].
      apply Forall_singleton. eexists _, _. split; [done|]. cbn [value]. unfold COIN. lia. }
    rewrite E in E'. injection E' as <-. split_and!; [done..|].
    rewrite genesis_added in Ht. unfold issued, subsidy_at. cbn. change (total_value ∅) with 0 in Ht. done.
  - destruct (block_applies params height utxos b Hp Hb Hv E) as (u & E' & Hv' & Ht').
    rewrite Er in E'. injection E' as <-. split_and!; [lia|done|].
    rewrite issued_S by lia. unfold subsidy in Ht'. rewrite bool_decide_false in Ht' by lia. lia.
Qed.

End Ledger.

(** ** Properties *)

(** C4. A block that validates can be applied: with the UTXO set as the provider, an
    accepted block's inputs can all be spent in order and its outputs added, no
    operation throwing, and the value of the set grows by at most the subsidy. *)
Theorem ValidateBlock_applies `{OpenSSL_SHA} `{OpenSSL_EC} b params height utxos :
  wf_params params → wf_block b → values_ok utxos →
  ValidateBlock b params height (chain_lookup utxos) = Ok true →
  ∃ utxos', foldM run_op utxos (block_ops (transactions b)) = Ok utxos' ∧ values_ok utxos' ∧
    total_value utxos' ≤ total_value utxos + subsidy params height.
Proof. apply block_applies. Qed.

Definition example_chain_utxos : UTXOSet :=
  {[ mkOutPoint (replicate 32 x0a) 1 := mkTxOut 60 (replicate 32 x00) ]}.

Lemma ValidateBlock_applies_witness :
  ∃ utxos', foldM run_op example_chain_utxos (@block_ops Sha256Ref.const_sha example_block_txs)
      = Ok utxos' ∧ values_ok utxos' ∧
    total_value utxos' ≤ total_value example_chain_utxos + subsidy Main 1.
Proof.
  apply (ValidateBlock_applies (H := Sha256Ref.const_sha) (H0 := toy_EC)
    (example_block example_block_txs)); by_decide.
Defined.

(** C6. An accepted block survives a restart: applied to the UTXO set it validated
    against and flushed, the set is the one a new [Chainstate] loads, whatever the file
    held before and in whatever order the map is written - as long as the outputs fit the
    32-bit count of the format. *)
Theorem block_durable `{OpenSSL_SHA} `{OpenSSL_EC} `{!UnorderedMap OutPoint TxOut}
    b params height utxos file :
  wf_params params → wf_block b → wf_utxos utxos →
  Z.of_nat (length (transactions b ≫= vout) + size utxos) < 2 ^ 32 →
  ValidateBlock b params height (chain_lookup utxos) = Ok true →
  ∃ utxos', foldM run_op utxos (block_ops (transactions b)) = Ok utxos' ∧
    LoadUTXOs (FlushUTXOs true file utxos') = Ok utxos' ∧
    total_value utxos' ≤ total_value utxos + subsidy params height.
Proof.
  intros Hp Hb [Hs Hw]%wf_utxos_map Hn E.
  assert (values_ok utxos) as Hv.
  { eapply map_Forall_impl; [exact Hw|]. intros k t (_ & _ & Ht & _). exact Ht. }
  destruct (block_applies params height utxos b Hp Hb Hv E) as (utxos' & E' & _ & Ht).
  exists utxos'. split; [exact E'|]. split; [|exact Ht].
  destruct (run_ops_wf _ (block_ops_wf _ (proj2 Hb)) _ _ Hw E') as [Hw' Hs'].
  rewrite block_ops_count in Hs'. apply load_flush, wf_utxos_map. split; [split; lia|exact Hw'].
Qed.

Lemma block_durable_witness :
  ∃ utxos', foldM run_op example_chain_utxos (@block_ops Sha256Ref.const_sha example_block_txs)
      = Ok utxos' ∧
    LoadUTXOs (@FlushUTXOs (canonical_order OutPoint TxOut) true (Some []) utxos') = Ok utxos' ∧
    total_value utxos' ≤ total_value example_chain_utxos + subsidy Main 1.
Proof.
  apply (block_durable (H := Sha256Ref.const_sha) (H0 := toy_EC)
    (UnorderedMap0 := canonical_order OutPoint TxOut) (example_block example_block_txs)); by_decide.
Defined.

(** C5. The supply of any chain is bounded: from the genesis coinbase on, whatever
    blocks are accepted and applied, the UTXO set of a chain of a given height holds
    at most the subsidies of the blocks below it, and never more than 9,999,999,989
    base units per block of a halving interval - 20,999,999.9769 DRM on [Main] and
    [Testnet]. *)
Theorem chain_supply_bounded `{OpenSSL_SHA} `{OpenSSL_EC} params height utxos :
  wf_params params → chain params height utxos →
  0 ≤ total_value utxos ≤ issued (nSubsidyHalvingInterval params) height ∧
  total_value utxos ≤ nSubsidyHalvingInterval params * 9999999989.
Proof.
  intros Hp Hc. destruct (chain_inv params height utxos Hp Hc) as (Hh & Hv & Ht).
  destruct Hp as [Hi _].
  destruct (issued_bound (nSubsidyHalvingInterval params) height) as [Hb _]; [lia..|].
  split_and!; [|lia..]. apply sum_Z_nonneg, Forall_fmap, Forall_elem.
  intros [o t] Hin%elem_of_map_to_list. cbn. by destruct (Hv o t Hin).
Qed.

(** The genesis coinbase, then a block of one coinbase. *)
Definition example_chain : UTXOSet :=
  {[ mkOutPoint uint256_zero 0 := mkTxOut 5000000000 (replicate 32 x01) ]}.

Lemma chain_supply_bounded_witness :
  @chain Sha256Ref.const_sha toy_EC Main 2 example_chain ∧
  0 ≤ total_value example_chain ≤ issued 210000 2 ∧
  total_value example_chain ≤ 210000 * 9999999989.
Proof.
  assert (@chain Sha256Ref.const_sha toy_EC Main 2 example_chain) as Hc.
  { eapply (chain_block (H := Sha256Ref.const_sha) (H0 := toy_EC) Main 1
      {[ mkOutPoint uint256_zero 0 := mkTxOut (50 * COIN)
           (String.list_byte_of_string "OP_RETURN DRACHMA: Proof before trust") ]}
      (example_block [MakeCoinbase 5000000000])).
    - apply (chain_genesis (H := Sha256Ref.const_sha) Main 0). by_decide.
    - by_decide.
    - by_decide.
    - by_decide. }
  split; [exact Hc|].
  apply (chain_supply_bounded (H := Sha256Ref.const_sha) (H0 := toy_EC) Main 2); [by_decide|exact Hc].
Defined.
