(* ===== verification/Blockstore.v ===== *)
(** * The block file and its index: storage/blockstore.cpp

    Blocks are appended to one file as a 32-bit length and a buffer (header, count,
    length-prefixed transactions); the index, from heights to file positions, is
    rewritten after every append.  The position [tellp] reports on a file opened for
    appending is implementation-defined, the class [Filebuf]. *)

From S2P Require Import Prelude Crypto Sha256Ref Codec Transaction Block Streams.

(** The position after opening a file of a given size with [std::ios::app]. *)
Class Filebuf := { tellp_app : Z → Z }.

(** libstdc++ on POSIX: the end of the file. *)
Definition posix_filebuf : Filebuf := {| tellp_app size := size |}.

Record BlockStore := mkBlockStore {
  index : gmap Z Z;
  bs_file : option (list byte);
  bs_idx_file : option (list byte);
}.

(** The [index] entry of one record of the index file. *)
Definition WriteIndexEntry (e : Z * Z) : list byte := le_bytes 4 e.1 ++ le_bytes 8 e.2.

Definition ReadIndexEntry (in_ : istream) : (Z * Z) * istream :=
  let '(height, in_) := read_int 4 0 in_ in
  let '(off, in_) := read_int 8 0 in_ in
  ((height, off), in_).

(** [height] and [off] are not initialised: after a failed read the assignment
    [index[height] = off] uses an indeterminate value. *)
Definition LoadIndex (file : option (list byte)) : result (gmap Z Z) :=
  load_counted ReadIndexEntry (λ index e, <[e.1 := e.2]> index) (inr indeterminate_value) ∅ file.

Definition FlushIndex `{!UnorderedMap Z Z} (index : gmap Z Z) : list byte :=
  let count := u32 (Z.of_nat (size index)) in
  le_bytes 4 count ++ enc_all WriteIndexEntry (iter index).

(** The constructor. *)
Definition OpenBlockStore (file idx_file : option (list byte)) : result BlockStore :=
  index ← LoadIndex idx_file;
  Ok (mkBlockStore index file idx_file).

(** The loop body of [WriteBlock] (25-28). *)
Definition WriteBlockTx (tx : Transaction) : list byte :=
  let ser := Serialize tx in
  let txSize := u32 (zlen ser) in
  le_bytes 4 txSize ++ ser.

(** The buffer [WriteBlock] builds (20-29). *)
Definition block_buffer (block : Block) : list byte :=
  let txCount := u32 (zlen (transactions block)) in
  header_bytes (header block) ++ le_bytes 4 txCount ++
  enc_list WriteBlockTx (transactions block).

Section Store.
  Context `{!Filebuf} `{!UnorderedMap Z Z}.

Definition WriteBlock (writable : bool) (height : Z) (block : Block) (s : BlockStore) :
    result BlockStore :=
  throw_if (negb writable) (runtime_error "cannot open blockstore");;
  let contents := default [] (bs_file s) in
  let pos := tellp_app (zlen contents) in
  let buffer := block_buffer block in
  let totalSize := u32 (zlen buffer) in
  let file := contents ++ le_bytes 4 totalSize ++ buffer in
  let index := <[height := u64 pos]> (index s) in
  Ok (mkBlockStore index (Some file) (Some (FlushIndex index))).

End Store.

(** The loop body of [ReadBlock] (60-67): a length-prefixed transaction. *)
Definition ReadBlockTx (data : list byte) (offset : Z) : result (Transaction * Z) :=
  throw_if (bool_decide (offset + 4 > zlen data)) (runtime_error "truncated transaction size");;
  let txSize := le_val (slice data offset 4) in
  let offset := offset + 4 in
  throw_if (bool_decide (offset + txSize > zlen data)) (runtime_error "truncated transaction data");;
  let txdata := slice data offset txSize in
  let offset := offset + txSize in
  tx ← DeserializeTransaction txdata;
  Ok (tx, offset).

(** [seekg] and the two reads of [ReadBlock] (43-49). *)
Definition ReadBuffer (file : option (list byte)) (pos : Z) : result (list byte) :=
  let in_ := open_in file in
  let in_ := if failed in_ then in_ else good (drop (Z.to_nat pos) (remaining in_)) in
  let '(size, in_) := read_int 4 0 in_ in
  let '(data, in_) := istream_read (replicate (Z.to_nat size) x00) in_ in
  throw_if (failed in_) (runtime_error "corrupt blockstore");;
  Ok data.

(** Parsing the buffer (51-69). *)
Definition ParseBlock (data : list byte) : result Block :=
  throw_if (bool_decide (zlen data < sizeof_BlockHeader + 4)) (runtime_error "block too small");;
  let header := header_of_bytes (slice data 0 sizeof_BlockHeader) in
  let offset := sizeof_BlockHeader in
  let txCount := le_val (slice data offset 4) in
  let offset := offset + 4 in
  '(txs, _) ← read_n ReadBlockTx txCount data offset;
  Ok (mkBlock header txs).

Definition ReadBlock (height : Z) (s : BlockStore) : result Block :=
  match index s !! height with
  | None => Throw (runtime_error "unknown height")
  | Some pos =>
      data ← ReadBuffer (bs_file s) pos;
      ParseBlock data
  end.

(** ** The index file *)

Definition wf_index_entry (e : Z * Z) : Prop := is_u32 e.1 ∧ is_u64 e.2.
Definition wf_index (index : gmap Z Z) : Prop :=
  is_u32 (Z.of_nat (size index)) ∧ Forall wf_index_entry (map_to_list index).

#[global] Instance wf_index_entry_dec e : Decision (wf_index_entry e).
Proof. unfold wf_index_entry. apply _. Defined.
#[global] Instance wf_index_dec m : Decision (wf_index m).
Proof. unfold wf_index. apply _. Defined.

#[export] Instance ReadIndexEntry_codec :
  StreamCodec WriteIndexEntry ReadIndexEntry wf_index_entry.
Proof.
  split.
  - intros [h o] r [Hh Ho]. unfold WriteIndexEntry, ReadIndexEntry. cbn [fst snd] in *.
    rewrite <-(assoc_L (++)). by rewrite !read_int_good.
  - intros s [h o] s' E Hf. unfold ReadIndexEntry in E.
    destruct (read_int 4 0 s) as [h0 s1] eqn:E1. destruct (read_int 8 0 s1) as [o0 s2] eqn:E2.
    simplify_eq. apply read_int_not_failed in E2 as (F1 & B2 & R2); [|done].
    apply read_int_not_failed in E1 as (F0 & B1 & R1); [|done].
    split_and!; [done|done|]. unfold WriteIndexEntry. cbn [fst snd].
    by rewrite <-(assoc_L (++)), <-R2.
Qed.

Section Index.
  Context `{!UnorderedMap Z Z}.

Lemma FlushIndex_counted index : wf_index index →
  FlushIndex index = counted WriteIndexEntry (iter index) ∧
  is_u32 (zlen (iter index)) ∧ Forall wf_index_entry (iter index).
Proof.
  intros [Hs Hf]. unfold FlushIndex, counted. rewrite u32_id, iter_length by done.
  split_and!; [done|lia..|]. by rewrite iter_perm.
Qed.

Lemma LoadIndex_Flush index : wf_index index → LoadIndex (Some (FlushIndex index)) = Ok index.
Proof.
  intros Hwf. destruct (FlushIndex_counted _ Hwf) as (-> & ? & ?). unfold LoadIndex.
  rewrite (load_counted_counted WriteIndexEntry ReadIndexEntry wf_index_entry) by done.
  by rewrite foldl_insert_iter.
Qed.

End Index.

(** ** The block buffer *)

Definition wf_stored_tx (tx : Transaction) : Prop := wf_tx tx ∧ is_u32 (zlen (Serialize tx)).

(** A block the format can hold: its counts and lengths fit 32 bits. *)
Definition wf_stored (b : Block) : Prop :=
  wf_header (header b) ∧ Forall wf_stored_tx (transactions b) ∧
  is_u32 (zlen (transactions b)) ∧ is_u32 (zlen (block_buffer b)).

#[global] Instance wf_stored_tx_dec tx : Decision (wf_stored_tx tx).
Proof. unfold wf_stored_tx. apply _. Defined.
#[global] Instance wf_stored_dec b : Decision (wf_stored b).
Proof. unfold wf_stored. apply _. Defined.

Lemma le_val_enc_at data off v :
  enc_at data off (le_bytes 4 v) → is_u32 v → le_val (slice data off 4) = v.
Proof.
  intros Hat Hv. apply enc_at_slice in Hat. rewrite length_le_bytes in Hat.
  change (Z.of_nat 4) with 4 in Hat. rewrite Hat, le_val_bytes. by apply Z.mod_small.
Qed.

#[export] Instance ReadBlockTx_codec : Codec WriteBlockTx ReadBlockTx wf_stored_tx.
Proof.
  split; intros data off.
  - intros tx [Hwf Hs] [H1 H2]%enc_at_app. rewrite u32_id in * by done.
    pose proof (enc_at_bound _ _ _ H1). pose proof (enc_at_bound _ _ _ H2).
    rewrite length_le_bytes in *. change (Z.of_nat 4) with 4 in *. unfold ReadBlockTx, WriteBlockTx.
    rewrite (bool_decide_false (off + 4 > zlen data)) by lia. cbn [throw_if mbind result_bind].
    rewrite (le_val_enc_at _ _ _ H1 Hs), bool_decide_false by lia.
    cbn [throw_if mbind result_bind]. rewrite (enc_at_slice _ _ _ H2).
    rewrite (proj2 (DeserializeTransaction_Ok _ _) (conj Hwf eq_refl)).
    cbn [mbind result_bind]. rewrite length_app, length_le_bytes. do 2 f_equal. lia.
  - intros tx off' Hoff E. unfold ReadBlockTx in E. simplify_result.
    apply bool_decide_eq_false in H, H0. apply DeserializeTransaction_Ok in H1 as [Hwf Es].
    assert (zlen (slice data off 4) = 4) as Hl by (apply slice_length; lia).
    pose proof (le_val_range (slice data off 4)) as Hr. rewrite Hl in Hr.
    assert (zlen (Serialize tx) = le_val (slice data off 4)) as Hz
      by (rewrite <-Es; apply slice_length; lia).
    unfold wf_stored_tx, WriteBlockTx. rewrite length_app, length_le_bytes, Hz.
    split_and!; [done|lia..| |lia]. rewrite u32_id, le_bytes_val_eq by lia.
    apply enc_at_app. split; [apply enc_at_slice_intro; lia|].
    rewrite <-Es, Hl. apply enc_at_slice_intro; lia.
  - intros u. unfold ReadBlockTx.
    destruct (bool_decide (off + 4 > _)); [done|]. cbn [throw_if mbind result_bind].
    destruct (bool_decide _); [done|]. cbn [throw_if mbind result_bind].
    destruct (DeserializeTransaction _) eqn:E; cbn [mbind result_bind]; [done|done|].
    by apply DeserializeTransaction_defined in E.
Qed.

Lemma ParseBlock_enc data b : wf_stored b → enc_at data 0 (block_buffer b) →
  ParseBlock data = Ok b.
Proof.
  intros (Hh & Htx & Hn & _) Hat. unfold ParseBlock, block_buffer in *. rewrite u32_id in Hat by done.
  pose proof (header_bytes_length _ Hh) as Hl. unfold sizeof_BlockHeader in *.
  pose proof (enc_at_bound _ _ _ Hat) as Hb. rewrite !length_app, length_le_bytes in Hb.
  rewrite bool_decide_false by lia. cbn [throw_if mbind result_bind].
  apply enc_at_app in Hat as [H1 Hat]. apply enc_at_app in Hat as [H2 H3].
  rewrite length_le_bytes, Hl, Z.add_0_l in *. change (Z.of_nat 4) with 4 in *.
  apply enc_at_slice in H1. rewrite Hl in H1. rewrite H1, header_of_bytes_bytes by done.
  rewrite (le_val_enc_at _ _ _ H2) by done.
  rewrite (dec_enc _ _ (transactions b)) by (done || by split; [|lia]).
  cbn [mbind result_bind]. by destruct b.
Qed.

(** What a parsed buffer holds. *)
Lemma ParseBlock_Ok data b : is_u32 (zlen data) → ParseBlock data = Ok b →
  wf_stored b ∧ ∃ trailing, data = block_buffer b ++ trailing.
Proof.
  intros Hd E. unfold ParseBlock in E. unfold sizeof_BlockHeader in *. simplify_result.
  apply bool_decide_eq_false in H.
  assert (zlen (slice data 0 80) = sizeof_BlockHeader) as Hl
    by (apply (slice_length data); unfold sizeof_BlockHeader; lia).
  pose proof (header_of_bytes_wf _ Hl) as Hh. pose proof (header_bytes_of_bytes _ Hl) as Eh.
  pose proof (le_val_range (slice data 80 4)) as Hn.
  assert (zlen (slice data 80 4) = 4) as H4 by (apply (slice_length data); lia).
  rewrite H4 in Hn. apply enc_dec in H0 as ([Htx El] & Hat & _); [|lia].
  rewrite Z.max_r in El by lia.
  assert (le_bytes 4 (u32 (zlen l)) = slice data 80 4) as Ec.
  { rewrite El, u32_id by lia. apply le_bytes_val_eq. lia. }
  match goal with |- wf_stored ?b ∧ _ =>
    assert (enc_at data 0 (block_buffer b)) as Hb;
    [unfold block_buffer; cbn [header transactions]|] end.
  { rewrite Eh, Ec. apply enc_at_app. rewrite Hl. unfold sizeof_BlockHeader.
    split; [apply enc_at_slice_intro; lia|]. apply enc_at_app. rewrite H4.
    split; [apply enc_at_slice_intro; lia|exact Hat]. }
  split.
  - split_and!; cbn [header transactions]; [done|done|lia..| |].
    + pose proof (Nat2Z.is_nonneg (length (block_buffer
        {| header := header_of_bytes (slice data 0 80); transactions := l |}))). lia.
    + pose proof (enc_at_bound _ _ _ Hb). lia.
  - destruct Hb as (pre & post & E & Hp). destruct pre; [by exists post|cbn in Hp; lia].
Qed.

(** ** Reading at a position of the file *)

Lemma ReadBuffer_Ok pre buf post : is_u32 (zlen buf) →
  ReadBuffer (Some (pre ++ le_bytes 4 (zlen buf) ++ buf ++ post)) (zlen pre) = Ok buf.
Proof.
  intros Hb. unfold ReadBuffer. cbn [open_in failed remaining].
  rewrite Nat2Z.id, drop_app_length, read_int_good by done.
  rewrite read_good by (rewrite length_replicate; lia). done.
Qed.

Lemma ReadBuffer_length file pos buf : ReadBuffer file pos = Ok buf → is_u32 (zlen buf).
Proof.
  unfold ReadBuffer. destruct (read_int 4 0 _) as [n s1] eqn:E1.
  destruct (istream_read _ s1) as [b s2] eqn:E2. intros E. simplify_result.
  apply read_not_failed in E2 as (F1 & L2 & _); [|done].
  apply read_int_not_failed in E1 as (_ & Hn & _); [|done].
  rewrite length_replicate in L2. lia.
Qed.

(** A buffer that reads stays readable when the file grows. *)
Lemma ReadBuffer_append file pos buf more :
  ReadBuffer (Some file) pos = Ok buf → ReadBuffer (Some (file ++ more)) pos = Ok buf.
Proof.
  unfold ReadBuffer. cbn [open_in failed remaining].
  destruct (read_int 4 0 (good (drop _ file))) as [n s1] eqn:E1.
  destruct (istream_read _ s1) as [b s2] eqn:E2. intros E. simplify_result.
  apply read_not_failed in E2 as (F1 & L2 & R2); [|done].
  apply read_int_not_failed in E1 as (_ & B1 & R1); [|done]. cbn [remaining] in R1.
  assert (length (le_bytes 4 n) ≤ length (drop (Z.to_nat pos) file))%nat as Hle
    by (rewrite R1, length_app; lia).
  rewrite length_le_bytes, length_drop in Hle.
  rewrite drop_app_le, R1, R2, <-!(assoc_L (++)), read_int_good by (lia || done).
  by rewrite read_good by done.
Qed.

(** ** Properties *)

Section Properties.
  Context `{!Filebuf} `{!UnorderedMap Z Z}.

(** What [WriteBlock] leaves, where [tellp] is the end of the file. *)
Lemma WriteBlock_Ok h b s :
  (∀ n, tellp_app n = n) → is_u64 (zlen (default [] (bs_file s))) → is_u32 (zlen (block_buffer b)) →
  let index' := <[h := zlen (default [] (bs_file s))]> (index s) in
  WriteBlock true h b s = Ok (mkBlockStore index'
    (Some (default [] (bs_file s) ++ le_bytes 4 (zlen (block_buffer b)) ++ block_buffer b))
    (Some (FlushIndex index'))).
Proof.
  intros Ht Hf Hb. unfold WriteBlock. cbn [negb throw_if mbind result_bind].
  by rewrite Ht, u64_id, u32_id.
Qed.

End Properties.

(** A written block is durable: after [WriteBlock h b], reading height [h]
    returns [b]; every other height that was readable before returns what it
    returned before; and reopening the store from its files gives the same store. *)
Theorem WriteBlock_ReadBlock `{!Filebuf} `{!UnorderedMap Z Z} h b s :
  (∀ n, tellp_app n = n) →
  wf_stored b → is_u64 (zlen (default [] (bs_file s))) →
  wf_index (<[h := zlen (default [] (bs_file s))]> (index s)) →
  ∃ s', WriteBlock true h b s = Ok s' ∧
    ReadBlock h s' = Ok b ∧
    (∀ h' b', h' ≠ h → ReadBlock h' s = Ok b' → ReadBlock h' s' = Ok b') ∧
    OpenBlockStore (bs_file s') (bs_idx_file s') = Ok s'.
Proof.
  intros Ht Hwf Hf Hi. pose proof Hwf as (_ & _ & _ & Hb).
  eexists. split; [by apply WriteBlock_Ok|]. split_and!.
  - unfold ReadBlock. cbn [index bs_file]. rewrite lookup_insert_eq.
    pose proof (ReadBuffer_Ok (default [] (bs_file s)) (block_buffer b) [] Hb) as E.
    rewrite app_nil_r in E. rewrite E. cbn [mbind result_bind]. apply ParseBlock_enc; [done|].
    rewrite <-(app_nil_r (block_buffer b)) at 1. apply enc_at_here.
  - intros h' b' Hne. unfold ReadBlock. cbn [index bs_file]. rewrite lookup_insert_ne by done.
    destruct (index s !! h') as [pos|]; [|done]. intros E. simplify_result.
    destruct (bs_file s) as [file|]; cbn [default from_option id] in *.
    + by rewrite (ReadBuffer_append _ _ _ _ H0).
    + done.
  - unfold OpenBlockStore. cbn [bs_idx_file bs_file]. by rewrite LoadIndex_Flush.
Qed.

(** The index of a store with one block already written. *)
Definition example_stored : Block :=
  mkBlock (mkBlockHeader 1 uint256_zero uint256_zero 1735689600 0x1e0fffff 0) [example_tx].
Definition example_store : BlockStore :=
  mkBlockStore {[ 0 := 0 ]}
    (Some (le_bytes 4 (zlen (block_buffer example_stored)) ++ block_buffer example_stored)) None.

Lemma WriteBlock_ReadBlock_witness :
  ∃ s', @WriteBlock posix_filebuf (canonical_order Z Z) true 1 example_stored example_store = Ok s' ∧
    ReadBlock 1 s' = Ok example_stored ∧
    (∀ h' b', h' ≠ 1 → ReadBlock h' example_store = Ok b' → ReadBlock h' s' = Ok b') ∧
    OpenBlockStore (bs_file s') (bs_idx_file s') = Ok s'.
Proof.
  apply (@WriteBlock_ReadBlock posix_filebuf (canonical_order Z Z));
    [reflexivity|by_decide..].
Defined.

(** A cut index file is undefined behaviour, not an error: on every proper
    prefix of a written index, except an empty or all-zero start of its count,
    [LoadIndex] stores an uninitialised position under an uninitialised height. *)
Theorem LoadIndex_truncated `{!UnorderedMap Z Z} index p post :
  wf_index index → FlushIndex index = p ++ post → post ≠ [] →
  LoadIndex (Some p) =
    if bool_decide ((length p < 4)%nat ∧ le_val p = 0) then Ok ∅ else Undef indeterminate_value.
Proof.
  intros Hwf E Hpost. destruct (FlushIndex_counted _ Hwf) as (Ec & ? & ?). rewrite Ec in E.
  by apply (load_counted_truncated WriteIndexEntry ReadIndexEntry wf_index_entry _
    (inr indeterminate_value) ∅ (iter index) p post).
Qed.

Lemma LoadIndex_truncated_witness :
  let bytes := @FlushIndex (canonical_order Z Z) {[ 0 := 0; 1 := 215 ]} in
  LoadIndex (Some (take 20 bytes)) =
    if bool_decide ((length (take 20 bytes) < 4)%nat ∧ le_val (take 20 bytes) = 0) then Ok ∅
    else Undef indeterminate_value.
Proof.
  intros bytes.
  apply (@LoadIndex_truncated (canonical_order Z Z) {[ 0 := 0; 1 := 215 ]} _ (drop 20 bytes)).
  - by_decide.
  - symmetry. apply take_drop.
  - by_decide.
Defined.

(** ** A store over its lifetime *)

(** What a process does with a store: write a block, or end and construct it again
    from its files. *)
Inductive store_op := Put (height : Z) (block : Block) | Reopen.

Definition op_ok (o : store_op) : Prop :=
  match o with Put h b => is_u32 h ∧ wf_stored b | Reopen => True end.

#[global] Instance op_ok_dec o : Decision (op_ok o).
Proof. destruct o; apply _. Defined.

(** The specification: a map from heights to the blocks last written there. *)
Definition spec_op (m : gmap Z Block) (o : store_op) : gmap Z Block :=
  match o with Put h b => <[h := b]> m | Reopen => m end.

Definition spec_read (m : gmap Z Block) (height : Z) : result Block :=
  match m !! height with
  | Some b => Ok b
  | None => Throw (runtime_error "unknown height")
  end.

Section Lifetime.
  Context `{!Filebuf} `{!UnorderedMap Z Z}.

Definition store_step (s : BlockStore) (o : store_op) : result BlockStore :=
  match o with
  | Put h b => WriteBlock true h b s
  | Reopen => OpenBlockStore (bs_file s) (bs_idx_file s)
  end.

Definition store_run (s : BlockStore) (ops : list store_op) : result BlockStore :=
  foldM store_step s ops.

(** One height of the store against the specification: the indexed position holds a
    whole record with the block's buffer. *)
Definition entry_rep (file : option (list byte)) (o : option Z) (b : option Block) : Prop :=
  match o, b with
  | Some pos, Some b => is_u64 pos ∧ wf_stored b ∧ ReadBuffer file pos = Ok (block_buffer b)
  | None, None => True
  | _, _ => False
  end.

(** The representation after at most [n] writes. *)
Record represents (n : Z) (s : BlockStore) (m : gmap Z Block) : Prop := {
  rep_entry h : entry_rep (bs_file s) (index s !! h) (m !! h);
  rep_height h : is_Some (m !! h) → is_u32 h;
  rep_idx : LoadIndex (bs_idx_file s) = Ok (index s);
  rep_size : Z.of_nat (size (index s)) ≤ n;
  rep_file : zlen (default [] (bs_file s)) ≤ n * (2 ^ 32 + 4);
}.

Lemma entries_wf_index file (idx : gmap Z Z) (m : gmap Z Block) :
  (∀ h, entry_rep file (idx !! h) (m !! h)) → (∀ h, is_Some (m !! h) → is_u32 h) →
  Z.of_nat (size idx) < 2 ^ 32 → wf_index idx.
Proof.
  intros He Hh Hn. split; [split; lia|]. apply Forall_elem.
  intros [h pos] Hp%elem_of_map_to_list. specialize (He h). specialize (Hh h). rewrite Hp in He.
  destruct (m !! h) as [b|]; cbn in He; [|done]. split; [by apply Hh|tauto].
Qed.

Lemma rep_read n s m h : represents n s m → ReadBlock h s = spec_read m h.
Proof.
  intros [He _ _ _ _]. specialize (He h). unfold ReadBlock, spec_read.
  destruct (index s !! h) as [pos|], (m !! h) as [b|]; cbn in He; try done.
  destruct He as (_ & Hwf & ->). cbn [mbind result_bind]. apply ParseBlock_enc; [done|].
  rewrite <-(app_nil_r (block_buffer b)) at 1. apply enc_at_here.
Qed.

Lemma rep_reopen n s m : represents n s m →
  ∃ s', store_step s Reopen = Ok s' ∧ represents n s' m.
Proof.
  intros [He Hh Hi Hs Hf]. cbn [store_step]. unfold OpenBlockStore. rewrite Hi.
  eexists. by split.
Qed.

Lemma rep_put n s m h b :
  (∀ n, tellp_app n = n) → represents n s m → 0 ≤ n < 2 ^ 31 → is_u32 h → wf_stored b →
  ∃ s', store_step s (Put h b) = Ok s' ∧ represents (n + 1) s' (<[h := b]> m).
Proof.
  intros Ht [He Hh Hi Hs Hf] Hn Hu Hwf. pose proof Hwf as (_ & _ & _ & Hb).
  assert (is_u64 (zlen (default [] (bs_file s)))) as Hpos by (split; lia).
  cbn [store_step]. rewrite WriteBlock_Ok by done. eexists. split; [done|].
  assert (∀ k, entry_rep (Some (default [] (bs_file s) ++
      le_bytes 4 (zlen (block_buffer b)) ++ block_buffer b))
    (<[h := zlen (default [] (bs_file s))]> (index s) !! k) (<[h := b]> m !! k)) as He'.
  { intros k. destruct (decide (k = h)) as [->|Hk].
    - rewrite !lookup_insert_eq. cbn [entry_rep]. split; [exact Hpos|]. split; [exact Hwf|].
      pose proof (ReadBuffer_Ok (default [] (bs_file s)) (block_buffer b) [] Hb) as E.
      by rewrite app_nil_r in E.
    - rewrite !lookup_insert_ne by done. specialize (He k).
      destruct (index s !! k) as [pos|], (m !! k) as [b'|]; cbn in *; try done.
      destruct He as (Hp & Hwf' & E). split; [exact Hp|]. split; [exact Hwf'|].
      destruct (bs_file s) as [file|]; [by apply ReadBuffer_append|done]. }
  assert (∀ k, is_Some (<[h := b]> m !! k) → is_u32 k) as Hh'.
  { intros k [<-|[_ Hk]]%lookup_insert_is_Some; [done|by apply Hh]. }
  assert (Z.of_nat (size (<[h := zlen (default [] (bs_file s))]> (index s))) ≤ n + 1) as Hs'.
  { rewrite map_size_insert. destruct (index s !! h); cbn; lia. }
  split; cbn [index bs_file bs_idx_file]; [exact He'|exact Hh'| |exact Hs'|].
  - apply LoadIndex_Flush. eapply entries_wf_index; [exact He'|exact Hh'|lia].
  - cbn [default from_option id]. rewrite !length_app, length_le_bytes. destruct Hb. lia.
Qed.

Lemma rep_run ops : (∀ n, tellp_app n = n) → Forall op_ok ops →
  ∀ n s m, represents n s m → 0 ≤ n → n + zlen ops ≤ 2 ^ 31 →
  ∃ s', store_run s ops = Ok s' ∧ represents (n + zlen ops) s' (foldl spec_op m ops).
Proof.
  intros Ht. induction 1 as [|o ops Ho _ IH]; intros n s m Hr Hn Hlen; cbn [length] in *.
  { exists s. by rewrite Z.add_0_r. }
  assert (∃ s', store_step s o = Ok s' ∧ represents (n + 1) s' (spec_op m o)) as (s1 & E1 & H1).
  { destruct o as [h b|]; [destruct Ho; apply rep_put; done || lia|].
    destruct (rep_reopen _ _ _ Hr) as (s' & E & [? ? ? ? ?]). exists s'. split; [done|].
    split; try done; lia. }
  destruct (IH (n + 1) s1 (spec_op m o) H1) as (s2 & E2 & H2); [lia..|].
  exists s2. unfold store_run in *. cbn [foldM]. rewrite E1. cbn [mbind result_bind].
  rewrite E2. split; [done|]. cbn [foldl].
  by replace (n + Z.of_nat (S (length ops))) with (n + 1 + zlen ops) by lia.
Qed.

End Lifetime.

(** C9. The store refines a map from heights to blocks, where a file opened for appending
    reports its end as its position, as POSIX implementations do: from no files, any
    sequence of up to 2^31 writes and restarts succeeds, and afterwards every height reads
    as the block last written there, or as unknown if none was. *)
Theorem BlockStore_refines `{!Filebuf} `{!UnorderedMap Z Z} ops :
  (∀ n, tellp_app n = n) → Forall op_ok ops → zlen ops ≤ 2 ^ 31 →
  ∃ s0 s, OpenBlockStore None None = Ok s0 ∧ store_run s0 ops = Ok s ∧
    ∀ h, ReadBlock h s = spec_read (foldl spec_op ∅ ops) h.
Proof.
  intros Ht Hops Hlen. exists (mkBlockStore ∅ None None).
  assert (represents 0 (mkBlockStore ∅ None None) ∅) as H0.
  { split; cbn; intros; by rewrite ?lookup_empty in *. }
  destruct (rep_run ops Ht Hops 0 _ _ H0) as (s & E & Hr); [lia..|].
  exists s. split_and!; [done..|]. intros h. by eapply rep_read.
Qed.

Lemma BlockStore_refines_witness :
  ∃ s0 s, OpenBlockStore None None = Ok s0 ∧
    @store_run posix_filebuf (canonical_order Z Z) s0
      [Put 7 example_stored; Reopen; Put 7 example_stored; Put 0 example_stored; Reopen] = Ok s ∧
    ∀ h, ReadBlock h s =
      spec_read (foldl spec_op ∅ [Put 7 example_stored; Reopen; Put 7 example_stored;
        Put 0 example_stored; Reopen]) h.
Proof.
  apply (@BlockStore_refines posix_filebuf (canonical_order Z Z)); [reflexivity|by_decide..].
Defined.

(** C24. Whatever the files hold, a block that [ReadBlock] returns is a value of its C++
    type - header fields, hashes, counts and lengths in range, every transaction one the
    format can hold - and the record at its height starts with exactly the bytes
    [WriteBlock] would store for it. *)
Theorem ReadBlock_typed h s b :
  ReadBlock h s = Ok b →
  wf_stored b ∧ ∃ pos trailing, index s !! h = Some pos ∧
    ReadBuffer (bs_file s) pos = Ok (block_buffer b ++ trailing).
Proof.
  unfold ReadBlock. destruct (index s !! h) as [pos|]; [|done]. intros E.
  apply bind_Ok_inv in E as (data & Hd & E).
  apply ParseBlock_Ok in E as (Hwf & trailing & ->); [|by eapply ReadBuffer_length].
  split; [exact Hwf|]. by exists pos, trailing.
Qed.

Lemma ReadBlock_typed_witness :
  ReadBlock 0 example_store = Ok example_stored ∧ wf_stored example_stored ∧
  ∃ pos trailing, index example_store !! 0 = Some pos ∧
    ReadBuffer (bs_file example_store) pos = Ok (block_buffer example_stored ++ trailing).
Proof.
  assert (ReadBlock 0 example_store = Ok example_stored) as H by (vm_compute; reflexivity).
  split; [exact H|]. exact (ReadBlock_typed 0 example_store example_stored H).
Defined.
