(* ===== verification/Mempool.v ===== *)
(** * The fee policy and the mempool: policy/policy.cpp, mempool/mempool.cpp

    The pool is an unordered map of entries and a deque of hashes in order of
    arrival; every method runs under its mutex.  It refines a bounded FIFO queue
    ([queue_accept], [queue_remove]). *)

From S2P Require Import Prelude Crypto Sha256Ref Codec Transaction Streams.

Record FeePolicy := mkFeePolicy {
  m_minFeeRate : Z;
  m_maxTxBytes : Z;
  m_maxEntries : Z;
}.

(** The default arguments of the constructor. *)
Definition FeePolicy_default : FeePolicy := mkFeePolicy 1000 100000 5000.

Definition IsFeeAcceptable (p : FeePolicy) (tx : Transaction) (fee : Z) : bool :=
  let ser := Serialize tx in
  if bool_decide (zlen ser > m_maxTxBytes p) then false else
  let required := u64 ((zlen ser + 999) `div` 1000 * m_minFeeRate p) in
  bool_decide (required ≤ fee).

Definition MaxEntries (p : FeePolicy) : Z := m_maxEntries p.

(** An entry; [entry_added] is the reading of the steady clock. *)
Record MempoolEntry := mkEntry { entry_tx : Transaction; entry_fee : Z; entry_added : Z }.

#[global] Instance MempoolEntry_eq_dec : EqDecision MempoolEntry.
Proof. solve_decision. Defined.

Record Mempool := mkMempool {
  m_policy : FeePolicy;
  m_entries : gmap uint256 MempoolEntry;
  m_order : list uint256;
}.

Definition Mempool_new (policy : FeePolicy) : Mempool := mkMempool policy ∅ [].

(** The loop of [EvictOldest]: pop hashes until one with an entry is erased. *)
Fixpoint evict_loop (entries : gmap uint256 MempoolEntry) (order : list uint256) :
    gmap uint256 MempoolEntry * list uint256 :=
  match order with
  | [] => (entries, [])
  | hash :: order =>
      match entries !! hash with
      | Some _ => (delete hash entries, order)
      | None => evict_loop entries order
      end
  end.

Definition EvictOldest (s : Mempool) : Mempool :=
  let '(entries, order) := evict_loop (m_entries s) (m_order s) in
  mkMempool (m_policy s) entries order.

Section Pool.
  Context `{OpenSSL_SHA}.

Definition Accept (tx : Transaction) (fee now : Z) (s : Mempool) : bool * Mempool :=
  let hash := GetHash tx in
  if bool_decide (is_Some (m_entries s !! hash)) then (false, s) else
  if negb (IsFeeAcceptable (m_policy s) tx fee) then (false, s) else
  let s := if bool_decide (MaxEntries (m_policy s) ≤ Z.of_nat (size (m_entries s)))
           then EvictOldest s else s in
  (true, mkMempool (m_policy s) (emplace (m_entries s) (hash, mkEntry tx fee now))
           (m_order s ++ [hash])).

End Pool.

Definition Exists_ (hash : uint256) (s : Mempool) : bool :=
  bool_decide (is_Some (m_entries s !! hash)).

Definition Snapshot `{!UnorderedMap uint256 MempoolEntry} (s : Mempool) : list Transaction :=
  (λ kv, entry_tx kv.2) <$> iter (m_entries s).

(** The erasing loop, then the rebuilt order (69-81). *)
Definition Remove (hashes : list uint256) (s : Mempool) : Mempool :=
  let entries := foldl (λ entries h,
    match entries !! h with Some _ => delete h entries | None => entries end)
    (m_entries s) hashes in
  let rebuilt := filter (λ h, is_Some (entries !! h)) (m_order s) in
  mkMempool (m_policy s) entries rebuilt.

(** ** The abstract queue *)

Abbreviation queue := (list (uint256 * MempoolEntry)).

Section Queue.
  Context `{OpenSSL_SHA}.

(** Append, dropping the head of a full queue; refuse a duplicate or a low fee. *)
Definition queue_accept (p : FeePolicy) (tx : Transaction) (fee now : Z) (q : queue) :
    bool * queue :=
  if bool_decide (TransactionHash tx ∈ q.*1) || negb (IsFeeAcceptable p tx fee)
  then (false, q)
  else (true, (if bool_decide (m_maxEntries p ≤ zlen q) then tail q else q)
              ++ [(TransactionHash tx, mkEntry tx fee now)]).

Definition queue_remove (hashes : list uint256) (q : queue) : queue :=
  filter (λ kv, kv.1 ∉ hashes) q.

(** The pool holds the queue. *)
Record refines (s : Mempool) (q : queue) : Prop := {
  refines_order : m_order s = q.*1;
  refines_NoDup : NoDup q.*1;
  refines_entries : m_entries s = list_to_map q;
}.

Lemma refines_new p : refines (Mempool_new p) [].
Proof. split; [done|constructor|done]. Qed.

Lemma refines_lookup s q k : refines s q → is_Some (m_entries s !! k) ↔ k ∈ q.*1.
Proof.
  intros [_ _ ->]. split.
  - intros [e He]. apply elem_of_list_to_map_2 in He. apply list_elem_of_fmap. by exists (k, e).
  - intros Hk. apply not_eq_None_Some. by intros ?%not_elem_of_list_to_map.
Qed.

Lemma refines_size s q : refines s q → size (m_entries s) = length q.
Proof.
  intros [_ Hnd ->].
  rewrite <-length_map_to_list, map_to_list_to_map by done. done.
Qed.

Lemma refines_evict s q : refines s q → refines (EvictOldest s) (tail q).
Proof.
  intros [Ho Hnd He]. unfold EvictOldest. rewrite Ho, He.
  destruct q as [|[k e] q]; [by split|]. cbn [fmap list_fmap fst evict_loop list_to_map foldr].
  cbn [fmap list_fmap fst] in Hnd. apply NoDup_cons in Hnd as [Hk Hnd].
  rewrite lookup_insert_eq. split; cbn [m_order m_entries tail]; [done|done|].
  rewrite delete_insert_id; [done|]. by apply not_elem_of_list_to_map_1.
Qed.

Lemma refines_push s q k e : refines s q → k ∉ q.*1 →
  refines (mkMempool (m_policy s) (emplace (m_entries s) (k, e)) (m_order s ++ [k]))
    (q ++ [(k, e)]).
Proof.
  intros [Ho Hnd He] Hk. assert (NoDup (q ++ [(k, e)]).*1) as Hnd'.
  { rewrite fmap_app. apply NoDup_app. split_and!; [done| |apply NoDup_singleton].
    intros x Hx ->%list_elem_of_singleton. done. }
  split; cbn [m_order m_entries].
  - by rewrite Ho, fmap_app.
  - done.
  - rewrite emplace_fresh by (rewrite He; by apply not_elem_of_list_to_map_1). cbn [fst snd].
    rewrite He, list_to_map_snoc; [done|done].
Qed.

Lemma refines_Accept s q tx fee now : refines s q →
  (Accept tx fee now s).1 = (queue_accept (m_policy s) tx fee now q).1 ∧
  refines (Accept tx fee now s).2 (queue_accept (m_policy s) tx fee now q).2.
Proof.
  intros Hr. unfold Accept, queue_accept. change (GetHash tx) with (TransactionHash tx).
  rewrite (bool_decide_ext _ _ (refines_lookup s q (TransactionHash tx) Hr)).
  case_bool_decide as Hk; [done|]. cbn [orb].
  destruct (IsFeeAcceptable _ _ _); [cbn [negb]|done].
  rewrite (refines_size s q Hr). unfold MaxEntries.
  split; [done|]. cbn [snd]. case_bool_decide.
  - apply refines_push; [by apply refines_evict|].
    intros Hin. apply Hk. destruct q as [|kv q]; [done|]. by right.
  - by apply refines_push.
Qed.

Lemma foldl_delete (hashes : list uint256) (m : gmap uint256 MempoolEntry) k :
  foldl (λ m h, match m !! h with Some _ => delete h m | None => m end) m hashes !! k
  = if bool_decide (k ∈ hashes) then None else m !! k.
Proof.
  revert m. induction hashes as [|h hashes IH]; intros m; cbn [foldl]; [done|].
  rewrite IH. destruct (decide (k = h)) as [->|Hne].
  - rewrite (bool_decide_true (h ∈ h :: hashes)) by by left.
    case_bool_decide; [done|]. destruct (m !! h) eqn:E; [by rewrite lookup_delete_eq|done].
  - replace (bool_decide (k ∈ h :: hashes)) with (bool_decide (k ∈ hashes)).
    + case_bool_decide; [done|]. destruct (m !! h); [by rewrite lookup_delete_ne|done].
    + apply bool_decide_ext. rewrite elem_of_cons. naive_solver.
Qed.

Lemma refines_Remove s q hashes : refines s q →
  refines (Remove hashes s) (queue_remove hashes q).
Proof.
  intros Hr. pose proof Hr as [Ho Hnd He]. unfold Remove, queue_remove.
  assert (∀ l : queue, (filter (λ kv, kv.1 ∉ hashes) l).*1 = filter (λ k, k ∉ hashes) l.*1) as Hf.
  { induction l as [|[k e] l IH]; [done|]. rewrite filter_cons. cbn [fmap list_fmap fst].
    rewrite filter_cons. case_decide; [cbn; by rewrite <-IH|done]. }
  split; cbn [m_order m_entries].
  - rewrite Hf, Ho. apply filter_ext_in. intros k Hk.
    rewrite foldl_delete. case_bool_decide; [by split; [intros []|]|].
    rewrite (refines_lookup s q k Hr). done.
  - rewrite Hf. by apply NoDup_filter.
  - apply map_eq. intros k. rewrite foldl_delete, He.
    assert (NoDup (filter (λ kv : uint256 * MempoolEntry, kv.1 ∉ hashes) q).*1) as Hnd'
      by (rewrite Hf; by apply NoDup_filter).
    apply option_eq. intros e. rewrite <-(elem_of_list_to_map _ _ _ Hnd'), list_elem_of_filter.
    cbn [fst]. case_bool_decide; [naive_solver|].
    rewrite <-elem_of_list_to_map by done. naive_solver.
Qed.

End Queue.

(** ** Sequences of calls *)

Inductive pool_op :=
  | OpAccept (tx : Transaction) (fee now : Z)
  | OpRemove (hashes : list uint256).

Section Runs.
  Context `{OpenSSL_SHA}.

Definition pool_step (s : Mempool) (o : pool_op) : bool * Mempool :=
  match o with
  | OpAccept tx fee now => Accept tx fee now s
  | OpRemove hashes => (true, Remove hashes s)
  end.

Definition queue_step (p : FeePolicy) (q : queue) (o : pool_op) : bool * queue :=
  match o with
  | OpAccept tx fee now => queue_accept p tx fee now q
  | OpRemove hashes => (true, queue_remove hashes q)
  end.

(** The answers of the calls and the final state. *)
Fixpoint run {S} (step : S → pool_op → bool * S) (s : S) (ops : list pool_op) : list bool * S :=
  match ops with
  | [] => ([], s)
  | o :: ops => let '(b, s) := step s o in let '(bs, s) := run step s ops in (b :: bs, s)
  end.

Lemma pool_step_policy s o : m_policy (pool_step s o).2 = m_policy s.
Proof.
  destruct o as [tx fee now|hs]; cbn; [|done]. unfold Accept.
  destruct (bool_decide (is_Some _)); [done|]. destruct (negb _); [done|]. cbn.
  case_bool_decide; [|done]. unfold EvictOldest. by destruct (evict_loop _ _).
Qed.

Lemma refines_step s q o : refines s q →
  (pool_step s o).1 = (queue_step (m_policy s) q o).1 ∧
  refines (pool_step s o).2 (queue_step (m_policy s) q o).2.
Proof.
  intros Hr. destruct o as [tx fee now|hs]; cbn; [by apply refines_Accept|].
  split; [done|by apply refines_Remove].
Qed.

Lemma refines_run s q ops : refines s q →
  (run pool_step s ops).1 = (run (queue_step (m_policy s)) q ops).1 ∧
  refines (run pool_step s ops).2 (run (queue_step (m_policy s)) q ops).2.
Proof.
  revert s q. induction ops as [|o ops IH]; intros s q Hr; [done|]. cbn [run].
  destruct (refines_step s q o Hr) as [Eb Hr']. pose proof (pool_step_policy s o) as Ep.
  destruct (pool_step s o) as [b s'], (queue_step _ q o) as [b' q']. cbn in *. subst b'.
  destruct (IH s' q' Hr') as [Ebs Hr'']. rewrite Ep in Ebs, Hr''.
  destruct (run _ s' ops), (run _ q' ops). cbn in *. by subst.
Qed.

(** What the queue holds: at most [max 1 maxEntries] entries, each under the hash of
    its transaction. *)
Definition queue_ok (p : FeePolicy) (q : queue) : Prop :=
  zlen q ≤ Z.max 1 (m_maxEntries p) ∧ Forall (λ kv, kv.1 = TransactionHash (entry_tx kv.2)) q.

Lemma queue_step_ok p q o : queue_ok p q → queue_ok p (queue_step p q o).2.
Proof.
  intros [Hl Hk]. destruct o as [tx fee now|hs]; cbn.
  - unfold queue_accept. destruct (_ || _); [by split|]. cbn. split.
    + rewrite length_app. cbn [length]. case_bool_decide; [|lia].
      destruct q; cbn [tail length] in *; lia.
    + apply Forall_app. split; [|by rewrite Forall_singleton].
      case_bool_decide; [|done]. destruct q; [done|]. by apply Forall_cons in Hk as [_ ?].
  - unfold queue_remove. split; cycle 1.
    { rewrite Forall_forall in Hk |- *. intros kv [_ Hin]%list_elem_of_filter. by apply Hk. }
    pose proof (length_filter (λ kv, kv.1 ∉ hs) q). lia.
Qed.

Lemma queue_run_ok p q ops : queue_ok p q → queue_ok p (run (queue_step p) q ops).2.
Proof.
  revert q. induction ops as [|o ops IH]; intros q Hq; [done|]. cbn [run].
  pose proof (queue_step_ok p q o Hq) as Hq'. destruct (queue_step p q o) as [b q'].
  pose proof (IH q' Hq') as H'. by destruct (run _ q' ops).
Qed.

Lemma refines_snapshot `{!UnorderedMap uint256 MempoolEntry} s q : refines s q →
  Snapshot s ≡ₚ (λ kv, entry_tx kv.2) <$> q.
Proof.
  intros [_ Hnd He]. unfold Snapshot. apply fmap_Permutation.
  by rewrite iter_perm, He, map_to_list_to_map.
Qed.

End Runs.

(** ** Properties *)

(** C21. The mempool is a bounded FIFO queue: after any sequence of [Accept] and
    [Remove] calls on a new pool, every call answered as the queue's, [Exists] and
    [Snapshot] agree with the queue, and the deque is the queue's keys in order of
    arrival. *)
Theorem Mempool_refines_queue `{OpenSSL_SHA} `{!UnorderedMap uint256 MempoolEntry} p ops :
  let '(answers, s) := run pool_step (Mempool_new p) ops in
  let '(answers', q) := run (queue_step p) [] ops in
  answers = answers' ∧ m_order s = q.*1 ∧
  (∀ hash, Exists_ hash s = bool_decide (hash ∈ q.*1)) ∧
  Snapshot s ≡ₚ (λ kv, entry_tx kv.2) <$> q.
Proof.
  pose proof (refines_run (Mempool_new p) [] ops (refines_new p)) as [Ea Hr].
  cbn [Mempool_new m_policy] in *.
  destruct (run pool_step _ ops) as [a s], (run _ [] ops) as [a' q]. cbn in *.
  split_and!; [done|apply Hr| |by apply refines_snapshot].
  intros h. unfold Exists_. apply bool_decide_ext. by apply refines_lookup.
Qed.

(** C22. The pool is bounded and well keyed: whatever the calls, it holds at most
    [maxEntries] entries (one, if that is 0), its deque lists exactly the hashes
    that have an entry, each once, and every entry is under the hash of its
    transaction. *)
Theorem Mempool_bounded `{OpenSSL_SHA} p ops :
  let s := (run pool_step (Mempool_new p) ops).2 in
  Z.of_nat (size (m_entries s)) ≤ Z.max 1 (m_maxEntries p) ∧
  NoDup (m_order s) ∧
  (∀ h, h ∈ m_order s ↔ is_Some (m_entries s !! h)) ∧
  (∀ h e, m_entries s !! h = Some e → h = TransactionHash (entry_tx e)).
Proof.
  pose proof (refines_run (Mempool_new p) [] ops (refines_new p)) as [_ Hr].
  assert (queue_ok p []) as H0 by (split; [cbn; lia|constructor]).
  pose proof (queue_run_ok p [] ops H0) as [Hl Hk]. cbn [Mempool_new m_policy] in *.
  set (q := (run _ [] ops).2) in *. set (s := (run pool_step _ ops).2) in *. cbn zeta.
  split_and!.
  - by rewrite (refines_size s q).
  - rewrite (refines_order s q Hr). apply Hr.
  - intros h. rewrite (refines_order s q Hr). symmetry. by apply refines_lookup.
  - intros h e He. rewrite (refines_entries s q Hr) in He.
    apply elem_of_list_to_map_2 in He. rewrite Forall_forall in Hk. apply (Hk _ He).
Qed.

(** The fee floor: where the product fits 64 bits, a transaction is acceptable
    exactly if it is at most [maxTxBytes] long and pays the rate for every begun
    kilobyte. *)
Theorem IsFeeAcceptable_floor p tx fee :
  0 ≤ m_minFeeRate p → (m_maxTxBytes p + 999) `div` 1000 * m_minFeeRate p ≤ UINT64_MAX →
  IsFeeAcceptable p tx fee = true ↔
  zlen (Serialize tx) ≤ m_maxTxBytes p ∧
  ∃ kb, (kb - 1) * 1000 < zlen (Serialize tx) ≤ kb * 1000 ∧ kb * m_minFeeRate p ≤ fee.
Proof.
  intros Hr Hfit. unfold IsFeeAcceptable. set (n := zlen (Serialize tx)).
  assert (0 ≤ n) as Hn by (unfold n; lia). clearbody n.
  case_bool_decide as Hbig; [split; [done|lia]|].
  set (kb := (n + 999) `div` 1000).
  pose proof (Z.div_mod (n + 999) 1000 ltac:(lia)). pose proof (Z.mod_pos_bound (n + 999) 1000 ltac:(lia)).
  fold kb in H. assert (0 ≤ kb) by (apply Z.div_pos; lia).
  assert (kb ≤ (m_maxTxBytes p + 999) `div` 1000) by (apply Z.div_le_mono; lia).
  rewrite u64_id by (unfold UINT64_MAX in Hfit; nia). rewrite bool_decide_eq_true. split.
  - intros ?. split; [lia|]. exists kb. split_and!; lia.
  - intros (_ & kb' & ? & ?). by replace kb with kb' by lia.
Qed.

Lemma IsFeeAcceptable_floor_witness :
  IsFeeAcceptable FeePolicy_default example_tx 1000 = true ↔
  zlen (Serialize example_tx) ≤ 100000 ∧
  ∃ kb, (kb - 1) * 1000 < zlen (Serialize example_tx) ≤ kb * 1000 ∧ kb * 1000 ≤ 1000.
Proof. apply (IsFeeAcceptable_floor FeePolicy_default example_tx 1000); by_decide. Defined.
