(* ===== verification/Txindex.v ===== *)
(** * The transaction index: index/txindex.cpp

    A map from transaction hashes to heights, saved as 36-byte records and loaded
    until the end of the file or the first incomplete record. *)

From S2P Require Import Prelude Crypto Streams.

Abbreviation TxIndex := (gmap uint256 Z).

Definition TxIndex_Add (hash : uint256) (height : Z) (m_index : TxIndex) : TxIndex :=
  <[hash := height]> m_index.

(** The returned flag and [heightOut], which a miss leaves as it was. *)
Definition TxIndex_Lookup (hash : uint256) (heightOut : Z) (m_index : TxIndex) : bool * Z :=
  match m_index !! hash with
  | None => (false, heightOut)
  | Some h => (true, h)
  end.

(** The two writes of one record (41-43). *)
Definition WriteIndexRecord (kv : uint256 * Z) : list byte := kv.1 ++ le_bytes 4 kv.2.

(** [Save]: the new contents of the file. *)
Definition TxIndex_Save `{!UnorderedMap uint256 Z} (m_index : TxIndex) : list byte :=
  enc_all WriteIndexRecord (iter m_index).

(** [while (file.peek() != EOF)], at most [fuel] iterations; each consumes a byte, so
    the length of the file is enough. *)
Fixpoint load_loop (fuel : nat) (file : istream) (m_index : TxIndex) : TxIndex :=
  match fuel with
  | O => m_index
  | S fuel =>
      if is_empty (remaining file) then m_index else
      let '(hash, file) := istream_read (replicate 32 x00) file in
      if failed file then m_index else
      let '(h, file) := read_int 4 0 file in
      if failed file then m_index else
      load_loop fuel file (emplace m_index (hash, h))
  end.

Definition TxIndex_Load (file : option (list byte)) (m_index : TxIndex) : TxIndex :=
  match file with
  | None => m_index
  | Some data => load_loop (length data) (good data) ∅
  end.

Definition wf_record (kv : uint256 * Z) : Prop := is_hash kv.1 ∧ is_u32 kv.2.

#[global] Instance wf_record_dec kv : Decision (wf_record kv).
Proof. unfold wf_record. apply _. Defined.

Lemma record_length kv : wf_record kv → length (WriteIndexRecord kv) = 36%nat.
Proof. intros [Hh _]. unfold WriteIndexRecord. by rewrite length_app, length_le_bytes, Hh. Qed.

(** A stream that holds less than a record ends the loop with the map as it is. *)
Lemma load_loop_short fuel p m : (length p < 36)%nat → load_loop fuel (good p) m = m.
Proof.
  intros Hp. destruct fuel as [|fuel]; [done|]. cbn [load_loop remaining].
  destruct (is_empty p); [done|].
  destruct (istream_read _ _) as [h s1] eqn:E1. destruct (failed s1) eqn:F1; [done|].
  destruct (read_int _ _ _) as [n s2] eqn:E2. destruct (failed s2) eqn:F2; [done|]. exfalso.
  apply read_int_not_failed in E2 as (_ & _ & R2); [|done].
  apply read_not_failed in E1 as (_ & L1 & R1); [|done]. cbn [remaining] in R1.
  rewrite R1, R2, !length_app, length_le_bytes, L1, length_replicate in Hp. lia.
Qed.

Lemma load_loop_record fuel kv rest m : wf_record kv →
  load_loop (S fuel) (good (WriteIndexRecord kv ++ rest)) m
  = load_loop fuel (good rest) (emplace m kv).
Proof.
  destruct kv as [h n]. intros [Hh Hn]. cbn [fst snd] in *. cbn [load_loop remaining].
  rewrite is_empty_false; cycle 1.
  { intros E. apply (f_equal length) in E. rewrite length_app, record_length in E by done. done. }
  unfold WriteIndexRecord. cbn [fst snd]. rewrite <-(assoc_L (++)).
  rewrite read_good by (by rewrite length_replicate). cbn [failed].
  by rewrite read_int_good.
Qed.

(** A prefix of a saved file loads its complete records. *)
Lemma load_loop_prefix fuel l p post m :
  Forall wf_record l → enc_all WriteIndexRecord l = p ++ post → (length p ≤ fuel)%nat →
  load_loop fuel (good p) m = foldl emplace m (take (length p / 36) l).
Proof.
  revert fuel p m. induction l as [|kv l IH]; intros fuel p m Hwf E Hf.
  - destruct p; [|done]. rewrite load_loop_short by (cbn; lia). done.
  - apply Forall_cons in Hwf as [Hkv Hwf]. rewrite enc_all_cons in E.
    destruct (decide (length p < 36)%nat) as [Hs|Hs].
    { rewrite load_loop_short, Nat.div_small by done. done. }
    assert (∃ p', p = WriteIndexRecord kv ++ p') as [p' ->].
    { exists (drop 36 p). rewrite <-(take_drop 36 p) at 1. f_equal.
      apply (f_equal (take 36)) in E.
      rewrite take_app_length' in E by (by rewrite record_length).
      by rewrite E, take_app_le by lia. }
    rewrite <-(assoc_L (++)) in E. apply app_inv_head in E.
    rewrite length_app, record_length in * by done.
    destruct fuel as [|fuel]; [lia|]. rewrite load_loop_record by done.
    replace (36 + length p')%nat with (length p' + 1 * 36)%nat by lia.
    rewrite Nat.div_add, Nat.add_1_r by lia. cbn [take foldl]. apply IH; [done|done|lia].
Qed.

(** The transaction index survives a crash while it is saved: whatever the
    iteration order and the index before, loading a prefix of a saved file gives
    exactly the complete records of the prefix - a part of the saved index, and all
    of it when the file is whole. *)
Theorem TxIndex_Load_prefix `{!UnorderedMap uint256 Z} m m0 p post :
  Forall wf_record (map_to_list m) → TxIndex_Save m = p ++ post →
  TxIndex_Load (Some p) m0 = list_to_map (take (length p / 36) (iter m)) ∧
  TxIndex_Load (Some p) m0 ⊆ m ∧ (post = [] → TxIndex_Load (Some p) m0 = m).
Proof.
  intros Hwf E. rewrite <-(iter_perm m) in Hwf. cbn [TxIndex_Load].
  rewrite (load_loop_prefix _ (iter m) p post) by done.
  pose proof (iter_NoDup m) as Hnd. set (n := (length p / 36)%nat).
  assert (NoDup (take n (iter m)).*1) as Hnt.
  { rewrite fmap_take. rewrite <-(take_drop n (iter m).*1) in Hnd. by apply NoDup_app in Hnd as [? _]. }
  rewrite foldl_emplace, map_union_empty by (done || (intros; apply lookup_empty)).
  split_and!; [done| |].
  - apply map_subseteq_spec. intros k v Hk. apply elem_of_list_to_map in Hk; [|done].
    apply iter_elem. rewrite <-(take_drop n (iter m)). apply elem_of_app. by left.
  - intros ->. rewrite take_ge; [apply list_to_map_iter|].
    rewrite app_nil_r in E. unfold n. rewrite <-E. clear -Hwf. unfold TxIndex_Save.
    assert (length (enc_all WriteIndexRecord (iter m)) = length (iter m) * 36)%nat as ->.
    { induction Hwf as [|kv l Hkv _ IH]; [done|].
      rewrite enc_all_cons, length_app, record_length, IH by done. cbn. lia. }
    rewrite Nat.div_mul; lia.
Qed.

Lemma TxIndex_Load_prefix_witness :
  let m := ({[ replicate 32 x01 := 7; replicate 32 x02 := 9 ]} : TxIndex) in
  let p := take 50 (@TxIndex_Save (canonical_order uint256 Z) m) in
  TxIndex_Load (Some p) ∅
    = list_to_map (take (length p / 36) (@iter _ _ _ _ (canonical_order uint256 Z) m)) ∧
  TxIndex_Load (Some p) ∅ ⊆ m ∧ (drop 50 (@TxIndex_Save (canonical_order uint256 Z) m) = [] →
    TxIndex_Load (Some p) ∅ = m).
Proof.
  intros m p. apply (@TxIndex_Load_prefix (canonical_order uint256 Z)).
  - by_decide.
  - symmetry. apply take_drop.
Defined.
