(* ===== verification/Crosschain.v ===== *)
(** * Cross-chain messages, proofs and the bridge

    messages/crosschain_msg.cpp, validation/proof_validator.cpp,
    bridge/bridge_manager.cpp and relayer/relayer.cpp.  A [std::string] is its bytes;
    the relayer holds a reference to the bridge, so its calls are the bridge's. *)

From S2P Require Import Prelude Crypto Sha256Ref Codec Streams.

(** ** Messages *)

Record CrossChainMessage := mkMessage {
  cc_version : Z;
  cc_source : list byte;
  cc_destination : list byte;
  cc_payload : list byte;
}.

(** [writeStr]; the payload is written the same way (28-30). *)
Definition writeStr (out s : list byte) : list byte :=
  let len := u32 (zlen s) in
  (out ++ le_bytes 4 len) ++ s.

Definition Serialize (m : CrossChainMessage) : list byte :=
  let out := [] in
  let out := out ++ le_bytes 4 (cc_version m) in
  let out := writeStr out (cc_source m) in
  let out := writeStr out (cc_destination m) in
  writeStr out (cc_payload m).

Definition wf_message (m : CrossChainMessage) : Prop :=
  is_u32 (cc_version m) ∧ is_u32 (zlen (cc_source m)) ∧
  is_u32 (zlen (cc_destination m)) ∧ is_u32 (zlen (cc_payload m)).

#[global] Instance wf_message_dec m : Decision (wf_message m).
Proof. unfold wf_message. apply _. Defined.

(** A length-prefixed string is a record of a stream. *)
Definition read_str (s : istream) : list byte * istream :=
  let '(n, s) := read_int 4 0 s in istream_read (replicate (Z.to_nat n) x00) s.

Lemma read_str_good bs r : is_u32 (zlen bs) → read_str (good (writeStr [] bs ++ r)) = (bs, good r).
Proof.
  intros Hb. unfold read_str, writeStr. rewrite u32_id, <-!(assoc_L (++)) by done. cbn [app].
  rewrite read_int_good by done. by rewrite read_good by (rewrite length_replicate; lia).
Qed.

Lemma writeStr_inj a b r r' : is_u32 (zlen a) → is_u32 (zlen b) →
  writeStr [] a ++ r = writeStr [] b ++ r' → a = b ∧ r = r'.
Proof.
  intros Ha Hb E. pose proof (read_str_good a r Ha) as Ea.
  rewrite E, read_str_good in Ea by done. by simplify_eq.
Qed.

Lemma message_Serialize_eq m :
  Serialize m = le_bytes 4 (cc_version m) ++ writeStr [] (cc_source m) ++
    writeStr [] (cc_destination m) ++ writeStr [] (cc_payload m).
Proof. unfold Serialize, writeStr. by rewrite <-!(assoc_L (++)). Qed.

Lemma Serialize_message_inj a b : wf_message a → wf_message b → Serialize a = Serialize b → a = b.
Proof.
  intros (Va&Sa&Da&Pa) (Vb&Sb&Db&Pb) E. rewrite !message_Serialize_eq in E.
  apply app_inj_1 in E as [Ev E]; [|by rewrite !length_le_bytes].
  apply (f_equal le_val) in Ev. rewrite !le_val_bytes, !Z.mod_small in Ev by done.
  apply writeStr_inj in E as [Es E]; [|done..]. apply writeStr_inj in E as [Ed E]; [|done..].
  rewrite <-(app_nil_r (writeStr [] (cc_payload a))), <-(app_nil_r (writeStr [] (cc_payload b))) in E.
  apply writeStr_inj in E as [Ep _]; [|done..].
  destruct a, b; simpl in *. by subst.
Qed.

(** ** Header proofs *)

Record HeaderProof := mkProof { proof_header : list byte; proof_height : Z }.

Section Bridge.
  Context `{OpenSSL_SHA}.

Definition Hash (m : CrossChainMessage) : uint256 := sha256 (Serialize m).

(** The loop of [ValidateChain]: [first] is [i == 0]; [None] is [return false]. *)
Fixpoint chain_loop (first : bool) (prev : uint256) (proofs : list HeaderProof) :
    option uint256 :=
  match proofs with
  | [] => Some prev
  | p :: proofs =>
      let hash := sha256 (proof_header p) in
      let hash := sha256 hash in
      if negb first && negb (bool_decide (hash = prev)) then None
      else chain_loop false hash proofs
  end.

Definition ValidateChain (proofs : list HeaderProof) (expectedTip : uint256) : bool :=
  if is_empty proofs then false else
  match chain_loop true uint256_zero proofs with
  | None => false
  | Some prev => bool_decide (prev = expectedTip)
  end.

(** ** The bridge *)

Record BridgeManager := mkBridge {
  m_chainTips : gmap (list byte) uint256;
  m_messages : gmap (list byte) (list CrossChainMessage);
}.

Definition RegisterChain (name : list byte) (genesis : uint256) (s : BridgeManager) :
    BridgeManager :=
  mkBridge (<[name := genesis]> (m_chainTips s)) (m_messages s).

Definition VerifyAndStore (name : list byte) (proofs : list HeaderProof) (s : BridgeManager) :
    bool * BridgeManager :=
  match m_chainTips s !! name with
  | None => (false, s)
  | Some tip =>
      if negb (ValidateChain proofs tip) then (false, s) else
      let newTip := uint256_zero in
      let newTip :=
        match last proofs with
        | Some back => sha256 (sha256 (proof_header back))
        | None => newTip
        end in
      (true, mkBridge (<[name := newTip]> (m_chainTips s)) (m_messages s))
  end.

Definition RelayMessage (destChain : list byte) (msg : CrossChainMessage) (s : BridgeManager) :
    BridgeManager :=
  mkBridge (m_chainTips s)
    (<[destChain := default [] (m_messages s !! destChain) ++ [msg]]> (m_messages s)).

Definition PendingFor (chain : list byte) (s : BridgeManager) : list CrossChainMessage :=
  match m_messages s !! chain with None => [] | Some msgs => msgs end.

(** The relayer. *)
Definition SubmitProof (chain : list byte) (proofs : list HeaderProof) (s : BridgeManager) :
    bool * BridgeManager := VerifyAndStore chain proofs s.
Definition Forward (chain : list byte) (msg : CrossChainMessage) (s : BridgeManager) :
    BridgeManager := RelayMessage chain msg s.

(** ** What the validator accepts *)

Abbreviation header_hash p := (sha256 (sha256 (proof_header p))).

Lemma chain_loop_spec prev proofs r :
  chain_loop false prev proofs = Some r ↔ r = prev ∧ Forall (λ p, header_hash p = prev) proofs.
Proof.
  induction proofs as [|p proofs IH]; cbn [chain_loop negb andb].
  { split; [intros [= <-]; by split|by intros [-> _]]. }
  rewrite Forall_cons. destruct (decide (header_hash p = prev)) as [E|E].
  - rewrite E, bool_decide_true by done. cbn [negb]. rewrite IH. naive_solver.
  - rewrite bool_decide_false by done. cbn [negb]. naive_solver.
Qed.

Lemma ValidateChain_spec proofs tip :
  ValidateChain proofs tip = true ↔ proofs ≠ [] ∧ Forall (λ p, header_hash p = tip) proofs.
Proof.
  unfold ValidateChain. destruct proofs as [|p proofs]; [naive_solver|].
  cbn [is_empty chain_loop negb andb]. rewrite Forall_cons.
  destruct (chain_loop false _ proofs) as [r|] eqn:E.
  - apply chain_loop_spec in E as [-> E]. rewrite bool_decide_eq_true.
    split; [intros <-; by split_and!|by intros (_ & ? & _)].
  - split; [done|]. intros (_ & <- & Hall).
    by rewrite (proj2 (chain_loop_spec _ _ _) (conj eq_refl Hall)) in E.
Qed.

(** The state after a call is the state before it. *)
Lemma VerifyAndStore_state name proofs s : (VerifyAndStore name proofs s).2 = s.
Proof.
  unfold VerifyAndStore. destruct (m_chainTips s !! name) as [tip|] eqn:Et; [|done].
  destruct (ValidateChain proofs tip) eqn:Ev; cbn [negb]; [|done].
  apply ValidateChain_spec in Ev as [Hne Hall]. cbn [snd].
  destruct (last proofs) as [p|] eqn:El.
  - rewrite Forall_forall in Hall. rewrite (Hall p) by by apply last_Some_elem_of.
    rewrite insert_id by done. by destruct s.
  - by apply last_None in El.
Qed.

(** ** Sequences of calls *)

Inductive bridge_op :=
  | OpRegister (name : list byte) (genesis : uint256)
  | OpVerify (name : list byte) (proofs : list HeaderProof)
  | OpRelay (destChain : list byte) (msg : CrossChainMessage).

Definition bridge_step (s : BridgeManager) (o : bridge_op) : BridgeManager :=
  match o with
  | OpRegister name genesis => RegisterChain name genesis s
  | OpVerify name proofs => (SubmitProof name proofs s).2
  | OpRelay dest msg => Forward dest msg s
  end.

Definition bridge_run (ops : list bridge_op) : BridgeManager :=
  foldl bridge_step (mkBridge ∅ ∅) ops.

(** The last genesis registered for a chain, the messages sent to one. *)
Definition registered (name : list byte) (ops : list bridge_op) : option uint256 :=
  last (omap (λ o, match o with
    | OpRegister n g => if bool_decide (n = name) then Some g else None | _ => None end) ops).
Definition sent (name : list byte) (ops : list bridge_op) : list CrossChainMessage :=
  omap (λ o, match o with
    | OpRelay n m => if bool_decide (n = name) then Some m else None | _ => None end) ops.

Lemma bridge_run_snoc ops o : bridge_run (ops ++ [o]) = bridge_step (bridge_run ops) o.
Proof. unfold bridge_run. by rewrite foldl_app. Qed.

Lemma bridge_run_tips ops name : m_chainTips (bridge_run ops) !! name = registered name ops.
Proof.
  induction ops as [|o ops IH] using rev_ind; [done|].
  rewrite bridge_run_snoc. unfold registered. rewrite omap_app.
  destruct o as [n g|n ps|n m]; cbn [bridge_step].
  - cbn [RegisterChain m_chainTips]. cbn. destruct (decide (n = name)) as [->|Hne].
    + rewrite lookup_insert_eq, bool_decide_true by done. by rewrite last_snoc.
    + rewrite lookup_insert_ne, bool_decide_false by done. by rewrite app_nil_r.
  - unfold SubmitProof. rewrite VerifyAndStore_state. cbn. by rewrite app_nil_r.
  - cbn. by rewrite app_nil_r.
Qed.

Lemma bridge_run_messages ops name : PendingFor name (bridge_run ops) = sent name ops.
Proof.
  induction ops as [|o ops IH] using rev_ind; [done|].
  rewrite bridge_run_snoc. unfold sent. rewrite omap_app. fold (sent name ops). rewrite <-IH.
  destruct o as [n g|n ps|n m]; cbn [bridge_step].
  - cbn. by rewrite app_nil_r.
  - unfold SubmitProof. rewrite VerifyAndStore_state. cbn. by rewrite app_nil_r.
  - unfold Forward, PendingFor. cbn [RelayMessage m_messages]. cbn.
    destruct (decide (n = name)) as [->|Hne].
    + rewrite lookup_insert_eq, bool_decide_true by done.
      by destruct (m_messages (bridge_run ops) !! name).
    + rewrite lookup_insert_ne, bool_decide_false by done. by rewrite app_nil_r.
Qed.

End Bridge.

(** ** Properties *)

(** C35. The bridge's header check links nothing: [VerifyAndStore] answers [true]
    exactly if the chain is registered, there is a proof, and every header hashes to
    the stored tip itself - it compares the hashes of neighbouring headers instead of
    a header's link with the hash before it - and so the call never changes the
    bridge: a tip stays the genesis registered last. *)
Theorem VerifyAndStore_never_advances `{OpenSSL_SHA} name proofs s :
  ((VerifyAndStore name proofs s).1 = true ↔
   ∃ tip, m_chainTips s !! name = Some tip ∧ proofs ≠ [] ∧
     Forall (λ p, sha256 (sha256 (proof_header p)) = tip) proofs) ∧
  (VerifyAndStore name proofs s).2 = s.
Proof.
  split; [|apply VerifyAndStore_state]. unfold VerifyAndStore.
  destruct (m_chainTips s !! name) as [tip|]; [|naive_solver].
  destruct (ValidateChain proofs tip) eqn:E; cbn [negb fst].
  - apply ValidateChain_spec in E. split; [intros _; by exists tip|done].
  - split; [done|]. intros (? & [= <-] & Hv). apply ValidateChain_spec in Hv. congruence.
Qed.

(** C34. Messages are queued unverified: over any sequence of calls, made directly or
    through the relayer, the messages pending for a chain are all those relayed to it,
    however many, each once and in order, whatever proofs were accepted or rejected in
    between; so also for a chain that was never registered, for which the bridge rejects
    every proof.  The documents promise a bounded queue of verified messages. *)
Theorem bridge_queues_unverified `{OpenSSL_SHA} ops name :
  PendingFor name (bridge_run ops) = sent name ops ∧
  (registered name ops = None →
   ∀ proofs, SubmitProof name proofs (bridge_run ops) = (false, bridge_run ops)).
Proof.
  split; [apply bridge_run_messages|]. rewrite <-bridge_run_tips. intros Hn proofs.
  unfold SubmitProof, VerifyAndStore. by rewrite Hn.
Qed.

(** A message for a chain nobody registered, after a rejected proof, is pending. *)
Lemma bridge_queues_unverified_witness :
  let ops := [OpVerify [x61] []; OpRelay [x61] (mkMessage 1 [] [x61] [x07]);
              OpRegister [x62] uint256_zero] in
  PendingFor [x61] (@bridge_run Sha256Ref.const_sha ops) = [mkMessage 1 [] [x61] [x07]] ∧
  (registered [x61] ops = None → ∀ proofs,
    @SubmitProof Sha256Ref.const_sha [x61] proofs (@bridge_run Sha256Ref.const_sha ops)
    = (false, @bridge_run Sha256Ref.const_sha ops)).
Proof.
  intros ops. apply (bridge_queues_unverified (H := Sha256Ref.const_sha) ops [x61]).
Defined.

(** C36. A message hash commits to the message: two well-formed messages with one
    [Hash] are equal, or their two encodings, which are what is hashed, are a SHA-256
    collision. *)
Theorem Hash_binding `{OpenSSL_SHA} a b :
  wf_message a → wf_message b → Hash a = Hash b →
  a = b ∨ collision_in [Serialize a; Serialize b].
Proof.
  intros Ha Hb E. destruct (decide (Serialize a = Serialize b)) as [Es|Hne].
  - left. by apply Serialize_message_inj.
  - right. exists (Serialize a), (Serialize b). split_and!; [set_solver..|done|done].
Qed.

Lemma Hash_binding_witness :
  mkMessage 1 [x61] [x62] [x01; x02] = mkMessage 1 [x61; x62] [] [x01; x02]
  ∨ @collision_in Sha256Ref.const_sha
      [Serialize (mkMessage 1 [x61] [x62] [x01; x02]); Serialize (mkMessage 1 [x61; x62] [] [x01; x02])].
Proof. apply (Hash_binding (H := Sha256Ref.const_sha)); by_decide || reflexivity. Defined.
