(* ===== verification/P2p.v ===== *)
(** * The peer-to-peer node: net/p2p.cpp

    One worker thread runs [Process]; client threads call the methods, each of which
    holds the mutex for its whole body; one control thread calls [Start] and [Stop].
    [step] interleaves them: a client call is one step, taken while the worker does
    not hold the mutex; the worker moves between the points of [Process] at which
    another thread can act; [Stop] has three steps, the flag, the locked section and
    the join.  Callbacks are assumed to return and not to call [Start] or [Stop]. *)

From S2P Require Import Prelude Streams.

Record Message := mkMsg { command : string; payload : list byte }.
Record PeerInfo := mkPeer { peer_id : string; address : string }.

Section Node.
  Context {Handler : Type} `{!UnorderedMap string PeerInfo}.

Abbreviation item := (PeerInfo * Message)%type.

(** Where the worker is in [Process]: not started, before the first lock, at the
    loop test, past it (both with the mutex), in [m_cv.wait], notified, with a
    popped item and the callback found for it, before the second lock, returned. *)
Inductive worker_pc :=
  | W_none | W_start | W_top | W_body | W_wait | W_woken
  | W_call (hit : option Handler) (i : item) | W_relock | W_done.

(** Where the control thread is: outside, after the flag of [Stop], at the join. *)
Inductive control_pc := C_idle | C_stopping | C_joining.

(** The last two fields are history: items ever queued, callbacks made. *)
Record P2PNode := mkNode {
  m_peers : gmap string PeerInfo;
  m_handlers : gmap string Handler;
  m_queue : list item;
  m_running : bool;
  worker : worker_pc;
  control : control_pc;
  pushed : list item;
  calls : list (option Handler * item);
}.

Definition P2PNode_new : P2PNode := mkNode ∅ ∅ [] false W_none C_idle [] [].

(** [m_cv.notify_all()] *)
Definition notify_all (w : worker_pc) : worker_pc :=
  match w with W_wait => W_woken | _ => w end.

(** The worker holds the mutex. *)
Definition locked (w : worker_pc) : bool :=
  match w with W_top | W_body => true | _ => false end.

(** ** Client calls *)

Definition RegisterHandler (cmd : string) (h : Handler) (s : P2PNode) : P2PNode :=
  mkNode (m_peers s) (<[cmd := h]> (m_handlers s)) (m_queue s) (m_running s) (worker s)
    (control s) (pushed s) (calls s).

Definition AddPeer (peer : PeerInfo) (s : P2PNode) : P2PNode :=
  mkNode (<[peer_id peer := peer]> (m_peers s)) (m_handlers s) (m_queue s) (m_running s)
    (worker s) (control s) (pushed s) (calls s).

Definition HasPeer (id : string) (s : P2PNode) : bool := bool_decide (is_Some (m_peers s !! id)).

(** [m_queue.push] of several items, then [notify_all]. *)
Definition push_notify (items : list item) (s : P2PNode) : P2PNode :=
  mkNode (m_peers s) (m_handlers s) (m_queue s ++ items) (m_running s)
    (notify_all (worker s)) (control s) (pushed s ++ items) (calls s).

Definition Broadcast (msg : Message) (s : P2PNode) : P2PNode :=
  push_notify ((λ kv, (kv.2, msg)) <$> iter (m_peers s)) s.

Definition SendTo (peerId : string) (msg : Message) (s : P2PNode) : P2PNode :=
  match m_peers s !! peerId with
  | Some peer => push_notify [(peer, msg)] s
  | None => s
  end.

(** ** The worker *)

Definition set_worker (w : worker_pc) (s : P2PNode) : P2PNode :=
  mkNode (m_peers s) (m_handlers s) (m_queue s) (m_running s) w (control s) (pushed s) (calls s).

(** One step of [Process]; [None] where the worker cannot move. *)
Definition Process_step (s : P2PNode) : option P2PNode :=
  match worker s with
  | W_start => Some (set_worker W_top s)
  | W_top => Some (set_worker (if m_running s then W_body else W_done) s)
  | W_body =>
      match m_queue s with
      | [] => Some (set_worker W_wait s)
      | i :: queue =>
          let hit := m_handlers s !! command i.2 in
          Some (mkNode (m_peers s) (m_handlers s) queue (m_running s) (W_call hit i)
            (control s) (pushed s) (calls s))
      end
  | W_woken => Some (set_worker W_top s)
  | W_call hit i =>
      Some (mkNode (m_peers s) (m_handlers s) (m_queue s) (m_running s) W_relock
        (control s) (pushed s) (calls s ++ [(hit, i)]))
  | W_relock => Some (set_worker W_top s)
  | W_none | W_wait | W_done => None
  end.

(** ** Start and Stop *)

Definition Start (s : P2PNode) : P2PNode :=
  if m_running s then s else
  mkNode (m_peers s) (m_handlers s) (m_queue s) true W_start (control s) (pushed s) (calls s).

(** [if (!m_running.exchange(false)) return;] *)
Definition Stop_flag (s : P2PNode) : P2PNode :=
  if m_running s then
    mkNode (m_peers s) (m_handlers s) (m_queue s) false (worker s) C_stopping (pushed s) (calls s)
  else s.

(** The locked section: the queue emptied, the worker notified. *)
Definition Stop_clear (s : P2PNode) : P2PNode :=
  mkNode (m_peers s) (m_handlers s) [] (m_running s) (notify_all (worker s)) C_joining
    (pushed s) (calls s).

(** [m_worker.join()], once the worker has returned. *)
Definition Stop_join (s : P2PNode) : P2PNode :=
  mkNode (m_peers s) (m_handlers s) (m_queue s) (m_running s) W_none C_idle (pushed s) (calls s).

(** ** The interleavings *)

Inductive step (s : P2PNode) : P2PNode → Prop :=
  | step_register cmd h : locked (worker s) = false → step s (RegisterHandler cmd h s)
  | step_add peer : locked (worker s) = false → step s (AddPeer peer s)
  | step_broadcast msg : locked (worker s) = false → step s (Broadcast msg s)
  | step_send id msg : locked (worker s) = false → step s (SendTo id msg s)
  | step_process s' : Process_step s = Some s' → step s s'
  | step_spurious : worker s = W_wait → step s (set_worker W_woken s)
  | step_start : control s = C_idle → step s (Start s)
  | step_stop_flag : control s = C_idle → step s (Stop_flag s)
  | step_stop_clear : control s = C_stopping → locked (worker s) = false → step s (Stop_clear s)
  | step_stop_join : control s = C_joining → worker s = W_done → step s (Stop_join s).

Definition reachable (s : P2PNode) : Prop := rtc step P2PNode_new s.

(** ** The invariant *)

(** The item between the queue and its callback. *)
Definition in_flight (w : worker_pc) : list item :=
  match w with W_call _ i => [i] | _ => [] end.

Record node_inv (s : P2PNode) : Prop := {
  inv_order : ((calls s).*2 ++ in_flight (worker s) ++ m_queue s) `sublist_of` pushed s;
  inv_idle : control s = C_idle →
    (m_running s = true ∧ worker s ≠ W_none ∧ worker s ≠ W_done) ∨
    (m_running s = false ∧ worker s = W_none);
  inv_stop : control s ≠ C_idle → m_running s = false ∧ worker s ≠ W_none;
  inv_body : worker s = W_body → m_running s = true ∨ control s = C_stopping;
  inv_wait : worker s = W_wait → m_queue s = [] ∧ (m_running s = true ∨ control s = C_stopping);
}.

Lemma node_inv_new : node_inv P2PNode_new.
Proof. split; cbn; try done. by right. Qed.

Lemma notify_all_not_wait w : notify_all w ≠ W_wait.
Proof. by destruct w. Qed.
Lemma notify_all_none w : notify_all w = W_none ↔ w = W_none.
Proof. by destruct w. Qed.
Lemma notify_all_done w : notify_all w = W_done ↔ w = W_done.
Proof. by destruct w. Qed.
Lemma notify_all_body w : notify_all w = W_body ↔ w = W_body.
Proof. by destruct w. Qed.
Lemma notify_all_flight w : in_flight (notify_all w) = in_flight w.
Proof. by destruct w. Qed.

Lemma push_notify_inv items s : node_inv s → node_inv (push_notify items s).
Proof.
  intros [Ho Hi Hs Hb Hw].
  split; cbn; rewrite ?notify_all_none, ?notify_all_done, ?notify_all_body, ?notify_all_flight; try done.
  - rewrite !(assoc_L (++)) in *. by apply sublist_app.
  - by intros ?%notify_all_not_wait.
Qed.

Lemma Process_step_inv s s' : node_inv s → Process_step s = Some s' → node_inv s'.
Proof.
  intros [Ho Hi Hs Hb Hw]. unfold Process_step.
  destruct s as [ps hs q r w c pu ca]. cbn in *.
  destruct w; cbn in *; try done.
  - intros [= <-]. split; cbn; try done; naive_solver.
  - intros [= <-]. destruct r; split; cbn; try done; try naive_solver.
  - destruct q as [|i q]; intros [= <-]; split; cbn; try done; naive_solver.
  - intros [= <-]. split; cbn; try done; naive_solver.
  - intros [= <-]. split; cbn; [by rewrite fmap_app, <-(assoc_L (++))|try done; naive_solver..].
  - intros [= <-]. split; cbn; try done; naive_solver.
Qed.

Lemma step_inv s s' : node_inv s → step s s' → node_inv s'.
Proof.
  intros Hinv [cmd h Hl|peer Hl|msg Hl|id msg Hl|s'' Hp|Hw|Hc|Hc|Hc Hl|Hc Hw].
  - destruct Hinv. by split.
  - destruct Hinv. by split.
  - by apply push_notify_inv.
  - unfold SendTo. destruct (_ !! _); [by apply push_notify_inv|done].
  - by eapply Process_step_inv.
  - destruct Hinv as [Ho Hi Hs Hb Hq]. rewrite Hw in *. split; cbn; try done; naive_solver.
  - unfold Start. destruct (m_running s) eqn:Er; [done|].
    destruct Hinv as [Ho Hi Hs Hb Hq]. destruct (Hi Hc) as [[? _]|[_ Hn]]; [congruence|].
    rewrite Hn in *. split; cbn; try done; naive_solver.
  - unfold Stop_flag. destruct (m_running s) eqn:Er; [|done].
    destruct Hinv as [Ho Hi Hs Hb Hq]. destruct (Hi Hc) as [(_&?&?)|[? _]]; [|congruence].
    split; cbn; try done; naive_solver.
  - destruct Hinv as [Ho Hi Hs Hb Hq]. destruct (Hs ltac:(by rewrite Hc)) as [Hr Hn].
    split; cbn; rewrite ?notify_all_none, ?notify_all_body, ?notify_all_flight; try done.
    + rewrite app_nil_r. etrans; [|exact Ho].
      rewrite (assoc_L (++)). by apply sublist_inserts_r.
    + intros Eb. rewrite Eb in Hl. done.
    + by intros ?%notify_all_not_wait.
  - destruct Hinv as [Ho Hi Hs Hb Hq]. destruct (Hs ltac:(by rewrite Hc)) as [Hr Hn].
    rewrite Hw in *. split; cbn; try done. by right.
Qed.

Lemma reachable_inv s : reachable s → node_inv s.
Proof.
  intros Hr. unfold reachable in Hr. pose proof node_inv_new as H0. revert H0.
  induction Hr as [s|s1 s2 s3 Hs _ IH]; [done|]. intros H0. apply IH. by eapply step_inv.
Qed.

(** ** Stopping *)

(** Steps the worker still takes once the flag is down and it was notified. *)
Definition worker_left (w : worker_pc) : nat :=
  match w with
  | W_none | W_done => 0
  | W_top => 1
  | W_start | W_woken | W_relock => 2
  | W_call _ _ => 3
  | W_body => 4
  | W_wait => 3
  end.

Lemma joining_progress s : node_inv s → control s = C_joining → worker s ≠ W_done →
  ∃ s', Process_step s = Some s' ∧ (worker_left (worker s') < worker_left (worker s))%nat ∧
    control s' = C_joining.
Proof.
  intros [Ho Hi Hs Hb Hw] Hc Hd. destruct (Hs ltac:(by rewrite Hc)) as [Hr Hn].
  unfold Process_step. destruct s as [ps hs q r w c pu ca]. cbn in *. subst c r.
  destruct w; try done; try (eexists; split; [reflexivity|]; cbn; split; [lia|done]).
  - destruct (Hb eq_refl) as [?|?]; done.
  - destruct (Hw eq_refl) as [_ [?|?]]; done.
Qed.

(** No step of another thread adds to what the worker has left. *)
Lemma joining_other s s' : node_inv s → control s = C_joining → step s s' →
  (worker_left (worker s') ≤ worker_left (worker s))%nat ∧
  (control s' = C_joining ∨ (control s' = C_idle ∧ worker s' = W_none)).
Proof.
  intros Hinv Hc.
  assert (∀ items, (worker_left (notify_all (worker s)) ≤ worker_left (worker s))%nat ∧
    control (push_notify items s) = C_joining) as Hpush.
  { intros items. split; [destruct (worker s); cbn; lia|done]. }
  intros [cmd h Hl|peer Hl|msg Hl|id msg Hl|s'' Hp|Hw|Hc'|Hc'|Hc' Hl|_ Hw]; try congruence.
  - cbn. by split; [|left].
  - cbn. by split; [|left].
  - unfold Broadcast. destruct (Hpush ((λ kv, (kv.2, msg)) <$> iter (m_peers s))). cbn in *.
    split; [done|by left].
  - unfold SendTo. destruct (_ !! _) as [p|]; [|by split; [|left]].
    destruct (Hpush [(p, msg)]). cbn in *. split; [done|by left].
  - destruct (decide (worker_left (worker s) = 0%nat)) as [E|E].
    + unfold Process_step in Hp. by destruct (worker s).
    + destruct (joining_progress s Hinv Hc) as (s1 & E1 & Hlt & Hc1).
      { intros E'. by rewrite E' in E. }
      rewrite Hp in E1. simplify_eq. split; [lia|by left].
  - rewrite Hw. cbn. split; [lia|by left].
  - cbn. split; [lia|by right].
Qed.

(** The worker's steps alone end it. *)
Lemma joining_ends n s : node_inv s → control s = C_joining →
  (worker_left (worker s) ≤ n)%nat →
  ∃ s', rtc (λ a b, Process_step a = Some b) s s' ∧ worker s' = W_done ∧ control s' = C_joining.
Proof.
  revert s. induction n as [|n IH]; intros s Hinv Hc Hn.
  - destruct (inv_stop _ Hinv ltac:(by rewrite Hc)) as [_ Hne].
    exists s. split; [constructor|]. split; [|done].
    destruct (worker s); cbn in Hn; try done; lia.
  - destruct (decide (worker_left (worker s) = 0%nat)) as [E|E]; [apply IH; [done..|lia]|].
    destruct (joining_progress s Hinv Hc) as (s1 & E1 & Hlt & Hc1).
    { intros E'. by rewrite E' in E. }
    destruct (IH s1) as (s' & Hr & ? & ?);
      [by eapply Process_step_inv|done|lia|].
    exists s'. split; [by eapply rtc_l|done].
Qed.



End Node.

(** ** Properties *)


(** C26. No lost wake-up: whatever the interleaving, a worker blocked in [wait] has
    an empty queue and is either running or about to be notified by [Stop]; so a
    started node with a queued item can always take a step towards delivering it. *)
Theorem P2PNode_no_lost_wakeup {Handler} `{!UnorderedMap string PeerInfo}
    (s : P2PNode (Handler := Handler)) :
  reachable s →
  (worker s = W_wait → m_queue s = [] ∧ (m_running s = true ∨ control s = C_stopping)) ∧
  (control s = C_idle → m_running s = true → m_queue s ≠ [] → is_Some (Process_step s)).
Proof.
  intros Hinv%reachable_inv. split; [apply (inv_wait _ Hinv)|].
  intros Hc Hr Hq. destruct (inv_idle _ Hinv Hc) as [(_ & Hn & Hd)|[? _]]; [|congruence].
  pose proof (inv_wait _ Hinv) as Hw. unfold Process_step.
  destruct (worker s); try done; [by destruct (m_queue s)|]. by destruct (Hw eq_refl) as [? _].
Qed.

Lemma P2PNode_no_lost_wakeup_witness :
  let s := @SendTo unit "p" (mkMsg "tx" []) (AddPeer (mkPeer "p" "addr") (Start P2PNode_new)) in
  (worker s = W_wait → m_queue s = [] ∧ (m_running s = true ∨ control s = C_stopping)) ∧
  (control s = C_idle → m_running s = true → m_queue s ≠ [] → is_Some (Process_step s)).
Proof.
  apply (@P2PNode_no_lost_wakeup unit (canonical_order string PeerInfo)).
  eapply rtc_l; [by apply step_start|]. eapply rtc_l; [by apply step_add|].
  eapply rtc_l; [by apply step_send|]. apply rtc_refl.
Defined.

(** C27. [Stop] returns: once its locked section is over, the worker's own steps, at
    most four, end [Process], no step of another thread adds to them, and the join is
    then enabled. *)
Theorem P2PNode_stop_joins {Handler} `{!UnorderedMap string PeerInfo}
    (s : P2PNode (Handler := Handler)) :
  reachable s → control s = C_joining →
  (worker_left (worker s) ≤ 4)%nat ∧
  (worker s ≠ W_done → ∃ s', Process_step s = Some s' ∧
     (worker_left (worker s') < worker_left (worker s))%nat ∧ control s' = C_joining) ∧
  (∀ s', step s s' → (worker_left (worker s') ≤ worker_left (worker s))%nat) ∧
  ∃ s', rtc (λ a b, Process_step a = Some b) s s' ∧ step s' (Stop_join s').
Proof.
  intros Hinv%reachable_inv Hc. split_and!.
  - destruct (worker s); cbn; lia.
  - by apply joining_progress.
  - intros s' Hs. by apply joining_other.
  - destruct (joining_ends _ s Hinv Hc (le_n _)) as (s' & Hr & Hd & Hc').
    exists s'. split; [done|]. by apply step_stop_join.
Qed.

Lemma P2PNode_stop_joins_witness :
  let s := Stop_clear (Stop_flag (Start (P2PNode_new (Handler := unit)))) in
  (worker_left (worker s) ≤ 4)%nat ∧
  (worker s ≠ W_done → ∃ s', Process_step s = Some s' ∧
     (worker_left (worker s') < worker_left (worker s))%nat ∧ control s' = C_joining) ∧
  (∀ s', @step unit (canonical_order string PeerInfo) s s' →
     (worker_left (worker s') ≤ worker_left (worker s))%nat) ∧
  ∃ s', rtc (λ a b, Process_step a = Some b) s s' ∧
     @step unit (canonical_order string PeerInfo) s' (Stop_join s').
Proof.
  apply (@P2PNode_stop_joins unit (canonical_order string PeerInfo)); [|reflexivity].
  eapply rtc_l; [by apply step_start|]. eapply rtc_l; [by apply step_stop_flag|].
  eapply rtc_l; [by apply step_stop_clear|]. apply rtc_refl.
Defined.
