(* ===== verification/Keystore.v ===== *)
(** * The wallet key store: wallet/keystore/keystore.cpp

    Keys are saved as one encrypted string of 64-byte records.  PBKDF2 and
    AES-256-CBC are OpenSSL's, the class [OpenSSL_EVP]; the initialisation vector
    [RAND_bytes] returns is an argument.  OpenSSL takes lengths as [int], to which the
    code converts [size_t] values; the laws of the class hold for lengths an [int]
    holds.  Failures of the cipher calls whose return value the code drops (allocation,
    a negative length) are not modelled beyond the bytes those calls write. *)

From S2P Require Import Prelude Crypto Streams.

(** [PKCS5_PBKDF2_HMAC pass passlen]: the key [DeriveKey] asks for (no salt, 100,000
    rounds of SHA-256), [None] on failure.  AES-256-CBC with padding, by key and
    initialisation vector, on the [inl] bytes at [in_]: the bytes [Update] writes and
    those [Final_ex] then writes; decryption fails ([None]) when it rejects the
    padding. *)
Class OpenSSL_EVP := {
  PKCS5_PBKDF2_HMAC : list byte → Z → option (list byte);
  EVP_EncryptUpdate : list byte → list byte → list byte → Z → list byte;
  EVP_EncryptFinal_ex : list byte → list byte → list byte → Z → list byte;
  EVP_DecryptUpdate : list byte → list byte → list byte → Z → list byte;
  EVP_DecryptFinal_ex : list byte → list byte → list byte → Z → option (list byte);

  PBKDF2_succeeds pass :
    zlen pass < 2 ^ 31 → is_Some (PKCS5_PBKDF2_HMAC pass (zlen pass));
  EVP_encrypt_length key iv p :
    length iv = 16%nat → zlen p < 2 ^ 31 →
    zlen (EVP_EncryptUpdate key iv p (zlen p)) = 16 * (zlen p `div` 16) ∧
    zlen (EVP_EncryptFinal_ex key iv p (zlen p)) = 16;
  EVP_decrypt_length key iv c fin :
    length iv = 16%nat → zlen c < 2 ^ 31 →
    zlen (EVP_DecryptUpdate key iv c (zlen c)) ≤ zlen c ∧
    (EVP_DecryptFinal_ex key iv c (zlen c) = Some fin →
     zlen (EVP_DecryptUpdate key iv c (zlen c)) + zlen fin ≤ zlen c);
  EVP_decrypt_encrypt key iv p :
    length iv = 16%nat →
    let c := EVP_EncryptUpdate key iv p (zlen p) ++ EVP_EncryptFinal_ex key iv p (zlen p) in
    zlen c < 2 ^ 31 →
    ∃ fin, EVP_DecryptFinal_ex key iv c (zlen c) = Some fin ∧
      EVP_DecryptUpdate key iv c (zlen c) ++ fin = p;
}.

(** A model of the class: the identity cipher with a padding to whole blocks that ends
    with its length, and the padded passphrase as the key. *)
Definition toy_pad (n : Z) (bs : list byte) : list byte :=
  let whole := Z.to_nat (16 * (n `div` 16)) in
  let rest := Z.to_nat (n `mod` 16) in
  take rest (drop whole bs) ++ replicate (15 - rest) x00 ++ le_bytes 1 (16 - n `mod` 16).
Definition toy_unpad (bs : list byte) : option (list byte) :=
  let last_block := drop (length bs - 16) bs in
  let k := le_val (drop 15 last_block) in
  if decide (16 ≤ length bs)%nat then Some (take (Z.to_nat (16 - k)) last_block) else None.

#[program] Definition toy_EVP : OpenSSL_EVP := {|
  PKCS5_PBKDF2_HMAC pass passlen := Some (take 32 (pass ++ replicate 32 x00));
  EVP_EncryptUpdate key iv bs n := take (Z.to_nat (16 * (n `div` 16))) bs;
  EVP_EncryptFinal_ex key iv bs n := toy_pad n bs;
  EVP_DecryptUpdate key iv bs n := take (length bs - 16) bs;
  EVP_DecryptFinal_ex key iv bs n := toy_unpad bs;
|}.
Next Obligation. by intros; eexists. Qed.
Next Obligation.
  intros key iv p _ _. cbn beta.
  pose proof (Z.mul_div_le (zlen p) 16 ltac:(lia)).
  pose proof (Z.mod_pos_bound (zlen p) 16 ltac:(lia)).
  pose proof (Z.div_mod (zlen p) 16 ltac:(lia)).
  unfold toy_pad. cbv zeta. rewrite !length_app, !length_take, length_drop, length_replicate, length_le_bytes.
  split; lia.
Qed.
Next Obligation.
  intros key iv c fin _ _. cbn beta. rewrite length_take. split; [lia|].
  unfold toy_unpad. case_decide; [|done]. intros [= <-].
  rewrite length_take, length_drop. lia.
Qed.
Next Obligation.
  intros key iv p _ c _. unfold c, toy_unpad. clear c.
  pose proof (Z.mod_pos_bound (zlen p) 16 ltac:(lia)).
  pose proof (Z.div_mod (zlen p) 16 ltac:(lia)).
  set (w := Z.to_nat (16 * (zlen p `div` 16))). unfold toy_pad.
  set (r := Z.to_nat (zlen p `mod` 16)). fold w.
  assert (length (take w p) = w) as Lw by (rewrite length_take; lia).
  assert (length (take r (drop w p)) = r) as Lr by (rewrite length_take, length_drop; lia).
  rewrite !length_app, Lw, Lr, length_replicate, length_le_bytes.
  replace (w + (r + (15 - r + 1)) - 16)%nat with w by lia.
  rewrite decide_True by lia. rewrite take_app_length', drop_app_length' by done.
  rewrite (assoc_L (++) _ (replicate _ _)), drop_app_length'
    by (rewrite length_app, Lr, length_replicate; lia).
  rewrite le_val_bytes, Z.mod_small by lia. eexists. split; [reflexivity|].
  rewrite <-(assoc_L (++) (take r _)), take_app_length' by lia.
  rewrite (take_ge (drop w p)) by (rewrite length_drop; lia). apply take_drop.
Qed.

Abbreviation Keys := (gmap (list byte) (list byte)).

Section Keystore.
  Context `{OpenSSL_EVP}.

(** The derived key is an array without initialiser: after a failure of PBKDF2, whose
    return value is not looked at, it is read uninitialised. *)
Definition DeriveKey (pass : list byte) : result (list byte) :=
  match PKCS5_PBKDF2_HMAC pass (i32 (zlen pass)) with
  | None => Undef indeterminate_value
  | Some out => Ok out
  end.

(** [out] has room for 16 bytes more than [plaintext] after the initialisation vector;
    [len] and [total] are [int]s, and so is the length the cipher is given. *)
Definition Encrypt (iv key plaintext : list byte) : result (list byte) :=
  let inl := i32 (zlen plaintext) in
  let total := zlen iv in
  let update := EVP_EncryptUpdate key iv plaintext inl in
  total ← chk_i32 (total + zlen update);
  let final := EVP_EncryptFinal_ex key iv plaintext inl in
  total ← chk_i32 (total + zlen final);
  if bool_decide (zlen iv + zlen plaintext + 16 < total) then Undef out_of_bounds else
  Ok (take (Z.to_nat total) (iv ++ update ++ final)).

Definition Decrypt (key cipher : list byte) : result (list byte) :=
  throw_if (bool_decide (zlen cipher < 16)) (runtime_error "cipher too small");;
  let iv := take 16 cipher in
  let data := drop 16 cipher in
  let dataLen := zlen data in
  let inl := i32 dataLen in
  let update := EVP_DecryptUpdate key iv data inl in
  total ← chk_i32 (zlen update);
  match EVP_DecryptFinal_ex key iv data inl with
  | None => Throw (runtime_error "bad passphrase")
  | Some final =>
      total ← chk_i32 (total + zlen final);
      if bool_decide (dataLen + 16 < total) then Undef out_of_bounds else
      Ok (take (Z.to_nat total) (update ++ final))
  end.

Definition Import (id key : list byte) (m_keys : Keys) : Keys := <[id := key]> m_keys.

(** The returned flag and [out], which a miss leaves as it was. *)
Definition Get (id out : list byte) (m_keys : Keys) : bool * list byte :=
  match m_keys !! id with
  | None => (false, out)
  | Some key => (true, key)
  end.

(** The record of one key (99-100). *)
Definition key_record (kv : list byte * list byte) : list byte := kv.1 ++ kv.2.

(** [EncryptToFile]: the new contents of the file. *)
Definition EncryptToFile `{!UnorderedMap (list byte) (list byte)} (iv passphrase : list byte)
    (m_keys : Keys) : result (list byte) :=
  let plain := enc_all key_record (iter m_keys) in
  key ← DeriveKey passphrase;
  Encrypt iv key plain.

(** [while (offset + 64 <= plain.size())], at most [fuel] iterations, on the bytes
    from [offset] on; one iteration per 64 bytes. *)
Fixpoint read_keys (fuel : nat) (plain : list byte) (m_keys : Keys) : Keys :=
  match fuel with
  | O => m_keys
  | S fuel =>
      if bool_decide (64 ≤ zlen plain) then
        let id := take 32 plain in
        let pk := take 32 (drop 32 plain) in
        read_keys fuel (drop 64 plain) (emplace m_keys (id, pk))
      else m_keys
  end.

(** [LoadFromFile]: the keys after the call, also where it throws, and its outcome. *)
Definition LoadFromFile (passphrase : list byte) (file : option (list byte)) (m_keys : Keys) :
    Keys * result unit :=
  match file with
  | None => (m_keys, Throw (runtime_error "missing keystore"))
  | Some enc =>
      match key ← DeriveKey passphrase; Decrypt key enc with
      | Ok plain => (read_keys (length plain) plain ∅, Ok tt)
      | Throw e => (m_keys, Throw e)
      | Undef u => (m_keys, Undef u)
      end
  end.

(** ** Records *)

Definition wf_key (kv : list byte * list byte) : Prop := is_hash kv.1 ∧ is_hash kv.2.

Lemma read_keys_records fuel l rest m :
  Forall wf_key l → (length l ≤ fuel)%nat → (length rest < 64)%nat →
  read_keys fuel (enc_all key_record l ++ rest) m = foldl emplace m l.
Proof.
  intros Hwf. revert fuel m. induction Hwf as [|[id pk] l [Hi Hp] _ IH]; intros fuel m Hf Hr.
  - destruct fuel as [|fuel]; [done|]. cbn [read_keys]. change (enc_all key_record [] ++ rest) with rest.
    rewrite bool_decide_false; [done|lia].
  - destruct fuel as [|fuel]; [cbn in Hf; lia|]. cbn [read_keys foldl].
    rewrite enc_all_cons. unfold is_hash in *. cbn [fst snd] in *.
    change (key_record (id, pk)) with (id ++ pk). rewrite <-!(assoc_L (++)).
    rewrite bool_decide_true by (rewrite !length_app, Hi, Hp; lia).
    rewrite (take_app_length' id), (drop_app_length' id _ 32), (take_app_length' pk) by done.
    rewrite (assoc_L (++) id), drop_app_length' by (by rewrite length_app, Hi, Hp).
    apply IH; [cbn in Hf; lia|done].
Qed.

Lemma enc_all_length l :
  Forall wf_key l → length (enc_all key_record l) = (64 * length l)%nat.
Proof.
  induction 1 as [|[id pk] l [Hi Hp] _ IH]; [done|]. rewrite enc_all_cons, length_app.
  unfold key_record, is_hash in *. cbn [fst snd length] in *. rewrite length_app. lia.
Qed.

(** ** The cipher on lengths that fit *)

Lemma DeriveKey_Ok pass : zlen pass < 2 ^ 31 → ∃ key, DeriveKey pass = Ok key.
Proof.
  intros Hp. unfold DeriveKey. rewrite i32_id by lia.
  destruct (PBKDF2_succeeds pass Hp) as [key ->]. by exists key.
Qed.

(** The lengths passed and returned fit their [int]s if the file and a block do. *)
Lemma Decrypt_Encrypt iv key plain : length iv = 16%nat → zlen plain + 32 < 2 ^ 31 →
  ∃ cipher, Encrypt iv key plain = Ok cipher ∧ Decrypt key cipher = Ok plain.
Proof.
  intros Hiv Hp. pose proof (Z.div_mod (zlen plain) 16 ltac:(lia)).
  pose proof (Z.mod_pos_bound (zlen plain) 16 ltac:(lia)).
  destruct (EVP_encrypt_length key iv plain Hiv) as [Lu Lf]; [lia|].
  unfold Encrypt. rewrite i32_id, Lu, Lf by lia.
  assert (0 ≤ zlen plain `div` 16) by (apply Z.div_pos; lia).
  rewrite chk_i32_Ok by lia. cbn [mbind result_bind].
  rewrite chk_i32_Ok by lia. cbn [mbind result_bind].
  rewrite bool_decide_false by lia. eexists. split; [reflexivity|].
  rewrite take_ge by (rewrite !length_app; lia). unfold Decrypt.
  rewrite bool_decide_false by (rewrite length_app; lia). cbn [throw_if mbind result_bind].
  rewrite take_app_length', drop_app_length' by done.
  destruct (EVP_decrypt_encrypt key iv plain Hiv) as (fin & Ef & Ep); [rewrite length_app; lia|].
  set (c := _ ++ _) in *. assert (zlen c = 16 * (zlen plain `div` 16) + 16) as Lc
    by (unfold c; rewrite length_app; lia).
  rewrite i32_id, Ef by lia. pose proof (f_equal length Ep) as El. rewrite length_app in El.
  rewrite chk_i32_Ok by lia. cbn [mbind result_bind].
  rewrite chk_i32_Ok by lia. cbn [mbind result_bind].
  rewrite bool_decide_false by lia. by rewrite take_ge, Ep by (rewrite length_app; lia).
Qed.

Lemma Decrypt_cases key cipher : zlen cipher < 2 ^ 31 →
  Decrypt key cipher =
    if bool_decide (zlen cipher < 16) then Throw (runtime_error "cipher too small") else
    let iv := take 16 cipher in let data := drop 16 cipher in
    match EVP_DecryptFinal_ex key iv data (zlen data) with
    | None => Throw (runtime_error "bad passphrase")
    | Some fin => Ok (EVP_DecryptUpdate key iv data (zlen data) ++ fin)
    end.
Proof.
  intros Hc. unfold Decrypt. case_bool_decide; [done|]. cbn [throw_if mbind result_bind].
  assert (zlen (drop 16 cipher) = zlen cipher - 16) as Ld by (rewrite length_drop; lia).
  assert (length (take 16 cipher) = 16%nat) as Li by (rewrite length_take; lia).
  rewrite i32_id by lia. set (iv := take 16 cipher) in *. set (data := drop 16 cipher) in *.
  cbv zeta. pose proof (λ fin, EVP_decrypt_length key iv data fin Li ltac:(lia)) as Hl.
  destruct (Hl []) as [Lu _]. rewrite chk_i32_Ok by lia. cbn [mbind result_bind].
  destruct (EVP_DecryptFinal_ex _ _ _ _) as [fin|] eqn:E; [|done].
  destruct (Hl fin) as [_ Lf]. specialize (Lf eq_refl).
  rewrite chk_i32_Ok by lia. cbn [mbind result_bind].
  rewrite bool_decide_false by lia. by rewrite take_ge by (rewrite length_app; lia).
Qed.

End Keystore.

(** ** Properties *)

(** C33. The key store is lossless under its passphrase: whatever the iteration
    order, the initialisation vector and the keys held before, saving fewer than 2^25
    keys succeeds and loading the file with the passphrase it was written with restores
    exactly those keys.  The bound is where the lengths the code passes to the cipher
    and adds up stop fitting an [int]. *)
Theorem KeyStore_roundtrip `{OpenSSL_EVP} `{!UnorderedMap (list byte) (list byte)}
    (iv passphrase : list byte) (keys keys0 : Keys) :
  length iv = 16%nat → zlen passphrase < 2 ^ 31 →
  Forall wf_key (map_to_list keys) → Z.of_nat (size keys) < 2 ^ 25 →
  ∃ file, EncryptToFile iv passphrase keys = Ok file ∧
    LoadFromFile passphrase (Some file) keys0 = (keys, Ok tt).
Proof.
  intros Hiv Hpass Hwf Hn. rewrite <-(iter_perm keys) in Hwf.
  destruct (DeriveKey_Ok passphrase Hpass) as [key Ek].
  pose proof (enc_all_length _ Hwf) as Hlen. rewrite iter_length in Hlen.
  destruct (Decrypt_Encrypt iv key (enc_all key_record (iter keys)) Hiv) as (file & Ee & Ed); [lia|].
  exists file. unfold EncryptToFile, LoadFromFile. rewrite Ek. cbn [mbind result_bind].
  rewrite Ee, Ed. split; [done|]. rewrite <-(app_nil_r (enc_all _ _)) at 2.
  rewrite read_keys_records; [by rewrite foldl_emplace_iter|done|rewrite Hlen, iter_length; lia|cbn; lia].
Qed.

Lemma KeyStore_roundtrip_witness :
  let keys := ({[ replicate 32 x01 := replicate 32 x0a; replicate 32 x02 := replicate 32 x0b ]} : Keys) in
  ∃ file, @EncryptToFile toy_EVP (canonical_order (list byte) (list byte)) (replicate 16 x05) [x70] keys
      = Ok file ∧
    @LoadFromFile toy_EVP [x70] (Some file) ∅ = (keys, Ok tt).
Proof.
  intros keys. apply (@KeyStore_roundtrip toy_EVP (canonical_order (list byte) (list byte)));
    [done|done|by_decide|by_decide].
Defined.

(** A failed load loses nothing: on a file below 2 GiB, [LoadFromFile] is defined, and
    when it does not return normally - no file, fewer than 16 bytes, or a decryption the
    cipher rejects, each with its exception - the keys held before are still held. *)
Theorem LoadFromFile_failure `{OpenSSL_EVP} (passphrase : list byte) (file : option (list byte)) (keys : Keys) :
  zlen passphrase < 2 ^ 31 → (∀ enc, file = Some enc → zlen enc < 2 ^ 31) →
  let decrypted enc := ∃ key fin, DeriveKey passphrase = Ok key ∧
    EVP_DecryptFinal_ex key (take 16 enc) (drop 16 enc) (zlen (drop 16 enc)) = Some fin in
  match LoadFromFile passphrase file keys with
  | (keys', Ok _) => ∃ enc, file = Some enc ∧ 16 ≤ zlen enc ∧ decrypted enc
  | (keys', Throw e) => keys' = keys ∧
      ((file = None ∧ e = runtime_error "missing keystore") ∨
       ∃ enc, file = Some enc ∧
         ((zlen enc < 16 ∧ e = runtime_error "cipher too small") ∨
          (16 ≤ zlen enc ∧ e = runtime_error "bad passphrase" ∧ ¬ decrypted enc)))
  | (_, Undef _) => False
  end.
Proof.
  intros Hpass Hfile decrypted. unfold LoadFromFile. destruct file as [enc|]; [|by split; [|left]].
  destruct (DeriveKey_Ok passphrase Hpass) as [key Ek]. rewrite Ek. cbn [mbind result_bind].
  rewrite Decrypt_cases by by apply Hfile. cbv zeta. case_bool_decide.
  - split; [done|]. right. exists enc. split; [done|]. by left.
  - destruct (EVP_DecryptFinal_ex _ _ _ _) as [fin|] eqn:E.
    + exists enc. split_and!; [done|lia|]. by exists key, fin.
    + split; [done|]. right. exists enc. split; [done|]. right. split_and!; [lia|done|].
      intros (key' & fin & Ek' & Ef). rewrite Ek in Ek'. by simplify_eq.
Qed.
