(* ===== verification/Rpc.v ===== *)
(** * The RPC server: rpc/rpcserver.cpp *)

From S2P Require Import Prelude.

(** A [std::function<std::string(const std::string&)>]: it may throw. *)
Definition Handler : Type := string → result string.

Record RPCServer := mkServer {
  m_user : string;
  m_pass : string;
  m_handlers : gmap string Handler;
}.

(** The constructor. *)
Definition RPCServer_new (user pass : string) : RPCServer := mkServer user pass ∅.

Definition Register (method : string) (handler : Handler) (s : RPCServer) : RPCServer :=
  mkServer (m_user s) (m_pass s) (<[method := handler]> (m_handlers s)).

Definition HandleRequest (user pass method params : string) (s : RPCServer) : result string :=
  throw_if (negb (bool_decide (user = m_user s)) || negb (bool_decide (pass = m_pass s)))
    (runtime_error "unauthorized");;
  match m_handlers s !! method with
  | None => Throw (runtime_error "method not found")
  | Some handler => handler params
  end.

(** A server after a sequence of registrations. *)
Definition registered (user pass : string) (regs : list (string * Handler)) : RPCServer :=
  foldl (λ s r, Register r.1 r.2 s) (RPCServer_new user pass) regs.

(** The handler registered last for a method. *)
Definition handler_of (method : string) (regs : list (string * Handler)) : option Handler :=
  last (omap (λ r, if bool_decide (r.1 = method) then Some r.2 else None) regs).

Lemma registered_snoc user pass regs r :
  registered user pass (regs ++ [r]) = Register r.1 r.2 (registered user pass regs).
Proof. unfold registered. by rewrite foldl_app. Qed.

Lemma registered_spec user pass regs :
  m_user (registered user pass regs) = user ∧ m_pass (registered user pass regs) = pass ∧
  ∀ method, m_handlers (registered user pass regs) !! method = handler_of method regs.
Proof.
  induction regs as [|[m h] regs (IHu & IHp & IHh)] using rev_ind; [done|].
  rewrite registered_snoc. cbn [Register m_user m_pass m_handlers fst snd].
  split_and!; [done..|]. intros method. unfold handler_of. rewrite omap_app. cbn.
  destruct (decide (m = method)) as [->|Hne].
  - rewrite lookup_insert_eq, bool_decide_true by done. by rewrite last_snoc.
  - rewrite lookup_insert_ne, bool_decide_false by done. rewrite app_nil_r. apply IHh.
Qed.

(** No handler runs without the credentials: whatever was registered, a request
    with another user or password throws before the method is looked up, and one with
    the right ones returns what the handler registered last for the method returns,
    or throws if there is none. *)
Theorem HandleRequest_spec user pass regs u p method params :
  HandleRequest u p method params (registered user pass regs) =
    if bool_decide (u = user ∧ p = pass) then
      match handler_of method regs with
      | Some h => h params
      | None => Throw (runtime_error "method not found")
      end
    else Throw (runtime_error "unauthorized").
Proof.
  destruct (registered_spec user pass regs) as (Eu & Ep & Eh).
  unfold HandleRequest. rewrite Eu, Ep, Eh.
  repeat case_bool_decide; cbn; try tauto; by destruct (handler_of method regs).
Qed.
