(* ===== verification/Strconv.v ===== *)
(** * C library text conversions

    [std::isspace], [std::stoi] and [std::stoul] as common/config/config.cpp and
    miners/cpu/main.cpp use them, in the C locale; a [std::string] is its bytes. *)

From S2P Require Import Prelude.

Abbreviation bstr := (list byte).

(** The bytes of a literal. *)
Definition lit (s : string) : bstr := String.list_byte_of_string s.

(** [std::isspace] in the C locale. *)
Definition isspace (c : byte) : bool :=
  let z := byte_to_Z c in
  bool_decide (z = 32) || (bool_decide (9 ≤ z) && bool_decide (z ≤ 13)).

(** [std::find_if_not(begin, end, isspace)], as an index. *)
Fixpoint find_if_not_space (s : bstr) : nat :=
  match s with
  | c :: s => if isspace c then S (find_if_not_space s) else O
  | [] => O
  end.

(** The value of a digit in a base up to 16. *)
Definition digit (base : Z) (c : byte) : option Z :=
  let z := byte_to_Z c in
  let d :=
    if bool_decide (48 ≤ z) && bool_decide (z ≤ 57) then z - 48
    else if bool_decide (97 ≤ z) && bool_decide (z ≤ 102) then z - 87
    else if bool_decide (65 ≤ z) && bool_decide (z ≤ 70) then z - 55
    else 16 in
  if bool_decide (d < base) then Some d else None.

(** The value of the leading digits. *)
Fixpoint digits (base v : Z) (s : bstr) : Z :=
  match s with
  | c :: s => match digit base c with Some d => digits base (base * v + d) s | None => v end
  | [] => v
  end.

(** The prefix [0x] where base 16 takes it: before a digit. *)
Definition skip_prefix (base : Z) (s : bstr) : bstr :=
  match s with
  | x30 :: x :: c :: s' =>
      if bool_decide (base = 16) && (bool_decide (x = x78) || bool_decide (x = x58))
         && bool_decide (is_Some (digit base c))
      then c :: s' else s
  | _ => s
  end.

(** The parse [strtol] and [strtoul] share - white space, a sign, a prefix, digits,
    the rest ignored: the sign and the magnitude, [None] without a digit. *)
Definition parse_number (base : Z) (s : bstr) : option (bool * Z) :=
  let s := drop (find_if_not_space s) s in
  let '(neg, s) :=
    match s with
    | c :: s' => if bool_decide (c = x2d) then (true, s')
                 else if bool_decide (c = x2b) then (false, s') else (false, s)
    | [] => (false, s)
    end in
  let s := skip_prefix base s in
  match s with
  | [] => None
  | c :: _ => match digit base c with None => None | Some _ => Some (neg, digits base 0 s) end
  end.

Definition stoi (s : bstr) : result Z :=
  match parse_number 10 s with
  | None => Throw (invalid_argument "stoi")
  | Some (neg, v) =>
      let v := if neg : bool then - v else v in
      if bool_decide (is_i32 v) then Ok v else Throw (out_of_range "stoi")
  end.

(** A negative number is its 64-bit complement. *)
Definition stoul (s : bstr) (base : Z) : result Z :=
  match parse_number base s with
  | None => Throw (invalid_argument "stoul")
  | Some (neg, v) =>
      if bool_decide (v > UINT64_MAX) then Throw (out_of_range "stoul") else
      Ok (if neg : bool then u64 (- v) else v)
  end.

(** ** Printing *)

(** A digit below 16, in lower case. *)
Definition hex_digit (d : Z) : byte := byte_of_Z (if bool_decide (d < 10) then 48 + d else 87 + d).

(** The digits of a number below [base ^ fuel], the most significant first. *)
Fixpoint print_digits (fuel : nat) (base v : Z) : bstr :=
  match fuel with
  | O => []
  | S fuel =>
      if bool_decide (v < base) then [hex_digit v]
      else print_digits fuel base (v `div` base) ++ [hex_digit (v `mod` base)]
  end.

(** What [operator<<] prints for an unsigned integer of up to 64 bits. *)
Definition print_num (base v : Z) : bstr := print_digits 64 base v.

Example strconv_vectors :
  stoi (lit "  +18443abc") = Ok 18443 ∧ stoi (lit "-5") = Ok (-5) ∧
  stoi (lit "2147483648") = Throw (out_of_range "stoi") ∧
  stoi (lit "x") = Throw (invalid_argument "stoi") ∧
  stoul (lit "0x1e0fffff") 16 = Ok 0x1e0fffff ∧ stoul (lit "-1") 10 = Ok UINT64_MAX ∧
  stoul (lit "0x") 16 = Ok 0.
Proof. by vm_compute. Qed.

Example print_num_vectors :
  print_num 10 0 = lit "0" ∧ print_num 10 1735689600 = lit "1735689600" ∧
  print_num 16 0x1f00ffff = lit "1f00ffff" ∧ print_num 10 UINT64_MAX = lit "18446744073709551615".
Proof. by vm_compute. Qed.

(** ** Reading back what was printed *)

Lemma digit_table :
  Forall (λ d, byte_to_Z (hex_digit d) = (if bool_decide (d < 10) then 48 + d else 87 + d)) (seqZ 0 16).
Proof. by_decide. Qed.

Lemma hex_digit_val d : 0 ≤ d < 16 →
  byte_to_Z (hex_digit d) = if bool_decide (d < 10) then 48 + d else 87 + d.
Proof. intros Hd. pose proof digit_table as H. rewrite Forall_elem in H. apply H, elem_of_seqZ. lia. Qed.

Lemma digit_hex base d : 0 ≤ d < base → base ≤ 16 → digit base (hex_digit d) = Some d.
Proof.
  intros Hd Hb. unfold digit. rewrite hex_digit_val by lia.
  bool_cases (d < 10); repeat case_bool_decide; cbn [andb] in *; first [lia|f_equal; lia].
Qed.

Lemma print_digits_elem fuel base v c : 2 ≤ base ≤ 16 → 0 ≤ v →
  c ∈ print_digits fuel base v → ∃ d, 0 ≤ d < base ∧ c = hex_digit d.
Proof.
  intros Hb. revert v. induction fuel as [|fuel IH]; intros v Hv Hc; [by apply not_elem_of_nil in Hc|].
  cbn [print_digits] in Hc. case_bool_decide.
  - apply list_elem_of_singleton in Hc as ->. by exists v.
  - apply elem_of_app in Hc as [Hc|Hc%list_elem_of_singleton].
    + apply (IH (v `div` base)); [apply Z.div_pos; lia|done].
    + exists (v `mod` base). split; [apply Z.mod_pos_bound; lia|done].
Qed.

Lemma print_digits_cons fuel base v : (0 < fuel)%nat → ∃ c s, print_digits fuel base v = c :: s.
Proof.
  destruct fuel as [|fuel]; [lia|]. intros _. cbn [print_digits]. case_bool_decide; [by eexists _, _|].
  destruct (print_digits fuel base _); by eexists _, _.
Qed.

Lemma digits_app base a s t :
  Forall (λ c, is_Some (digit base c)) s → digits base a (s ++ t) = digits base (digits base a s) t.
Proof.
  intros Hs. revert a. induction Hs as [|c s [d Hd] _ IH]; intros a; [done|].
  cbn [app digits]. rewrite Hd. apply IH.
Qed.

Lemma print_digits_ok fuel base v : 2 ≤ base ≤ 16 → 0 ≤ v →
  Forall (λ c, is_Some (digit base c)) (print_digits fuel base v).
Proof.
  intros Hb Hv. apply Forall_elem. intros c (d & Hd & ->)%print_digits_elem; [|done..].
  rewrite digit_hex by lia. by eexists.
Qed.

Lemma digits_print fuel base v : 2 ≤ base ≤ 16 → 0 ≤ v < base ^ Z.of_nat fuel →
  digits base 0 (print_digits fuel base v) = v.
Proof.
  intros Hb. revert v. induction fuel as [|fuel IH]; intros v Hv.
  { change (base ^ Z.of_nat 0) with 1 in Hv. cbn. lia. }
  rewrite Nat2Z.inj_succ, Z.pow_succ_r in Hv by lia. cbn [print_digits]. case_bool_decide.
  - cbn [digits]. rewrite digit_hex by lia. lia.
  - pose proof (Z.mod_pos_bound v base ltac:(lia)).
    rewrite digits_app, IH by
      (first [apply print_digits_ok; [lia|apply Z.div_pos; lia]
             |split; [apply Z.div_pos; lia|apply Z.div_lt_upper_bound; lia]]).
    cbn [digits]. rewrite digit_hex by lia. rewrite (Z.mul_comm base), Z.mul_comm.
    pose proof (Z.div_mod v base ltac:(lia)). lia.
Qed.

Definition plain (c : byte) : bool :=
  negb (isspace c) && negb (bool_decide (c ∈ [x2d; x2b; x78; x58])).

Lemma plain_digit d : 0 ≤ d < 16 → plain (hex_digit d) = true.
Proof.
  assert (Forall (λ d, plain (hex_digit d) = true) (seqZ 0 16)) as H by by_decide.
  intros Hd. rewrite Forall_elem in H. apply H, elem_of_seqZ. lia.
Qed.

Lemma skip_prefix_plain base c s : Forall (λ x, plain x = true) s → skip_prefix base (c :: s) = c :: s.
Proof.
  intros Hs. destruct (decide (c = x30)) as [->|Hc]; [|by destruct c].
  destruct Hs as [|x s Hx Hs]; [done|]. destruct Hs as [|y s _ _]; [done|].
  cbn [skip_prefix]. unfold plain in Hx.
  rewrite (bool_decide_false (x = x78)), (bool_decide_false (x = x58)) by (by intros ->).
  by rewrite andb_false_r.
Qed.

(** No digit is white space, a sign or the letter of a prefix. *)
Lemma parse_print base v : 2 ≤ base ≤ 16 → is_u64 v →
  parse_number base (print_num base v) = Some (false, v).
Proof.
  intros Hb Hv. assert (∀ c, c ∈ print_num base v → ∃ d, 0 ≤ d < base ∧ c = hex_digit d) as Hc.
  { intros c. apply print_digits_elem; lia. }
  assert (digits base 0 (print_num base v) = v) as Hd.
  { apply digits_print; [done|]. split; [lia|]. apply Z.lt_le_trans with (2 ^ 64); [lia|].
    apply Z.pow_le_mono_l; lia. }
  destruct (print_digits_cons 64 base v) as (c & s & E); [lia|].
  change (print_digits 64 base v) with (print_num base v) in E. rewrite E in *.
  assert (Forall (λ x, plain x = true) (c :: s)) as Hp.
  { apply Forall_elem. intros x (d & ? & ->)%Hc. apply plain_digit. lia. }
  apply Forall_cons in Hp as [Hp Hs]. unfold plain in Hp.
  apply andb_true_iff in Hp as [Hsp Hsg]. apply negb_true_iff in Hsp, Hsg.
  apply bool_decide_eq_false in Hsg. unfold parse_number. cbn [find_if_not_space].
  rewrite Hsp. cbn [drop]. rewrite !bool_decide_false by set_solver.
  rewrite skip_prefix_plain by done.
  destruct (Hc c) as (d & ? & ->); [by apply elem_of_cons; left|].
  by rewrite digit_hex, Hd by lia.
Qed.

(** What is printed in a base is read back in it. *)
Lemma stoul_print base v : 2 ≤ base ≤ 16 → is_u64 v → stoul (print_num base v) base = Ok v.
Proof.
  intros Hb Hv. unfold stoul. rewrite parse_print by done.
  by rewrite bool_decide_false by (unfold UINT64_MAX; lia).
Qed.
