(* ===== verification/Config.v ===== *)
(** * The configuration loader: common/config/config.cpp

    A [std::string] and a path are their bytes.  The files, environment variables and
    directory creation the loader uses are the record [Env]; the cache is passed as
    state. *)

From stdpp Require Import pretty.
From S2P Require Import Prelude Strconv.

Definition Trim (in_ : bstr) : bstr :=
  let front := find_if_not_space in_ in
  let back := (length in_ - find_if_not_space (reverse in_))%nat in
  if bool_decide (back ≤ front)%nat then [] else take (back - front) (drop front in_).

(** [in.find(c)], as an index, and [std::string::npos]. *)
Fixpoint find_byte (c : byte) (s : bstr) : option nat :=
  match s with
  | [] => None
  | x :: s => if bool_decide (x = c) then Some O else S <$> find_byte c s
  end.

(** The lines [std::getline] returns: the text between newlines, and what follows the
    last one unless it is empty. *)
Fixpoint getlines_from (acc : bstr) (data : bstr) : list bstr :=
  match data with
  | [] => if is_empty acc then [] else [reverse acc]
  | c :: data =>
      if bool_decide (c = x0a) then reverse acc :: getlines_from [] data
      else getlines_from (c :: acc) data
  end.
Definition getlines (data : bstr) : list bstr := getlines_from [] data.

(** The loop body of [ParseFile] (49-58). *)
Definition ParseLine (s : N * gmap bstr bstr) (line : bstr) : result (N * gmap bstr bstr) :=
  let '(lineNo, kv) := s in
  let lineNo := (lineNo + 1)%N in
  let line := Trim line in
  if is_empty line || bool_decide (line !! 0%nat = Some x23) then Ok (lineNo, kv) else
  match find_byte x3d line with
  | None => Throw (runtime_error ("Malformed config line " +:+ pretty lineNo))
  | Some pos =>
      let key := Trim (take pos line) in
      let val := Trim (drop (S pos) line) in
      Ok (lineNo, <[key := val]> kv)
  end.

Definition ParseFile (path : bstr) (file : option bstr) : result (gmap bstr bstr) :=
  match file with
  | None => Throw (runtime_error ("Unable to open config file: " +:+ String.string_of_list_byte path))
  | Some data =>
      '(_, kv) ← foldM ParseLine (0%N, ∅) (getlines data);
      Ok kv
  end.

(** [catch (...)] turns every exception into the fallback. *)
Definition ToPort (s : bstr) (fallback : Z) : Z :=
  match
    (v ← stoi s;
    throw_if (bool_decide (v ≤ 0) || bool_decide (v > 65535)) (out_of_range "port range");;
    Ok (v mod 2 ^ 16))
  with
  | Ok port => port
  | _ => fallback
  end.

(** ** The environment and the loader *)

Record Env := mkEnv {
  DRACHMA_DATA : option bstr;
  HOME : option bstr;
  temp_directory_path : result bstr;
  exists_ : bstr → bool;
  contents : bstr → option bstr;
  create_directories : bstr → result unit;
}.

Record NodeConfig := mkConfig {
  network : bstr;
  dataDir : bstr;
  logFile : bstr;
  rpcUser : bstr;
  rpcPassword : bstr;
  p2pPort : Z;
  rpcPort : Z;
}.

(** [operator/] of a path and a relative one. *)
Definition path_append (a b : bstr) : bstr :=
  if is_empty a || bool_decide (last a = Some x2f) then a ++ b else a ++ [x2f] ++ b.

(** The branch for systems other than Windows. *)
Definition DefaultDataDir (env : Env) : result bstr :=
  let home :=
    match HOME env with
    | Some home => Ok (path_append home (lit ".drachma"))
    | None => tmp ← temp_directory_path env; Ok (path_append tmp (lit "drachma"))
    end in
  match DRACHMA_DATA env with
  | Some dir => if is_empty dir then home else Ok dir
  | None => home
  end.

(** [if (auto it = kv.find(key); it != kv.end()) field = it->second] *)
Definition field (kv : gmap bstr bstr) (key : string) (default_ : bstr) : bstr :=
  default default_ (kv !! lit key).
Definition port_field (kv : gmap bstr bstr) (key : string) (default_ : Z) : Z :=
  match kv !! lit key with Some s => ToPort s default_ | None => default_ end.

(** [Load] past the cache (100-127). *)
Definition ReadConfig (env : Env) (path : bstr) : result NodeConfig :=
  dir ← DefaultDataDir env;
  let cfg := mkConfig (lit "main") dir (path_append dir (lit "drachma.log")) (lit "drachma")
    (lit "change-me") 11311 8332 in
  cfg ←
    (if negb (is_empty path) && exists_ env path then
      kv ← ParseFile path (contents env path);
      Ok (mkConfig (field kv "network" (network cfg)) (field kv "datadir" (dataDir cfg))
        (field kv "logfile" (logFile cfg)) (field kv "rpcuser" (rpcUser cfg))
        (field kv "rpcpassword" (rpcPassword cfg)) (port_field kv "p2pport" (p2pPort cfg))
        (port_field kv "rpcport" (rpcPort cfg)))
    else Ok cfg);
  create_directories env (dataDir cfg);;
  Ok cfg.

(** [Load] and [Override] with the cache they read and write. *)
Definition Load (env : Env) (path : bstr) (g_cached : option NodeConfig) :
    result NodeConfig * option NodeConfig :=
  match g_cached with
  | Some cfg => (Ok cfg, g_cached)
  | None =>
      match ReadConfig env path with
      | Ok cfg => (Ok cfg, Some cfg)
      | Throw e => (Throw e, None)
      | Undef u => (Undef u, None)
      end
  end.

Definition Override (updated : NodeConfig) (g_cached : option NodeConfig) : option NodeConfig :=
  Some updated.

(** ** Trimming *)

Abbreviation spaces a := (Forall (λ c, isspace c = true) a).

(** Neither the first nor the last byte is white space. *)
Definition trimmed (t : bstr) : Prop :=
  find_if_not_space t = O ∧ find_if_not_space (reverse t) = O.

#[global] Instance trimmed_dec t : Decision (trimmed t).
Proof. unfold trimmed. apply _. Defined.

Lemma find_space_app a t : spaces a → find_if_not_space (a ++ t) = (length a + find_if_not_space t)%nat.
Proof. induction 1 as [|c a Hc _ IH]; [done|]. cbn. by rewrite Hc, IH. Qed.

Lemma find_space_prefix t r : t ≠ [] → find_if_not_space t = O → find_if_not_space (t ++ r) = O.
Proof. destruct t as [|c t]; [done|]. cbn. by destruct (isspace c). Qed.

Lemma spaces_reverse a : spaces a → spaces (reverse a).
Proof. by rewrite Forall_reverse. Qed.

Lemma Trim_app a t b : spaces a → spaces b → trimmed t → Trim (a ++ t ++ b) = t.
Proof.
  intros Ha Hb [Hf Hl]. unfold Trim. rewrite !reverse_app, <-(assoc_L (++)).
  rewrite (find_space_app a), (find_space_app (reverse b)) by (done || by apply spaces_reverse).
  rewrite !length_app, length_reverse.
  destruct (decide (t = [])) as [->|Ht].
  - cbn [app length]. rewrite bool_decide_true; [done|]. lia.
  - rewrite (find_space_prefix t), (find_space_prefix (reverse t)); try done; cycle 1.
    { intros E. apply (f_equal length) in E. rewrite length_reverse in E. by destruct t. }
    assert (length t ≠ 0)%nat by by destruct t.
    rewrite bool_decide_false by lia. rewrite !Nat.add_0_r, drop_app_length.
    by rewrite take_app_length' by lia.
Qed.

Lemma Trim_id t : trimmed t → Trim t = t.
Proof. intros Ht. rewrite <-(app_nil_r t) at 1. by apply (Trim_app []). Qed.

Lemma find_byte_app c a s : c ∉ a → find_byte c (a ++ c :: s) = Some (length a).
Proof.
  induction a as [|x a IH]; intros Hn; cbn.
  - by rewrite bool_decide_true.
  - rewrite not_elem_of_cons in Hn. destruct Hn. rewrite bool_decide_false by done. by rewrite IH.
Qed.

Lemma trimmed_app a m b : a ≠ [] → b ≠ [] → trimmed a → trimmed b → trimmed (a ++ m ++ b).
Proof.
  intros Ha Hb [Ha1 _] [_ Hb2]. split.
  - by apply find_space_prefix.
  - rewrite !reverse_app, <-(assoc_L (++)). apply find_space_prefix; [|done].
    intros E. apply (f_equal length) in E. rewrite length_reverse in E. by destruct b.
Qed.

(** ** Written configuration files *)

(** A [key = value] line with white space around the key and the value. *)
Record config_line := mkLine {
  cl_key : bstr; cl_value : bstr;
  cl_before : bstr; cl_left : bstr; cl_right : bstr; cl_after : bstr;
}.

Definition print_line (l : config_line) : bstr :=
  cl_before l ++ cl_key l ++ cl_left l ++ [x3d] ++ cl_right l ++ cl_value l ++ cl_after l.

Definition wf_line (l : config_line) : Prop :=
  spaces (cl_before l) ∧ spaces (cl_left l) ∧ spaces (cl_right l) ∧ spaces (cl_after l) ∧
  cl_key l ≠ [] ∧ trimmed (cl_key l) ∧ (x3d ∉ cl_key l) ∧ cl_key l !! 0%nat ≠ Some x23 ∧
  trimmed (cl_value l) ∧ x0a ∉ print_line l.

#[global] Instance wf_line_dec l : Decision (wf_line l).
Proof. unfold wf_line. apply _. Defined.

Definition print_file (ls : list config_line) : bstr := ls ≫= (λ l, print_line l ++ [x0a]).

Lemma getlines_from_line acc l rest : x0a ∉ l →
  getlines_from acc (l ++ x0a :: rest) = (reverse acc ++ l) :: getlines_from [] rest.
Proof.
  revert acc. induction l as [|c l IH]; intros acc Hn.
  - cbn. by rewrite app_nil_r.
  - rewrite not_elem_of_cons in Hn. destruct Hn. cbn [app getlines_from].
    rewrite bool_decide_false by done. rewrite IH by done.
    by rewrite reverse_cons, <-(assoc_L (++)).
Qed.

Lemma getlines_print ls : Forall wf_line ls → getlines (print_file ls) = print_line <$> ls.
Proof.
  unfold getlines, print_file. induction 1 as [|l ls (_&_&_&_&_&_&_&_&_&Hn) _ IH]; [done|].
  rewrite bind_cons, <-(assoc_L (++)). cbn [app].
  rewrite getlines_from_line by done. by rewrite IH.
Qed.

Lemma trimmed_eq : trimmed [x3d].
Proof. done. Qed.

(** The trimmed text of a line, up to the white space after [=] of an empty value. *)
Lemma Trim_print_line l : wf_line l →
  ∃ rest, Trim (print_line l) = (cl_key l ++ cl_left l) ++ x3d :: rest ∧ Trim rest = cl_value l.
Proof.
  intros (Hb & Hl & Hr & Ha & Hne & Hk & _ & _ & Hv & _). unfold print_line.
  destruct (decide (cl_value l = [])) as [E|E].
  - exists []. split; [|by rewrite E]. rewrite E, app_nil_l.
    replace (cl_before l ++ cl_key l ++ cl_left l ++ [x3d] ++ cl_right l ++ cl_after l)
      with (cl_before l ++ (cl_key l ++ cl_left l ++ [x3d]) ++ cl_right l ++ cl_after l)
      by by rewrite <-!(assoc_L (++)).
    rewrite Trim_app; [by rewrite <-(assoc_L (++))|done|by apply Forall_app|].
    by apply trimmed_app.
  - exists (cl_right l ++ cl_value l). split.
    + replace (cl_before l ++ cl_key l ++ cl_left l ++ [x3d] ++ cl_right l ++ cl_value l ++ cl_after l)
        with (cl_before l ++ (cl_key l ++ (cl_left l ++ [x3d] ++ cl_right l) ++ cl_value l) ++ cl_after l)
        by by rewrite <-!(assoc_L (++)).
      rewrite Trim_app; [by rewrite <-!(assoc_L (++))|done|done|by apply trimmed_app].
    + rewrite <-(app_nil_r (cl_value l)) at 1. by apply Trim_app.
Qed.

Lemma ParseLine_print n kv l : wf_line l →
  ParseLine (n, kv) (print_line l) = Ok ((n + 1)%N, <[cl_key l := cl_value l]> kv).
Proof.
  intros Hwf. destruct (Trim_print_line l Hwf) as (rest & E & Er).
  destruct Hwf as (_ & Hl & _ & _ & Hne & Hk & Heq & Hh & _ & _).
  unfold ParseLine. rewrite E.
  assert (is_empty ((cl_key l ++ cl_left l) ++ x3d :: rest) = false) as ->.
  { apply is_empty_false. by destruct (cl_key l). }
  rewrite bool_decide_false; cycle 1.
  { destruct (cl_key l); [done|]. exact Hh. }
  cbn [orb]. rewrite find_byte_app; cycle 1.
  { intros [?|Hin]%elem_of_app; [done|]. rewrite Forall_forall in Hl.
    by specialize (Hl _ Hin). }
  rewrite take_app_length. replace (drop _ _) with rest; cycle 1.
  { rewrite drop_app, drop_ge, Nat.sub_succ_l, Nat.sub_diag by lia. done. }
  rewrite Er. replace (Trim (cl_key l ++ cl_left l)) with (cl_key l); [done|].
  symmetry. by apply (Trim_app []).
Qed.

Lemma ParseLine_loop n kv ls : Forall wf_line ls →
  foldM ParseLine (n, kv) (print_line <$> ls)
  = Ok ((n + N.of_nat (length ls))%N, foldl (λ kv l, <[cl_key l := cl_value l]> kv) kv ls).
Proof.
  intros Hwf. revert n kv. induction Hwf as [|l ls Hl _ IH]; intros n kv.
  - cbn. by rewrite N.add_0_r.
  - rewrite fmap_cons. cbn [foldM]. rewrite ParseLine_print by done.
    cbn [mbind result_bind]. rewrite IH. cbn [foldl length]. do 2 f_equal. lia.
Qed.

(** ** Ports *)

Lemma ToPort_range s d : 1 ≤ d ≤ 65535 → 1 ≤ ToPort s d ≤ 65535.
Proof.
  intros Hd. unfold ToPort. destruct (stoi s) as [v| |]; cbn [mbind result_bind]; [|done..].
  repeat case_bool_decide; cbn; try done. rewrite Z.mod_small; lia.
Qed.

Lemma ReadConfig_ports env path cfg : ReadConfig env path = Ok cfg →
  1 ≤ p2pPort cfg ≤ 65535 ∧ 1 ≤ rpcPort cfg ≤ 65535.
Proof.
  unfold ReadConfig. intros E. simplify_result. destruct (negb _ && _).
  - simplify_result. cbn. unfold port_field.
    split; (destruct (_ !! _); [by apply ToPort_range|done]).
  - by simplify_result.
Qed.

(** ** Properties *)

(** C40. Parsing inverts writing: a file of [key = value] lines, with any white space
    around keys and values, parses to the map of its last values; keys are non-empty,
    without [=] and no comment, values may be empty or contain [=]. *)
Theorem ParseFile_print path ls : Forall wf_line ls →
  ParseFile path (Some (print_file ls))
  = Ok (foldl (λ kv l, <[cl_key l := cl_value l]> kv) ∅ ls).
Proof.
  intros Hwf. unfold ParseFile. rewrite getlines_print, ParseLine_loop by done. done.
Qed.

Definition example_lines : list config_line :=
  [mkLine (lit "rpcport") (lit "18443") [] [x20] [x20; x20] [x0d];
   mkLine (lit "rpcuser") (lit "a=b c") [x09] [] [] [];
   mkLine (lit "rpcpassword") [] [] [] [x20] []].

Lemma ParseFile_print_witness :
  ParseFile (lit "drachma.conf") (Some (print_file example_lines))
  = Ok (foldl (λ kv l, <[cl_key l := cl_value l]> kv) ∅ example_lines).
Proof. apply ParseFile_print. by_decide. Defined.

(** The configuration is read once: when [Load] returns a configuration with an
    empty cache its ports are in 1..65535, whatever the file says, and every later
    [Load], of any path in any environment, returns that configuration; when it
    throws, the cache stays empty and the next [Load] reads again. *)
Theorem Load_once env path :
  match Load env path None with
  | (Ok cfg, g_cached) =>
      1 ≤ p2pPort cfg ≤ 65535 ∧ 1 ≤ rpcPort cfg ≤ 65535 ∧
      ∀ env' path', Load env' path' g_cached = (Ok cfg, g_cached)
  | (_, g_cached) => g_cached = None
  end.
Proof.
  unfold Load. destruct (ReadConfig env path) as [cfg| |] eqn:E; [|done..].
  by destruct (ReadConfig_ports _ _ _ E).
Qed.
