(* ===== verification/Miner.v ===== *)
(** * The CPU miner: miners/cpu/main.cpp

    The program takes the header fields from its arguments and searches the nonces
    from 0; [Miner_main] returns what it prints and its exit code.  The clock and the
    formatting of the output are not modelled. *)

From S2P Require Import Prelude Crypto Sha256Ref Codec Transaction Block Params Merkle Difficulty Script Validation Strconv.

(** The loop body of [FromHex] (21-22). *)
Definition from_hex_byte (hex : bstr) (i : Z) : result byte :=
  b ← stoul (slice hex (i * 2) 2) 16;
  Ok (byte_of_Z b).

Definition FromHex (hex : bstr) : result uint256 :=
  throw_if (negb (bool_decide (zlen hex = 64)))
    (invalid_argument "expected 32-byte hex string");;
  foldM (λ out i, b ← from_hex_byte hex i; Ok (<[Z.to_nat i := b]> out))
    (replicate 32 x00) (seqZ 0 32).

(** [PrintHash]: two lower-case digits per byte. *)
Definition PrintHash (h : uint256) : bstr :=
  h ≫= (λ b, [hex_digit (byte_to_Z b `div` 16); hex_digit (byte_to_Z b `mod` 16)]).

(** How the program ends: the usage text (exit code 1), a nonce with its hash (0), no
    nonce (2). *)
Inductive miner_exit :=
  | Usage
  | FoundNonce (n : Z) (hash : bstr)
  | Exhausted.

Definition with_nonce (h : BlockHeader) (n : Z) : BlockHeader :=
  mkBlockHeader (hdr_version h) (prevBlockHash h) (merkleRoot h) (hdr_time h) (bits h) n.

Section Miner.
  Context `{OpenSSL_SHA}.

(** The body of [while (true)] (54-67). *)
Definition mine_iteration (header : BlockHeader) : result (BlockHeader + miner_exit) :=
  let hash := BlockHash header in
  ok ← CheckProofOfWork hash (bits header) Main;
  if ok : bool then Ok (inr (FoundNonce (nonce header) (PrintHash hash))) else
  let header := with_nonce header (u32 (nonce header + 1)) in
  if bool_decide (nonce header = 0) then Ok (inr Exhausted) else
  Ok (inl header).

(** The loop, at most 2^32 times: the wrap-around of the nonce is an exit
    ([mine_spec]). *)
Definition mine (header : BlockHeader) : result (BlockHeader + miner_exit) :=
  loop_m 4294967296 mine_iteration header.

Definition Miner_main (argv : list bstr) : result (BlockHeader + miner_exit) :=
  match argv with
  | _ :: a1 :: a2 :: a3 :: a4 :: a5 :: _ =>
      version ← stoul a1 10;
      prev ← FromHex a2;
      root ← FromHex a3;
      time ← stoul a4 10;
      nbits ← stoul a5 16;
      mine (mkBlockHeader (u32 version) prev root (u32 time) (u32 nbits) 0)
  | _ => Ok (inr Usage)
  end.

End Miner.

(** ** The nonce search *)

Section Search.
  Context `{OpenSSL_SHA}.

Lemma mine_iteration_step h n b :
  is_u32 n → CheckProofOfWork (BlockHash (with_nonce h n)) (bits h) Main = Ok b →
  mine_iteration (with_nonce h n) =
    Ok (if b then inr (FoundNonce n (PrintHash (BlockHash (with_nonce h n))))
        else if bool_decide (n = UINT32_MAX) then inr Exhausted
        else inl (with_nonce h (n + 1))).
Proof.
  intros Hn E. unfold mine_iteration. change (bits (with_nonce h n)) with (bits h).
  rewrite E. cbn [mbind result_bind]. destruct b; [done|].
  cbn [nonce with_nonce]. unfold UINT32_MAX. destruct (decide (n = 2 ^ 32 - 1)) as [->|Hne].
  - by rewrite !bool_decide_true.
  - rewrite u32_id by lia. by rewrite !bool_decide_false by lia.
Qed.

Lemma mine_spec h (passes : Z → bool) :
  (∀ n, is_u32 n →
     CheckProofOfWork (BlockHash (with_nonce h n)) (bits h) Main = Ok (passes n)) →
  nonce h = 0 →
  (∃ n, is_u32 n ∧ passes n = true ∧ (∀ k, 0 ≤ k < n → passes k = false) ∧
     mine h = Ok (inr (FoundNonce n (PrintHash (BlockHash (with_nonce h n)))))) ∨
  ((∀ n, is_u32 n → passes n = false) ∧ mine h = Ok (inr Exhausted)).
Proof.
  intros Hc H0. unfold mine. rewrite loop_m_nat. set (N := Pos.to_nat 4294967296).
  assert (Z.of_nat N = 2 ^ 32) as HN by (unfold N; by rewrite positive_nat_Z). clearbody N.
  assert (with_nonce h (Z.of_nat 0) = h) as Eh by (destruct h; cbn in *; by subst).
  replace (loop_nat N mine_iteration h) with (loop_nat N mine_iteration (with_nonce h (Z.of_nat 0)))
    by by rewrite Eh.
  assert (∀ i, (i < N)%nat → passes (Z.of_nat i) = false → Z.of_nat i ≠ UINT32_MAX →
    mine_iteration (with_nonce h (Z.of_nat i)) = Ok (inl (with_nonce h (Z.of_nat (S i))))) as Hgo.
  { intros i Hi Hp Hm. rewrite (mine_iteration_step h _ (passes (Z.of_nat i))), Hp by (lia || apply Hc; lia).
    rewrite bool_decide_false by done. do 3 f_equal. lia. }
  destruct (find_first passes N) as [(k & Hk & Hp & Hlt)|Hall].
  - left. exists (Z.of_nat k). split_and!; [lia..|done| |].
    { intros j Hj. rewrite <-(Z2Nat.id j) by lia. apply Hlt. lia. }
    apply (loop_nat_leaves N k _ (λ i, with_nonce h (Z.of_nat i)) (Ok _)); [done| |].
    + intros i Hi. apply Hgo; [lia|by apply Hlt|unfold UINT32_MAX; lia].
    + rewrite (mine_iteration_step h _ (passes (Z.of_nat k))), Hp by (lia || apply Hc; lia). done.
  - right. split.
    { intros n Hn. rewrite <-(Z2Nat.id n) by lia. apply Hall. lia. }
    apply (loop_nat_leaves N (N - 1) _ (λ i, with_nonce h (Z.of_nat i)) (Ok _)); [lia| |].
    + intros i Hi. apply Hgo; [lia|apply Hall; lia|unfold UINT32_MAX; lia].
    + rewrite (mine_iteration_step h _ (passes (Z.of_nat (N - 1)))), Hall by (lia || apply Hc; lia).
      rewrite bool_decide_true by (unfold UINT32_MAX; lia). done.
Qed.

(** The check on bits that [Main] can decode, as the [meets] of the theorems. *)
Lemma check_compact hash nbits e m :
  nbits = compact e m → 0 ≤ e < 256 → 0 ≤ m < 2 ^ 23 →
  CheckProofOfWork hash nbits Main = Ok (bool_decide (
    0 < compact_value e m ≤ 0x0fffff * 256 ^ 27 ∧ be_val hash ≤ compact_value e m)).
Proof.
  intros -> He Hm. unfold CheckProofOfWork. rewrite CompactToTarget_compact by lia.
  cbn [mbind result_bind]. change (nGenesisBits Main) with (compact 30 0x0fffff).
  rewrite CompactToTarget_compact by lia. cbn [mbind result_bind].
  change (compact_value 30 0x0fffff) with (0x0fffff * 256 ^ 27).
  repeat case_bool_decide; cbn [orb]; try done; lia.
Qed.

End Search.

(** ** Hashes in hexadecimal *)

Lemma stoul_hex_byte b :
  stoul [hex_digit (byte_to_Z b `div` 16); hex_digit (byte_to_Z b `mod` 16)] 16 = Ok (byte_to_Z b).
Proof. by destruct b; vm_compute. Qed.

Lemma PrintHash_length h : length (PrintHash h) = (2 * length h)%nat.
Proof. unfold PrintHash. induction h as [|b h IH]; [done|]. rewrite bind_cons, length_app, IH. cbn. lia. Qed.

Lemma PrintHash_slice h i b : h !! i = Some b →
  slice (PrintHash h) (Z.of_nat i * 2) 2
  = [hex_digit (byte_to_Z b `div` 16); hex_digit (byte_to_Z b `mod` 16)].
Proof.
  intros (l1 & l2 & -> & Hi)%list_elem_of_split_length. unfold PrintHash.
  rewrite bind_app, bind_cons. fold (PrintHash l1) (PrintHash l2).
  apply slice_app_mid; [|done]. rewrite PrintHash_length. lia.
Qed.

Lemma FromHex_loop h n : is_hash h → (n ≤ 32)%nat →
  foldM (λ out i, b ← from_hex_byte (PrintHash h) i; Ok (<[Z.to_nat i := b]> out))
    (replicate 32 x00) (seqZ 0 (Z.of_nat n)) = Ok (take n h ++ replicate (32 - n) x00).
Proof.
  intros Hh. induction n as [|n IH]; intros Hn; [done|].
  rewrite seqZ_S, foldM_app, IH by lia. cbn [mbind result_bind foldM].
  destruct (lookup_lt_is_Some_2 h n) as [b Hb]; [unfold is_hash in Hh; lia|].
  unfold from_hex_byte. rewrite Z.add_0_l, (PrintHash_slice h n b Hb), stoul_hex_byte.
  cbn [mbind result_bind]. rewrite byte_of_to_Z, Nat2Z.id. f_equal.
  rewrite (take_S_r _ _ _ Hb). replace (32 - n)%nat with (S (32 - S n)) by lia.
  rewrite insert_app_r_alt by (rewrite length_take; unfold is_hash in Hh; lia).
  rewrite length_take, Nat.min_l by (unfold is_hash in Hh; lia).
  rewrite Nat.sub_diag. cbn. by rewrite <-(assoc_L (++)).
Qed.

(** The parser accepts more than it should: signs, white space and a prefix stand in
    for digits. *)
Example FromHex_lenient :
  FromHex ([x2b; x31; x20; x32; x30; x78] ++ replicate 58 x30)
  = Ok ([x01; x02; x00] ++ replicate 29 x00).
Proof. by vm_compute. Qed.

(** ** Properties *)

(** The hexadecimal form of a hash is lossless: what [PrintHash] prints, [FromHex]
    reads back. *)
Theorem FromHex_PrintHash h : is_hash h → FromHex (PrintHash h) = Ok h.
Proof.
  intros Hh. unfold FromHex. rewrite PrintHash_length, Hh, bool_decide_true by done.
  cbn [negb throw_if mbind result_bind]. change (seqZ 0 32) with (seqZ 0 (Z.of_nat 32)).
  rewrite FromHex_loop by done. rewrite Nat.sub_diag, app_nil_r, take_ge; [done|].
  unfold is_hash in Hh. lia.
Qed.

Lemma FromHex_PrintHash_witness : FromHex (PrintHash (replicate 32 xab)) = Ok (replicate 32 xab).
Proof. apply FromHex_PrintHash. reflexivity. Defined.

(** The miner terminates with the right answer: on bits that [Main] can decode it
    finds the least nonce whose header hash meets the target, or, after all 2^32
    nonces and with its own exit code, reports that none does. *)
Theorem Miner_mine_correct `{OpenSSL_SHA} h e m :
  bits h = compact e m → 0 ≤ e < 256 → 0 ≤ m < 2 ^ 23 → nonce h = 0 →
  let meets n := 0 < compact_value e m ≤ 0x0fffff * 256 ^ 27 ∧
    be_val (BlockHash (with_nonce h n)) ≤ compact_value e m in
  (∃ n, is_u32 n ∧ meets n ∧ (∀ k, 0 ≤ k < n → ¬ meets k) ∧
     mine h = Ok (inr (FoundNonce n (PrintHash (BlockHash (with_nonce h n)))))) ∨
  ((∀ n, is_u32 n → ¬ meets n) ∧ mine h = Ok (inr Exhausted)).
Proof.
  intros Hb He Hm Hn meets.
  destruct (mine_spec h (λ n, bool_decide (meets n))) as [(n & ? & Hp & Hlt & E)|[Hall E]].
  - intros n _. by apply check_compact.
  - done.
  - left. exists n. split; [done|]. split; [by eapply bool_decide_eq_true|]. split; [|done].
    intros k Hk. eapply bool_decide_eq_false. by apply Hlt.
  - right. split; [|done]. intros n Hr. eapply bool_decide_eq_false. by apply Hall.
Qed.

Lemma Miner_mine_correct_witness :
  let h := mkBlockHeader 1 uint256_zero uint256_zero 1735689600 (compact 30 0x0fffff) 0 in
  let meets n := 0 < compact_value 30 0x0fffff ≤ 0x0fffff * 256 ^ 27 ∧
    be_val (@BlockHash Sha256Ref.const_sha (with_nonce h n)) ≤ compact_value 30 0x0fffff in
  (∃ n, is_u32 n ∧ meets n ∧ (∀ k, 0 ≤ k < n → ¬ meets k) ∧
     @mine Sha256Ref.const_sha h
     = Ok (inr (FoundNonce n (PrintHash (@BlockHash Sha256Ref.const_sha (with_nonce h n)))))) ∨
  ((∀ n, is_u32 n → ¬ meets n) ∧ @mine Sha256Ref.const_sha h = Ok (inr Exhausted)).
Proof.
  intros h. apply (Miner_mine_correct (H := Sha256Ref.const_sha) h 30 0x0fffff);
    by_decide || reflexivity.
Defined.

(** C12. Miner and node agree: whatever valid transactions and matching Merkle root a
    block has, on bits that [Main] can decode the miner either prints the least nonce
    with which [ValidateBlock] accepts the block, with that block's hash, or reports
    exhaustion when the node accepts none of the 2^32. *)
Theorem mined_block_accepted `{OpenSSL_SHA} `{!OpenSSL_EC} b height lookup e m :
  bits (header b) = compact e m → 0 ≤ e < 256 → 0 ≤ m < 2 ^ 23 →
  ValidateTransactions (transactions b) Main height lookup = Ok true →
  ComputeMerkleRoot (transactions b) = merkleRoot (header b) →
  let mined n := mkBlock (with_nonce (header b) n) (transactions b) in
  (∃ n, is_u32 n ∧ ValidateBlock (mined n) Main height lookup = Ok true ∧
     (∀ k, 0 ≤ k < n → ValidateBlock (mined k) Main height lookup = Ok false) ∧
     mine (with_nonce (header b) 0) =
       Ok (inr (FoundNonce n (PrintHash (BlockHash (header (mined n))))))) ∨
  ((∀ n, is_u32 n → ValidateBlock (mined n) Main height lookup = Ok false) ∧
   mine (with_nonce (header b) 0) = Ok (inr Exhausted)).
Proof.
  intros Hb He Hm Ht Hr mined.
  set (passes n := bool_decide (0 < compact_value e m ≤ 0x0fffff * 256 ^ 27 ∧
    be_val (BlockHash (with_nonce (header b) n)) ≤ compact_value e m)).
  assert (∀ n, ValidateBlock (mined n) Main height lookup = Ok (passes n)) as Hv.
  { intros n. unfold ValidateBlock, ValidateBlockHeader, mined. cbn [header transactions].
    rewrite (check_compact _ _ e m) by done. fold (passes n). cbn [mbind result_bind].
    destruct (passes n); [|done]. cbn [negb]. rewrite Ht. cbn [mbind result_bind negb].
    by rewrite bool_decide_true. }
  destruct (mine_spec (with_nonce (header b) 0) passes) as [(n & ? & Hp & Hlt & E)|[Hall E]].
  - intros n _. by rewrite (check_compact _ _ e m).
  - done.
  - left. exists n. rewrite Hv, Hp. split_and!; [lia..|done| |exact E].
    intros k Hk. by rewrite Hv, Hlt.
  - right. split; [|exact E]. intros n Hn. by rewrite Hv, Hall.
Qed.

Lemma mined_block_accepted_witness :
  let b := example_block example_block_txs in
  let mined n := mkBlock (with_nonce (header b) n) (transactions b) in
  let validate n := @ValidateBlock Sha256Ref.const_sha toy_EC (mined n) Main 1 example_lookup in
  (∃ n, is_u32 n ∧ validate n = Ok true ∧ (∀ k, 0 ≤ k < n → validate k = Ok false) ∧
     @mine Sha256Ref.const_sha (with_nonce (header b) 0) =
       Ok (inr (FoundNonce n (PrintHash (@BlockHash Sha256Ref.const_sha (header (mined n))))))) ∨
  ((∀ n, is_u32 n → validate n = Ok false) ∧
   @mine Sha256Ref.const_sha (with_nonce (header b) 0) = Ok (inr Exhausted)).
Proof.
  apply (@mined_block_accepted Sha256Ref.const_sha toy_EC
    (example_block example_block_txs) 1 example_lookup 30 0x0fffff);
    first [by_decide|vm_compute; reflexivity].
Defined.
