(* ===== verification/GenesisTool.v ===== *)
(** * The testnet genesis tool: testnet/genesis.cpp

    The program derives the testnet's genesis block and prints it.  [std::cout] is a
    record with the format state the manipulators set, threaded through the statements
    of [main]; an exception of [CreateGenesisBlock] ends the program without output. *)

From S2P Require Import Prelude Crypto Sha256Ref Codec Transaction Block Params Merkle.
From S2P Require Import Difficulty Genesis Strconv Miner.

(** ** [std::cout] *)

Record ostream := mkOstream { basefield : Z; fill : byte; width : Z; sent : bstr }.

Definition cout : ostream := mkOstream 10 x20 0 [].

Definition std_hex (o : ostream) : ostream := mkOstream 16 (fill o) (width o) (sent o).
Definition std_dec (o : ostream) : ostream := mkOstream 10 (fill o) (width o) (sent o).
Definition setw (n : Z) (o : ostream) : ostream := mkOstream (basefield o) (fill o) n (sent o).
Definition setfill (c : byte) (o : ostream) : ostream := mkOstream (basefield o) c (width o) (sent o).

(** Formatted output pads on the left to the width and resets it. *)
Definition put (s : bstr) (o : ostream) : ostream :=
  mkOstream (basefield o) (fill o) 0
    (sent o ++ replicate (Z.to_nat (width o - zlen s)) (fill o) ++ s).
Definition put_int (v : Z) (o : ostream) : ostream := put (print_num (basefield o) v) o.

(** ** The program *)

(** The loop body of [PrintUint256] (16). *)
Definition print_byte (o : ostream) (b : byte) : ostream :=
  put_int (byte_to_Z b) (setfill x30 (setw 2 (std_hex o))).
Definition PrintUint256 (v : uint256) (o : ostream) : ostream := foldl print_byte o v.

Definition endline (o : ostream) : ostream := put [x0a] o.

Section Main.
  Context `{OpenSSL_SHA} `{Boost}.

(** The statements of [main] after the derivation (24-36). *)
Definition print_genesis (params : Params) (genesis : Block) (o : ostream) : ostream :=
  let o := std_dec o in
  let o := endline (put_int (nGenesisTime params) (put (lit "Genesis time: ") o)) in
  let o := endline (put_int (nGenesisBits params) (std_hex (put (lit "Genesis bits: 0x") o))) in
  let o := endline (put_int (nonce (header genesis)) (std_dec (put (lit "Genesis nonce: ") o))) in
  let o := endline (PrintUint256 (merkleRoot (header genesis)) (put (lit "Merkle root: 0x") o)) in
  endline (PrintUint256 (BlockHash (header genesis)) (put (lit "Block hash: 0x") o)).

Definition genesis_main : result (bstr * Z) :=
  let params := Testnet in
  genesis ← CreateGenesisBlock params;
  Ok (sent (print_genesis params genesis cout), 0).

End Main.

(** ** What the stream holds *)

Lemma put_ready s b f t : put s (mkOstream b f 0 t) = mkOstream b f 0 (t ++ s).
Proof.
  unfold put. cbn [basefield fill width sent].
  by replace (Z.to_nat (0 - zlen s)) with 0%nat by lia.
Qed.
Lemma put_int_ready v b f t :
  put_int v (mkOstream b f 0 t) = mkOstream b f 0 (t ++ print_num b v).
Proof. apply put_ready. Qed.
Lemma endline_ready b f t : endline (mkOstream b f 0 t) = mkOstream b f 0 (t ++ [x0a]).
Proof. apply put_ready. Qed.

Lemma print_byte_digits o b : width o = 0 →
  print_byte o b = mkOstream 16 x30 0 (sent o ++
    [hex_digit (byte_to_Z b `div` 16); hex_digit (byte_to_Z b `mod` 16)]).
Proof.
  intros Hw. unfold print_byte, put_int, put. cbn [basefield fill width sent std_hex setw setfill].
  do 2 f_equal. by destruct b; vm_compute.
Qed.

Lemma PrintUint256_ready v b f t : v ≠ [] →
  PrintUint256 v (mkOstream b f 0 t) = mkOstream 16 x30 0 (t ++ PrintHash v).
Proof.
  unfold PrintUint256. revert b f t. induction v as [|c v IH]; intros b f t Hv; [done|].
  cbn [foldl]. rewrite print_byte_digits by done. unfold PrintHash. rewrite bind_cons.
  fold (PrintHash v). destruct v as [|d v]; [done|].
  rewrite IH by done. cbn [sent]. by rewrite <-(assoc_L (++)).
Qed.

Lemma std_hex_ready b f w t : std_hex (mkOstream b f w t) = mkOstream 16 f w t.
Proof. done. Qed.
Lemma std_dec_ready b f w t : std_dec (mkOstream b f w t) = mkOstream 10 f w t.
Proof. done. Qed.

Create Rewrite HintDb ostream.
#[local] Hint Rewrite put_ready put_int_ready endline_ready std_hex_ready std_dec_ready : ostream.

Lemma is_hash_nonempty h : is_hash h → h ≠ [].
Proof. by intros ? ->. Qed.

Lemma print_genesis_sent `{OpenSSL_SHA} params g :
  is_hash (merkleRoot (header g)) →
  sent (print_genesis params g cout) =
    (lit "Genesis time: " ++ print_num 10 (nGenesisTime params) ++ [x0a]) ++
    (lit "Genesis bits: 0x" ++ print_num 16 (nGenesisBits params) ++ [x0a]) ++
    (lit "Genesis nonce: " ++ print_num 10 (nonce (header g)) ++ [x0a]) ++
    (lit "Merkle root: 0x" ++ PrintHash (merkleRoot (header g)) ++ [x0a]) ++
    (lit "Block hash: 0x" ++ PrintHash (BlockHash (header g)) ++ [x0a]).
Proof.
  intros Hr%is_hash_nonempty.
  pose proof (is_hash_nonempty _ (BlockHash_is_hash (header g))) as Hh.
  unfold print_genesis, cout. autorewrite with ostream.
  rewrite (PrintUint256_ready (merkleRoot _)) by exact Hr. autorewrite with ostream.
  rewrite (PrintUint256_ready (BlockHash _)) by exact Hh. autorewrite with ostream.
  cbn [sent]. by rewrite app_nil_l, <-!(assoc_L (++)).
Qed.

Lemma mine_step_nonce `{OpenSSL_SHA} `{Boost} n : ∀ g i b,
  loop_nat n mine_step (g, i) = Ok (inr b) →
  ∃ k, i ≤ k < i + Z.of_nat n ∧ b = set_nonce g k.
Proof.
  induction n as [|n IH]; intros g i b E; [done|]. cbn [loop_nat] in E.
  unfold mine_step in E at 1. destruct (CheckProofOfWork _) as [[]| |]; cbn in E; try done.
  - injection E as <-. exists i. split; [lia|done].
  - apply IH in E as (k & ? & ->). exists k. split; [lia|done].
Qed.

Lemma CreateGenesisBlock_shape `{OpenSSL_SHA} `{Boost} params g :
  is_u32 (nGenesisNonce params) → CreateGenesisBlock params = Ok g →
  ∃ n, is_u32 n ∧ g = genesis_block params n.
Proof.
  intros Hn E. unfold CreateGenesisBlock in E.
  change (mkBlock _ _) with (genesis_block params (nGenesisNonce params)) in E. simplify_result.
  match type of E with (if ?ok then _ else _) = _ => destruct ok end; simplify_result.
  { by eexists. }
  revert E. unfold MineGenesis. rewrite loop_m_nat. set (N := Pos.to_nat 4294967295).
  assert (Z.of_nat N = UINT32_MAX) as HN by (unfold N; by rewrite positive_nat_Z). clearbody N.
  destruct (loop_nat N _ _) as [[|b]| |] eqn:El; cbn [mbind result_bind]; try done.
  intros [= <-]. apply mine_step_nonce in El as (k & Hk & ->).
  exists k. split; [unfold UINT32_MAX in *; lia|done].
Qed.

(** ** Properties *)

(** C20. The tool prints the block: when [CreateGenesisBlock] returns, the output is the
    five labelled lines, and the numbers and hashes in them, read with the miner's
    conversions, are the nonce, the Merkle root and the hash of that block; when it
    throws, the program ends with that exception. *)
Theorem genesis_main_output `{OpenSSL_SHA} `{Boost} :
  match CreateGenesisBlock Testnet with
  | Ok g => ∃ n root hash,
      genesis_main = Ok (lit "Genesis time: 1735689600" ++ [x0a] ++
        lit "Genesis bits: 0x1f00ffff" ++ [x0a] ++
        lit "Genesis nonce: " ++ n ++ [x0a] ++
        lit "Merkle root: 0x" ++ root ++ [x0a] ++
        lit "Block hash: 0x" ++ hash ++ [x0a], 0) ∧
      stoul n 10 = Ok (nonce (header g)) ∧
      FromHex root = Ok (merkleRoot (header g)) ∧
      FromHex hash = Ok (BlockHash (header g))
  | Throw e => genesis_main = Throw e
  | Undef u => genesis_main = Undef u
  end.
Proof.
  unfold genesis_main. destruct (CreateGenesisBlock Testnet) as [g| |] eqn:E; [|done..].
  apply CreateGenesisBlock_shape in E as (n & Hn & ->); [|by_decide]. cbn [mbind result_bind].
  assert (is_hash (merkleRoot (header (genesis_block Testnet n)))) as Hr
    by apply TaggedHash_is_hash.
  pose proof (BlockHash_is_hash (header (genesis_block Testnet n))) as Hh.
  exists (print_num 10 n), (PrintHash (merkleRoot (header (genesis_block Testnet n)))),
    (PrintHash (BlockHash (header (genesis_block Testnet n)))).
  split; [|split; [apply stoul_print; [lia|cbn; lia]|split; by apply FromHex_PrintHash]].
  rewrite print_genesis_sent by done. rewrite <-!(assoc_L (++)). reflexivity.
Qed.
