(* ===== verification/Gpu.v ===== *)
(** * The GPU miners: miners/gpu-cuda/kernel.cu, miners/gpu-opencl/sha256d.cl

    Two kernels with one algorithm.  The first part is what one thread computes; the
    second interleaves the threads of a launch over the shared [found] and [solution].
    A [uint32_t] is a [Z] below 2^32, an array a list; the arrays have the sizes of the
    source, so an index is never out of range. *)

From S2P Require Import Prelude Crypto Sha256Ref.

(** ** The word functions (kernel.cu 7-19) *)

Definition rotr (x n : Z) : Z := Z.lor (Z.shiftr x n) (u32 (Z.shiftl x (32 - n))).
Definition ch (x y z : Z) : Z := Z.lxor (Z.land x y) (Z.land (u32 (Z.lnot x)) z).
Definition maj (x y z : Z) : Z := Z.lxor (Z.lxor (Z.land x y) (Z.land x z)) (Z.land y z).
Definition big0 (x : Z) : Z := Z.lxor (Z.lxor (rotr x 2) (rotr x 13)) (rotr x 22).
Definition big1 (x : Z) : Z := Z.lxor (Z.lxor (rotr x 6) (rotr x 11)) (rotr x 25).
Definition sm0 (x : Z) : Z := Z.lxor (Z.lxor (rotr x 7) (rotr x 18)) (Z.shiftr x 3).
Definition sm1 (x : Z) : Z := Z.lxor (Z.lxor (rotr x 17) (rotr x 19)) (Z.shiftr x 10).

(** Eight 32-bit words, the first the most significant. *)
Definition row (v : Z) : list Z :=
  (λ i, u32 (Z.shiftr v (32 * (7 - i)))) <$> seqZ 0 8.

(** The table, a source line to a number. *)
Definition K : list Z := Eval vm_compute in mjoin (row <$> [
  0x428a2f9871374491b5c0fbcfe9b5dba53956c25b59f111f1923f82a4ab1c5ed5;
  0xd807aa9812835b01243185be550c7dc372be5d7480deb1fe9bdc06a7c19bf174;
  0xe49b69c1efbe47860fc19dc6240ca1cc2de92c6f4a7484aa5cb0a9dc76f988da;
  0x983e5152a831c66db00327c8bf597fc7c6e00bf3d5a7914706ca635114292967;
  0x27b70a852e1b21384d2c6dfc53380d13650a7354766a0abb81c2c92e92722c85;
  0xa2bfe8a1a81a664bc24b8b70c76c51a3d192e819d6990624f40e3585106aa070;
  0x19a4c1161e376c082748774c34b0bcb5391c0cb34ed8aa4a5b9cca4f682e6ff3;
  0x748f82ee78a5636f84c878148cc7020890befffaa4506cebbef9a3f7c67178f2]).

(** The initialiser of [state] and [state2]. *)
Definition initial_state : list Z := Eval vm_compute in
  row 0x6a09e667bb67ae853c6ef372a54ff53a510e527f9b05688c1f83d9ab5be0cd19.

(** ** Compression *)

(** The loop body of [sha256_round] on the variables [a .. h]. *)
Definition round_step (w : list Z) (vars : list Z) (i : nat) : list Z :=
  match vars with
  | [a; b; c; d; e; f; g; h] =>
      let t1 := u32 (h + big1 e + ch e f g + K !!! i + w !!! i) in
      let t2 := u32 (big0 a + maj a b c) in
      [u32 (t1 + t2); a; b; c; u32 (d + t1); e; f; g]
  | _ => vars
  end.

Definition sha256_round (state w : list Z) : list Z :=
  let vars := foldl (round_step w) state (seq 0 64) in
  zip_with (λ s v, u32 (s + v)) state vars.

(** [for (int i=16;i<64;++i) w[i] = ...], the loop after each of the four blocks. *)
Definition expand_step (w : list Z) (i : nat) : list Z :=
  <[i := u32 (sm1 (w !!! (i - 2)%nat) + w !!! (i - 7)%nat + sm0 (w !!! (i - 15)%nat)
              + w !!! (i - 16)%nat)]> w.
Definition expand (w : list Z) : list Z := foldl expand_step w (seq 16 48).

(** [sha256_compress] of the OpenCL kernel, which expands a block of 16 itself. *)
Definition sha256_compress (state w_in : list Z) : list Z :=
  sha256_round state (expand (take 16 w_in ++ replicate 48 0)).

(** ** What one thread hashes *)

(** [header], the nonce in its last four bytes, the most significant first. *)
Definition thread_header (header76 : list byte) (nonce : Z) : list byte :=
  ((λ i, header76 !!! i) <$> seq 0 76) ++
  [byte_of_Z (Z.land (Z.shiftr nonce 24) 0xff); byte_of_Z (Z.land (Z.shiftr nonce 16) 0xff);
   byte_of_Z (Z.land (Z.shiftr nonce 8) 0xff); byte_of_Z (Z.land nonce 0xff)].

(** The big-endian word at index [i] of [header]. *)
Definition load_word (header : list byte) (i : nat) : Z :=
  let at_ j := byte_to_Z (header !!! (i * 4 + j)%nat) in
  Z.lor (Z.lor (Z.lor (u32 (Z.shiftl (at_ 0%nat) 24)) (u32 (Z.shiftl (at_ 1%nat) 16)))
    (u32 (Z.shiftl (at_ 2%nat) 8))) (at_ 3%nat).

(** The four blocks, as initialised (61-63, 70-72, 77-80, 87-89). *)
Definition block0 (header : list byte) : list Z := load_word header <$> seq 0 16.
Definition block1 : list Z := <[15%nat := 80 * 8]> (<[0%nat := 0x80000000]> (replicate 16 0)).
Definition block2 (state : list Z) : list Z :=
  <[15%nat := 32 * 8]> (<[8%nat := 0x80000000]> (take 8 state ++ replicate 8 0)).
Definition block3 : list Z := <[15%nat := 32 * 8]> (<[8%nat := 0x80000000]> (replicate 16 0)).

(** A 64-word array whose first 16 are a block. *)
Definition w64 (block : list Z) : list Z := expand (block ++ replicate 48 0).

(** [state2] before the test: kernel.cu 53-92, sha256d.cl 50-84. *)
Definition cuda_digest (header76 : list byte) (nonce : Z) : list Z :=
  let header := thread_header header76 nonce in
  let state := sha256_round initial_state (w64 (block0 header)) in
  let state := sha256_round state (w64 block1) in
  let state2 := sha256_round initial_state (w64 (block2 state)) in
  sha256_round state2 (w64 block3).

Definition opencl_digest (header76 : list byte) (nonce : Z) : list Z :=
  let header := thread_header header76 nonce in
  let state := sha256_compress initial_state (block0 header) in
  let state := sha256_compress state block1 in
  let state2 := sha256_compress initial_state (block2 state) in
  sha256_compress state2 block3.

(** ** Words stay in 32 bits *)

Lemma u32_testbit z i : 0 ≤ i → Z.testbit (u32 z) i = bool_decide (i < 32) && Z.testbit z i.
Proof.
  intros Hi. unfold u32. case_bool_decide.
  - by rewrite Z.mod_pow2_bits_low by lia.
  - by rewrite Z.mod_pow2_bits_high by lia.
Qed.

Lemma u32_lor a b : u32 (Z.lor a b) = Z.lor (u32 a) (u32 b).
Proof.
  apply Z.bits_inj'. intros i Hi. rewrite Z.lor_spec, !u32_testbit, Z.lor_spec by done.
  by destruct (bool_decide _).
Qed.
Lemma u32_lxor a b : u32 (Z.lxor a b) = Z.lxor (u32 a) (u32 b).
Proof.
  apply Z.bits_inj'. intros i Hi. rewrite Z.lxor_spec, !u32_testbit, Z.lxor_spec by done.
  by destruct (bool_decide _).
Qed.

Lemma is_u32_iff z : is_u32 z ↔ u32 z = z.
Proof. split; [apply u32_id|]. intros <-. apply u32_range. Qed.

Lemma shiftr_u32 x n : is_u32 x → 0 ≤ n → is_u32 (Z.shiftr x n).
Proof.
  intros Hx Hn. rewrite Z.shiftr_div_pow2 by done.
  assert (0 < 2 ^ n) by (apply Z.pow_pos_nonneg; lia).
  split; [apply Z.div_pos; lia|]. apply Z.div_lt_upper_bound; nia.
Qed.

Lemma rotr_ref x n : is_u32 x → 0 ≤ n → rotr x n = Sha256Ref.rotr x n.
Proof.
  intros Hx Hn. unfold rotr, Sha256Ref.rotr. rewrite u32_lor. f_equal.
  symmetry. apply u32_id. by apply shiftr_u32.
Qed.

Lemma big0_ref x : is_u32 x → big0 x = Sha256Ref.bsig0 x.
Proof. intros. unfold big0, Sha256Ref.bsig0. by rewrite !rotr_ref, Z.lxor_assoc by lia. Qed.
Lemma big1_ref x : is_u32 x → big1 x = Sha256Ref.bsig1 x.
Proof. intros. unfold big1, Sha256Ref.bsig1. by rewrite !rotr_ref, Z.lxor_assoc by lia. Qed.
Lemma sm0_ref x : is_u32 x → sm0 x = Sha256Ref.ssig0 x.
Proof. intros. unfold sm0, Sha256Ref.ssig0. by rewrite !rotr_ref, Z.lxor_assoc by lia. Qed.
Lemma sm1_ref x : is_u32 x → sm1 x = Sha256Ref.ssig1 x.
Proof. intros. unfold sm1, Sha256Ref.ssig1. by rewrite !rotr_ref, Z.lxor_assoc by lia. Qed.
Lemma ch_ref x y z : is_u32 x → ch x y z = Sha256Ref.ch x y z.
Proof.
  intros. unfold ch, Sha256Ref.ch, UINT32_MAX. do 2 f_equal.
  unfold u32, Z.lnot. symmetry. apply (Z.mod_unique _ _ (-1)); lia.
Qed.
Lemma maj_ref x y z : maj x y z = Sha256Ref.maj x y z.
Proof. unfold maj, Sha256Ref.maj. by rewrite Z.lxor_assoc. Qed.

Abbreviation words_ok l := (Forall (λ z, is_u32 z) l).

Lemma u32_add_l a b : u32 (u32 a + b) = u32 (a + b).
Proof. unfold u32. apply Zplus_mod_idemp_l. Qed.
Lemma u32_add_r a b : u32 (a + u32 b) = u32 (a + b).
Proof. unfold u32. apply Zplus_mod_idemp_r. Qed.

(** ** The schedule is the reference's *)

Lemma rev_reverse {A} (l : list A) : rev l = reverse l.
Proof. apply rev_alt. Qed.

Lemma expand_step_ref (l : list Z) m :
  words_ok l → (16 ≤ length l)%nat →
  expand_step (rev l ++ replicate (S m) 0) (length l) = rev (Sha256Ref.sched_next l :: l) ++ replicate m 0.
Proof.
  intros Hl Hn. unfold expand_step, Sha256Ref.sched_next.
  assert (∀ k, (1 ≤ k ≤ 16)%nat →
    (rev l ++ replicate (S m) 0) !!! (length l - k)%nat = l !!! (k - 1)%nat ∧
    is_u32 (l !!! (k - 1)%nat)) as Hk.
  { intros k Hk. destruct (lookup_lt_is_Some_2 l (k - 1)) as [x Hx]; [lia|]. split.
    - apply list_lookup_total_correct. rewrite lookup_app_l by (rewrite length_rev; lia).
      rewrite rev_reverse, reverse_lookup by lia.
      replace (length l - S (length l - k))%nat with (k - 1)%nat by lia.
      rewrite Hx. by rewrite (list_lookup_total_correct _ _ _ Hx).
    - rewrite (list_lookup_total_correct _ _ _ Hx). rewrite Forall_forall in Hl.
      by apply Hl, list_elem_of_lookup_2 with (k - 1)%nat. }
  destruct (Hk 2%nat ltac:(lia)) as [-> H2]. destruct (Hk 7%nat ltac:(lia)) as [-> _].
  destruct (Hk 15%nat ltac:(lia)) as [-> H15]. destruct (Hk 16%nat ltac:(lia)) as [-> _].
  cbn [Nat.sub] in *.
  rewrite sm1_ref, sm0_ref by done. set (v := u32 _).
  rewrite insert_app_r_alt by (rewrite length_rev; lia).
  rewrite length_rev, Nat.sub_diag. cbn [rev]. rewrite <-(assoc_L (++)). done.
Qed.

Lemma sched_next_u32 l : is_u32 (Sha256Ref.sched_next l).
Proof. apply u32_range. Qed.

Lemma expand_sched n l :
  words_ok l → (16 ≤ length l)%nat →
  foldl expand_step (rev l ++ replicate n 0) (seq (length l) n) = Sha256Ref.sched n l.
Proof.
  revert l. induction n as [|n IH]; intros l Hl Hn; [by rewrite app_nil_r|].
  cbn [seq foldl Sha256Ref.sched]. rewrite expand_step_ref by done.
  apply (IH (Sha256Ref.sched_next l :: l)); [|cbn; lia].
  constructor; [apply sched_next_u32|done].
Qed.

Lemma w64_sched block : words_ok block → length block = 16%nat →
  w64 block = Sha256Ref.sched 48 (rev block).
Proof.
  intros Hb Hl. unfold w64, expand. rewrite <-expand_sched.
  - by rewrite rev_involutive, length_rev, Hl.
  - rewrite rev_reverse. by apply Forall_reverse.
  - by rewrite length_rev, Hl.
Qed.

Lemma sched_length n l : length (Sha256Ref.sched n l) = (length l + n)%nat.
Proof.
  revert l. induction n as [|n IH]; intros l; cbn [Sha256Ref.sched]; [rewrite length_rev; lia|].
  rewrite IH. cbn. lia.
Qed.

(** ** The rounds are the reference's *)

Definition state_ok (s : list Z) : Prop := length s = 8%nat ∧ words_ok s.

Lemma round_step_ref w vars i : state_ok vars →
  round_step w vars i = Sha256Ref.round vars (K !!! i, w !!! i) ∧
  state_ok (round_step w vars i).
Proof.
  intros [Hl Hw]. destruct vars as [|a [|b [|c [|d [|e [|f [|g [|h [|]]]]]]]]]; try done.
  rewrite !Forall_cons in Hw. destruct Hw as (Ha & Hb & Hc & Hd & He & Hf & Hg & Hh & _).
  cbn [round_step Sha256Ref.round fst snd].
  rewrite big0_ref, big1_ref, ch_ref, maj_ref by done. split.
  - rewrite !u32_add_l, !u32_add_r. done.
  - split; [done|]. repeat (constructor; [by (apply u32_range || done)|]). constructor.
Qed.

Lemma rounds_ref w vars l : state_ok vars →
  foldl (round_step w) vars l = foldl Sha256Ref.round vars ((λ i, (K !!! i, w !!! i)) <$> l) ∧
  state_ok (foldl (round_step w) vars l).
Proof.
  revert vars. induction l as [|i l IH]; intros vars Hv; [done|]. cbn [foldl].
  rewrite fmap_cons. cbn [foldl]. destruct (round_step_ref w vars i Hv) as [E Hv'].
  rewrite <-E. by apply IH.
Qed.

Lemma zip_index (k w : list Z) n : length k = n → length w = n →
  (λ i, (k !!! i, w !!! i)) <$> seq 0 n = zip k w.
Proof.
  revert k w. induction n as [|n IH]; intros [|x k] [|y w] Hk Hw; try done.
  injection Hk as Hk. injection Hw as Hw. cbn [seq fmap list_fmap].
  rewrite <-fmap_S_seq, <-list_fmap_compose. exact (f_equal (cons (x, y)) (IH k w Hk Hw)).
Qed.

Lemma sha256_round_ref state block :
  state_ok state → words_ok block → length block = 16%nat →
  sha256_round state (w64 block) = Sha256Ref.compress state block ∧
  state_ok (sha256_round state (w64 block)).
Proof.
  intros Hs Hb Hl. unfold sha256_round, Sha256Ref.compress. rewrite (w64_sched _ Hb Hl).
  set (w := Sha256Ref.sched 48 (rev block)).
  destruct (rounds_ref w state (seq 0 64) Hs) as [E [Hl' Hw']]. split.
  - rewrite E. change Sha256Ref.K with K. rewrite zip_index; [done..|].
    unfold w. rewrite sched_length, length_rev, Hl. done.
  - split; [rewrite length_zip_with, Hl'; by destruct Hs as [-> _]|].
    apply Forall_lookup. intros i z (x & y & -> & _)%lookup_zip_with_Some. apply u32_range.
Qed.

(** ** The digest, against the reference compression function *)

Lemma load_word_0 a b c d l : load_word (a :: b :: c :: d :: l) 0 = be_val [a; b; c; d].
Proof.
  change [a; b; c; d] with (reverse [d; c; b; a]). rewrite be_val_reverse.
  pose proof (byte_to_Z_range a). pose proof (byte_to_Z_range b). pose proof (byte_to_Z_range c).
  rewrite !le_val_lor. unfold load_word. cbn [Nat.mul Nat.add lookup_total list_lookup_total].
  change (le_val []) with 0. rewrite Z.shiftl_0_l, Z.lor_0_r.
  rewrite !Z.shiftl_lor, !Z.shiftl_shiftl by lia. cbn [Z.add Pos.add Pos.succ].
  rewrite !u32_id by (rewrite Z.shiftl_mul_pow2 by lia; lia).
  rewrite Z.lor_comm. f_equal. rewrite Z.lor_comm. f_equal. apply Z.lor_comm.
Qed.

Lemma block_words n : ∀ l, (4 * n ≤ length l)%nat →
  load_word l <$> seq 0 n = Sha256Ref.words (take (4 * n) l).
Proof.
  induction n as [|n IH]; intros l Hl; [by rewrite take_0|].
  destruct l as [|a [|b [|c [|d l]]]]; cbn [length] in Hl; try lia.
  replace (4 * S n)%nat with (S (S (S (S (4 * n)))))%nat by lia.
  rewrite !firstn_cons. cbn [Sha256Ref.words seq]. rewrite fmap_cons, load_word_0, <-fmap_S_seq,
    <-list_fmap_compose, <-(IH l) by lia.
  reflexivity.
Qed.

Lemma words_u32 n : ∀ l, (length l ≤ n)%nat → words_ok (Sha256Ref.words l).
Proof.
  induction n as [|n IH]; intros l Hl; (destruct l as [|a [|b [|c [|d l]]]]; try by constructor).
  { cbn in Hl. lia. }
  cbn [Sha256Ref.words]. constructor.
  - pose proof (be_val_range [a; b; c; d]) as H. exact H.
  - apply IH. cbn in Hl. lia.
Qed.

Lemma index_id {A} `{Inhabited A} (l : list A) : (λ i, l !!! i) <$> seq 0 (length l) = l.
Proof.
  induction l as [|x l IH]; [done|]. cbn [length seq]. rewrite fmap_cons. f_equal.
  by rewrite <-fmap_S_seq, <-list_fmap_compose.
Qed.

(** The header's first 76 bytes are [header76]; the loads of [w0] reach byte 63. *)
Lemma thread_header_take header76 nonce : length header76 = 76%nat →
  take 64 (thread_header header76 nonce) = take 64 header76.
Proof.
  intros Hl. unfold thread_header. rewrite <-Hl, index_id. by rewrite take_app_le by (rewrite Hl; lia).
Qed.

Lemma thread_header_length header76 nonce : length (thread_header header76 nonce) = 80%nat.
Proof. done. Qed.

Lemma block0_ref header76 nonce : length header76 = 76%nat →
  block0 (thread_header header76 nonce) = Sha256Ref.words (take 64 header76).
Proof.
  intros Hl. unfold block0. rewrite block_words by (rewrite thread_header_length; lia).
  change (4 * 16)%nat with 64%nat. by rewrite thread_header_take.
Qed.

Lemma initial_state_ok : state_ok initial_state.
Proof. split; [done|by_decide]. Qed.
Lemma block1_ok : words_ok block1 ∧ length block1 = 16%nat.
Proof. split; [by_decide|done]. Qed.
Lemma block3_ok : words_ok block3 ∧ length block3 = 16%nat.
Proof. split; [by_decide|done]. Qed.
Lemma block0_ok header76 nonce : length header76 = 76%nat →
  words_ok (block0 (thread_header header76 nonce)) ∧
  length (block0 (thread_header header76 nonce)) = 16%nat.
Proof. intros Hl. split; [|done]. rewrite block0_ref by done. by eapply words_u32. Qed.
Lemma block2_ok state : state_ok state → words_ok (block2 state) ∧ length (block2 state) = 16%nat.
Proof.
  intros [Hl Hw]. destruct state as [|a [|b [|c [|d [|e [|f [|g [|h [|]]]]]]]]]; try done.
  split; [|done]. rewrite !Forall_cons in Hw. destruct_and! Hw.
  repeat (constructor; [done|]). constructor.
Qed.

Lemma block2_app state : length state = 8%nat →
  block2 state = state ++ 0x80000000 :: replicate 6 0 ++ [256].
Proof.
  intros Hl. destruct state as [|a [|b [|c [|d [|e [|f [|g [|h [|]]]]]]]]]; first [discriminate Hl|reflexivity].
Qed.

(** What one thread computes, on both kernels. *)
Lemma cuda_digest_compress header76 nonce : length header76 = 76%nat →
  let state := Sha256Ref.compress (Sha256Ref.compress initial_state
                 (Sha256Ref.words (take 64 header76))) block1 in
  cuda_digest header76 nonce =
    Sha256Ref.compress (Sha256Ref.compress initial_state (block2 state)) block3 ∧
  state_ok state ∧ state_ok (cuda_digest header76 nonce).
Proof.
  intros Hl. unfold cuda_digest. rewrite <-block0_ref with (nonce := nonce) by done. cbv zeta.
  destruct (block0_ok header76 nonce Hl) as [Hb0 Hl0], block1_ok as [Hb1 Hl1], block3_ok as [Hb3 Hl3].
  destruct (sha256_round_ref initial_state _ initial_state_ok Hb0 Hl0) as [E1 H1].
  destruct (sha256_round_ref _ _ H1 Hb1 Hl1) as [E2 H2].
  destruct (block2_ok _ H2) as [Hb2 Hl2].
  destruct (sha256_round_ref initial_state _ initial_state_ok Hb2 Hl2) as [E3 H3].
  destruct (sha256_round_ref _ _ H3 Hb3 Hl3) as [E4 H4].
  rewrite <-E1, <-E2, <-E3, <-E4. split; [reflexivity|]. split; [exact H2|exact H4].
Qed.

Lemma sha256_compress_round state block : length block = 16%nat →
  sha256_compress state block = sha256_round state (w64 block).
Proof. intros Hl. unfold sha256_compress, w64. rewrite take_ge by lia. reflexivity. Qed.

Lemma opencl_digest_cuda header76 nonce : length header76 = 76%nat →
  opencl_digest header76 nonce = cuda_digest header76 nonce.
Proof.
  intros Hl. unfold opencl_digest, cuda_digest. cbv zeta.
  destruct (block0_ok header76 nonce Hl) as [Hb0 Hl0], block1_ok as [Hb1 Hl1], block3_ok as [_ Hl3].
  rewrite !(sha256_compress_round _ (block0 _)), !(sha256_compress_round _ block1),
    !(sha256_compress_round _ block3) by done.
  destruct (sha256_round_ref initial_state _ initial_state_ok Hb0 Hl0) as [_ H1].
  destruct (sha256_round_ref _ _ H1 Hb1 Hl1) as [_ H2].
  by rewrite sha256_compress_round by apply (block2_ok _ H2).
Qed.

(** ** A launch: the threads interleaved *)

Inductive kernel := cuda | opencl.

Definition digest (k : kernel) : list byte → Z → list Z :=
  match k with cuda => cuda_digest | opencl => opencl_digest end.

Lemma digest_cuda k header76 nonce : length header76 = 76%nat →
  digest k header76 nonce = cuda_digest header76 nonce.
Proof. intros Hl. destruct k; cbn [digest]; [reflexivity|by apply opencl_digest_cuda]. Qed.

(** The OpenCL kernel reads [*found] once more before the exchange. *)
Definition rechecks (k : kernel) : bool :=
  match k with cuda => false | opencl => true end.

Record args := Args { header76 : list byte; nonceStart : Z; target : list Z }.

(** [nonceStart + gid], both [uint32_t]. *)
Definition thread_nonce (a : args) (gid : nat) : Z :=
  u32 (nonceStart a + u32 (Z.of_nat gid)).

Definition passes (k : kernel) (a : args) (gid : nat) : bool :=
  bool_decide (digest k (header76 a) (thread_nonce a gid) !!! 7%nat ≤ target a !!! 7%nat).

(** The nine words the winner stores. *)
Definition winner_words (k : kernel) (a : args) (gid : nat) : list Z :=
  thread_nonce a gid :: digest k (header76 a) (thread_nonce a gid).

(** Where a thread stands: at the first read of [*found], at its test, at the second
    read, at the exchange, about to store word [i] of [solution], or returned. *)
Inductive thread := T_start | T_test | T_recheck | T_cas | T_write (i : nat) | T_done.

Record device := Device { found : Z; solution : list Z; threads : list thread }.

Definition thread_step (k : kernel) (a : args) (gid : nat) (t : thread)
    (fnd : Z) (sol : list Z) : thread * Z * list Z :=
  match t with
  | T_start => (if bool_decide (fnd = 0) then T_test else T_done, fnd, sol)
  | T_test =>
      (if passes k a gid then if rechecks k then T_recheck else T_cas else T_done, fnd, sol)
  | T_recheck => (if bool_decide (fnd = 0) then T_cas else T_done, fnd, sol)
  | T_cas => if bool_decide (fnd = 0) then (T_write 0, 1, sol) else (T_done, fnd, sol)
  | T_write i =>
      (if bool_decide (i < 8)%nat then T_write (S i) else T_done, fnd,
       <[i := winner_words k a gid !!! i]> sol)
  | T_done => (T_done, fnd, sol)
  end.

(** One access to memory by one thread that has not returned. *)
Inductive launch_step (k : kernel) (a : args) : device → device → Prop :=
  | Step d gid t t' fnd sol :
      threads d !! gid = Some t → t ≠ T_done →
      thread_step k a gid t (found d) (solution d) = (t', fnd, sol) →
      launch_step k a d (Device fnd sol (<[gid := t']> (threads d))).

(** [n] threads, [*found] cleared, [solution] as the host left it. *)
Definition launch (n : nat) (sol : list Z) : device := Device 0 sol (replicate n T_start).

#[export] Instance thread_eq_dec : EqDecision thread.
Proof. solve_decision. Defined.

(** A schedule names the thread that moves; one that has returned does nothing. *)
Definition move (k : kernel) (a : args) (d : device) (gid : nat) : device :=
  match threads d !! gid with
  | None | Some T_done => d
  | Some t =>
      let '(t', fnd, sol) := thread_step k a gid t (found d) (solution d) in
      Device fnd sol (<[gid := t']> (threads d))
  end.
Definition run (k : kernel) (a : args) (d : device) (schedule : list nat) : device :=
  foldl (move k a) d schedule.

(** ** Properties *)

Section Launch.
Context (k : kernel) (a : args).

Definition writing (d : device) (gid : nat) : Prop := ∃ i, threads d !! gid = Some (T_write i).

Lemma move_step d gid : rtc (launch_step k a) d (move k a d gid).
Proof.
  unfold move. destruct (threads d !! gid) as [t|] eqn:Ht; [|reflexivity].
  destruct (decide (t = T_done)) as [->|Hnd]; [reflexivity|].
  destruct (thread_step k a gid t (found d) (solution d)) as [[t' fnd] sol] eqn:E.
  destruct t; try done; apply rtc_once; by eapply Step.
Qed.

Lemma run_steps schedule : ∀ d, rtc (launch_step k a) d (run k a d schedule).
Proof.
  induction schedule as [|gid l IH]; intros d; [reflexivity|].
  etrans; [apply (move_step d gid)|apply IH].
Qed.

(** Nobody has won: [found] and [solution] are untouched, nobody writes, and a thread
    that has returned failed its test. *)
Definition open (sol : list Z) (d : device) : Prop :=
  found d = 0 ∧ solution d = sol ∧
  ∀ gid t, threads d !! gid = Some t →
    match t with
    | T_write _ => False
    | T_done => passes k a gid = false
    | T_recheck | T_cas => passes k a gid = true
    | T_start | T_test => True
    end.

(** Thread [w] has won and stored [i] of the nine words; nobody else writes. *)
Definition won (sol : list Z) (d : device) : Prop :=
  found d = 1 ∧ ∃ w i, (i ≤ 9)%nat ∧ passes k a w = true ∧
  solution d = take i (winner_words k a w) ++ drop i sol ∧
  threads d !! w = Some (if bool_decide (i < 9)%nat then T_write i else T_done) ∧
  ∀ gid t, threads d !! gid = Some t → gid ≠ w →
    match t with T_write _ => False | _ => True end.

Definition invariant (n : nat) (sol : list Z) (d : device) : Prop :=
  length (threads d) = n ∧ (open sol d ∨ won sol d).

Lemma launch_invariant n sol : invariant n sol (launch n sol).
Proof.
  split; [apply length_replicate|]. left. split_and!; [done..|].
  by intros gid t [-> _]%lookup_replicate.
Qed.

Lemma open_step sol d gid t t' fnd sol' :
  length sol = 9%nat → open sol d → threads d !! gid = Some t → t ≠ T_done →
  thread_step k a gid t (found d) (solution d) = (t', fnd, sol') →
  open sol (Device fnd sol' (<[gid := t']> (threads d))) ∨
  won sol (Device fnd sol' (<[gid := t']> (threads d))).
Proof.
  intros Hsol (H0 & Hs & Ht) Hg Hnd E. pose proof (Ht gid t Hg) as Hme.
  pose proof (lookup_lt_Some _ _ _ Hg) as Hlt.
  assert (∀ t', match t' with T_write _ => False | T_done => passes k a gid = false
                | T_recheck | T_cas => passes k a gid = true | _ => True end →
    open sol (Device (found d) (solution d) (<[gid := t']> (threads d)))) as Hstay.
  { intros u Hu. split_and!; [done..|]. intros g v. cbn [threads].
    intros [(-> & -> & _)|[_ Hv]]%list_lookup_insert_Some; [done|by apply Ht]. }
  destruct t; cbn [thread_step] in E; rewrite ?H0 in E; try done.
  - injection E as <- <- <-. left. rewrite <-H0. by apply Hstay.
  - injection E as <- <- <-. left. rewrite <-H0. apply Hstay.
    destruct (passes k a gid) eqn:?; [by destruct (rechecks k)|done].
  - injection E as <- <- <-. left. rewrite <-H0. by apply Hstay.
  - injection E as <- <- <-. right. split; [done|]. exists gid, 0%nat. cbn [solution threads].
    split_and!; [lia|done|by rewrite Hs|by rewrite list_lookup_insert_eq|].
    intros g v Hv Hne. rewrite list_lookup_insert_ne in Hv by done.
    by specialize (Ht g v Hv); destruct v.
Qed.

Lemma store_prefix (l s : list Z) i : (i < length l)%nat → (i < length s)%nat →
  <[i := l !!! i]> (take i l ++ drop i s) = take (S i) l ++ drop (S i) s.
Proof.
  intros Hl Hs. destruct (lookup_lt_is_Some_2 l i Hl) as [x Hx].
  destruct (lookup_lt_is_Some_2 s i Hs) as [y Hy].
  rewrite (list_lookup_total_correct _ _ _ Hx), (take_S_r _ _ _ Hx), (drop_S _ _ _ Hy).
  assert (length (take i l) = i) as Ei by (rewrite length_take; lia).
  rewrite insert_app_r_alt, Ei, Nat.sub_diag by lia.
  by rewrite <-(assoc_L (++)).
Qed.

Lemma winner_words_length gid : length (header76 a) = 76%nat → length (winner_words k a gid) = 9%nat.
Proof.
  intros Hh. unfold winner_words. rewrite digest_cuda by done. cbn [length]. apply (f_equal S).
  by destruct (cuda_digest_compress (header76 a) (thread_nonce a gid) Hh) as (_ & _ & Hl & _).
Qed.

Lemma won_step sol d gid t t' fnd sol' :
  length (header76 a) = 76%nat → length sol = 9%nat → won sol d →
  threads d !! gid = Some t → t ≠ T_done →
  thread_step k a gid t (found d) (solution d) = (t', fnd, sol') →
  won sol (Device fnd sol' (<[gid := t']> (threads d))).
Proof.
  intros Hh Hsol (H1 & w & i & Hi & Hp & Hs & Hw & Ho) Hg Hnd E.
  pose proof (lookup_lt_Some _ _ _ Hg) as Hlt. rewrite H1 in E.
  destruct (decide (gid = w)) as [->|Hne].
  - rewrite Hw in Hg. injection Hg as <-. case_bool_decide; [|done].
    cbn [thread_step] in E. injection E as <- <- <-. split; [done|].
    exists w, (S i). cbn [solution threads]. split_and!; [lia|done| | |].
    + rewrite Hs. apply store_prefix; [|lia]. by rewrite winner_words_length.
    + rewrite list_lookup_insert_eq by done. f_equal.
      bool_cases (i < 8)%nat; bool_cases (S i < 9)%nat; first [done|lia].
    + intros g v Hv Hg'. rewrite list_lookup_insert_ne in Hv by done. by eapply Ho.
  - pose proof (Ho gid t Hg Hne) as Hme.
    assert (fnd = 1 ∧ sol' = solution d ∧ match t' with T_write _ => False | _ => True end)
      as (-> & -> & Ht').
    { destruct t; cbn in E; injection E as <- <- <-; try done.
      split_and!; [done..|]. by repeat case_match. }
    split; [done|]. exists w, i. cbn [solution threads].
    split_and!; [done..|by rewrite list_lookup_insert_ne|].
    intros g v [(-> & -> & _)|[_ Hv]]%list_lookup_insert_Some Hg'; [done|by eapply Ho].
Qed.

Lemma reachable_invariant n sol d :
  length (header76 a) = 76%nat → length sol = 9%nat →
  rtc (launch_step k a) (launch n sol) d → invariant n sol d.
Proof.
  intros Hh Hsol. apply (rtc_ind_r (invariant n sol)); [apply launch_invariant|].
  intros d1 d2 _ Hstep [Hl Hinv].
  destruct Hstep as [d1 gid t t' fnd sol' Hg Hnd E].
  split; [cbn; by rewrite length_insert|]. destruct Hinv as [Ho|Hw].
  - by eapply open_step.
  - right. by eapply won_step.
Qed.

(** ** Termination *)

Definition weight (t : thread) : nat :=
  match t with
  | T_start => 13 | T_test => 12 | T_recheck => 11 | T_cas => 10
  | T_write i => S (8 - i) | T_done => 0
  end.
Definition work (d : device) : nat := sum_list_with weight (threads d).

Lemma sum_list_insert {A} (f : A → nat) l i x y : l !! i = Some x →
  (sum_list_with f (<[i := y]> l) + f x = sum_list_with f l + f y)%nat.
Proof.
  revert i. induction l as [|z l IH]; intros [|i] Hx; simplify_eq/=.
  - lia.
  - specialize (IH i Hx). lia.
Qed.

Lemma step_work d d' : launch_step k a d d' → (work d' < work d)%nat.
Proof.
  intros [d0 gid t t' fnd sol Hg Hnd E]. unfold work. cbn [threads].
  pose proof (sum_list_insert weight (threads d0) gid t t' Hg) as Hsum.
  enough (weight t' < weight t)%nat by lia.
  destruct t; cbn [thread_step] in E; repeat case_match; injection E as <- <- <-; cbn [weight];
    try by lia.
  - apply bool_decide_eq_true in H. lia.
  - done.
Qed.

Lemma step_live d : (∃ d', launch_step k a d d') ↔ ∃ t, t ∈ threads d ∧ t ≠ T_done.
Proof.
  split.
  - intros [d' Hs]. destruct Hs as [d gid t t' fnd sol Hg Hnd _]. exists t.
    by split; [eapply list_elem_of_lookup_2|].
  - intros (t & [gid Hg]%list_elem_of_lookup & Hnd).
    destruct (thread_step k a gid t (found d) (solution d)) as [[t' fnd] sol] eqn:E.
    eexists. by eapply Step.
Qed.

Lemma quiescent d : (∀ d', ¬ launch_step k a d d') ↔ Forall (λ t, t = T_done) (threads d).
Proof.
  rewrite Forall_elem. split.
  - intros Hno t Ht. destruct (decide (t = T_done)) as [|Hnd]; [done|].
    destruct (proj2 (step_live d)) as [d' Hd']; [by exists t|]. by destruct (Hno d').
  - intros Hall d' Hs. destruct (proj1 (step_live d)) as (t & Ht & Hnd); [by exists d'|].
    by apply Hnd, Hall.
Qed.

Lemma nsteps_work m d d' : nsteps (launch_step k a) m d d' → (m + work d' ≤ work d)%nat.
Proof. induction 1 as [|m d d1 d' Hs _ IH]; [lia|]. pose proof (step_work _ _ Hs). lia. Qed.

End Launch.

(** C38. Both kernels compute the same words, and these are the reference compression
    function folded over four blocks: the first 64 header bytes, a block of padding for
    80 bytes, the state with its padding, and a block of padding alone. *)
Theorem digest_ref k header76 nonce :
  length header76 = 76%nat →
  digest k header76 nonce =
    let state := foldl Sha256Ref.compress Sha256Ref.H0
      [Sha256Ref.words (take 64 header76); 0x80000000 :: replicate 14 0 ++ [640]] in
    foldl Sha256Ref.compress Sha256Ref.H0
      [state ++ 0x80000000 :: replicate 6 0 ++ [256];
       replicate 8 0 ++ 0x80000000 :: replicate 6 0 ++ [256]].
Proof.
  intros Hl. destruct (cuda_digest_compress header76 nonce Hl) as (E & Hs & _).
  rewrite (digest_cuda k _ _ Hl).
  rewrite E, (block2_app _ (proj1 Hs)).
  assert (initial_state = Sha256Ref.H0) as -> by reflexivity.
  assert (block1 = 0x80000000 :: replicate 14 0 ++ [640]) as -> by reflexivity.
  assert (block3 = replicate 8 0 ++ 0x80000000 :: replicate 6 0 ++ [256]) as -> by reflexivity.
  cbn [foldl]. reflexivity.
Qed.

(** No thread's digest depends on its nonce, nor on header bytes past the 64th:
    every thread of a launch decides the test alike. *)
Theorem digest_ignores_nonce k header header' nonce nonce' :
  length header = 76%nat → length header' = 76%nat → take 64 header = take 64 header' →
  digest k header nonce = digest k header' nonce'.
Proof. intros. rewrite !digest_ref by done. congruence. Qed.

(** C37. Whatever the interleaving, when every thread has returned either [*found] is 0,
    [solution] is untouched and every thread failed its test, or [*found] is 1 and
    [solution] is the nonce and digest of one thread that passed; and at no point do two
    threads write [solution]. *)
Theorem launch_correct k a n sol d :
  length (header76 a) = 76%nat → length sol = 9%nat →
  rtc (launch_step k a) (launch n sol) d →
  (∀ i j, writing d i → writing d j → i = j) ∧
  (Forall (λ t, t = T_done) (threads d) →
    (found d = 0 ∧ solution d = sol ∧ ∀ gid, (gid < n)%nat → passes k a gid = false) ∨
    (found d = 1 ∧ ∃ gid, (gid < n)%nat ∧ passes k a gid = true ∧ solution d = winner_words k a gid)).
Proof.
  intros Hh Hsol Hr. destruct (reachable_invariant k a n sol d Hh Hsol Hr) as [Hn Hinv]. split.
  - intros i j [ni Hi] [nj Hj]. destruct Hinv as [(_ & _ & Ho)|(_ & w & m & _ & _ & _ & _ & Ho)].
    + by destruct (Ho _ _ Hi).
    + assert (∀ g m, threads d !! g = Some (T_write m) → g = w) as Hw.
      { intros g m' Hg. destruct (decide (g = w)); [done|]. by destruct (Ho _ _ Hg). }
      by rewrite (Hw _ _ Hi), (Hw _ _ Hj).
  - rewrite Forall_elem. intros Hall.
    assert (∀ gid, (gid < n)%nat → threads d !! gid = Some T_done) as Hd.
    { intros gid Hg. destruct (lookup_lt_is_Some_2 (threads d) gid) as [t Ht]; [lia|].
      rewrite Ht. f_equal. eapply Hall, list_elem_of_lookup_2, Ht. }
    destruct Hinv as [(H0 & Hs & Ho)|(H1 & w & m & Hm & Hp & Hs & Hw & _)]; [left|right].
    + split_and!; [done..|]. intros gid Hg. exact (Ho gid _ (Hd gid Hg)).
    + split; [done|]. pose proof (lookup_lt_Some _ _ _ Hw). exists w.
      split_and!; [lia|done|]. rewrite Hd in Hw by lia. case_bool_decide; [done|].
      rewrite Hs, take_ge, drop_ge, app_nil_r by (rewrite ?winner_words_length by done; lia). done.
Qed.

(** C39. A launch of [n] threads ends: no execution has more than [13 * n] steps, and a
    state without a step is one where every thread has returned. *)
Theorem launch_terminates k a n sol m d :
  nsteps (launch_step k a) m (launch n sol) d →
  (m ≤ 13 * n)%nat ∧
  ((∀ d', ¬ launch_step k a d d') ↔ Forall (λ t, t = T_done) (threads d)).
Proof.
  intros Hm%nsteps_work. split; [|apply quiescent].
  assert (work (launch n sol) = 13 * n)%nat as <-; [|lia].
  unfold work, launch. cbn [threads]. clear. induction n as [|n IH]; [done|]. cbn in *. lia.
Qed.

(** ** Concrete launches *)

Definition zero_header : list byte := replicate 76 x00.
Definition easy : args := Args zero_header 7 (replicate 8 UINT32_MAX).
Definition hard : args := Args zero_header 7 (replicate 8 0).

Lemma digest_ref_witness :
  length zero_header = 76%nat ∧
  digest opencl zero_header 5 =
    foldl Sha256Ref.compress Sha256Ref.H0
      [foldl Sha256Ref.compress Sha256Ref.H0
         [Sha256Ref.words (take 64 zero_header); 0x80000000 :: replicate 14 0 ++ [640]]
       ++ 0x80000000 :: replicate 6 0 ++ [256];
       replicate 8 0 ++ 0x80000000 :: replicate 6 0 ++ [256]].
Proof. split; [reflexivity|]. apply (digest_ref opencl zero_header 5). reflexivity. Defined.

Lemma digest_ignores_nonce_witness :
  digest cuda zero_header 5 = digest cuda (<[70%nat := x01]> zero_header) 6.
Proof. apply (digest_ignores_nonce cuda); vm_compute; reflexivity. Defined.

(** The digest is not the double SHA-256 of the header the thread built. *)
Example digest_not_sha256d :
  Sha256Ref.words (Sha256Ref.sha256_ref (Sha256Ref.sha256_ref (thread_header zero_header 5)))
  ≠ digest cuda zero_header 5.
Proof. by_decide. Qed.

(** The test reads the eighth word, the least significant of the big-endian digest: it
    accepts a digest above the target. *)
Example passes_above_target :
  passes cuda (Args zero_header 7 (replicate 7 0 ++ [UINT32_MAX])) 0 = true ∧
  0 < digest cuda zero_header 7 !!! 0%nat.
Proof. by_decide. Qed.

(** Two threads reach the exchange before either has written. *)
Definition both_pass : list nat :=
  [0; 1; 0; 1; 0; 1; 1; 0; 0; 1]%nat ++ replicate 9 1%nat ++ replicate 9 0%nat.

Lemma launch_correct_witness :
  let d := run opencl easy (launch 2 (replicate 9 0)) both_pass in
  Forall (λ t, t = T_done) (threads d) ∧ head (solution d) = Some 8 ∧
  ((found d = 0 ∧ solution d = replicate 9 0 ∧
    ∀ gid, (gid < 2)%nat → passes opencl easy gid = false) ∨
   (found d = 1 ∧ ∃ gid, (gid < 2)%nat ∧ passes opencl easy gid = true ∧
    solution d = winner_words opencl easy gid)).
Proof.
  intros d. assert (Forall (λ t, t = T_done) (threads d)) as Hd by by_decide.
  split; [exact Hd|]. split; [vm_compute; reflexivity|].
  apply (launch_correct opencl easy 2 (replicate 9 0) d); [reflexivity..|apply run_steps|exact Hd].
Defined.

Lemma launch_terminates_witness :
  let d := Device 0 [] [T_done] in
  nsteps (launch_step cuda hard) 2 (launch 1 []) d ∧ (2 ≤ 13 * 1)%nat ∧
  ((∀ d', ¬ launch_step cuda hard d d') ↔ Forall (λ t, t = T_done) (threads d)).
Proof.
  intros d. assert (nsteps (launch_step cuda hard) 2 (launch 1 []) d) as H.
  { eapply nsteps_l; [by apply (Step _ _ _ 0%nat T_start T_test 0 [])|].
    eapply nsteps_l; [|apply nsteps_O].
    apply (Step cuda hard (Device 0 [] [T_test]) 0%nat T_test T_done 0 []);
      [done..|vm_compute; reflexivity]. }
  split; [exact H|]. exact (launch_terminates cuda hard 1 [] 2 d H).
Defined.
