(* ===== verification/Log.v ===== *)
(** * Logging: common/log/log.cpp

    The logger's globals are one record.  The local time [Now] formats, the process and
    the thread in a line are arguments, directory creation is a parameter; the text of
    every file and of the standard error stream is the list of the lines written. *)

From stdpp Require Import pretty.
From S2P Require Import Prelude.

Inductive Level := DEBUG | INFO | WARN | ERROR.

#[global] Instance Level_eq_dec : EqDecision Level.
Proof. solve_decision. Defined.

(** The order of the enumeration. *)
Definition level_index (l : Level) : Z :=
  match l with DEBUG => 0 | INFO => 1 | WARN => 2 | ERROR => 3 end.

Definition ToString (l : Level) : string :=
  match l with DEBUG => "DEBUG" | INFO => "INFO" | WARN => "WARN" | ERROR => "ERROR" end.

(** ** The time stamp *)

(** The fields of [std::tm] that [Now] prints. *)
Record tm := mkTm {
  tm_year : Z; tm_mon : Z; tm_mday : Z; tm_hour : Z; tm_min : Z; tm_sec : Z;
}.

(** A number with at least [n] digits. *)
Definition padded (n : nat) (v : Z) : string :=
  let s := pretty v in String.concat "" (replicate (n - String.length s) "0") +:+ s.

(** [Now], on the local time and the milliseconds since the epoch: [put_time] with
    ["%Y-%m-%d %H:%M:%S"], a dot, three digits. *)
Definition Now (t : tm) (since_epoch : Z) : string :=
  let ms := since_epoch `rem` 1000 in
  pretty (1900 + tm_year t) +:+ "-" +:+ padded 2 (tm_mon t + 1) +:+ "-" +:+ padded 2 (tm_mday t)
  +:+ " " +:+ padded 2 (tm_hour t) +:+ ":" +:+ padded 2 (tm_min t) +:+ ":" +:+ padded 2 (tm_sec t)
  +:+ "." +:+ padded 3 ms.

Example Now_vector :
  Now (mkTm 125 0 1 7 5 9) 1735689600042 = "2025-01-01 07:05:09.042".
Proof. by vm_compute. Qed.

(** ** The logger *)

(** [g_file]: the file it is open on, and its fail bit. *)
Record ofstream := mkOfstream { open_on : option string; fail : bool }.

Record Logger := mkLogger {
  g_file : ofstream;
  g_level : Level;
  files : gmap string (list string);
  cerr : list string;
}.

Definition Logger_initial : Logger := mkLogger (mkOfstream None false) INFO ∅ [].

Definition SetLevel (level : Level) (s : Logger) : Logger :=
  mkLogger (g_file s) level (files s) (cerr s).

(** [std::ofstream::open]: on a stream already open it fails and sets the fail bit;
    otherwise it opens the file, if it can, and clears it. *)
Definition ofstream_open (openable : bool) (path : string) (f : ofstream) : ofstream :=
  match open_on f with
  | Some _ => mkOfstream (open_on f) true
  | None => if openable then mkOfstream (Some path) false else mkOfstream None true
  end.

(** [create_parent] is [create_directories(path.parent_path())]. *)
Definition SetFile (create_parent : string → result unit) (openable : bool)
    (path : string) (s : Logger) : result Logger :=
  if bool_decide (path = "") then Ok s else
  create_parent path;;
  Ok (mkLogger (ofstream_open openable path (g_file s)) (g_level s) (files s) (cerr s)).

(** [stamp] is what [Now] returns, [origin] the process and thread. *)
Definition log_line (stamp origin : string) (level : Level) (msg : string) : string :=
  stamp +:+ " [" +:+ ToString level +:+ "] (" +:+ origin +:+ ") " +:+ msg +:+ String (Ascii.ascii_of_N 10) "".

Definition Write (stamp origin : string) (level : Level) (msg : string) (s : Logger) : Logger :=
  if bool_decide (level_index level < level_index (g_level s)) then s else
  let line := log_line stamp origin level msg in
  let files :=
    match open_on (g_file s) with
    | Some path =>
        if fail (g_file s) then files s
        else <[path := default [] (files s !! path) ++ [line]]> (files s)
    | None => files s
    end in
  mkLogger (g_file s) (g_level s) files (cerr s ++ [line]).

Definition Debug_ (stamp origin msg : string) : Logger → Logger := Write stamp origin DEBUG msg.
Definition Info_ (stamp origin msg : string) : Logger → Logger := Write stamp origin INFO msg.
Definition Warn_ (stamp origin msg : string) : Logger → Logger := Write stamp origin WARN msg.
Definition Error_ (stamp origin msg : string) : Logger → Logger := Write stamp origin ERROR msg.

(** A message with its stamp and origin. *)
Abbreviation entry := (string * string * Level * string)%type.

Definition write_all (es : list entry) (s : Logger) : Logger :=
  foldl (λ s '(stamp, origin, level, msg), Write stamp origin level msg s) s es.

(** The lines of the messages at or above a level. *)
Definition lines_at (l : Level) (es : list entry) : list string :=
  omap (λ '(stamp, origin, level, msg),
    if bool_decide (level_index l ≤ level_index level)
    then Some (log_line stamp origin level msg) else None) es.

Lemma lines_at_cons l st o lv m es :
  lines_at l ((st, o, lv, m) :: es) =
    if bool_decide (level_index l ≤ level_index lv)
    then log_line st o lv m :: lines_at l es else lines_at l es.
Proof. unfold lines_at. cbn. by case_bool_decide. Qed.

Lemma write_all_cerr es s : cerr (write_all es s) = cerr s ++ lines_at (g_level s) es.
Proof.
  revert s. induction es as [|[[[st o] l] m] es IH]; intros s; [cbn; by rewrite app_nil_r|].
  unfold write_all in *. cbn [foldl]. rewrite IH, lines_at_cons. unfold Write.
  repeat case_bool_decide; try lia; cbn [cerr g_level]; [done|]. by rewrite <-(assoc_L (++)).
Qed.

Lemma write_all_file es s path : open_on (g_file s) = Some path →
  files (write_all es s) !! path =
    if fail (g_file s) then files s !! path
    else match lines_at (g_level s) es with
         | [] => files s !! path
         | ls => Some (default [] (files s !! path) ++ ls)
         end.
Proof.
  revert s. induction es as [|[[[st o] l] m] es IH]; intros s Ho.
  { cbn. by destruct (fail _). }
  unfold write_all in *. cbn [foldl]. rewrite IH; [|unfold Write; by case_bool_decide].
  rewrite lines_at_cons. unfold Write. rewrite Ho.
  destruct (fail (g_file s)) eqn:Ef.
  { case_bool_decide; cbn [g_file files]; by rewrite ?Ef. }
  repeat case_bool_decide; try lia; cbn [g_file files g_level]; rewrite Ef; [done|].
  rewrite lookup_insert_eq. destruct (lines_at _ es); [done|].
  cbn [default from_option id]. by rewrite <-(assoc_L (++)).
Qed.

(** Every message at or above the level, and no other, is a line of the standard error
    stream and of the open log file, in order. *)
Theorem write_all_lines es s path : open_on (g_file s) = Some path → fail (g_file s) = false →
  cerr (write_all es s) = cerr s ++ lines_at (g_level s) es ∧
  default [] (files (write_all es s) !! path)
  = default [] (files s !! path) ++ lines_at (g_level s) es.
Proof.
  intros Ho Hf. split; [apply write_all_cerr|]. rewrite (write_all_file es s path Ho), Hf.
  destruct (lines_at _ es); [by rewrite app_nil_r|done].
Qed.

(** A second [SetFile] on an open log sets the stream's fail bit: from then on nothing
    is written to either file. *)
Theorem SetFile_twice mk openable p path s s' es :
  open_on (g_file s) = Some p → path ≠ "" → SetFile mk openable path s = Ok s' →
  files (write_all es s') = files s.
Proof.
  unfold SetFile. intros Ho Hp E. rewrite bool_decide_false in E by done. simplify_result.
  unfold ofstream_open. rewrite Ho.
  assert (∀ es s1, fail (g_file s1) = true → files (write_all es s1) = files s1) as Hgen.
  { clear. induction es as [|[[[st o] l] m] es IH]; intros s1 Hf; [done|].
    unfold write_all in *. cbn [foldl]. rewrite IH; unfold Write;
      (case_bool_decide; [done|]); cbn; [rewrite Hf; by destruct (open_on _)|done]. }
  by rewrite Hgen.
Qed.
