(* ===== verification/Doubles.v ===== *)
(** * Doubles

    A [double] is a [spec_float] of the Standard Library, computed on integers; its
    arithmetic rounds to nearest, ties to even, as the C++ of the desktop application
    assumes.  The lemmas bound a product and its conversion to an integer. *)

From Stdlib Require Export Floats.SpecFloat.
From S2P Require Import Prelude.

Abbreviation double := spec_float.

Definition of_int (z : Z) : double := binary_normalize 53 1024 z 0 false.
Definition dadd : double → double → double := SFadd 53 1024.
Definition dmul : double → double → double := SFmul 53 1024.
Definition ddiv : double → double → double := SFdiv 53 1024.

(** [std::min(a, b)] *)
Definition dmin (a b : double) : double := if SFltb b a then b else a.

(** [static_cast<qint64>(double)] drops the fraction; out of range it is undefined. *)
Definition to_qint64 (d : double) : result Z :=
  match d with
  | S754_zero _ => Ok 0
  | S754_finite s m e =>
      let v := if bool_decide (0 ≤ e) then Z.shiftl (Zpos m) e else Z.shiftr (Zpos m) (- e) in
      let v := if s : bool then - v else v in
      if bool_decide (is_i64 v) then Ok v else Undef signed_overflow
  | S754_infinity _ | S754_nan => Undef signed_overflow
  end.

(** ** Rounding *)

Lemma digits2_size p : digits2_pos p = Pos.size p.
Proof. induction p as [p IH|p IH|]; cbn; by rewrite ?IH. Qed.

(** The digits of a mantissa, by its size. *)
Lemma digits2_le p k : 0 ≤ k → Zpos p < 2 ^ k → Zpos (digits2_pos p) ≤ k.
Proof.
  intros Hk Hp. rewrite digits2_size. pose proof (Pos.size_le p) as Hs.
  assert (2 ^ (Zpos (Pos.size p) - 1) ≤ Zpos p) as Hl.
  { assert (2 ^ Zpos (Pos.size p) ≤ Zpos p~0) as H2.
    { rewrite <-Pos2Z.inj_pow. exact Hs. }
    replace (Zpos (Pos.size p)) with (Z.succ (Zpos (Pos.size p) - 1)) in H2 by lia.
    rewrite Z.pow_succ_r in H2 by lia. lia. }
  assert (2 ^ (Zpos (Pos.size p) - 1) < 2 ^ k) as Hlt by lia.
  apply Z.pow_lt_mono_r_iff in Hlt; lia.
Qed.

Lemma digits2_lt p : Zpos p < 2 ^ Zpos (digits2_pos p).
Proof.
  rewrite digits2_size. pose proof (Pos.size_gt p) as Hs.
  rewrite <-Pos2Z.inj_pow. exact Hs.
Qed.

Lemma shr_1_div r : 0 ≤ shr_m r → shr_m (shr_1 r) = shr_m r `div` 2.
Proof.
  destruct r as [[|[p|p|]|p] a b]; intros H; try done; cbn [shr_1 shr_m].
  - apply (Z.div_unique _ _ _ 1); lia.
  - apply (Z.div_unique _ _ _ 0); lia.
Qed.

Lemma iter_shr_div p : ∀ r, 0 ≤ shr_m r → shr_m (SpecFloat.iter_pos shr_1 p r) = shr_m r `div` 2 ^ Zpos p.
Proof.
  assert (∀ r n, 0 ≤ shr_m r → 0 ≤ n → 0 ≤ shr_m r `div` 2 ^ n) as Hpos.
  { intros r n Hr Hn. apply Z.div_pos; [done|]. apply Z.pow_pos_nonneg; lia. }
  induction p as [p IH|p IH|]; intros r Hr; cbn [SpecFloat.iter_pos].
  - assert (0 ≤ shr_m (shr_1 r)) as H1 by (rewrite shr_1_div by done; apply Z.div_pos; lia).
    rewrite IH, IH, shr_1_div by (done || rewrite IH by done; by apply Hpos).
    rewrite !Z.div_div by (try apply Z.pow_pos_nonneg; lia).
    f_equal. replace (Zpos p~1) with (1 + Zpos p + Zpos p) by lia.
    rewrite !Z.pow_add_r by lia. change (2 ^ 1) with 2. ring.
  - rewrite IH, IH by (done || rewrite IH by done; by apply Hpos).
    rewrite Z.div_div by (apply Z.pow_nonzero || apply Z.pow_pos_nonneg; lia).
    f_equal. rewrite <-Z.pow_add_r by lia. f_equal. lia.
  - rewrite shr_1_div by done. done.
Qed.

Lemma shr_spec r e n : 0 ≤ shr_m r →
  let '(r', e') := shr r e n in
  shr_m r' = shr_m r `div` 2 ^ Z.max 0 n ∧ e' = e + Z.max 0 n.
Proof.
  intros Hr. destruct n as [|p|p]; cbn [shr].
  - change (2 ^ Z.max 0 0) with 1. rewrite Z.div_1_r. split; [done|lia].
  - rewrite iter_shr_div by done. by rewrite Z.max_r by lia.
  - rewrite Z.max_l by lia. change (2 ^ 0) with 1. rewrite Z.div_1_r. split; [done|lia].
Qed.

(** One rounding step on a mantissa below [2^k] and an exponent not close to the least:
    the mantissa loses what it has above 53 bits. *)
Lemma shr_fexp_spec m e k l : 0 ≤ m < 2 ^ k → 53 ≤ k → -1074 ≤ e → shr_m (shr_record_of_loc m l) = m →
  let '(r, e') := shr_fexp 53 1024 m e l in
  0 ≤ shr_m r < 2 ^ 53 ∧ e ≤ e' ≤ e + (k - 53).
Proof.
  intros Hm Hk He Hl. unfold shr_fexp. set (n := fexp 53 1024 (Zdigits2 m + e) - e).
  pose proof (shr_spec (shr_record_of_loc m l) e n ltac:(lia)) as Hs.
  destruct (shr _ e n) as [r e']. destruct Hs as [Hr ->]. rewrite Hl in Hr.
  unfold fexp, emin in n. destruct m as [|p|p]; [| |lia].
  - assert (n ≤ 0) by (unfold n; cbn [Zdigits2]; lia). rewrite Hr, Zdiv_0_l. lia.
  - cbn [Zdigits2] in n. pose proof (digits2_le p k ltac:(lia) ltac:(lia)).
    pose proof (digits2_lt p). assert (Z.max 0 n ≤ k - 53) by (unfold n; lia). split; [|lia].
    assert (0 < 2 ^ Z.max 0 n) by (apply Z.pow_pos_nonneg; lia). rewrite Hr.
    split; [apply Z.div_pos; lia|]. apply Z.div_lt_upper_bound; [lia|].
    rewrite <-Z.pow_add_r by lia. eapply Z.lt_le_trans; [done|]. apply Z.pow_le_mono_r; [lia|].
    unfold n. lia.
Qed.

(** A product of positive doubles whose exponents sum to at most -54 converts to an
    integer of at most 53 bits. *)
Lemma dmul_to_qint64 m1 e1 m2 e2 :
  Zpos m1 < 2 ^ 53 → Zpos m2 < 2 ^ 53 → -1074 ≤ e1 + e2 ≤ -54 →
  ∃ v, to_qint64 (dmul (S754_finite false m1 e1) (S754_finite false m2 e2)) = Ok v ∧
    0 ≤ v ≤ 2 ^ 53.
Proof.
  intros H1 H2 He. unfold dmul. cbn [SFmul xorb]. unfold binary_round_aux.
  pose proof (shr_fexp_spec (Zpos (m1 * m2)) (e1 + e2) 106 loc_Exact) as Hs.
  destruct (shr_fexp _ _ _ _ _) as [r e']. destruct Hs as [Hr He']; [|lia..|done|].
  { split; [lia|]. rewrite Pos2Z.inj_mul. change (2 ^ 106) with (2 ^ 53 * 2 ^ 53). nia. }
  set (m := round_nearest_even _ _). assert (0 ≤ m ≤ 2 ^ 53) as Hm.
  { unfold m, round_nearest_even. repeat case_match; lia. }
  pose proof (shr_fexp_spec m e' 54 loc_Exact) as Hs.
  destruct (shr_fexp _ _ _ _ _) as [r' e'']. destruct Hs as [Hr' He'']; [lia..|done|].
  destruct (shr_m r') as [|p|p]; [by exists 0| |lia].
  rewrite (proj2 (Z.leb_le _ _)) by lia. cbn [to_qint64].
  assert (0 ≤ (if bool_decide (0 ≤ e'') then Z.shiftl (Zpos p) e'' else Z.shiftr (Zpos p) (- e''))
    ≤ 2 ^ 53) as Hv.
  { case_bool_decide.
    - replace e'' with 0 by lia. rewrite Z.shiftl_0_r. lia.
    - rewrite Z.shiftr_div_pow2 by lia. assert (0 < 2 ^ (- e'')) by (apply Z.pow_pos_nonneg; lia).
      split; [apply Z.div_pos; lia|]. apply Z.div_le_upper_bound; nia. }
  cbv zeta. rewrite bool_decide_true by lia. by eexists.
Qed.

(** A valid double between two positive ones of given exponents. *)
Lemma between_finite d ml el mh eh :
  valid_binary 53 1024 d = true →
  SFleb (S754_finite false ml el) d = true → SFleb d (S754_finite false mh eh) = true →
  ∃ m e, d = S754_finite false m e ∧ Zpos m < 2 ^ 53 ∧ el ≤ e ≤ eh.
Proof.
  unfold SFleb. destruct d as [[]|[]| |[] m e]; try done. cbn [SFcompare valid_binary].
  intros [Hc _]%andb_true_iff Hl Hh. exists m, e. split; [done|].
  apply Z.eqb_eq in Hc. unfold fexp, emin in Hc. split.
  - pose proof (digits2_lt m). eapply Z.lt_le_trans; [done|]. apply Z.pow_le_mono_r; lia.
  - destruct (Z.compare_spec el e); try done; destruct (Z.compare_spec e eh); try done; lia.
Qed.
