(* ===== verification/Wallet.v ===== *)
(** * The desktop wallet client: layer3-app/qt/main.cpp, WalletServiceClient

    A simulated wallet behind the Qt window.  An operation returns the new state and
    the signals it emits, each with whether [m_mutex] is held at that moment; every
    operation emits after its last change of state.  The window runs on one thread,
    so operations do not interleave.  A [QString] is its list of UTF-16 code units. *)

From stdpp Require Import pretty.
From S2P Require Import Prelude.

Abbreviation QString := (list Z).

Definition qs (s : string) : QString :=
  (λ c, Z.of_N (Ascii.N_of_ascii c)) <$> String.list_ascii_of_string s.

#[global] Arguments qs : simpl never.

(** Qt's decimal form of an integer, for [arg] and [number]. *)
Class QtNumber := number : Z → QString.

Record TransactionRow := mkRow {
  txid : QString;
  direction : QString;
  amount : Z;
  confirmations : Z;
  status : QString;
  timestamp : Z;
}.

Inductive signal :=
  | balancesChanged (confirmed unconfirmed : Z)
  | transactionsChanged
  | addressAdded (addr : QString)
  | encryptionStateChanged.

(** [emit], and whether [m_mutex] is held. *)
Record emission := mkEmit { emitted : signal; mutex_held : bool }.

Record WalletServiceClient := mkWallet {
  m_addresses : list QString;
  m_txs : list TransactionRow;
  m_confirmed : Z;
  m_unconfirmed : Z;
  m_encrypted : bool;
  m_locked : bool;
  m_passphrase : QString;
}.

Definition WalletServiceClient_new : WalletServiceClient := mkWallet [] [] 0 0 false false [].

Definition set_txs (txs : list TransactionRow) (confirmed unconfirmed : Z)
    (w : WalletServiceClient) : WalletServiceClient :=
  mkWallet (m_addresses w) txs confirmed unconfirmed (m_encrypted w) (m_locked w)
    (m_passphrase w).

Section Wallet.
  Context `{QtNumber}.

(** [msecs] is [QDateTime::currentMSecsSinceEpoch()]. *)
Definition requestNewAddress (label : QString) (msecs : Z) (w : WalletServiceClient) :
    QString * (WalletServiceClient * list emission) :=
  let addr := qs "drm_" ++ number msecs ++ qs "_" ++ number (zlen (m_addresses w)) in
  let entry := addr ++ (if is_empty label then [] else qs " (" ++ label ++ qs ")") in
  (addr, (mkWallet (m_addresses w ++ [entry]) (m_txs w) (m_confirmed w) (m_unconfirmed w)
            (m_encrypted w) (m_locked w) (m_passphrase w),
          [mkEmit (addressAdded addr) false])).

Definition creditSimulated (amount : Z) (memo : QString) (now : Z) (w : WalletServiceClient) :
    WalletServiceClient * list emission :=
  let row := mkRow memo (qs "receive") amount 0 (qs "pending") now in
  let unconfirmed := i64 (m_unconfirmed w + amount) in
  (set_txs (row :: m_txs w) (m_confirmed w) unconfirmed w,
   [mkEmit (balancesChanged (m_confirmed w) unconfirmed) false;
    mkEmit transactionsChanged false]).

(** The answer, [err] and the rest; [amount + fee] is a signed addition. *)
Definition createSpend (dest : QString) (amount fee : Z) (err : QString) (msecs now : Z)
    (w : WalletServiceClient) : result (bool * QString * (WalletServiceClient * list emission)) :=
  if m_locked w then Ok (false, qs "Wallet is locked", (w, [])) else
  total ← chk_i64 (amount + fee);
  if bool_decide (total ≤ 0) then Ok (false, qs "Amount must be positive", (w, [])) else
  if bool_decide (m_confirmed w < total)
  then Ok (false, qs "Insufficient confirmed balance", (w, [])) else
  let row := mkRow (qs "tx_" ++ number msecs) (qs "send") (- total) 0 (qs "pending") now in
  let confirmed := i64 (m_confirmed w - total) in
  Ok (true, err, (set_txs (row :: m_txs w) confirmed (m_unconfirmed w) w,
    [mkEmit (balancesChanged confirmed (m_unconfirmed w)) false;
     mkEmit transactionsChanged false])).

Definition encryptWallet (passphrase err : QString) (w : WalletServiceClient) :
    bool * QString * (WalletServiceClient * list emission) :=
  if bool_decide (zlen passphrase < 8)
  then (false, qs "Passphrase must be at least 8 characters", (w, [])) else
  if m_encrypted w then (false, qs "Wallet already encrypted", (w, [])) else
  (true, err, (mkWallet (m_addresses w) (m_txs w) (m_confirmed w) (m_unconfirmed w)
                 true true passphrase, [mkEmit encryptionStateChanged false])).

Definition unlockWallet (passphrase err : QString) (w : WalletServiceClient) :
    bool * QString * (WalletServiceClient * list emission) :=
  if negb (m_encrypted w) then (false, qs "Wallet is not encrypted", (w, [])) else
  if negb (bool_decide (passphrase = m_passphrase w))
  then (false, qs "Incorrect passphrase", (w, [])) else
  (true, err, (mkWallet (m_addresses w) (m_txs w) (m_confirmed w) (m_unconfirmed w)
                 (m_encrypted w) false (m_passphrase w), [mkEmit encryptionStateChanged false])).

(** The loop body (231-243) on [changed], the balances and a row. *)
Definition advance_row (row : TransactionRow) (s : bool * Z * Z) :
    TransactionRow * (bool * Z * Z) :=
  let '(changed, confirmed, unconfirmed) := s in
  if bool_decide (confirmations row < 6) then
    let count := confirmations row + 1 in
    let settles := bool_decide (2 ≤ count) && bool_decide (status row = qs "pending") in
    let status' := if settles then qs "confirmed" else status row in
    let '(confirmed, unconfirmed) :=
      if settles && bool_decide (0 < amount row)
      then (i64 (confirmed + amount row), i64 (unconfirmed - amount row))
      else (confirmed, unconfirmed) in
    (mkRow (txid row) (direction row) (amount row) count status' (timestamp row),
     (true, confirmed, unconfirmed))
  else (row, s).

(** The loop over the snapshot. *)
Fixpoint advance_rows (rows : list TransactionRow) (s : bool * Z * Z) :
    list TransactionRow * (bool * Z * Z) :=
  match rows with
  | [] => ([], s)
  | row :: rows =>
      let '(row, s) := advance_row row s in
      let '(rows, s) := advance_rows rows s in (row :: rows, s)
  end.

Definition advanceConfirmations (w : WalletServiceClient) : WalletServiceClient * list emission :=
  let '(snapshot, (changed, confirmed, unconfirmed)) :=
    advance_rows (m_txs w) (false, m_confirmed w, m_unconfirmed w) in
  if changed : bool then
    (set_txs snapshot confirmed unconfirmed w,
     [mkEmit (balancesChanged confirmed unconfirmed) true; mkEmit transactionsChanged true])
  else (set_txs (m_txs w) confirmed unconfirmed w, []).

(** ** Sequences of operations *)

Inductive wallet_op :=
  | WAddress (label : QString) (msecs : Z)
  | WCredit (amount : Z) (memo : QString) (now : Z)
  | WSpend (dest : QString) (amount fee msecs now : Z)
  | WEncrypt (passphrase : QString)
  | WUnlock (passphrase : QString)
  | WTick.

#[global] Instance wallet_op_eq_dec : EqDecision wallet_op.
Proof. solve_decision. Defined.

Definition wallet_step (w : WalletServiceClient) (o : wallet_op) : result WalletServiceClient :=
  match o with
  | WAddress label msecs => Ok (requestNewAddress label msecs w).2.1
  | WCredit amount memo now => Ok (creditSimulated amount memo now w).1
  | WSpend dest amount fee msecs now =>
      (λ r, r.2.1) <$> createSpend dest amount fee [] msecs now w
  | WEncrypt p => Ok (encryptWallet p [] w).2.1
  | WUnlock p => Ok (unlockWallet p [] w).2.1
  | WTick => Ok (advanceConfirmations w).1
  end.

Definition wallet_run (w : WalletServiceClient) (ops : list wallet_op) : result WalletServiceClient :=
  foldM wallet_step w ops.


(** ** What the balances are *)

(** A row that counts as settled: a spend at once, a credit from its second
    confirmation. *)
Definition settled (row : TransactionRow) : bool :=
  bool_decide (direction row = qs "send") ||
  (bool_decide (2 ≤ confirmations row) && bool_decide (0 < amount row)).

Definition settled_sum (rows : list TransactionRow) : Z :=
  sum_Z ((λ r, if settled r then amount r else 0) <$> rows).
Definition pending_sum (rows : list TransactionRow) : Z :=
  sum_Z ((λ r, if settled r then 0 else amount r) <$> rows).

Definition row_ok (row : TransactionRow) : Prop :=
  0 ≤ confirmations row ≤ 6 ∧
  status row = qs (if bool_decide (2 ≤ confirmations row) then "confirmed" else "pending") ∧
  (direction row = qs "receive" ∨ direction row = qs "send" ∧ amount row < 0).

Record wallet_inv (w : WalletServiceClient) : Prop := {
  inv_rows : Forall row_ok (m_txs w);
  inv_confirmed : m_confirmed w = i64 (settled_sum (m_txs w));
  inv_unconfirmed : m_unconfirmed w = i64 (pending_sum (m_txs w));
}.

Lemma wallet_inv_new : wallet_inv WalletServiceClient_new.
Proof. by split; [constructor|..]. Qed.

(** One row moves its amount between the sums exactly when it moves it between the
    balances. *)
Lemma advance_row_ok row ch c u sc su :
  row_ok row → c = i64 (sc + settled_sum [row]) → u = i64 (su + pending_sum [row]) →
  let '(row', (_, c', u')) := advance_row row (ch, c, u) in
  row_ok row' ∧ c' = i64 (sc + settled_sum [row']) ∧ u' = i64 (su + pending_sum [row']) ∧
  amount row' = amount row ∧ direction row' = direction row ∧
  settled_sum [row] ≤ settled_sum [row'].
Proof.
  intros (Hn & Hst & Hd) -> ->. unfold advance_row.
  assert (Hne : qs "receive" ≠ qs "send") by by_decide.
  assert (Hcp : qs "confirmed" ≠ qs "pending") by by_decide.
  bool_cases (confirmations row < 6); [|by split_and!].
  rewrite Hst. unfold row_ok, settled_sum, pending_sum, settled.
  cbn [fmap list_fmap sum_Z foldr].
  bool_cases (2 ≤ confirmations row).
  - rewrite (bool_decide_false (qs "confirmed" = qs "pending")), andb_false_r by done.
    cbn [andb txid direction amount confirmations status].
    rewrite (bool_decide_true (2 ≤ confirmations row + 1)) by lia.
    split_and!; (done || lia).
  - rewrite (bool_decide_true (qs "pending" = qs "pending")), andb_true_r by done.
    bool_cases (2 ≤ confirmations row + 1); bool_cases (0 < amount row);
      cbn [andb orb txid direction amount confirmations status].
    all: rewrite ?(bool_decide_true (2 ≤ confirmations row + 1)),
      ?(bool_decide_false (2 ≤ confirmations row + 1)) by done.
    all: rewrite ?(bool_decide_true (0 < amount row)), ?(bool_decide_false (0 < amount row)) by done.
    all: destruct Hd as [Hd|[Hd Ha]]; try lia; rewrite !Hd.
    all: rewrite ?(bool_decide_false (qs "receive" = qs "send")), ?(bool_decide_true (qs "send" = qs "send")) by done.
    all: cbn [andb orb].
    all: split_and!; try (done || lia || (by left) || by right).
    all: rewrite ?i64_add_l, <-?Z.add_opp_r, ?i64_add_l; f_equal; lia.
Qed.

Lemma settled_sum_cons r rows : settled_sum (r :: rows) = settled_sum [r] + settled_sum rows.
Proof. change (r :: rows) with ([r] ++ rows). unfold settled_sum. by rewrite fmap_app, sum_Z_app. Qed.
Lemma pending_sum_cons r rows : pending_sum (r :: rows) = pending_sum [r] + pending_sum rows.
Proof. change (r :: rows) with ([r] ++ rows). unfold pending_sum. by rewrite fmap_app, sum_Z_app. Qed.

Lemma advance_rows_ok rows ch c u sc su :
  Forall row_ok rows → c = i64 (sc + settled_sum rows) → u = i64 (su + pending_sum rows) →
  let '(rows', (_, c', u')) := advance_rows rows (ch, c, u) in
  Forall row_ok rows' ∧ c' = i64 (sc + settled_sum rows') ∧ u' = i64 (su + pending_sum rows') ∧
  amount <$> rows' = amount <$> rows ∧ direction <$> rows' = direction <$> rows ∧
  settled_sum rows ≤ settled_sum rows'.
Proof.
  revert ch c u sc su. induction rows as [|r rows IH]; intros ch c u sc su Hok Hc Hu; [done|].
  apply Forall_cons in Hok as [Hr Hok]. cbn [advance_rows].
  pose proof (advance_row_ok r ch c u (sc + settled_sum rows) (su + pending_sum rows) Hr) as H1.
  rewrite settled_sum_cons in Hc. rewrite pending_sum_cons in Hu.
  destruct (advance_row r (ch, c, u)) as [r' [[ch' c'] u']].
  destruct H1 as (Hr' & Hc' & Hu' & Ha & Hd & Hle); [rewrite Hc; f_equal; lia|rewrite Hu; f_equal; lia|].
  specialize (IH ch' c' u' (sc + settled_sum [r']) (su + pending_sum [r']) Hok).
  destruct (advance_rows rows (ch', c', u')) as [rows' [[ch'' c''] u'']].
  destruct IH as (Hok' & Hc'' & Hu'' & Ha' & Hd' & Hle'); [rewrite Hc'; f_equal; lia|rewrite Hu'; f_equal; lia|].
  rewrite (settled_sum_cons r rows), (settled_sum_cons r' rows'), (pending_sum_cons r' rows').
  split_and!; [by constructor|..|by rewrite !fmap_cons, Ha, Ha'|by rewrite !fmap_cons, Hd, Hd'|lia].
  - rewrite Hc''. f_equal. lia.
  - rewrite Hu''. f_equal. lia.
Qed.

(** A pass that changes no row leaves everything as it was. *)
Lemma advance_rows_unchanged rows ch c u rows' c' u' :
  advance_rows rows (ch, c, u) = (rows', (false, c', u')) →
  ch = false ∧ rows' = rows ∧ c' = c ∧ u' = u.
Proof.
  revert ch c u rows'. induction rows as [|r rows IH]; intros ch c u rows'; cbn [advance_rows].
  { by intros [= <- -> <- <-]. }
  unfold advance_row. case_bool_decide.
  - destruct (_ && bool_decide (0 < _)); destruct (advance_rows rows _) as [rs s] eqn:E;
      intros [= <- ->]; by apply IH in E as [? _].
  - destruct (advance_rows rows _) as [rs s] eqn:E. intros [= <- ->].
    by apply IH in E as (-> & -> & -> & ->).
Qed.

Lemma settled_pending_sum rows : settled_sum rows + pending_sum rows = sum_Z (amount <$> rows).
Proof.
  unfold settled_sum, pending_sum.
  induction rows as [|r rows IH]; [done|]. rewrite !fmap_cons, !sum_Z_cons.
  destruct (settled r); lia.
Qed.

(** A credit waits, a spend is settled at once. *)
Lemma new_credit_ok memo a now :
  let r := mkRow memo (qs "receive") a 0 (qs "pending") now in
  row_ok r ∧ settled_sum [r] = 0 ∧ pending_sum [r] = a.
Proof.
  cbv zeta. split; [split; [cbn; lia|split; [done|by left]]|].
  unfold settled_sum, pending_sum. cbn [fmap list_fmap sum_Z foldr].
  change (settled _) with false. cbn. lia.
Qed.
Lemma new_spend_ok id total now :
  0 < total →
  let r := mkRow id (qs "send") (- total) 0 (qs "pending") now in
  row_ok r ∧ settled_sum [r] = - total ∧ pending_sum [r] = 0.
Proof.
  intros Ht. cbv zeta. split; [split; [cbn; lia|split; [done|right; cbn; split; [done|lia]]]|].
  unfold settled_sum, pending_sum. cbn [fmap list_fmap sum_Z foldr].
  change (settled _) with true. cbn. lia.
Qed.

(** What an accepted spend did. *)
Lemma createSpend_Ok dest a fee err msecs now w b err' w' es :
  createSpend dest a fee err msecs now w = Ok (b, err', (w', es)) →
  if b then m_locked w = false ∧ 0 < a + fee ≤ m_confirmed w ∧ is_i64 (a + fee) ∧ err' = err ∧
    w' = set_txs (mkRow (qs "tx_" ++ number msecs) (qs "send") (- (a + fee)) 0 (qs "pending") now
           :: m_txs w) (i64 (m_confirmed w - (a + fee))) (m_unconfirmed w) w
  else w' = w ∧ es = [].
Proof.
  unfold createSpend. destruct (m_locked w) eqn:El; [by intros [= <- <- <- <-]|].
  unfold chk_i64. case_bool_decide as Hr; [cbn [mbind result_bind]|done].
  case_bool_decide as Hp; [by intros [= <- <- <- <-]|].
  case_bool_decide as Hc; [by intros [= <- <- <- <-]|].
  intros [= <- <- <- <-]. split_and!; (done || lia).
Qed.

(** Its effect, whatever the row: new transactions and balance, and their signals. *)
Lemma createSpend_effect dest a fee err msecs now w err' r :
  createSpend dest a fee err msecs now w = Ok (true, err', r) →
  a + fee ≤ m_confirmed w ∧ 0 < a + fee ∧
  ∃ txs c, r = (set_txs txs c (m_unconfirmed w) w,
    [mkEmit (balancesChanged c (m_unconfirmed w)) false; mkEmit transactionsChanged false]).
Proof.
  unfold createSpend. destruct (m_locked w); [done|].
  unfold chk_i64. case_bool_decide; cbn [mbind result_bind]; [|done].
  case_bool_decide; [done|]. case_bool_decide; [done|].
  intros [= <- <-]. split_and!; [lia..|]. by eexists _, _.
Qed.

Lemma wallet_inv_set_txs txs c u w :
  Forall row_ok txs → c = i64 (settled_sum txs) → u = i64 (pending_sum txs) →
  wallet_inv (set_txs txs c u w).
Proof. by split. Qed.

Lemma advanceConfirmations_ok w : wallet_inv w →
  let w' := (advanceConfirmations w).1 in
  wallet_inv w' ∧ amount <$> m_txs w' = amount <$> m_txs w ∧
  direction <$> m_txs w' = direction <$> m_txs w ∧
  settled_sum (m_txs w) ≤ settled_sum (m_txs w').
Proof.
  intros [Hr Hc Hu]. unfold advanceConfirmations.
  pose proof (advance_rows_ok (m_txs w) false _ _ 0 0 Hr Hc Hu) as Ha.
  destruct (advance_rows _ _) as [rows' [[ch c'] u']] eqn:E.
  destruct Ha as (Hr' & Hc' & Hu' & Hs & Hd & Hle). destruct ch; [by split_and!|].
  apply advance_rows_unchanged in E as (_ & -> & -> & ->). by split_and!.
Qed.

(** ** Invariants of runs *)

Lemma wallet_step_inv w o w' : wallet_inv w → wallet_step w o = Ok w' → wallet_inv w'.
Proof.
  intros Hw. destruct o as [label ms|a memo now|dest a fee ms now|p|p|]; cbn [wallet_step].
  - intros [= <-]. by destruct Hw.
  - intros [= <-]. destruct Hw as [Hr Hc Hu]. pose proof (new_credit_ok memo a now) as (? & Es & Ep).
    apply wallet_inv_set_txs; [by constructor|..].
    + by rewrite settled_sum_cons, Es, Hc.
    + rewrite pending_sum_cons, Ep, Hu, i64_add_l. f_equal. lia.
  - destruct (createSpend _ _ _ _ _ _ _) as [[[b err'] [w1 es]]| |] eqn:E; [|done..].
    intros [= <-]. apply createSpend_Ok in E. destruct b; [|by destruct E as [-> _]].
    destruct E as (_ & Ht & _ & _ & ->). destruct Hw as [Hr Hc Hu].
    pose proof (new_spend_ok (qs "tx_" ++ number ms) (a + fee) now ltac:(lia)) as (? & Es & Ep).
    apply wallet_inv_set_txs; [by constructor|..].
    + rewrite settled_sum_cons, Es, Hc, <-Z.add_opp_r, i64_add_l. f_equal. lia.
    + by rewrite pending_sum_cons, Ep, Hu.
  - intros [= <-]. unfold encryptWallet. repeat case_match; by destruct Hw.
  - intros [= <-]. unfold unlockWallet. repeat case_match; by destruct Hw.
  - intros [= <-]. by apply advanceConfirmations_ok.
Qed.

(** The value an operation credits, and several do. *)
Definition credit (o : wallet_op) : Z := match o with WCredit a _ _ => a | _ => 0 end.
Definition credits (ops : list wallet_op) : Z := sum_Z (credit <$> ops).

Definition credits_nonneg (rows : list TransactionRow) : Prop :=
  Forall (λ r, direction r = qs "receive" → 0 ≤ amount r) rows.

(** What the spends took, fees included. *)
Definition debit (row : TransactionRow) : Z :=
  if bool_decide (direction row = qs "send") then - amount row else 0.
Definition debits (rows : list TransactionRow) : Z := sum_Z (debit <$> rows).

(** The settled amounts, too, are non-negative; the rows account for every credit. *)
Record solvent (total : Z) (w : WalletServiceClient) : Prop := {
  solvent_inv : wallet_inv w;
  solvent_credits : credits_nonneg (m_txs w);
  solvent_settled : 0 ≤ settled_sum (m_txs w);
  solvent_total : sum_Z (amount <$> m_txs w) + debits (m_txs w) = total;
}.

Lemma debits_nonneg rows : Forall row_ok rows → 0 ≤ debits rows.
Proof.
  intros Hok. apply sum_Z_nonneg, Forall_fmap. eapply Forall_impl; [exact Hok|].
  intros r (_ & _ & [Hd|[Hd Ha]]); unfold debit; cbn; rewrite Hd.
  - done.
  - rewrite bool_decide_true by done. lia.
Qed.

Lemma debits_cons r rows : debits (r :: rows) = debit r + debits rows.
Proof. done. Qed.

Lemma pending_sum_nonneg rows : Forall row_ok rows → credits_nonneg rows → 0 ≤ pending_sum rows.
Proof.
  intros Hok Hr. unfold pending_sum, credits_nonneg in *. apply sum_Z_nonneg, Forall_fmap.
  rewrite Forall_forall in Hok, Hr |- *. intros r Hin. cbn.
  destruct (Hok r Hin) as (_ & _ & [Hd|[Hd _]]).
  - destruct (settled r); [done|]. by apply Hr.
  - unfold settled. by rewrite Hd.
Qed.

Lemma solvent_balances total w : total < 2 ^ 63 → solvent total w →
  m_confirmed w = settled_sum (m_txs w) ∧ m_unconfirmed w = pending_sum (m_txs w) ∧
  0 ≤ pending_sum (m_txs w).
Proof.
  intros Ht [[Hr Hc Hu] Hn Hs Hl]. pose proof (pending_sum_nonneg _ Hr Hn).
  pose proof (settled_pending_sum (m_txs w)). pose proof (debits_nonneg _ Hr).
  split_and!; [rewrite Hc|rewrite Hu|done]; apply i64_id; lia.
Qed.

Lemma credits_nonneg_same rows rows' :
  amount <$> rows' = amount <$> rows → direction <$> rows' = direction <$> rows →
  credits_nonneg rows → credits_nonneg rows'.
Proof.
  unfold credits_nonneg. revert rows'. induction rows as [|r rows IH]; intros [|r' rows']; try done.
  rewrite !fmap_cons. intros [= Ea Ea'] [= Ed Ed'] [Hr Hrs]%Forall_cons.
  constructor; [by rewrite Ea, Ed|by apply IH].
Qed.

Lemma debits_same rows rows' :
  amount <$> rows' = amount <$> rows → direction <$> rows' = direction <$> rows →
  debits rows' = debits rows.
Proof.
  revert rows'. induction rows as [|r rows IH]; intros [|r' rows']; try done.
  rewrite !fmap_cons. intros [= Ea Ea'] [= Ed Ed']. rewrite !debits_cons. unfold debit.
  by rewrite Ea, Ed, (IH rows').
Qed.

Lemma solvent_same total w w' : m_txs w' = m_txs w → wallet_inv w' → solvent total w →
  solvent total w'.
Proof. intros E Hi [_ Hr Hs Hl]. by split; rewrite ?E. Qed.

Lemma solvent_step total w o w' :
  0 ≤ credit o → total < 2 ^ 63 → solvent total w →
  wallet_step w o = Ok w' → solvent (total + credit o) w'.
Proof.
  intros Hn Ht Hw E. pose proof (wallet_step_inv _ _ _ (solvent_inv _ _ Hw) E) as Hinv.
  pose proof (solvent_balances total w Ht Hw) as (Ec & Eu & Hp).
  destruct o as [label ms|a memo now|dest a fee ms now|p|p|]; cbn [credit] in *; rewrite ?Z.add_0_r;
    cbn [wallet_step] in E.
  - injection E as <-. by apply (solvent_same total w).
  - injection E as <-. pose proof (new_credit_ok memo a now) as (? & Es & Ep).
    destruct Hw as [_ Hr Hs Hl]. split; [done|by constructor|..]; cbn [creditSimulated fst m_txs set_txs].
    + by rewrite settled_sum_cons, Es.
    + rewrite fmap_cons, sum_Z_cons, debits_cons. cbn [amount]. unfold debit. cbn [direction amount].
      rewrite bool_decide_false by by_decide. lia.
  - destruct (createSpend _ _ _ _ _ _ _) as [[[b err'] [w1 es]]| |] eqn:E1; [|done..].
    injection E as <-. apply createSpend_Ok in E1. destruct b; [|by destruct E1 as [-> _]].
    destruct E1 as (_ & Hlt & _ & _ & ->).
    pose proof (new_spend_ok (qs "tx_" ++ number ms) (a + fee) now ltac:(lia)) as (? & Es & Ep).
    destruct Hw as [_ Hr Hs Hl]. split; [done|by constructor|..]; cbn [snd fst m_txs set_txs].
    + rewrite settled_sum_cons, Es. lia.
    + rewrite fmap_cons, sum_Z_cons, debits_cons. cbn [amount]. unfold debit. cbn [direction amount].
      rewrite bool_decide_true by done. lia.
  - injection E as <-. apply (solvent_same total w); [|done..]. unfold encryptWallet. by repeat case_match.
  - injection E as <-. apply (solvent_same total w); [|done..]. unfold unlockWallet. by repeat case_match.
  - injection E as <-.
    destruct (advanceConfirmations_ok w (solvent_inv _ _ Hw)) as (_ & Ea & Ed & Hle).
    destruct Hw as [_ Hr Hs Hl].
    split; [done|by eapply credits_nonneg_same|lia|by rewrite Ea, (debits_same (m_txs w))].
Qed.

Lemma credits_cons o ops : credits (o :: ops) = credit o + credits ops.
Proof. done. Qed.

Lemma solvent_run total ops w w' :
  Forall (λ o, 0 ≤ credit o) ops → total + credits ops < 2 ^ 63 → solvent total w →
  wallet_run w ops = Ok w' → solvent (total + credits ops) w'.
Proof.
  intros Hn. revert total w. induction Hn as [|o ops Ho Hops IH]; intros total w Ht Hw E.
  - injection E as <-. unfold credits in *. cbn in *. by rewrite Z.add_0_r.
  - unfold wallet_run in E. cbn [foldM] in E. simplify_result. rewrite credits_cons in *.
    assert (0 ≤ credits ops) by by apply sum_Z_nonneg, Forall_fmap.
    rewrite Z.add_assoc. eapply IH; [lia| |done]. eapply solvent_step; [done|lia|done..].
Qed.

(** ** The lock *)

(** A locked wallet stays locked through anything but its own passphrase. *)
Definition locked_with (p : QString) (w : WalletServiceClient) : Prop :=
  m_encrypted w = true ∧ m_locked w = true ∧ m_passphrase w = p.

Lemma locked_step p w o w' : locked_with p w → o ≠ WUnlock p → wallet_step w o = Ok w' →
  locked_with p w'.
Proof.
  intros (He & Hl & Hp) Ho. destruct o as [label ms|a memo now|dest a fee ms now|q|q|]; cbn [wallet_step].
  - by intros [= <-].
  - by intros [= <-].
  - unfold createSpend. rewrite Hl. cbn. by intros [= <-].
  - intros [= <-]. unfold encryptWallet. rewrite He. by repeat case_match.
  - intros [= <-]. unfold unlockWallet. rewrite He, Hp. cbn [negb].
    rewrite bool_decide_false by naive_solver. done.
  - intros [= <-]. unfold advanceConfirmations.
    by destruct (advance_rows _ _) as [? [[[] ?] ?]].
Qed.

Lemma locked_run p ops w w' : locked_with p w → WUnlock p ∉ ops → wallet_run w ops = Ok w' →
  locked_with p w'.
Proof.
  revert w. induction ops as [|o ops IH]; intros w Hw Hn E; [by injection E as <-|].
  apply not_elem_of_cons in Hn as [? Hn]. unfold wallet_run in E. cbn [foldM] in E.
  simplify_result. eapply IH; [|done..]. by eapply locked_step.
Qed.

End Wallet.

(** ** Properties *)

Definition spend_fits (o : wallet_op) : Prop :=
  match o with WSpend _ a fee _ _ => is_i64 (a + fee) | _ => True end.
#[global] Instance spend_fits_dec o : Decision (spend_fits o).
Proof. destruct o; apply _. Defined.

Lemma wallet_step_total `{QtNumber} w o : spend_fits o → ∃ w', wallet_step w o = Ok w'.
Proof.
  destruct o as [ | |dest a fee ms now| | | ]; cbn [wallet_step spend_fits]; try by eexists.
  intros Hf. unfold createSpend. destruct (m_locked w); [by eexists|].
  rewrite chk_i64_Ok by done. cbn [mbind result_bind].
  repeat (case_bool_decide; [by eexists|]). by eexists.
Qed.

Lemma wallet_run_total `{QtNumber} w ops : Forall spend_fits ops → ∃ w', wallet_run w ops = Ok w'.
Proof.
  intros Hf. apply foldM_total. intros s o Hin. apply wallet_step_total.
  rewrite Forall_forall in Hf. by apply Hf.
Qed.

(** C28. The wallet's balances are exact and never negative: over any sequence of
    operations whose credits are non-negative and sum below 2^63 and whose spends do
    not overflow, every operation returns, the confirmed balance is the settled
    amount, the unconfirmed balance the pending amount, and the two with what was
    spent make up what was credited. *)
Theorem wallet_solvent `{QtNumber} ops :
  Forall (λ o, 0 ≤ credit o) ops → credits ops < 2 ^ 63 → Forall spend_fits ops →
  ∃ w, wallet_run WalletServiceClient_new ops = Ok w ∧
    0 ≤ m_confirmed w ∧ 0 ≤ m_unconfirmed w ∧
    m_confirmed w = settled_sum (m_txs w) ∧ m_unconfirmed w = pending_sum (m_txs w) ∧
    m_confirmed w + m_unconfirmed w + debits (m_txs w) = credits ops.
Proof.
  intros Hn Ht Hf. destruct (wallet_run_total WalletServiceClient_new ops Hf) as [w E].
  assert (solvent 0 WalletServiceClient_new) as H0.
  { split; [apply wallet_inv_new|constructor|done..]. }
  pose proof (solvent_run 0 ops _ _ Hn Ht H0 E) as Hw.
  destruct (solvent_balances _ _ Ht Hw) as (Ec & Eu & Hp). destruct Hw as [_ _ Hs Hl].
  exists w. rewrite Ec, Eu. pose proof (settled_pending_sum (m_txs w)). split_and!; (done || lia).
Qed.

(** C29. A locked wallet spends nothing: once an unencrypted wallet was encrypted under
    a passphrase of at least eight characters, every spend is refused, whatever
    happens in between, until [unlockWallet] is called with that passphrase. *)
Theorem wallet_locked `{QtNumber} p ops w w' dest amount fee err msecs now :
  m_encrypted w = false → 8 ≤ zlen p → WUnlock p ∉ ops →
  wallet_run w (WEncrypt p :: ops) = Ok w' →
  createSpend dest amount fee err msecs now w' = Ok (false, qs "Wallet is locked", (w', [])).
Proof.
  intros He Hp Hn E. unfold wallet_run in E. cbn [foldM wallet_step] in E. cbn [mbind result_bind] in E.
  assert (locked_with p (encryptWallet p [] w).2.1) as Hl.
  { unfold encryptWallet. rewrite bool_decide_false by lia. by rewrite He. }
  destruct (locked_run p ops _ w' Hl Hn E) as (_ & Hlk & _). unfold createSpend. by rewrite Hlk.
Qed.

(** A short run: a credit, two ticks, a spend. *)
Definition decimal_number : QtNumber := λ n, qs (pretty n).
Definition example_ops : list wallet_op :=
  [WCredit 2500000000 (qs "initial-aid") 0; WTick; WTick; WSpend (qs "drm_x") 100000 10000 7 8;
   WAddress [] 9; WTick].

Example example_run :
  (λ w, (m_confirmed w, m_unconfirmed w, length (m_txs w))) <$>
    wallet_run (H := decimal_number) WalletServiceClient_new example_ops
  = Ok (2499890000, 0, 2%nat).
Proof. vm_compute. reflexivity. Qed.

Lemma wallet_solvent_witness :
  ∃ w, wallet_run (H := decimal_number) WalletServiceClient_new example_ops = Ok w ∧
    0 ≤ m_confirmed w ∧ 0 ≤ m_unconfirmed w ∧
    m_confirmed w = settled_sum (m_txs w) ∧ m_unconfirmed w = pending_sum (m_txs w) ∧
    m_confirmed w + m_unconfirmed w + debits (m_txs w) = credits example_ops.
Proof. apply (wallet_solvent (H := decimal_number) example_ops); by_decide. Defined.

Definition example_locked : WalletServiceClient :=
  mkWallet [] [] 0 0 true true (qs "passphrase").

Lemma wallet_locked_witness :
  createSpend (H := decimal_number) [] 5 1 [] 0 0 example_locked
  = Ok (false, qs "Wallet is locked", (example_locked, [])).
Proof.
  apply (wallet_locked (H := decimal_number) (qs "passphrase") [WTick; WUnlock (qs "password")]
    WalletServiceClient_new); by_decide || (vm_compute; reflexivity).
Defined.
