(* ===== verification/Desktop.v ===== *)
(** * The desktop window and its controllers: layer3-app/qt/main.cpp

    The simulated node and mining controllers, and the window that joins them with the
    wallet client: its slots, settings and start-up.  A slot runs inside the [emit]
    that calls it, on the one GUI thread.  Taking the non-recursive [m_mutex] on the
    thread that holds it never returns: [None] is a window blocked for ever.

    Widgets are the text or flag they show; what Qt formats is the class [QtText]; an
    answer of a modal dialog is an argument. *)

From stdpp Require Import functions.
From S2P Require Import Prelude Doubles Wallet.

(** Qt's text forms: [QString::number(double, 'f', decimals)], an ISO date. *)
Class QtText := {
  qt_number :: QtNumber;
  number_f : double → Z → QString;
  iso_date : Z → QString;
}.

(** ** The node controller *)

Record NodeConfig := mkNodeConfig {
  dataDir : QString;
  network : QString;
  rpcUser : QString;
  rpcPass : QString;
}.

Record NodeProcessController := mkNodeController {
  node_running : bool;
  m_height : Z;
  m_syncProgress : double;
  m_peerCount : Z;
  m_networkHashrate : double;
  m_pollTimer : bool;
  m_config : NodeConfig;
}.

Definition NodeProcessController_new : NodeProcessController :=
  mkNodeController false 0 (of_int 0) 0 (of_int 0) false (mkNodeConfig [] [] [] []).

Inductive node_signal :=
  | nodeStarted
  | nodeStopped
  | nodeStatusChanged (height : Z) (syncProgress : double) (peers : Z) (networkHashrate : double).

Definition startNode (cfg : NodeConfig) (n : NodeProcessController) :
    NodeProcessController * list node_signal :=
  if node_running n then
    (mkNodeController true (m_height n) (m_syncProgress n) (m_peerCount n)
       (m_networkHashrate n) (m_pollTimer n) cfg, [])
  else (mkNodeController true 0 (of_int 0) 0 (of_int 0) true cfg, [nodeStarted]).

Definition stopNode (n : NodeProcessController) : NodeProcessController * list node_signal :=
  if node_running n then
    (mkNodeController false (m_height n) (m_syncProgress n) (m_peerCount n)
       (m_networkHashrate n) false (m_config n), [nodeStopped])
  else (n, []).

Record RpcResult := mkRpcResult { ok : bool; rpc_result : QString; rpc_error : QString }.

#[global] Instance RpcResult_eq_dec : EqDecision RpcResult.
Proof. solve_decision. Defined.

Definition rpc_call `{QtNumber} (user pass method params : QString) (n : NodeProcessController) :
    RpcResult :=
  if negb (node_running n) then mkRpcResult false [] (qs "Node offline") else
  if negb (bool_decide (user = rpcUser (m_config n))) ||
     negb (bool_decide (pass = rpcPass (m_config n)))
  then mkRpcResult false [] (qs "Unauthorized") else
  if bool_decide (method = qs "ping") then mkRpcResult true (qs "pong") [] else
  if bool_decide (method = qs "getblockchaininfo") then
    mkRpcResult true
      (qs "height=" ++ number (m_height n) ++ qs " peers=" ++ number (m_peerCount n)) []
  else mkRpcResult false [] (qs "Unknown method " ++ method).

(** [qBound(lo, v, hi)] *)
Definition qBound (lo v hi : Z) : Z := Z.max lo (Z.min hi v).

(** [tick], on the value of [rand()]. *)
Definition node_tick (random : Z) (n : NodeProcessController) :
    NodeProcessController * list node_signal :=
  if negb (node_running n) then (n, []) else
  let height := i32 (m_height n + 1) in
  let progress := dmin (of_int 1) (dadd (m_syncProgress n) (ddiv (of_int 1) (of_int 100))) in
  let peers := qBound 0 (m_peerCount n + (random `rem` 3 - 1)) 16 in
  let nh := dadd (of_int 75) (dmul (of_int (height `rem` 30)) (ddiv (of_int 5) (of_int 2))) in
  (mkNodeController true height progress peers nh (m_pollTimer n) (m_config n),
   [nodeStatusChanged height progress peers nh]).

(** ** The mining manager *)

Record MiningManager := mkMiner {
  mining_running : bool;
  m_lastHashrate : double;
  m_threads : Z;
  m_gpuEnabled : bool;
  m_tick : bool;
}.

Definition MiningManager_new : MiningManager := mkMiner false (of_int 0) 1 false false.

Definition mining_start (threads : Z) (gpu : bool) (m : MiningManager) : MiningManager :=
  mkMiner true (m_lastHashrate m) threads gpu (if mining_running m then m_tick m else true).

Definition mining_stop (m : MiningManager) : MiningManager :=
  if mining_running m then mkMiner false (m_lastHashrate m) (m_threads m) (m_gpuEnabled m) false
  else m.

(** [updateRate]: the rate emitted, if any. *)
Definition updateRate (m_node : option NodeProcessController) (m : MiningManager) :
    MiningManager * option double :=
  if negb (mining_running m) then (m, None) else
  let base := match m_node with
    | Some n => if node_running n then of_int 15 else of_int 5
    | None => of_int 0 end in
  let simulated :=
    dadd (dadd base (dmul (of_int (m_threads m)) (ddiv (of_int 25) (of_int 2))))
      (if m_gpuEnabled m then of_int 150 else of_int 0) in
  (mkMiner true simulated (m_threads m) (m_gpuEnabled m) (m_tick m), Some simulated).

(** ** The window *)

Record Form := mkForm {
  dataDirEdit : QString;
  networkBox : QString;
  rpcUserEdit : QString;
  rpcPassEdit : QString;
}.

(** The labels and the status bar. *)
Inductive label :=
  | confirmedLbl | unconfirmedLbl | heightLbl | peersLbl | syncLbl | networkLbl
  | hashrateLbl | qrLabel | statusBar.
#[global] Instance label_eq_dec : EqDecision label.
Proof. solve_decision. Defined.

(** What the widgets show; a row of the table is its five cells. *)
Record Ui := mkUi {
  labels : label → QString;
  txTable : list (list QString);
  addressList : list QString;
  encryptBtn : bool;
  unlockBtn : bool;
}.

Record MainWindow := mkWindow {
  wallet : WalletServiceClient;
  node : NodeProcessController;
  miner : MiningManager;
  form : Form;
  ui : Ui;
}.

(** The stored settings, kept between runs. *)
Record QSettings := mkSettings { eulaAccepted : bool; stored : gmap string QString }.

Definition set_wallet (w : WalletServiceClient) (s : MainWindow) : MainWindow :=
  mkWindow w (node s) (miner s) (form s) (ui s).
Definition set_node (n : NodeProcessController) (s : MainWindow) : MainWindow :=
  mkWindow (wallet s) n (miner s) (form s) (ui s).
Definition set_ui (u : Ui) (s : MainWindow) : MainWindow :=
  mkWindow (wallet s) (node s) (miner s) (form s) u.
(** [l->setText(t)] *)
Definition setText (l : label) (t : QString) (s : MainWindow) : MainWindow :=
  let u := ui s in
  set_ui (mkUi (<[l := t]> (labels u)) (txTable u) (addressList u) (encryptBtn u)
    (unlockBtn u)) s.

(** [QMutexLocker locker(&m_mutex); return m_txs;] *)
Definition wallet_transactions (held : bool) (w : WalletServiceClient) :
    option (list TransactionRow) :=
  if held then None else Some (m_txs w).

Section Window.
  Context `{QtText}.
  #[local] Existing Instance qt_number.

(** ** Slots connected to the wallet *)

Definition drm (v : Z) : QString :=
  number_f (ddiv (of_int v) (of_int 100000000)) 8.

Definition updateBalances (confirmed unconfirmed : Z) (s : MainWindow) : MainWindow :=
  let s := setText confirmedLbl (drm confirmed ++ qs " DRM") s in
  setText unconfirmedLbl (drm unconfirmed ++ qs " DRM") s.

Definition table_row (row : TransactionRow) : list QString :=
  [iso_date (timestamp row); txid row; direction row; drm (amount row);
   number (confirmations row)].

(** [held]: the caller already holds the wallet's mutex. *)
Definition refreshTransactions (held : bool) (s : MainWindow) : option MainWindow :=
  rows ← wallet_transactions held (wallet s);
  let u := ui s in
  Some (set_ui (mkUi (labels u) (table_row <$> rows) (addressList u) (encryptBtn u)
    (unlockBtn u)) s).

(** [drawQr] paints the text itself. *)
Definition drawQr (data : QString) (s : MainWindow) : MainWindow := setText qrLabel data s.

Definition addAddress (addr : QString) (s : MainWindow) : MainWindow :=
  let u := ui s in
  drawQr addr (set_ui (mkUi (labels u) (txTable u) (addressList u ++ [addr]) (encryptBtn u)
    (unlockBtn u)) s).

Definition updateEncryptionState (s : MainWindow) : MainWindow :=
  let u := ui s in
  set_ui (mkUi (labels u) (txTable u) (addressList u) (negb (m_encrypted (wallet s)))
    (m_encrypted (wallet s))) s.

(** The connections of the constructor (479-482). *)
Definition deliver (s : MainWindow) (e : emission) : option MainWindow :=
  match emitted e with
  | balancesChanged c u => Some (updateBalances c u s)
  | transactionsChanged => refreshTransactions (mutex_held e) s
  | addressAdded addr => Some (addAddress addr s)
  | encryptionStateChanged => Some (updateEncryptionState s)
  end.

(** A wallet operation: its new state, then its signals in order. *)
Definition wallet_effect (r : WalletServiceClient * list emission) (s : MainWindow) :
    option MainWindow :=
  foldl (λ s e, s ≫= λ s, deliver s e) (Some (set_wallet r.1 s)) r.2.

(** The wallet's timer. *)
Definition wallet_timer (s : MainWindow) : option MainWindow :=
  wallet_effect (advanceConfirmations (wallet s)) s.

(** ** Slots connected to the controllers *)

Definition updateNodeStatus (height : Z) (syncProgress : double) (peers : Z)
    (networkHashrate : double) (s : MainWindow) : MainWindow :=
  let s := setText heightLbl (number height) s in
  let s := setText peersLbl (number peers) s in
  let s := setText syncLbl (number_f (dmul syncProgress (of_int 100)) 2 ++ qs "%") s in
  setText networkLbl (number_f networkHashrate 2 ++ qs " H/s") s.

Definition deliver_node (s : MainWindow) (e : node_signal) : MainWindow :=
  match e with
  | nodeStarted => setText statusBar (qs "Node started") s
  | nodeStopped => setText statusBar (qs "Node stopped") s
  | nodeStatusChanged h p n r => updateNodeStatus h p n r s
  end.

Definition node_effect (r : NodeProcessController * list node_signal) (s : MainWindow) : MainWindow :=
  foldl deliver_node (set_node r.1 s) r.2.

Definition node_timer (random : Z) (s : MainWindow) : MainWindow :=
  node_effect (node_tick random (node s)) s.

Definition updateHashrate (rate : double) (s : MainWindow) : MainWindow :=
  setText hashrateLbl (number_f rate 2 ++ qs " H/s") s.

Definition set_miner (m : MiningManager) (s : MainWindow) : MainWindow :=
  mkWindow (wallet s) (node s) m (form s) (ui s).

Definition miner_timer (s : MainWindow) : MainWindow :=
  let '(m, rate) := updateRate (Some (node s)) (miner s) in
  let s := set_miner m s in
  match rate with Some r => updateHashrate r s | None => s end.

Definition startMining (cpuThreads : Z) (gpuToggle : bool) (s : MainWindow) : MainWindow :=
  set_miner (mining_start cpuThreads gpuToggle (miner s)) s.
Definition stopMining (s : MainWindow) : MainWindow := set_miner (mining_stop (miner s)) s.

(** ** Buttons and dialogs *)

(** [answer]: the text of the input dialog, if confirmed. *)
Definition generateAddress (answer : option QString) (msecs : Z) (s : MainWindow) :
    option MainWindow :=
  match answer with
  | None => Some s
  | Some label =>
      let '(addr, r) := requestNewAddress label msecs (wallet s) in
      s ← wallet_effect r s; Some (drawQr addr s)
  end.

Definition fee_of (index : Z) : Z :=
  if bool_decide (index = 0) then 10000 else
  if bool_decide (index = 1) then 100000 else
  if bool_decide (index = 2) then 1000000 else 0.

(** The message box a slot ends with. *)
Inductive message := NoMessage | Warning (t : QString) | Critical (t : QString) | Information (t : QString).

(** [static_cast<qint64>(amountD * 100000000.0)] *)
Definition spin_amount (amountD : double) : result Z :=
  to_qint64 (dmul amountD (of_int 100000000)).

(** [dest] is the trimmed text, [yes] the answer to the question. *)
Definition confirmAndSend (dest : QString) (amountD : double) (feeIndex : Z) (yes : bool)
    (msecs now : Z) (s : MainWindow) : result (option (MainWindow * message)) :=
  amount ← spin_amount amountD;
  let fee := fee_of feeIndex in
  if is_empty dest then Ok (Some (s, Warning (qs "Destination address is required."))) else
  if negb yes then Ok (Some (s, NoMessage)) else
  '(sent, err, r) ← createSpend dest amount fee [] msecs now (wallet s);
  if negb sent then Ok (Some (s, Critical err)) else
  Ok (s ← wallet_effect r s;
      Some (s, Information (qs "Transaction created and queued for broadcast."))).

Definition MainWindow_encryptWallet (answer : option QString) (s : MainWindow) :
    option (MainWindow * message) :=
  match answer with
  | None => Some (s, NoMessage)
  | Some pass =>
      let '(sent, err, r) := encryptWallet pass [] (wallet s) in
      if negb sent then Some (s, Critical err) else
      s ← wallet_effect r s;
      Some (s, Information (qs "Wallet encrypted. Please keep your passphrase safe."))
  end.

Definition MainWindow_unlockWallet (answer : option QString) (s : MainWindow) :
    option (MainWindow * message) :=
  match answer with
  | None => Some (s, NoMessage)
  | Some pass =>
      let '(sent, err, r) := unlockWallet pass [] (wallet s) in
      if negb sent then Some (s, Critical err) else
      s ← wallet_effect r s; Some (s, Information (qs "Wallet unlocked."))
  end.

(** ** Settings and start-up *)

Definition set_form (f : Form) (s : MainWindow) : MainWindow :=
  mkWindow (wallet s) (node s) (miner s) f (ui s).

Definition startNodeFromSettings (s : MainWindow) : MainWindow :=
  let f := form s in
  let cfg := mkNodeConfig (dataDirEdit f) (networkBox f) (rpcUserEdit f) (rpcPassEdit f) in
  let s := if node_running (node s) then node_effect (stopNode (node s)) s else s in
  node_effect (startNode cfg (node s)) s.

Definition saveSettings (q : QSettings) (s : MainWindow) : QSettings * MainWindow :=
  let f := form s in
  let q := mkSettings (eulaAccepted q)
    (<["rpcPass" := rpcPassEdit f]> (<["rpcUser" := rpcUserEdit f]>
      (<["network" := networkBox f]> (<["dataDir" := dataDirEdit f]> (stored q))))) in
  (q, startNodeFromSettings (setText statusBar (qs "Settings saved") s)).

(** The items of the box; [setCurrentText] selects an item with the text, if any. *)
Definition networks : list QString := [qs "mainnet"; qs "testnet"].
Definition setCurrentText (items : list QString) (text current : QString) : QString :=
  if bool_decide (text ∈ items) then text else current.

Definition loadSettings (defaultDir : QString) (q : QSettings) (s : MainWindow) : MainWindow :=
  let value_ k d := default d (stored q !! k) in
  set_form (mkForm (value_ "dataDir" defaultDir)
    (setCurrentText networks (value_ "network" (qs "testnet")) (networkBox (form s)))
    (value_ "rpcUser" (qs "user")) (value_ "rpcPass" (qs "pass"))) s.

(** Whether the window stays open. *)
Definition enforceEula (accepted : bool) (q : QSettings) : QSettings * bool :=
  if eulaAccepted q then (q, true) else
  if accepted then (mkSettings true (stored q), true) else (q, false).

Definition seedWallet (msecs now : Z) (s : MainWindow) : option MainWindow :=
  s ← wallet_effect (creditSimulated (25 * 100000000) (qs "initial-aid") now (wallet s)) s;
  wallet_effect (requestNewAddress (qs "default") msecs (wallet s)).2 s.

(** The labels the window is built with. *)
Definition initial_labels : label → QString :=
  <[confirmedLbl := qs "0 DRM"]> (<[unconfirmedLbl := qs "0 DRM"]>
  (<[heightLbl := qs "0"]> (<[peersLbl := qs "0"]> (<[syncLbl := qs "0%"]>
  (<[networkLbl := qs "Offline"]> (<[hashrateLbl := qs "0 H/s"]> (λ _, []))))))).

(** The constructor; an unaccepted EULA closes the window once the event loop runs. *)
Definition MainWindow_new (defaultDir : QString) (accepted : bool) (msecs now : Z)
    (q : QSettings) : QSettings * bool * option MainWindow :=
  let s := mkWindow WalletServiceClient_new NodeProcessController_new MiningManager_new
    (mkForm [] (qs "mainnet") [] []) (mkUi initial_labels [] [] true true) in
  let s := updateEncryptionState s in
  let s := loadSettings defaultDir q s in
  let '(q, open) := enforceEula accepted q in
  let s := startNodeFromSettings s in
  (q, open, s ← seedWallet msecs now s; refreshTransactions false s).

End Window.

(** ** The wallet's timer and the transactions table *)

Section Blocking.
  Context `{QtText}.
  #[local] Existing Instance qt_number.

(** A pass changes a row exactly if one has fewer than six confirmations. *)
Lemma advance_rows_changed rows c u ch :
  (advance_rows rows (ch, c, u)).2.1.1 = ch || existsb (λ r, bool_decide (confirmations r < 6)) rows.
Proof.
  revert c u ch. induction rows as [|r rows IH]; intros c u ch; [by destruct ch|].
  cbn [advance_rows existsb]. unfold advance_row. bool_cases (confirmations r < 6); cbn [orb].
  - destruct (_ && bool_decide (0 < _)).
    + specialize (IH (i64 (c + amount r)) (i64 (u - amount r)) true).
      destruct (advance_rows rows _) as [? [[? ?] ?]]. cbn in *. rewrite IH. by destruct ch.
    + specialize (IH c u true). destruct (advance_rows rows _) as [? [[? ?] ?]]. cbn in *.
      rewrite IH. by destruct ch.
  - specialize (IH c u ch). destruct (advance_rows rows _) as [? [[? ?] ?]]. cbn in *. done.
Qed.

Lemma wallet_timer_blocks s :
  wallet_timer s = None ↔ ∃ row, row ∈ m_txs (wallet s) ∧ confirmations row < 6.
Proof.
  unfold wallet_timer, advanceConfirmations.
  pose proof (advance_rows_changed (m_txs (wallet s)) (m_confirmed (wallet s))
    (m_unconfirmed (wallet s)) false) as Hc.
  destruct (advance_rows _ _) as [rows [[ch c] u]]. cbn in Hc. subst ch.
  destruct (existsb _ _) eqn:E; cbn.
  - split; [|done]. intros _. apply existsb_exists in E as (r & Hin & Hr).
    exists r. split; [by apply list_elem_of_In|by apply bool_decide_eq_true in Hr].
  - split; [done|]. intros (r & Hin & Hr). exfalso.
    assert (existsb (λ r, bool_decide (confirmations r < 6)) (m_txs (wallet s)) = true) as E'; [|congruence].
    apply existsb_exists. exists r. split; [by apply list_elem_of_In|by apply bool_decide_eq_true].
Qed.

End Blocking.

(** The window freezes on its wallet's timer: the timer's event never returns exactly
    when some transaction has fewer than six confirmations, because
    [advanceConfirmations] emits [transactionsChanged] with its mutex held and the
    table's slot takes it again; and this is so one second after every start, whatever
    the stored settings and the answer to the licence dialog. *)
Theorem MainWindow_timer_blocks `{QtText} :
  (∀ s, wallet_timer s = None ↔ ∃ row, row ∈ m_txs (wallet s) ∧ confirmations row < 6) ∧
  (∀ defaultDir accepted msecs now q,
    ∃ s, (MainWindow_new defaultDir accepted msecs now q).2 = Some s ∧
      node_running (node s) = true ∧ length (txTable (ui s)) = 1%nat ∧
      wallet_timer s = None).
Proof.
  split; [apply wallet_timer_blocks|]. intros defaultDir accepted msecs now q.
  unfold MainWindow_new. destruct (enforceEula accepted q) as [q' open]. cbn [snd].
  eexists. split; [reflexivity|]. by split_and!.
Qed.

(** ** The node's timer *)

(** The displayed progress after [n] ticks. *)
Definition progress_after (n : nat) : double :=
  Nat.iter n (λ p, dmin (of_int 1) (dadd p (ddiv (of_int 1) (of_int 100)))) (of_int 0).

Definition node_after (cfg : NodeConfig) (n : NodeProcessController) (randoms : list Z) :
    NodeProcessController :=
  foldl (λ n r, (node_tick r n).1) (startNode cfg n).1 randoms.

Lemma progress_full n : (100 ≤ n)%nat → progress_after n = of_int 1.
Proof.
  intros Hn. replace n with (n - 100 + 100)%nat by lia. generalize (n - 100)%nat as k. intros k.
  unfold progress_after. rewrite Nat.iter_add.
  replace (Nat.iter 100 _ _) with (of_int 1) by by vm_compute.
  induction k as [|k IH]; [done|]. rewrite Nat.iter_succ, IH. by vm_compute.
Qed.

Lemma progress_partial n : (n < 100)%nat → SFltb (progress_after n) (of_int 1) = true.
Proof.
  intros Hn. assert (Forall (λ n, SFltb (progress_after n) (of_int 1) = true) (seq 0 100)) as Hall.
  { by_decide. }
  rewrite Forall_forall in Hall. apply Hall. apply elem_of_seq. lia.
Qed.

Lemma qBound_range lo v hi : lo ≤ hi → lo ≤ qBound lo v hi ≤ hi.
Proof. unfold qBound. lia. Qed.

(** The node's status over time: a started node stays running under its
    configuration, after any ticks its height is their number as an [int], the peers
    are between 0 and 16 whatever [rand] returns, and the progress reaches exactly 1.0
    at the hundredth tick, not before and never above. *)
Theorem node_after_ticks cfg n randoms :
  node_running n = false →
  let s := node_after cfg n randoms in
  let ticks := length randoms in
  node_running s = true ∧ m_config s = cfg ∧ m_pollTimer s = true ∧
  m_height s = i32 (Z.of_nat ticks) ∧
  0 ≤ m_peerCount s ≤ 16 ∧
  (if bool_decide (ticks < 100)%nat then SFltb (m_syncProgress s) (of_int 1) = true
   else m_syncProgress s = of_int 1).
Proof.
  intros Hn. cbv zeta.
  assert (let s := node_after cfg n randoms in
    node_running s = true ∧ m_config s = cfg ∧ m_pollTimer s = true ∧
    m_height s = i32 (zlen randoms) ∧ 0 ≤ m_peerCount s ≤ 16 ∧
    m_syncProgress s = progress_after (length randoms)) as (? & ? & ? & ? & ? & ->).
  { cbv zeta. unfold node_after. induction randoms as [|r rs IH] using rev_ind.
    { unfold startNode. rewrite Hn. cbn. split_and!; (done || lia). }
    rewrite foldl_app. cbn [foldl]. destruct IH as (Hr & Hc & Ht & Hh & Hp & Hs).
    set (t := foldl _ _ rs) in *. clearbody t. unfold node_tick. rewrite Hr. cbn [negb fst node_running m_config m_pollTimer m_height m_peerCount m_syncProgress].
    split_and!; try done.
    - rewrite Hh, length_app, i32_add_l. cbn [length]. f_equal. lia.
    - apply qBound_range. lia.
    - apply qBound_range. lia.
    - rewrite length_app, Nat.add_comm. cbn [length Nat.add]. unfold progress_after at 1.
      by rewrite Nat.iter_succ, Hs. }
  split_and!; try done; try lia.
  case_bool_decide; [by apply progress_partial|apply progress_full; lia].
Qed.

Definition example_config : NodeConfig :=
  mkNodeConfig (qs "/tmp") (qs "testnet") (qs "user") (qs "pass").

Lemma node_after_ticks_witness :
  let s := node_after example_config NodeProcessController_new (seqZ 0 120) in
  node_running s = true ∧ m_config s = example_config ∧ m_pollTimer s = true ∧
  m_height s = i32 120 ∧ 0 ≤ m_peerCount s ≤ 16 ∧ m_syncProgress s = of_int 1.
Proof. by apply (node_after_ticks example_config NodeProcessController_new (seqZ 0 120)). Defined.

(** The node answers exactly the configured user: a call succeeds if and only if the
    node runs, both credentials are the configuration's and the method is [ping] or
    [getblockchaininfo]. *)
Theorem rpc_call_ok `{QtNumber} user pass method params n :
  ok (rpc_call user pass method params n) = true ↔
  node_running n = true ∧ user = rpcUser (m_config n) ∧ pass = rpcPass (m_config n) ∧
  method ∈ [qs "ping"; qs "getblockchaininfo"].
Proof.
  unfold rpc_call. destruct (node_running n); cbn [negb]; [|naive_solver].
  repeat case_bool_decide; cbn; set_solver.
Qed.

(** Settings survive a restart: a form whose network is one of the box's, saved and
    loaded into any window, is that form again; the saved window's node runs with
    it. *)
Theorem settings_roundtrip `{QtText} defaultDir q s s' :
  networkBox (form s) ∈ networks →
  let '(q', s1) := saveSettings q s in
  form (loadSettings defaultDir q' s') = form s ∧
  node_running (node s1) = true ∧ m_height (node s1) = 0 ∧
  m_config (node s1) = mkNodeConfig (dataDirEdit (form s)) (networkBox (form s))
    (rpcUserEdit (form s)) (rpcPassEdit (form s)).
Proof.
  intros Hn. cbn [saveSettings]. split.
  - unfold loadSettings. cbn [stored form set_form].
    rewrite !(lookup_insert_ne _ _ "dataDir"), !(lookup_insert_ne _ _ "network"),
      !(lookup_insert_ne _ _ "rpcUser"), !lookup_insert_eq by done.
    cbn [default from_option]. unfold setCurrentText. rewrite bool_decide_true by done.
    by destruct (form s).
  - unfold startNodeFromSettings. destruct s as [w [[] ? ? ? ? ? ?] m f u]; by cbn.
Qed.

(** The send button truncates a binary fraction: with 0.29 DRM entered and the
    lowest fee, a wallet with enough confirmed balance records a spend of 28999999
    units and the fee, one unit less than entered. *)
Theorem confirmAndSend_truncates `{QtText} dest msecs now s :
  dest ≠ [] → m_locked (wallet s) = false → 29010000 ≤ m_confirmed (wallet s) < 2 ^ 63 →
  ∃ s', confirmAndSend dest (ddiv (of_int 29) (of_int 100)) 0 true msecs now s
    = Ok (Some (s', Information (qs "Transaction created and queued for broadcast."))) ∧
    amount <$> m_txs (wallet s') = - (28999999 + 10000) :: (amount <$> m_txs (wallet s)) ∧
    m_confirmed (wallet s') = m_confirmed (wallet s) - (28999999 + 10000).
Proof.
  intros Hd Hl Hc. unfold confirmAndSend.
  replace (spin_amount _) with (Ok 28999999) by by vm_compute. cbn [mbind result_bind].
  rewrite is_empty_false by done. unfold createSpend. rewrite Hl. cbn [negb].
  rewrite chk_i64_Ok by by vm_compute. cbn [mbind result_bind].
  change (28999999 + fee_of 0) with 29009999.
  rewrite bool_decide_false by lia. rewrite bool_decide_false by lia. cbn.
  eexists. split; [reflexivity|]. split; [done|]. cbn. rewrite i64_id; lia.
Qed.

(** A stand-in for Qt's formatting, and a window. *)
Definition plain_text : QtText :=
  {| qt_number := decimal_number; number_f _ _ := []; iso_date := decimal_number |}.
Definition example_window : MainWindow :=
  mkWindow (set_txs [] 100000000 0 WalletServiceClient_new) NodeProcessController_new
    MiningManager_new (mkForm (qs "/tmp") (qs "testnet") (qs "user") (qs "pass"))
    (mkUi (λ _, []) [] [] true false).

Lemma settings_roundtrip_witness :
  let '(q', s1) := @saveSettings plain_text (mkSettings true ∅) example_window in
  form (loadSettings [] q' example_window) = form example_window ∧
  node_running (node s1) = true ∧ m_height (node s1) = 0 ∧
  m_config (node s1) = example_config.
Proof.
  apply (@settings_roundtrip plain_text [] (mkSettings true ∅) example_window example_window).
  by_decide.
Defined.

Lemma confirmAndSend_truncates_witness :
  ∃ s', @confirmAndSend plain_text (qs "drm_x") (ddiv (of_int 29) (of_int 100)) 0 true 0 0
      example_window
    = Ok (Some (s', Information (qs "Transaction created and queued for broadcast."))) ∧
    amount <$> m_txs (wallet s') = [- (28999999 + 10000)] ∧
    m_confirmed (wallet s') = 100000000 - (28999999 + 10000).
Proof.
  apply (@confirmAndSend_truncates plain_text (qs "drm_x") 0 0 example_window);
    [by_decide|reflexivity|by_decide].
Defined.
