(* ===== verification/DesktopApp.v ===== *)
(** * The desktop application around its window: layer3-app/qt/main.cpp

    The assets, the licence dialog, the pages with their controls and connections, and
    the event loop: an event is what the user does or a timer, and [None] is a window
    blocked for ever (Desktop.v).  An answer of a modal dialog comes with the event
    that opened it; a timer that fires while the dialog is open is an event before it,
    since up to its dialog no slot reads more than the fields of its own page. *)

From stdpp Require Import functions.
From S2P Require Import Prelude Doubles Wallet Desktop.

(** ** Assets *)

(** Qt's view of the file system: [QDir::current()], [applicationDirPath()], the path
    [QDir(dir).absoluteFilePath(name)], directories, and files that open for reading. *)
Class QtFiles := {
  current_dir : QString;
  applicationDirPath : QString;
  absoluteFilePath : QString → QString → QString;
  dir_exists : QString → bool;
  read_text : QString → option QString;
}.

Section Assets.
  Context `{QtFiles}.

Definition basePath : QString :=
  let candidate := absoluteFilePath current_dir (qs "layer3-app/assets") in
  if dir_exists candidate then candidate else
  absoluteFilePath applicationDirPath (qs "../assets").

Definition filePath (relative : QString) : QString := absoluteFilePath basePath relative.

Definition textAsset (relative : QString) : QString := default [] (read_text (filePath relative)).

End Assets.

(** ** The licence dialog *)

Record EulaDialog := mkEula { eula_text : QString; accept_checked : bool; acceptState : bool }.

Definition EulaDialog_new `{QtFiles} : EulaDialog :=
  mkEula (textAsset (qs "legal/EULA.txt")) false false.

(** The check box, and the two buttons. *)
Inductive eula_input := Eula_toggle | Eula_ok | Eula_cancel.

(** What the dialog does with an input: it goes on, after a warning or none, or closes
    with [QDialog::Accepted] or [Rejected].  [accept()] is read as [QDialog::accept]. *)
Inductive eula_outcome := Eula_open (warned : bool) | Eula_closed (code : bool).

Definition eula_step (d : EulaDialog) (i : eula_input) : EulaDialog * eula_outcome :=
  match i with
  | Eula_toggle => (mkEula (eula_text d) (negb (accept_checked d)) (acceptState d), Eula_open false)
  | Eula_ok =>
      if negb (accept_checked d) then (d, Eula_open true) else
      (mkEula (eula_text d) (accept_checked d) true, Eula_closed true)
  | Eula_cancel => (d, Eula_closed false)
  end.

(** [exec()] on the inputs until the dialog closes: the dialog and the code.  Inputs
    that end early close the dialog as the window's close button does. *)
Fixpoint eula_exec (d : EulaDialog) (inputs : list eula_input) : EulaDialog * bool :=
  match inputs with
  | [] => (d, false)
  | i :: inputs =>
      match eula_step d i with
      | (d, Eula_open _) => eula_exec d inputs
      | (d, Eula_closed code) => (d, code)
      end
  end.

(** The condition of [enforceEula] (686). *)
Definition eula_accepted `{QtFiles} (inputs : list eula_input) : bool :=
  let '(d, code) := eula_exec EulaDialog_new inputs in code && acceptState d.

(** ** The pages *)

(** The slots a control is connected to. *)
Inductive slot :=
  | S_confirmAndSend | S_generateAddress | S_startMining | S_stopMining | S_selectDataDir
  | S_encryptWallet | S_unlockWallet | S_saveSettings | S_showEulaDialog | S_openWhitepaper
  | S_close.
#[global] Instance slot_eq_dec : EqDecision slot.
Proof. solve_decision. Defined.

(** The widgets, without sizes and other looks; [Box] is a layout, [Row] a row of a
    form.  A label the window updates later names its [label]. *)
Inductive widget :=
  | QLabel (text : QString)
  | QLabel_shows (l : label) (text : QString)
  | QLineEdit (password : bool)
  | QDoubleSpinBox (lo hi : double) (decimals : Z)
  | QSpinBox (lo hi : Z)
  | QComboBox (items : list QString)
  | QCheckBox (text : QString)
  | QPushButton (text : QString) (clicked : slot)
  | QListWidget
  | QTableWidget (header : list QString)
  | QGroupBox (title : QString) (children : list widget)
  | Row (caption : QString) (w : widget)
  | Box (children : list widget).

Section Pages.
  Context `{QtFiles}.

Definition buildOverview : widget :=
  Box [QLabel (textAsset (qs "branding/tagline.txt"));
    QGroupBox (qs "Node sync status") [
      Row (qs "Current height") (QLabel_shows heightLbl (qs "0"));
      Row (qs "Peers") (QLabel_shows peersLbl (qs "0"));
      Row (qs "Sync") (QLabel_shows syncLbl (qs "0%"));
      Row (qs "Network status") (QLabel_shows networkLbl (qs "Offline"))];
    QGroupBox (qs "Wallet") [
      Row (qs "Confirmed") (QLabel_shows confirmedLbl (qs "0 DRM"));
      Row (qs "Unconfirmed") (QLabel_shows unconfirmedLbl (qs "0 DRM"))]].

(** [setRange(0.00000001, 21000000.0)] *)
Definition amount_min : double := ddiv (of_int 1) (of_int 100000000).
Definition amount_max : double := of_int 21000000.

Definition fee_items : list QString :=
  [qs "Slow (0.0001)"; qs "Normal (0.001)"; qs "Fast (0.01)"].

Definition buildSend : widget :=
  Box [Row (qs "Destination address") (QLineEdit false);
    Row (qs "Amount")
      (QDoubleSpinBox amount_min amount_max 8);
    Row (qs "Fee") (QComboBox fee_items);
    QPushButton (qs "Send") S_confirmAndSend].

Definition buildReceive : widget :=
  Box [QLabel (qs "Receiving addresses"); QListWidget;
    QLabel (qs "QR code (placeholder)"); QLabel_shows qrLabel [];
    QPushButton (qs "Generate address") S_generateAddress].

Definition buildTransactions : widget :=
  Box [QTableWidget [qs "Time"; qs "TXID"; qs "Direction"; qs "Amount"; qs "Confirmations"]].

(** [hc]: [std::thread::hardware_concurrency()]. *)
Definition buildMining (hc : Z) : widget :=
  Box [Box [QLabel (qs "CPU threads");
      QSpinBox 1 (if bool_decide (hc = 0) then 8 else i32 hc);
      QCheckBox (qs "Enable GPU (if available)");
      QPushButton (qs "Start mining") S_startMining; QPushButton (qs "Stop") S_stopMining];
    QLabel (qs "Hashrate"); QLabel_shows hashrateLbl (qs "0 H/s")].

Definition buildSettings : widget :=
  Box [Row (qs "Data directory") (Box [QLineEdit false; QPushButton (qs "Browse") S_selectDataDir]);
    Row (qs "Network") (QComboBox networks);
    Row (qs "RPC username") (QLineEdit false);
    Row (qs "RPC password") (QLineEdit true);
    Row (qs "Wallet encryption") (QPushButton (qs "Encrypt wallet") S_encryptWallet);
    Row (qs "Wallet unlock") (QPushButton (qs "Unlock wallet") S_unlockWallet);
    QPushButton (qs "Save settings") S_saveSettings].

Definition createMenu : list (QString * list (QString * slot)) :=
  [(qs "File", [(qs "View EULA", S_showEulaDialog); (qs "Open Whitepaper", S_openWhitepaper);
     (qs "Exit", S_close)])].

(** The tabs the constructor adds (472-477). *)
Definition tabs (hc : Z) : list (QString * widget) :=
  [(qs "Overview", buildOverview); (qs "Send", buildSend); (qs "Receive", buildReceive);
   (qs "Transactions", buildTransactions); (qs "Mining", buildMining hc);
   (qs "Settings", buildSettings)].

End Pages.

(** The buttons of a widget and the labels it is built with. *)
Fixpoint buttons (w : widget) : list slot :=
  match w with
  | QPushButton _ s => [s]
  | QGroupBox _ ws | Box ws => flat_map buttons ws
  | Row _ w => buttons w
  | _ => []
  end.
Fixpoint built_labels (w : widget) : list (label * QString) :=
  match w with
  | QLabel_shows l t => [(l, t)]
  | QGroupBox _ ws | Box ws => flat_map built_labels ws
  | Row _ w => built_labels w
  | _ => []
  end.

(** ** Events *)

(** What happens to the window: a control is used, the user types into the settings
    page, or a timer fires.  [msecs] and [now] are readings of the clock. *)
Inductive event :=
  | Click_send (dest : QString) (amountD : double) (feeIndex : Z) (yes : bool) (msecs now : Z)
  | Click_generate (answer : option QString) (msecs : Z)
  | Click_start (cpuThreads : Z) (gpuToggle : bool)
  | Click_stop
  | Click_browse (dir : QString)
  | Click_encrypt (answer : option QString)
  | Click_unlock (answer : option QString)
  | Click_save
  | Menu_eula (inputs : list eula_input)
  | Menu_whitepaper
  | Edit_settings (f : Form)
  | Timer_wallet
  | Timer_node (random : Z)
  | Timer_miner.

(** The slot an event calls, if a control calls it. *)
Definition event_slot (e : event) : option slot :=
  match e with
  | Click_send _ _ _ _ _ _ => Some S_confirmAndSend
  | Click_generate _ _ => Some S_generateAddress
  | Click_start _ _ => Some S_startMining
  | Click_stop => Some S_stopMining
  | Click_browse _ => Some S_selectDataDir
  | Click_encrypt _ => Some S_encryptWallet
  | Click_unlock _ => Some S_unlockWallet
  | Click_save => Some S_saveSettings
  | Menu_eula _ => Some S_showEulaDialog
  | Menu_whitepaper => Some S_openWhitepaper
  | _ => None
  end.

Definition selectDataDir (dir : QString) (s : MainWindow) : MainWindow :=
  if is_empty dir then s else
  let f := form s in
  set_form (mkForm dir (networkBox f) (rpcUserEdit f) (rpcPassEdit f)) s.

Section App.
  Context `{QtText} `{QtFiles}.
  #[local] Existing Instance qt_number.

(** [dlg.exec()], whatever its outcome, changes nothing of the window. *)
Definition showEulaDialog (inputs : list eula_input) (s : MainWindow) : MainWindow :=
  let _ := eula_exec EulaDialog_new inputs in s.

(** The path handed to the desktop's viewer. *)
Definition openWhitepaper : QString := filePath (qs "docs/whitepaper.pdf").

(** The running application. *)
Record App := mkApp { settings : QSettings; window : MainWindow }.

(** The result of a slot that changes the window only. *)
Definition app_window (a : App) (o : option MainWindow) : option App :=
  mkApp (settings a) <$> o.

(** One event; a click on a disabled button does nothing. *)
Definition app_step (a : App) (e : event) : result (option App) :=
  let s := window a in
  match e with
  | Click_send dest amountD feeIndex yes msecs now =>
      r ← confirmAndSend dest amountD feeIndex yes msecs now s;
      Ok (app_window a (fst <$> r))
  | Click_generate answer msecs => Ok (app_window a (generateAddress answer msecs s))
  | Click_start threads gpu => Ok (Some (mkApp (settings a) (startMining threads gpu s)))
  | Click_stop => Ok (Some (mkApp (settings a) (stopMining s)))
  | Click_browse dir => Ok (Some (mkApp (settings a) (selectDataDir dir s)))
  | Click_encrypt answer =>
      if encryptBtn (ui s) then Ok (app_window a (fst <$> MainWindow_encryptWallet answer s))
      else Ok (Some a)
  | Click_unlock answer =>
      if unlockBtn (ui s) then Ok (app_window a (fst <$> MainWindow_unlockWallet answer s))
      else Ok (Some a)
  | Click_save => let '(q, s) := saveSettings (settings a) s in Ok (Some (mkApp q s))
  | Menu_eula inputs => Ok (Some (mkApp (settings a) (showEulaDialog inputs s)))
  | Menu_whitepaper => Ok (Some a)
  | Edit_settings f => Ok (Some (mkApp (settings a) (set_form f s)))
  | Timer_wallet => Ok (app_window a (wallet_timer s))
  | Timer_node random => Ok (Some (mkApp (settings a) (node_timer random s)))
  | Timer_miner => Ok (Some (mkApp (settings a) (miner_timer s)))
  end.

(** [main]: construct the window, then run the event loop; [None] once blocked. *)
Definition app_run (a : App) (events : list event) : result (option App) :=
  foldM (λ oa e, match oa with Some a => app_step a e | None => Ok None end) (Some a) events.

Definition app_start (defaultDir : QString) (inputs : list eula_input) (msecs now : Z)
    (q : QSettings) : bool * option App :=
  let '(q, open, os) := MainWindow_new defaultDir (eula_accepted inputs) msecs now q in
  (open, mkApp q <$> os).

(** [~MainWindow] *)
Definition MainWindow_delete (s : MainWindow) : MainWindow :=
  let s := stopMining s in
  node_effect (stopNode (node s)) s.

(** ** The window shows the wallet *)

(** The addresses a run generates, each by its time and label: the one the window is
    constructed with, then one per label entered on the receive page. *)
Definition step_generated (e : event) : list (Z * QString) :=
  match e with Click_generate (Some label) msecs => [(msecs, label)] | _ => [] end.
Definition generated (msecs : Z) (events : list event) : list (Z * QString) :=
  (msecs, qs "default") :: (events ≫= step_generated).

(** The [i]-th address, and the wallet's entry for it, which also has the label. *)
Definition address_text (i : nat) (g : Z * QString) : QString :=
  qs "drm_" ++ number g.1 ++ qs "_" ++ number (Z.of_nat i).
Definition address_entry (i : nat) (g : Z * QString) : QString :=
  address_text i g ++ (if is_empty g.2 then [] else qs " (" ++ g.2 ++ qs ")").

Lemma generated_snoc msecs events e :
  generated msecs (events ++ [e]) = generated msecs events ++ step_generated e.
Proof. unfold generated. by rewrite bind_app, bind_cons, app_nil_r. Qed.

(** After the addresses [gens], every widget that shows wallet state shows its present
    value; the list shows each address of the wallet whole, without its label. *)
Record shows_wallet (gens : list (Z * QString)) (s : MainWindow) : Prop := {
  shows_confirmed : labels (ui s) confirmedLbl = drm (m_confirmed (wallet s)) ++ qs " DRM";
  shows_unconfirmed : labels (ui s) unconfirmedLbl = drm (m_unconfirmed (wallet s)) ++ qs " DRM";
  shows_txs : txTable (ui s) = table_row <$> m_txs (wallet s);
  shows_addresses : addressList (ui s) = imap address_text gens;
  has_addresses : m_addresses (wallet s) = imap address_entry gens;
  shows_encrypt : encryptBtn (ui s) = negb (m_encrypted (wallet s));
  shows_unlock : unlockBtn (ui s) = m_encrypted (wallet s);
}.

(** Slots that leave the wallet and what shows it alone. *)
Definition same_wallet_view (s s' : MainWindow) : Prop :=
  wallet s' = wallet s ∧
  labels (ui s') confirmedLbl = labels (ui s) confirmedLbl ∧
  labels (ui s') unconfirmedLbl = labels (ui s) unconfirmedLbl ∧
  txTable (ui s') = txTable (ui s) ∧ addressList (ui s') = addressList (ui s) ∧
  encryptBtn (ui s') = encryptBtn (ui s) ∧ unlockBtn (ui s') = unlockBtn (ui s).

#[export] Instance same_wallet_view_preorder : PreOrder same_wallet_view.
Proof.
  split; [by intros s|]. intros s1 s2 s3 (? & ? & ? & ? & ? & ? & ?) (? & ? & ? & ? & ? & ? & ?).
  split_and!; congruence.
Qed.

#[export] Instance shows_wallet_proper gens :
  Proper (same_wallet_view ==> impl) (shows_wallet gens).
Proof.
  intros s s' (Hw & Hc & Hu & Ht & Ha & He & Hn) []. split; rewrite ?Hw; congruence.
Qed.

Lemma setText_view l t s : l ≠ confirmedLbl → l ≠ unconfirmedLbl →
  same_wallet_view s (setText l t s).
Proof.
  intros Hc Hu. unfold same_wallet_view, setText. cbn.
  by rewrite !fn_lookup_insert_ne by done.
Qed.

Lemma deliver_node_view e s : same_wallet_view s (deliver_node s e).
Proof.
  destruct e; cbn [deliver_node]; unfold updateNodeStatus; cbv zeta.
  1,2: by apply setText_view.
  do 3 (etrans; [|by apply setText_view]). by apply setText_view.
Qed.

Lemma node_effect_view r s : same_wallet_view s (node_effect r s).
Proof.
  unfold node_effect. assert (same_wallet_view s (set_node r.1 s)) as Hv by done.
  revert Hv. generalize (set_node r.1 s) as t. induction r.2 as [|e es IH]; intros t Ht; [done|].
  cbn [foldl]. apply IH. etrans; [exact Ht|apply deliver_node_view].
Qed.

Lemma start_node_view s : same_wallet_view s (startNodeFromSettings s).
Proof.
  unfold startNodeFromSettings. cbv zeta. etrans; [|apply node_effect_view].
  destruct (node_running (node s)); [apply node_effect_view|done].
Qed.

(** The addresses and buttons, which a change of balances leaves alone. *)
Definition shows_keys (gens : list (Z * QString)) (s : MainWindow) : Prop :=
  addressList (ui s) = imap address_text gens ∧ m_addresses (wallet s) = imap address_entry gens ∧
  encryptBtn (ui s) = negb (m_encrypted (wallet s)) ∧ unlockBtn (ui s) = m_encrypted (wallet s).

Lemma balances_effect gens txs c u s : shows_keys gens s →
  ∃ s', wallet_effect (set_txs txs c u (wallet s),
      [mkEmit (balancesChanged c u) false; mkEmit transactionsChanged false]) s = Some s' ∧
    shows_wallet gens s' ∧ wallet s' = set_txs txs c u (wallet s).
Proof.
  intros (Ha & Hw & He & Hn). eexists. split; [reflexivity|]. split; [|done]. split; cbn.
  - rewrite fn_lookup_insert_ne by done. by rewrite fn_lookup_insert.
  - by rewrite fn_lookup_insert.
  - done.
  - exact Ha.
  - exact Hw.
  - exact He.
  - exact Hn.
Qed.

Lemma shows_wallet_keys gens s : shows_wallet gens s → shows_keys gens s.
Proof. by intros []. Qed.

Lemma wallet_effect_none w s : wallet_effect (w, []) s = Some (set_wallet w s).
Proof. done. Qed.

Lemma set_wallet_same s : set_wallet (wallet s) s = s.
Proof. by destruct s. Qed.

Lemma send_shows gens dest amountD i yes msecs now s s' m : shows_wallet gens s →
  confirmAndSend dest amountD i yes msecs now s = Ok (Some (s', m)) → shows_wallet gens s'.
Proof.
  intros Hs E. unfold confirmAndSend in E. apply bind_Ok_inv in E as (amount & _ & E).
  destruct (is_empty dest); [by simplify_eq|]. destruct yes; cbn [negb] in E; [|by simplify_eq].
  apply bind_Ok_inv in E as ([[sent err] [w es]] & Ec & E). destruct sent; cbn [negb] in E; [|by simplify_eq].
  apply createSpend_effect in Ec as (_ & _ & txs & c & [= -> ->]).
  destruct (balances_effect gens txs c (m_unconfirmed (wallet s)) s) as (s1 & E1 & Hs1 & _);
    [by apply shows_wallet_keys|].
  rewrite E1 in E. cbn in E. by simplify_eq.
Qed.

Lemma address_shows gens label msecs s :
  shows_wallet gens s →
  ∃ s', wallet_effect (requestNewAddress label msecs (wallet s)).2 s = Some s' ∧
    shows_wallet (gens ++ [(msecs, label)]) s' ∧
    m_txs (wallet s') = m_txs (wallet s) ∧ m_confirmed (wallet s') = m_confirmed (wallet s).
Proof.
  intros [Hc Hu Ht Ha Hw]. eexists. split; [reflexivity|]. split; [|done].
  assert (zlen (m_addresses (wallet s)) = Z.of_nat (length gens + 0)) as El
    by (rewrite Hw, length_imap; lia).
  split; try done; cbn [wallet ui addressList m_addresses requestNewAddress snd].
  - rewrite imap_app, <-Ha. cbn [imap]. unfold compose, address_text. cbn [fst]. by rewrite <-El.
  - rewrite imap_app, <-Hw. cbn [imap]. unfold compose, address_entry, address_text. cbn [fst snd].
    by rewrite <-El.
Qed.

Lemma generate_shows gens answer msecs s s' : shows_wallet gens s →
  generateAddress answer msecs s = Some s' →
  shows_wallet (gens ++ step_generated (Click_generate answer msecs)) s' ∧
  m_txs (wallet s') = m_txs (wallet s) ∧ m_confirmed (wallet s') = m_confirmed (wallet s).
Proof.
  intros Hs. destruct answer as [label|]; [|rewrite app_nil_r; by intros [= <-]].
  unfold generateAddress. destruct (address_shows gens label msecs s Hs) as (s1 & E1 & Hs1 & Ht & Hc).
  destruct (requestNewAddress _ _ _) as [addr r]. cbn [snd] in E1. rewrite E1. cbn.
  intros [= <-]. split; [|done]. by rewrite <-(setText_view qrLabel addr s1).
Qed.

Lemma encrypt_shows gens answer s s' m : shows_wallet gens s →
  MainWindow_encryptWallet answer s = Some (s', m) → shows_wallet gens s' ∧
  m_txs (wallet s') = m_txs (wallet s) ∧ m_confirmed (wallet s') = m_confirmed (wallet s).
Proof.
  intros Hs. destruct answer as [pass|]; [|by intros [= <- _]].
  unfold MainWindow_encryptWallet, encryptWallet.
  case_bool_decide; [by intros [= <- _]|]. destruct (m_encrypted _); [by intros [= <- _]|].
  cbn [negb]. destruct Hs. intros [= <- _]. split; [|done]. by split.
Qed.

Lemma unlock_shows gens answer s s' m : shows_wallet gens s →
  MainWindow_unlockWallet answer s = Some (s', m) → shows_wallet gens s' ∧
  m_txs (wallet s') = m_txs (wallet s) ∧ m_confirmed (wallet s') = m_confirmed (wallet s).
Proof.
  intros Hs. destruct answer as [pass|]; [|by intros [= <- _]].
  unfold MainWindow_unlockWallet, unlockWallet.
  destruct (m_encrypted _) eqn:He; cbn [negb]; [|by intros [= <- _]].
  case_bool_decide; cbn [negb]; [|by intros [= <- _]].
  destruct Hs. intros [= <- _]. split; [|done]. split; cbn; congruence || done.
Qed.

(** The timer either blocks the window or does nothing. *)
Lemma timer_same s s' : wallet_timer s = Some s' → s' = s.
Proof.
  unfold wallet_timer, advanceConfirmations.
  destruct (advance_rows _ _) as [rows [[[] c] u]] eqn:E; [done|].
  apply advance_rows_unchanged in E as (_ & -> & -> & ->). rewrite wallet_effect_none.
  intros [= <-]. destruct s as [[] ? ? ? ?]. done.
Qed.

Lemma save_view q s : same_wallet_view s (saveSettings q s).2.
Proof. cbn [saveSettings snd]. etrans; [|apply start_node_view]. by apply setText_view. Qed.

Lemma miner_view s : same_wallet_view s (miner_timer s).
Proof.
  unfold miner_timer. destruct (updateRate _ _) as [m [r|]]; [|done].
  etrans; [|by apply setText_view]. done.
Qed.

Lemma browse_view dir s : same_wallet_view s (selectDataDir dir s).
Proof. unfold selectDataDir. by destruct (is_empty dir). Qed.

Lemma send_refused dest amountD i yes msecs now s s' m : m_confirmed (wallet s) ≤ 0 →
  confirmAndSend dest amountD i yes msecs now s = Ok (Some (s', m)) →
  s' = s ∧ ∀ t, m ≠ Information t.
Proof.
  intros Hc E. unfold confirmAndSend in E. apply bind_Ok_inv in E as (amount & _ & E).
  destruct (is_empty dest); [by simplify_eq|].
  destruct yes; cbn [negb] in E; [|by simplify_eq].
  apply bind_Ok_inv in E as ([[sent err] r] & Ec & E). destruct sent; cbn [negb] in E; [|by simplify_eq].
  apply createSpend_effect in Ec as (? & ? & _). lia.
Qed.

(** Every event keeps the view in step with the wallet, and without a confirmed balance
    none changes its transactions or that balance. *)
Lemma app_step_kept gens a e a' :
  shows_wallet gens (window a) → app_step a e = Ok (Some a') →
  let w := wallet (window a) in let w' := wallet (window a') in
  shows_wallet (gens ++ step_generated e) (window a') ∧
  (m_confirmed w ≤ 0 → m_txs w' = m_txs w ∧ m_confirmed w' = m_confirmed w).
Proof.
  intros Hs. assert (∀ q s, same_wallet_view (window a) s →
    shows_wallet gens (window (mkApp q s)) ∧ (m_confirmed (wallet (window a)) ≤ 0 →
      m_txs (wallet (window (mkApp q s))) = m_txs (wallet (window a)) ∧
      m_confirmed (wallet (window (mkApp q s))) = m_confirmed (wallet (window a)))) as Hv.
  { intros q s Hv. cbn [window]. split; [by rewrite <-Hv|]. destruct Hv as [-> _]. done. }
  destruct e; cbn [app_step step_generated]; rewrite ?app_nil_r.
  - intros (o & Er & E)%bind_Ok_inv. destruct o as [[s' m]|]; [|done]. cbn in E. simplify_eq.
    split; [by eapply send_shows|]. intros Hc. apply send_refused in Er as [-> _]; done.
  - destruct (generateAddress _ _ _) as [s'|] eqn:E; [|done]. intros [= <-].
    apply (generate_shows gens) in E as (? & ? & ?); done.
  - intros [= <-]. by apply Hv.
  - intros [= <-]. apply Hv. unfold stopMining, mining_stop. by destruct (mining_running _).
  - intros [= <-]. apply Hv, browse_view.
  - destruct (encryptBtn _); [|by intros [= <-]].
    destruct (MainWindow_encryptWallet _ _) as [[s' m]|] eqn:E; [|done]. intros [= <-].
    apply (encrypt_shows gens) in E as (? & ? & ?); done.
  - destruct (unlockBtn _); [|by intros [= <-]].
    destruct (MainWindow_unlockWallet _ _) as [[s' m]|] eqn:E; [|done]. intros [= <-].
    apply (unlock_shows gens) in E as (? & ? & ?); done.
  - pose proof (save_view (settings a) (window a)) as Hs'. destruct (saveSettings _ _) as [q s'].
    intros [= <-]. by apply Hv.
  - intros [= <-]. by apply Hv.
  - by intros [= <-].
  - intros [= <-]. by apply Hv.
  - destruct (wallet_timer _) as [s'|] eqn:E; [|done]. apply timer_same in E as ->.
    intros [= <-]. by apply Hv.
  - intros [= <-]. apply Hv, node_effect_view.
  - intros [= <-]. apply Hv, miner_view.
Qed.

Lemma app_run_snoc a events e : 
  app_run a (events ++ [e]) =
    o ← app_run a events; match o with Some a => app_step a e | None => Ok None end.
Proof. unfold app_run. rewrite foldM_app. cbn [foldM]. by destruct (foldM _ _ _) as [[]| |]; cbn; rewrite ?bind_ret_r. Qed.

(** What holds at the start and is kept by every event holds while the window runs. *)
Lemma app_run_inv (P : list event → MainWindow → Prop) a events a' :
  (∀ es a e a', P es (window a) → app_step a e = Ok (Some a') → P (es ++ [e]) (window a')) →
  P [] (window a) → app_run a events = Ok (Some a') → P events (window a').
Proof.
  intros Hstep Ha. revert a'. induction events as [|e events IH] using rev_ind; intros a'.
  { by intros [= <-]. }
  rewrite app_run_snoc. intros ([a1|] & E1 & E)%bind_Ok_inv; [|done]. eapply Hstep; [|exact E]. by apply IH.
Qed.

(** The window as constructed: one pending credit, which it shows. *)
Lemma start_shows defaultDir accepted msecs now q :
  ∃ q' open s, MainWindow_new defaultDir accepted msecs now q = (q', open, Some s) ∧
    shows_wallet (generated msecs []) s ∧ m_confirmed (wallet s) = 0 ∧
    ∃ row, m_txs (wallet s) = [row] ∧ confirmations row = 0.
Proof.
  unfold MainWindow_new. destruct (enforceEula accepted q) as [q' open].
  set (s0 := startNodeFromSettings _).
  assert (wallet s0 = WalletServiceClient_new ∧ shows_keys [] s0) as [Hw Hk].
  { pose proof (start_node_view (loadSettings defaultDir q
      (updateEncryptionState (mkWindow WalletServiceClient_new NodeProcessController_new
         MiningManager_new (mkForm [] (qs "mainnet") [] [])
         (mkUi initial_labels [] [] true true))))) as (E & _ & _ & _ & Ea & Ee & En).
    fold s0 in E, Ea, Ee, En. split; [exact E|]. unfold shows_keys. rewrite Ea, Ee, En, E.
    by split_and!. }
  clearbody s0. unfold seedWallet, creditSimulated.
  destruct (balances_effect []
    (mkRow (qs "initial-aid") (qs "receive") (25 * 100000000) 0 (qs "pending") now
      :: m_txs (wallet s0)) (m_confirmed (wallet s0))
    (i64 (m_unconfirmed (wallet s0) + 25 * 100000000)) s0 Hk) as (s1 & E1 & Hs1 & Hw1).
  rewrite E1.
  cbn [mbind option_bind].
  destruct (address_shows [] (qs "default") msecs s1 Hs1) as (s2 & E2 & Hs2 & Ht2 & Hc2).
  rewrite E2. cbn [mbind option_bind].
  eexists _, _, _. split; [reflexivity|]. split.
  - destruct Hs2. by split.
  - cbn [wallet set_ui]. rewrite Hc2, Ht2, Hw1, Hw. split; [done|]. by eexists.
Qed.

(** A window whose one transaction never confirms. *)
Definition stuck (s : MainWindow) : Prop :=
  m_confirmed (wallet s) = 0 ∧ ∃ row, m_txs (wallet s) = [row] ∧ confirmations row = 0.

Lemma app_reachable defaultDir inputs msecs now q open a events a' :
  app_start defaultDir inputs msecs now q = (open, Some a) → app_run a events = Ok (Some a') →
  shows_wallet (generated msecs events) (window a') ∧ stuck (window a').
Proof.
  unfold app_start. intros E Hr.
  destruct (start_shows defaultDir (eula_accepted inputs) msecs now q)
    as (q' & open' & s & Es & Hs & Hst). rewrite Es in E. injection E as <- <-.
  apply (app_run_inv (λ es s, shows_wallet (generated msecs es) s ∧ stuck s))
    with (2 := conj Hs Hst) in Hr; [done|].
  intros es a1 e a2 [Hs1 [Hc Hx]] Hstep. rewrite generated_snoc.
  destruct (app_step_kept _ _ _ _ Hs1 Hstep) as [Hs2 Hk].
  split; [exact Hs2|]. destruct Hk as [Ht Hc']; [lia|]. split; [lia|]. by rewrite Ht.
Qed.

End App.

(** C30. The window shows the wallet: at every moment of a run, from any stored settings
    and after any events, the balance labels, the transactions table and the two
    encryption buttons are those of the wallet's present state, and the address list is
    exactly the addresses generated so far, in order, each shown whole: the wallet holds
    the same addresses, with their labels, which the list leaves out. *)
Theorem window_shows_wallet `{QtText} `{QtFiles} defaultDir inputs msecs now q open a events a' :
  app_start defaultDir inputs msecs now q = (open, Some a) → app_run a events = Ok (Some a') →
  shows_wallet (generated msecs events) (window a').
Proof. apply app_reachable. Qed.

(** C31. The desktop application can never spend: in every state a run reaches, the
    confirmed balance is 0 and the initial credit still unconfirmed, every attempt to send
    is refused and leaves the window as it was, and the wallet's timer, the one event that
    could confirm the credit, blocks the window for ever. *)
Theorem desktop_never_spends `{QtText} `{QtFiles} defaultDir inputs msecs now q open a events a' :
  app_start defaultDir inputs msecs now q = (open, Some a) → app_run a events = Ok (Some a') →
  m_confirmed (wallet (window a')) = 0 ∧
  (∀ dest amountD i yes ms t s m,
    confirmAndSend dest amountD i yes ms t (window a') = Ok (Some (s, m)) →
    s = window a' ∧ ∀ text, m ≠ Information text) ∧
  app_step a' Timer_wallet = Ok None.
Proof.
  intros Hs Hr. destruct (app_reachable _ _ _ _ _ _ _ _ _ Hs Hr) as (_ & Hc & row & Hx & H0').
  split_and!; [done| |].
  - intros. eapply send_refused; [|done]. lia.
  - cbn [app_step]. rewrite (proj2 (wallet_timer_blocks (window a'))); [done|].
    exists row. rewrite Hx. split; [by apply elem_of_cons; left|lia].
Qed.

(** ** No event is undefined *)

(** A double the amount box can hold. *)
Definition spin_range (d : double) : Prop :=
  valid_binary 53 1024 d = true ∧ SFleb amount_min d = true ∧ SFleb d amount_max = true.

Definition event_ok (e : event) : Prop :=
  match e with Click_send _ amountD _ _ _ _ => spin_range amountD | _ => True end.

#[global] Instance event_ok_dec e : Decision (event_ok e).
Proof. destruct e; unfold event_ok, spin_range; apply _. Defined.

Lemma spin_amount_defined d : spin_range d → ∃ v, spin_amount d = Ok v ∧ 0 ≤ v ≤ 2 ^ 53.
Proof.
  intros (Hv & Hl & Hh).
  destruct (between_finite d 6044629098073146 (-79) 5637144576000000 (-28)) as (m & e & -> & Hm & He);
    [done|exact Hl|exact Hh|].
  unfold spin_amount. replace (of_int 100000000) with (S754_finite false 6710886400000000 (-26))
    by by vm_compute.
  apply dmul_to_qint64; lia.
Qed.

Lemma send_defined `{QtText} d dest i yes msecs now s :
  spin_range d → ∃ r, confirmAndSend dest d i yes msecs now s = Ok r.
Proof.
  intros (v & Ev & Hv)%spin_amount_defined. unfold confirmAndSend. rewrite Ev.
  cbn [mbind result_bind]. destruct (is_empty dest); [by eexists|].
  destruct yes; cbn [negb]; [|by eexists].
  assert (0 ≤ fee_of i ≤ 1000000) as Hf by (unfold fee_of; repeat case_bool_decide; lia).
  unfold createSpend. destruct (m_locked _); cbn [mbind result_bind]; [by eexists|].
  rewrite chk_i64_Ok by lia. cbn [mbind result_bind].
  repeat (case_bool_decide; cbn [mbind result_bind negb]; [by eexists|]). by eexists.
Qed.

Lemma app_step_defined `{QtText} `{QtFiles} a e : event_ok e → ∃ o, app_step a e = Ok o.
Proof.
  destruct e; cbn [app_step event_ok]; intros He; try by eexists.
  - destruct (send_defined amountD dest feeIndex yes msecs now (window a) He) as [r ->].
    by eexists.
  - by destruct (encryptBtn _); eexists.
  - by destruct (unlockBtn _); eexists.
Qed.

(** C32. The desktop has no undefined behaviour: whatever events happen in whatever window,
    with amounts the send page's box can hold, every conversion of an amount from a
    double and every sum with a fee is in range, and each event returns or blocks. *)
Theorem desktop_defined `{QtText} `{QtFiles} a events :
  Forall event_ok events → ∃ o, app_run a events = Ok o.
Proof.
  intros He. unfold app_run. generalize (Some a) as oa.
  induction He as [|e events Hok _ IH]; intros oa; [by eexists|]. cbn [foldM].
  destruct oa as [a'|]; cbn [mbind result_bind]; [|apply IH].
  destruct (app_step_defined a' e Hok) as [o ->]. apply IH.
Qed.

(** ** The controls *)

(** Every control of the window and every menu entry, with its slot. *)
Definition controls `{QtFiles} (hc : Z) : list slot :=
  flat_map (λ t, buttons t.2) (tabs hc) ++ flat_map (λ m, snd <$> m.2) createMenu.

(** Each slot has exactly one control, and each control's slot is one an event runs,
    except Exit, which ends the event loop. *)
Lemma controls_wired `{QtFiles} hc :
  NoDup (controls hc) ∧ ∀ sl, sl ∈ controls hc ∧ (sl = S_close ∨ ∃ e, event_slot e = Some sl).
Proof.
  split.
  - change (NoDup [S_confirmAndSend; S_generateAddress; S_startMining; S_stopMining; S_selectDataDir;
      S_encryptWallet; S_unlockWallet; S_saveSettings; S_showEulaDialog; S_openWhitepaper; S_close]).
    by_decide.
  - intros sl. split.
    + change (sl ∈ [S_confirmAndSend; S_generateAddress; S_startMining; S_stopMining; S_selectDataDir;
        S_encryptWallet; S_unlockWallet; S_saveSettings; S_showEulaDialog; S_openWhitepaper; S_close]).
      destruct sl; set_solver.
    + destruct sl; [right..|by left];
        [by exists (Click_send [] (of_int 0) 0 false 0 0)|by exists (Click_generate None 0)
        |by exists (Click_start 1 false)|by exists Click_stop|by exists (Click_browse [])
        |by exists (Click_encrypt None)|by exists (Click_unlock None)|by exists Click_save
        |by exists (Menu_eula [])|by exists Menu_whitepaper].
Qed.

(** The constructor's labels are those of the pages. *)
Lemma initial_labels_built `{QtFiles} hc :
  Forall (λ p, initial_labels p.1 = p.2) (flat_map (λ t, built_labels t.2) (tabs hc)).
Proof. repeat constructor. Qed.

(** The dialog's code and [accepted()] agree, so either test of [enforceEula] is enough. *)
Lemma eula_exec_accepts d inputs : acceptState d = false →
  let '(d', code) := eula_exec d inputs in code = acceptState d'.
Proof.
  revert d. induction inputs as [|i inputs IH]; intros d Hd; [by cbn|].
  cbn [eula_exec]. destruct i; cbn [eula_step]; [by apply IH| |by rewrite Hd].
  destruct (accept_checked d); cbn [negb]; [done|by apply IH].
Qed.

(** Closing the window stops both controllers and their timers. *)
Lemma MainWindow_delete_stops `{QtText} s :
  let s' := MainWindow_delete s in
  node_running (node s') = false ∧ mining_running (miner s') = false ∧
  (node_running (node s) = true → m_pollTimer (node s') = false) ∧
  (mining_running (miner s) = true → m_tick (miner s') = false).
Proof.
  unfold MainWindow_delete, node_effect, stopNode, stopMining, mining_stop.
  destruct s as [w [[] ? ? ? ? ? ?] [[] ? ? ? ?] f u]; by cbn.
Qed.

(** ** A run *)

Definition plain_files : QtFiles :=
  {| current_dir := qs "/repo"; applicationDirPath := qs "/repo/bin";
     absoluteFilePath dir name := dir ++ qs "/" ++ name;
     dir_exists d := bool_decide (d = qs "/repo/layer3-app/assets"); read_text _ := None |}.
#[local] Existing Instance plain_text.
#[local] Existing Instance plain_files.

Definition example_start : bool * option App :=
  app_start (qs "/tmp") [Eula_ok; Eula_toggle; Eula_ok] 0 0 (mkSettings false ∅).
Definition no_app : App := mkApp (mkSettings false ∅) example_window.
Definition example_app : App := default no_app example_start.2.

Definition example_events : list event :=
  [Click_generate (Some (qs "savings")) 5; Timer_node 2; Click_encrypt (Some (qs "passphrase"));
   Click_send (qs "drm_x") (of_int 1) 0 true 6 6; Click_unlock (Some (qs "passphrase"));
   Click_send (qs "drm_x") (of_int 1) 0 true 7 7; Click_start 2 true; Timer_miner; Click_save].

Definition example_after : App :=
  match app_run example_app example_events with Ok (Some a) => a | _ => no_app end.

Lemma window_shows_wallet_witness :
  example_start = (true, Some example_app) ∧
  app_run example_app example_events = Ok (Some example_after) ∧
  addressList (ui (window example_after)) = [qs "drm_0_0"; qs "drm_5_1"] ∧
  shows_wallet [(0, qs "default"); (5, qs "savings")] (window example_after).
Proof.
  assert (example_start = (true, Some example_app)) as Hs by (vm_compute; reflexivity).
  assert (app_run example_app example_events = Ok (Some example_after)) as Hr
    by (vm_compute; reflexivity).
  split; [exact Hs|]. split; [exact Hr|]. split; [vm_compute; reflexivity|].
  exact (window_shows_wallet (qs "/tmp") [Eula_ok; Eula_toggle; Eula_ok] 0 0 (mkSettings false ∅)
    true example_app example_events example_after Hs Hr).
Defined.

Lemma desktop_never_spends_witness :
  length (addressList (ui (window example_after))) = 2%nat ∧
  m_confirmed (wallet (window example_after)) = 0 ∧
  (∀ dest amountD i yes ms t s m,
    confirmAndSend dest amountD i yes ms t (window example_after) = Ok (Some (s, m)) →
    s = window example_after ∧ ∀ text, m ≠ Information text) ∧
  app_step example_after Timer_wallet = Ok None.
Proof.
  split; [vm_compute; reflexivity|].
  apply (desktop_never_spends (qs "/tmp") [Eula_ok; Eula_toggle; Eula_ok] 0 0 (mkSettings false ∅)
    true example_app example_events example_after); vm_compute; reflexivity.
Defined.

(** The amounts at both ends of the box, and 0.29 between them. *)
Definition example_sends : list event :=
  [Click_send (qs "drm_x") amount_min 0 true 1 1; Click_send (qs "drm_x") amount_max 2 true 2 2;
   Click_send (qs "drm_x") (ddiv (of_int 29) (of_int 100)) 1 true 3 3].

Lemma desktop_defined_witness :
  spin_amount amount_min = Ok 1 ∧ spin_amount amount_max = Ok 2100000000000000 ∧
  ∃ o, app_run example_app example_sends = Ok o.
Proof.
  split; [vm_compute; reflexivity|]. split; [vm_compute; reflexivity|].
  apply (desktop_defined example_app example_sends). by_decide.
Defined.
